(** * Takuzu: board model, validation, trivial deduction and recursive solver

    A shallow embedding of the Go package [takuzu] (McKael/takuzu): the
    board and its string codec ([takuzu.go]), the range and board validation
    ([validate.go], with the [validationError] type of [errors.go]), the
    trivial deducer and the recursive solver ([solve.go]) and the parameter
    checks of the generator ([build.go]).

    Conventions.
    - A Go [int] holding a cell value is a [Z]; sizes, lengths and indices,
      which the code only ever uses non-negative ([make] and indexing panic
      otherwise), are [nat].
    - A run-time panic (index out of range) is the outcome [Panic] (or
      [None] for the functions that touch no board storage).
    - A board value [Takuzu] holds a reference to its backing storage; a
      value receiver copies the reference, not the cells, exactly as a Go
      slice header does.  The storage lives in an explicit heap. *)

From Stdlib Require Import ZArith Lia Ascii String DecimalString.
From stdpp Require Import base option list gmap strings.

Local Open Scope Z_scope.

(** ** Cells *)

Record Cell := mkCell { Defined : bool; Value : Z }.

#[global] Instance Cell_eq_dec : EqDecision Cell.
Proof. solve_decision. Defined.

(** The zero value of the struct, as [make] and [var prevCell Cell] give it. *)
Definition zeroCell : Cell := mkCell false 0.

(** A defined cell holding [v]. *)
Definition cellOf (v : Z) : Cell := mkCell true v.

(** ** Validation errors ([errors.go]) *)

Definition ErrorNil : Z := 0.
Definition ErrorDuplicate : Z := 1.
Definition ErrorTooManyValues : Z := 2.
Definition ErrorTooManyAdjacentValues : Z := 3.

Record validationError := mkValidationError {
  ErrorType : Z;
  LineNumber : option nat;
  ColumnNumber : option nat;
  CellValue : option Z
}.

#[global] Instance validationError_eq_dec : EqDecision validationError.
Proof. solve_decision. Defined.

(** [validationError{ErrorType: ErrorTooManyAdjacentValues, CellValue: &v}] *)
Definition adjacentError (v : Z) : validationError :=
  mkValidationError ErrorTooManyAdjacentValues None None (Some v).

(** [validationError{ErrorType: ErrorTooManyValues, CellValue: &v}] *)
Definition tooManyError (v : Z) : validationError :=
  mkValidationError ErrorTooManyValues None None (Some v).

(** ** Range checks ([checkRange]) *)

(** [counters[v]++] on the two-element slice [counters]: an index outside
    the slice panics. *)
Definition incrCounter (counters : list Z) (v : Z) : option (list Z) :=
  if decide (v < 0) then None
  else n ← counters !! Z.to_nat v; Some (<[Z.to_nat v := n + 1]> counters).

(** The local variables of [checkRange] that live across loop iterations. *)
Record rangeScan := mkRangeScan {
  full : bool;
  counters : list Z;
  prevCell : Cell;
  prevCellCount : Z
}.

Definition rangeScan0 : rangeScan := mkRangeScan true [0; 0] zeroCell 0.

(** The [for _, c := range cells] loop.  [inl] is the state at the end of the
    loop, [inr] the early [return full, validationError{...}]. *)
Fixpoint checkRangeLoop (cells : list Cell) (s : rangeScan)
  : option (rangeScan + bool * validationError) :=
  match cells with
  | [] => Some (inl s)
  | c :: rest =>
    if negb (Defined c) then
      checkRangeLoop rest
        (mkRangeScan false (counters s) (mkCell false (Value (prevCell s))) 0)
    else
      cnt ← incrCounter (counters s) (Value c);
      if prevCellCount s =? 0 then
        checkRangeLoop rest (mkRangeScan (full s) cnt c 1)
      else if Value c =? Value (prevCell s) then
        let n := prevCellCount s + 1 in
        if n >? 2 then Some (inr (full s, adjacentError (Value c)))
        else checkRangeLoop rest (mkRangeScan (full s) cnt c n)
      else checkRangeLoop rest (mkRangeScan (full s) cnt c 1)
  end.

(** [size/2] for [size := len(cells)]. *)
Definition half (n : nat) : Z := Z.of_nat n `quot` 2.

Definition checkRange (cells : list Cell) : option (bool * option validationError) :=
  r ← checkRangeLoop cells rangeScan0;
  match r with
  | inr (b, e) => Some (b, Some e)
  | inl s =>
    c0 ← counters s !! 0%nat;
    c1 ← counters s !! 1%nat;
    if c0 >? half (length cells) then Some (full s, Some (tooManyError 0))
    else if c1 >? half (length cells) then Some (full s, Some (tooManyError 1))
    else Some (full s, None)
  end.

(** [CheckRangeCounts]. *)
Fixpoint checkRangeCountsLoop (cells : list Cell) (fl : bool) (counters : list Z)
  : option (bool * list Z) :=
  match cells with
  | [] => Some (fl, counters)
  | c :: rest =>
    if Defined c then
      cnt ← incrCounter counters (Value c); checkRangeCountsLoop rest fl cnt
    else checkRangeCountsLoop rest false counters
  end.

Definition CheckRangeCounts (cells : list Cell) : option (bool * Z * Z) :=
  '(fl, cnt) ← checkRangeCountsLoop cells true [0; 0];
  n0 ← cnt !! 0%nat; n1 ← cnt !! 1%nat; Some (fl, n0, n1).

(** *** Vocabulary for stating what a range check finds *)

(** Every defined cell holds 0 or 1 (the data-model invariant of a cell). *)
Definition cellOk (c : Cell) : Prop := Defined c = true → Value c = 0 ∨ Value c = 1.
Definition cellsOk (cells : list Cell) : Prop := Forall cellOk cells.

(** Three adjacent defined cells holding [v], starting at index [i]. *)
Definition run3At (cells : list Cell) (i : nat) (v : Z) : Prop :=
  cells !! i = Some (cellOf v) ∧ cells !! S i = Some (cellOf v)
  ∧ cells !! S (S i) = Some (cellOf v).

Definition hasRun3 (cells : list Cell) : Prop := ∃ i v, run3At cells i v.

(** The leftmost run of three, the one a left-to-right scan meets first. *)
Definition firstRun3 (cells : list Cell) (v : Z) : Prop :=
  ∃ i, run3At cells i v ∧ ∀ j w, (j < i)%nat → ¬ run3At cells j w.

(** Number of defined cells holding [v]. *)
Definition countValue (v : Z) (cells : list Cell) : Z :=
  Z.of_nat (length (filter (λ c, Defined c = true ∧ Value c = v) cells)).

Definition allDefined (cells : list Cell) : Prop :=
  Forall (λ c, Defined c = true) cells.


(** ** Outcomes and the state monad of the stateful code *)

(** A call returns, panics, or (for the loops that the model bounds by a
    fuel) is cut short. *)
Inductive outcome (A : Type) : Type :=
  | Done (a : A)
  | Panic
  | OutOfFuel.
Arguments Done {A} a.
Arguments Panic {A}.
Arguments OutOfFuel {A}.

Definition M (S A : Type) : Type := S → outcome (A * S).

#[global] Instance M_ret {S} : MRet (M S) := λ A a s, Done (a, s).
#[global] Instance M_bind {S} : MBind (M S) := λ A B f m s,
  match m s with
  | Done (a, s') => f a s'
  | Panic => Panic
  | OutOfFuel => OutOfFuel
  end.

Definition panic {S A} : M S A := λ _, Panic.
Definition outOfFuel {S A} : M S A := λ _, OutOfFuel.

(** A partial, state-free computation whose failure is a panic. *)
Definition orPanic {S A} (o : option A) : M S A :=
  match o with Some a => mret a | None => panic end.

(** A [for] loop over the indices [xs] with the loop-carried locals [acc];
    the body answers [inl acc'] to go on and [inr r] for a [return r] out of
    the enclosing function. *)
Fixpoint loopM {S A B R} (body : A → B → M S (B + R)) (xs : list A) (acc : B)
  : M S (B + R) :=
  match xs with
  | [] => mret (inl acc)
  | x :: rest =>
    r ← body x acc;
    match r with
    | inl acc' => loopM body rest acc'
    | inr v => mret (inr v)
    end
  end.

(** A [for] loop without early exit. *)
Fixpoint forM {S A B} (body : A → B → M S B) (xs : list A) (acc : B) : M S B :=
  match xs with
  | [] => mret acc
  | x :: rest => acc' ← body x acc; forM body rest acc'
  end.

(** [0, 1, ..., n-1]: the values of [i] in [for i := 0; i < n; i++] and in
    [for i := range s] with [len(s) = n]. *)
Definition upto (n : nat) : list nat := seq 0 n.

(** ** Boards and their storage *)

(** The storage of one board: the rows that [New] allocates together.  No
    function of the package re-slices or re-assigns a row, so the rows of a
    board form one heap object. *)
Abbreviation matrix := (list (list Cell)).
Abbreviation heap := (list matrix).

(** [type Takuzu struct { Size int; Board [][]Cell }]: [Board] is the address
    of the storage.  Passing a [Takuzu] by value copies [Size] and the
    address; the cells stay shared. *)
Record Takuzu := mkTakuzu { Size : nat; Board : nat }.

#[global] Instance Takuzu_eq_dec : EqDecision Takuzu.
Proof. solve_decision. Defined.

Abbreviation H := (M heap).

(** [b.Board], read as a whole (for [len] and [range]). *)
Definition getRows (b : Takuzu) : H matrix :=
  λ h, match h !! Board b with Some m => Done (m, h) | None => Panic end.

(** [b.Board[l]] *)
Definition getRow (b : Takuzu) (l : nat) : H (list Cell) :=
  m ← getRows b; orPanic (m !! l).

(** [b.Board[l][c]] *)
Definition loadCell (b : Takuzu) (l c : nat) : H Cell :=
  row ← getRow b l; orPanic (row !! c).

(** [b.Board[l][c] = x] *)
Definition storeCell (b : Takuzu) (l c : nat) (x : Cell) : H unit :=
  λ h, match h !! Board b with
       | Some m =>
         match m !! l with
         | Some row =>
           if decide (c < length row)%nat
           then Done (tt, <[Board b := <[l := <[c := x]> row]> m]> h)
           else Panic
         | None => Panic
         end
       | None => Panic
       end.

(** [b.Board[l][c].Defined = d] and [b.Board[l][c].Value = v] *)
Definition storeDefined (b : Takuzu) (l c : nat) (d : bool) : H unit :=
  x ← loadCell b l c; storeCell b l c (mkCell d (Value x)).
Definition storeValue (b : Takuzu) (l c : nat) (v : Z) : H unit :=
  x ← loadCell b l c; storeCell b l c (mkCell (Defined x) v).

(** [New]: a fresh [size] x [size] storage of zero cells. *)
Definition New (size : nat) : H Takuzu :=
  λ h, Done (mkTakuzu size (length h), h ++ [replicate size (replicate size zeroCell)]).

(** *** The string codec *)

Definition codecError : Type := string.

(** [int(math.Sqrt(float64(l)))].  For the lengths a string can have in
    practice (below 2^52) the conversion to [float64] is exact and the
    correctly rounded square root truncates to the integer square root. *)
Definition sqrtInt (l : nat) : nat := Z.to_nat (Z.sqrt (Z.of_nat l)).

(** The [switch s[i]] of [NewFromString] for the cell at [(line, col)]. *)
Definition decodeChar (t : Takuzu) (line col : nat) (ch : ascii) : H (option codecError) :=
  if decide (ch = "0"%char ∨ ch = "O"%char) then
    storeDefined t line col true;;
    storeValue t line col 0;;
    mret None
  else if decide (ch = "1"%char ∨ ch = "I"%char) then
    storeDefined t line col true;;
    storeValue t line col 1;;
    mret None
  else if decide (ch = "."%char) then mret None
  else mret (Some "invalid char in string"%string).

Definition NewFromString (s : string) : H (Takuzu + codecError) :=
  let l := String.length s in
  if decide (l < 4)%nat then mret (inr "bad string length"%string)
  else
    let size := sqrtInt l in
    if decide (size * size ≠ l)%nat then mret (inr "bad string length"%string)
    else
      t ← New size;
      r ← loopM (λ line i,
             loopM (λ col i,
               ch ← orPanic (String.get i s);
               e ← decodeChar t line col ch;
               match e with
               | Some msg => mret (inr msg)
               | None => mret (inl (S i))
               end) (upto size) i) (upto size) 0%nat;
      match r with
      | inr msg => mret (inr msg)
      | inl _ => mret (inl t)
      end.

(** A Go string is a sequence of bytes, and [len(s)] and [s[i]] count and
    read bytes: [String.length] and [String.get].  The characters of a text
    in UTF-8 are fewer than its bytes when some take more than one byte:
    [runeCount] counts the bytes that are not continuation bytes
    (10xxxxxx), which is the number of characters of a valid text. *)
Definition isContinuation (b : ascii) : bool :=
  (128 <=? nat_of_ascii b)%nat && (nat_of_ascii b <? 192)%nat.

Fixpoint runeCount (s : string) : nat :=
  match s with
  | EmptyString => 0%nat
  | String b rest => ((if isContinuation b then 0 else 1) + runeCount rest)%nat
  end.

(** The letter e with an acute accent: the bytes C3 A9. *)
Definition eAcute : string :=
  String (ascii_of_nat 195) (String (ascii_of_nat 169) EmptyString).

(** A text of five characters and nine bytes: a full stop and four accented
    letters. *)
Definition accentedText : string :=
  String "."%char (eAcute +:+ eAcute +:+ eAcute +:+ eAcute).

(** [fmt.Sprintf("%d", v)] *)
Definition formatInt (v : Z) : string := NilZero.string_of_int (Z.to_int v).

(** [ToString]; the accumulator is the buffer [sbuf]. *)
Definition ToString (b : Takuzu) : H string :=
  forM (λ line sbuf,
    forM (λ col sbuf,
      x ← loadCell b line col;
      if Defined x then mret (sbuf +:+ formatInt (Value x))
      else mret (sbuf +:+ String "."%char EmptyString))
      (upto (Size b)) sbuf) (upto (Size b)) EmptyString.

(** *** Copies *)

(** The nested [range] loops shared by [Clone] and [Copy]:
    [dst.Board[line][col] = src.Board[line][col]] over the rows and columns
    of [src]. *)
Definition copyCells (src dst : Takuzu) : H unit :=
  rows ← getRows src;
  forM (λ line _,
    row ← getRow src line;
    forM (λ col _, x ← loadCell src line col; storeCell dst line col x)
      (upto (length row)) tt) (upto (length rows)) tt.

Definition Clone (b : Takuzu) : H Takuzu :=
  c ← New (Size b);
  copyCells b c;;
  mret c.

(** [Copy(src, dst)]: [Some] is the error. *)
Definition Copy (src dst : Takuzu) : H (option string) :=
  if decide (Size src ≠ Size dst) then mret (Some "sizes do not match"%string)
  else copyCells src dst;; mret None.

(** *** Cell access *)

(** [(b Takuzu) Set(l, c, value)] ([Set] is reserved in Rocq). *)
Definition Takuzu_Set (b : Takuzu) (l c : nat) (value : Z) : H unit :=
  if decide (value ≠ 0 ∧ value ≠ 1) then storeDefined b l c false
  else storeDefined b l c true;; storeValue b l c value.

Definition GetLine (b : Takuzu) (i : nat) : H (list Cell) := getRow b i.

Definition GetColumn (b : Takuzu) (i : nat) : H (list Cell) :=
  rows ← getRows b;
  forM (λ l (c : list Cell),
    x ← loadCell b l i;
    if decide (l < length c)%nat then mret (<[l := x]> c) else panic)
    (upto (length rows)) (replicate (Size b) zeroCell).

(** A [*Cell]: [None] is [nil], [Some (a, l, c)] is [&Board[l][c]] of the
    storage at address [a]. *)
Abbreviation cellPtr := (option (nat * nat * nat)).

Definition loadPtr (p : cellPtr) : H Cell :=
  match p with
  | Some (a, l, c) => loadCell (mkTakuzu 0 a) l c
  | None => panic
  end.

Definition storePtr (p : cellPtr) (x : Cell) : H unit :=
  match p with
  | Some (a, l, c) => storeCell (mkTakuzu 0 a) l c x
  | None => panic
  end.

(** [&b.Board[l][c]]: taking the address checks the indices. *)
Definition addrCell (b : Takuzu) (l c : nat) : H cellPtr :=
  loadCell b l c;; mret (Some (Board b, l, c)).

(** [r[l] = p] on a slice of pointers. *)
Definition setIndex {A S} (r : list A) (l : nat) (p : A) : M S (list A) :=
  if decide (l < length r)%nat then mret (<[l := p]> r) else panic.

Definition GetLinePointers (b : Takuzu) (i : nat) : H (list cellPtr) :=
  row ← getRow b i;
  forM (λ l r, p ← addrCell b i l; setIndex r l p)
    (upto (length row)) (replicate (Size b) None).

Definition GetColumnPointers (b : Takuzu) (i : nat) : H (list cellPtr) :=
  rows ← getRows b;
  forM (λ l r, p ← addrCell b l i; setIndex r l p)
    (upto (length rows)) (replicate (Size b) None).

(** *** Line completion ([FillLineColumn]) *)

(** The [for _, x := range r] loop that gives [v] to every undefined cell. *)
Definition fillUndefined (r : list cellPtr) (v : Z) : H unit :=
  forM (λ p _,
    x ← loadPtr p;
    if negb (Defined x) then
      x ← loadPtr p; storePtr p (mkCell true (Value x));;
      x ← loadPtr p; storePtr p (mkCell (Defined x) v)
    else mret tt) r tt.

(** The closure [fillRange] of [FillLineColumn]. *)
Definition fillRange (r : list cellPtr) : H unit :=
  let size := length r in
  '(notFull, n) ← forM (λ x '(notFull, n),
      p ← orPanic (r !! x);
      cx ← loadPtr p;
      if Defined cx then
        cx ← loadPtr p;
        n' ← orPanic (incrCounter n (Value cx)); mret (notFull, n')
      else mret (true, n)) (upto size) (false, [0; 0]);
  if negb notFull then mret tt
  else
    n0 ← orPanic (n !! 0%nat);
    if n0 =? half size then fillUndefined r 1
    else
      n1 ← orPanic (n !! 1%nat);
      if n1 =? half size then fillUndefined r 0 else mret tt.

Definition FillLineColumn (b : Takuzu) (l c : nat) : H unit :=
  cells ← GetLinePointers b l;
  fillRange cells;;
  cells ← GetColumnPointers b c;
  fillRange cells.

(** *** Board validation *)

Definition CheckLine (b : Takuzu) (i : nat) : H (option validationError) :=
  d ← GetLine b i; r ← orPanic (checkRange d); mret r.2.

Definition CheckColumn (b : Takuzu) (i : nat) : H (option validationError) :=
  d ← GetColumn b i; r ← orPanic (checkRange d); mret r.2.

(** A Go [int] is taken to have 64 bits; arithmetic wraps around. *)
Definition wrapInt (z : Z) : Z := (z + 2 ^ 63) `mod` 2 ^ 64 - 2 ^ 63.

(** The closure [computeVal] of [Validate]:
    [val += cells[i].Value * 1 << uint(i)], where [*] and [<<] have the same
    precedence and associate to the left. *)
Fixpoint computeValFrom (i : nat) (cells : list Cell) (val : Z) : Z :=
  match cells with
  | [] => val
  | c :: rest =>
    computeValFrom (S i) rest
      (wrapInt (val + wrapInt (Z.shiftl (wrapInt (Value c * 1)) (Z.of_nat i))))
  end.

Definition computeVal (cells : list Cell) : Z := computeValFrom 0 cells 0.

(** [validationError{ErrorType: ErrorDuplicate, LineNumber: &i}] and its
    column twin. *)
Definition duplicateLine (i : nat) : validationError :=
  mkValidationError ErrorDuplicate (Some i) None None.
Definition duplicateColumn (i : nat) : validationError :=
  mkValidationError ErrorDuplicate None (Some i) None.

(** [err.LineNumber = &i] and [err.ColumnNumber = &i] *)
Definition withLine (e : validationError) (i : nat) : validationError :=
  mkValidationError (ErrorType e) (Some i) (ColumnNumber e) (CellValue e).
Definition withColumn (e : validationError) (i : nat) : validationError :=
  mkValidationError (ErrorType e) (LineNumber e) (Some i) (CellValue e).

(** [m[hv]] on a [map[int]bool]: a missing key reads as [false]. *)
Definition seen (m : gmap Z bool) (hv : Z) : bool := default false (m !! hv).

(** The loop-carried locals of [Validate]. *)
Record validateState := mkValidateState {
  finished : bool;
  lineVals : gmap Z bool;
  colVals : gmap Z bool
}.

(** The body of the [for i] loop of [Validate]. *)
Definition validateStep (b : Takuzu) (i : nat) (st : validateState)
  : H (validateState + bool * option validationError) :=
  d ← GetLine b i;
  '(fl, err) ← orPanic (checkRange d);
  match err with
  | Some e => mret (inr (false, Some (withLine e i)))
  | None =>
    let hv := computeVal d in
    if fl && seen (lineVals st) hv then mret (inr (false, Some (duplicateLine i)))
    else
      let st1 := if fl then mkValidateState (finished st) (<[hv := true]> (lineVals st)) (colVals st)
                 else mkValidateState false (lineVals st) (colVals st) in
      d ← GetColumn b i;
      '(fl, err) ← orPanic (checkRange d);
      match err with
      | Some e => mret (inr (false, Some (withColumn e i)))
      | None =>
        let hv := computeVal d in
        if fl && seen (colVals st1) hv then mret (inr (false, Some (duplicateColumn i)))
        else if fl then
          mret (inl (mkValidateState (finished st1) (lineVals st1) (<[hv := true]> (colVals st1))))
        else mret (inl (mkValidateState false (lineVals st1) (colVals st1)))
      end
  end.

Definition Validate (b : Takuzu) : H (bool * option validationError) :=
  r ← loopM (validateStep b) (upto (Size b)) (mkValidateState true ∅ ∅);
  match r with
  | inr res => mret res
  | inl st => mret (finished st, None)
  end.

(** ** The trivial deducer ([solve.go]) *)

(** [bx.CheckLine(l) != nil || bx.CheckColumn(c) != nil]; the column is
    checked only when the line passes. *)
Definition lineOrColumnFails (bx : Takuzu) (l c : nat) : H bool :=
  e ← CheckLine bx l;
  match e with
  | Some _ => mret true
  | None => e ← CheckColumn bx c; mret (bool_decide (e ≠ None))
  end.

Definition guessPos (b : Takuzu) (l c : nat) : H Z :=
  x ← loadCell b l c;
  if Defined x then x ← loadCell b l c; mret (Value x)
  else
    bx ← Clone b;
    Takuzu_Set bx l c 0;;
    FillLineColumn bx l c;;
    bad ← lineOrColumnFails bx l c;
    if (bad : bool) then mret 1
    else
      Copy b bx;;
      Takuzu_Set bx l c 1;;
      FillLineColumn bx l c;;
      bad ← lineOrColumnFails bx l c;
      if (bad : bool) then mret 0
      else mret (-1).

(** [TrivialHint] returns [(line, col, value)]. *)
Definition TrivialHint (b : Takuzu) : H (Z * Z * Z) :=
  r ← loopM (λ line (_ : unit),
         loopM (λ col (_ : unit),
           x ← loadCell b line col;
           if Defined x then mret (inl tt)
           else
             value ← guessPos b line col;
             if decide (value ≠ -1)
             then mret (inr (Z.of_nat line, Z.of_nat col, value))
             else mret (inl tt)) (upto (Size b)) tt) (upto (Size b)) tt;
  match r with
  | inr res => mret res
  | inl _ => mret (-1, -1, -1)
  end.

(** [trySolveTrivialPass]; the accumulator is [changed]. *)
Definition trySolveTrivialPass (b : Takuzu) : H bool :=
  forM (λ line changed,
    forM (λ col changed,
      x ← loadCell b line col;
      if Defined x then mret changed
      else
        guess ← guessPos b line col;
        if decide (guess ≠ -1) then Takuzu_Set b line col guess;; mret true
        else mret changed) (upto (Size b)) changed) (upto (Size b)) false.

(** The errors that travel through the solver: a validation error wrapped
    by [errors.Wrap(err, "the takuzu looks wrong")], [errors.New("timeout")]
    and [errors.New("dead end")]. *)
Inductive solveError : Type :=
  | ErrWrong (e : validationError)
  | ErrTimeout
  | ErrDeadEnd.

#[global] Instance solveError_eq_dec : EqDecision solveError.
Proof. solve_decision. Defined.

(** The [for { ... if !changed { break } }] loop of [TrySolveTrivial]. *)
Fixpoint trySolveTrivialLoop (fuel : nat) (b : Takuzu) : H unit :=
  match fuel with
  | O => outOfFuel
  | S fuel' =>
    changed ← trySolveTrivialPass b;
    if negb (changed : bool) then mret tt else trySolveTrivialLoop fuel' b
  end.

Definition TrySolveTrivial (fuel : nat) (b : Takuzu) : H (bool * option solveError) :=
  trySolveTrivialLoop fuel b;;
  '(fl, err) ← Validate b;
  match err with
  | Some e => mret (fl, Some (ErrWrong e))
  | None => mret (fl, None)
  end.

(** ** Error texts *)

(** [validationError.Error()] *)
Definition validationError_Error (e : validationError) : string :=
  let '(axis, n) :=
    match LineNumber e, ColumnNumber e with
    | Some l, _ => ("line", l)
    | None, Some c => ("column", c)
    | None, None => (EmptyString, 0%nat)
    end in
  let num (k : nat) := formatInt (Z.of_nat k) in
  if ErrorType e =? ErrorNil then EmptyString
  else if ErrorType e =? ErrorDuplicate then
    if String.eqb axis EmptyString then "internal validation error"
    else "duplicate " +:+ axis +:+ "s (" +:+ num n +:+ ")"
  else if ErrorType e =? ErrorTooManyValues then
    match CellValue e with
    | None => "internal validation error"
    | Some v =>
      if String.eqb axis EmptyString then "internal validation error"
      else if v =? 0 then axis +:+ " " +:+ num n +:+ ": too many zeroes"
      else if v =? 1 then axis +:+ " " +:+ num n +:+ ": too many ones"
      else "internal validation error"
    end
  else if ErrorType e =? ErrorTooManyAdjacentValues then
    match CellValue e with
    | None => "internal validation error"
    | Some v =>
      if String.eqb axis EmptyString then "internal validation error"
      else axis +:+ " " +:+ num n +:+ ": 3+ same values " +:+ formatInt v
    end
  else "internal validation error".

(** [errors.Cause(err).Error()]: the text of the innermost error. *)
Definition causeText (e : solveError) : string :=
  match e with
  | ErrWrong v => validationError_Error v
  | ErrTimeout => "timeout"
  | ErrDeadEnd => "dead end"
  end.

(** ** The recursive solver ([TrySolveRecurse]) *)

(** What the closure [recurseSolve] shares with its caller, and the two
    sources of non-determinism: the wall clock and, in Schrodinger mode, the
    order in which the two children answer.  [ticks] counts the questions
    asked so far. *)
Record world := mkWorld {
  wHeap : heap;
  solutionMap : gmap string Takuzu;
  singleSolution : option Takuzu;
  ticks : nat
}.

Abbreviation W := (M world).

(** A board operation running inside the solver. *)
Definition liftH {A} (m : H A) : W A :=
  λ w, match m (wHeap w) with
       | Done (a, h) => Done (a, mkWorld h (solutionMap w) (singleSolution w) (ticks w))
       | Panic => Panic
       | OutOfFuel => OutOfFuel
       end.

(** Ask the oracle [f] its next question. *)
Definition ask (f : nat → bool) : W bool :=
  λ w, Done (f (ticks w), mkWorld (wHeap w) (solutionMap w) (singleSolution w) (S (ticks w))).

(** An update of the shared variables. *)
Definition update (f : world → world) : W unit := λ w, Done (tt, f w).

(** How a step inside a loop ends: go on, [break], or [return]. *)
Inductive flow (A R : Type) : Type :=
  | Next (a : A)
  | Break (a : A)
  | Return (r : R).
Arguments Next {A R} a.
Arguments Break {A R} a.
Arguments Return {A R} r.

Section Solver.
(** [schrodLvl], the package variable set by [SetSchrodingerLevel]. *)
Variable schrodLvl : nat.
(** [allSolutions != nil] *)
Variable globalSearch : bool.
(** The [timeout] argument, a [time.Duration]. *)
Variable timeout : Z.
(** The answer to the k-th evaluation of [time.Since(startTime) > timeout]. *)
Variable expired : nat → bool.
(** In Schrodinger mode, whether the child trying 0 answers first. *)
Variable zeroFirst : nat → bool.

(** The critical section that records a solution:
    [singleSolution = &t; if globalSearch { solutionMap[t.ToString()] = &t }]. *)
Definition recordSolution (t : Takuzu) : W unit :=
  if globalSearch then
    key ← liftH (ToString t);
    update (λ w, mkWorld (wHeap w) (<[key := t]> (solutionMap w)) (Some t) (ticks w))
  else
    update (λ w, mkWorld (wHeap w) (solutionMap w) (Some t) (ticks w)).

(** The labelled loops [firstClear]: the values of [line] and [col] when
    they are left. *)
Definition firstClear (t : Takuzu) : H (nat * nat) :=
  r ← loopM (λ line (_ : unit),
         loopM (λ col (_ : unit),
           x ← loadCell t line col;
           if negb (Defined x) then mret (inr (line, col)) else mret (inl tt))
           (upto (Size t)) tt) (upto (Size t)) tt;
  match r with
  | inr pos => mret pos
  | inl _ => mret (Size t, if decide (Size t = 0)%nat then 0%nat else Size t)
  end.

(** The code after the outer [for]: validate, record a full board. *)
Definition finishNode (t : Takuzu) : W (option solveError) :=
  '(fl, err) ← liftH (Validate t);
  match err with
  | Some e => mret (Some (ErrWrong e))
  | None => (if (fl : bool) then recordSolution t else mret tt);; mret None
  end.

(** The locals [errCount] and [changed] of one pass of the outer [for]. *)
Record guessState := mkGuessState { errCount : Z; changed : bool }.

(** The body of the result-collecting loop for the answer [err] of the
    child that tried [val]. *)
Definition collectResult (level : nat) (t : Takuzu) (line col : nat)
    (val : Z) (err : option solveError) (st : guessState)
  : W (guessState + option solveError) :=
  match err with
  | None => if negb globalSearch then mret (inr None) else mret (inl st)
  | Some e =>
    late ← (if (timeout >? 0) && (2 <? Z.of_nat level) then ask expired else mret false);
    if (late : bool) && negb (String.eqb (causeText e) "timeout") then
      mret (inr (Some ErrTimeout))
    else if String.eqb (causeText e) "timeout" then mret (inr (Some e))
    else
      liftH (Takuzu_Set t line col (1 - val));;
      mret (inl (mkGuessState (errCount st + 1) true))
  end.

(** [tx := t.Clone(); tx.Set(line, col, testCase); go recurseSolve(level+1, tx, status[testCase])]:
    the child works on its own clone and the parent only waits for its
    answer, so the child is run when it is launched and its answer kept
    until the parent receives it. *)
Definition launch (child : Takuzu → W (option solveError))
    (t : Takuzu) (line col : nat) (testCase : Z) : W (Z * option solveError) :=
  tx ← liftH (Clone t);
  liftH (Takuzu_Set tx line col testCase);;
  err ← child tx;
  mret (testCase, err).

(** One pass of [for testval := 0; testval < 2; testval++]. *)
Definition tryValue (child : Takuzu → W (option solveError)) (schrodinger : bool)
    (level : nat) (t : Takuzu) (line col : nat) (testval : Z) (st : guessState)
  : W (flow guessState (option solveError)) :=
  x ← liftH (loadCell t line col);
  if negb globalSearch && Defined x then mret (Break st)
  else
    answers ← (if schrodinger then
                 a0 ← launch child t line col 0;
                 a1 ← launch child t line col 1;
                 first ← ask zeroFirst;
                 mret (if (first : bool) then [a0; a1] else [a1; a0])
               else
                 a ← launch child t line col testval; mret [a]);
    r ← loopM (λ '(val, err) st, collectResult level t line col val err st) answers st;
    match r with
    | inr res => mret (Return res)
    | inl st' =>
      if (changed st' && negb globalSearch) || schrodinger then mret (Break st')
      else mret (Next st')
    end.

(** The two passes of the [testval] loop. *)
Definition tryValues (child : Takuzu → W (option solveError)) (schrodinger : bool)
    (level : nat) (t : Takuzu) (line col : nat)
  : W (guessState + option solveError) :=
  r ← tryValue child schrodinger level t line col 0 (mkGuessState 0 false);
  match r with
  | Return res => mret (inr res)
  | Break st => mret (inl st)
  | Next st =>
    r ← tryValue child schrodinger level t line col 1 st;
    match r with
    | Return res => mret (inr res)
    | Break st | Next st => mret (inl st)
    end
  end.

(** One pass of the outer [for] of [recurseSolve] at depth [level] on the
    board [t]; [again] is the next pass and [child] the recursive call at
    [level+1].  The value sent on [errStatus] is the value returned. *)
Definition solveNode (again : W (option solveError))
    (child : Takuzu → W (option solveError)) (fuel : nat)
    (level : nat) (t : Takuzu) : W (option solveError) :=
  let schrodinger := bool_decide (level < schrodLvl)%nat in
  '(fl, err) ← liftH (TrySolveTrivial fuel t);
  match err with
  | Some e => mret (Some e)
  | None =>
    if (fl : bool) then recordSolution t;; mret None
    else
      '(line, col) ← liftH (firstClear t);
      if decide (line = Size t ∨ col = Size t) then finishNode t
      else
        r ← tryValues child schrodinger level t line col;
        match r with
        | inr res => mret res
        | inl st =>
          if errCount st =? 2 then mret (Some ErrDeadEnd)
          else if schrodinger || globalSearch || negb (changed st) then finishNode t
          else again
        end
  end.

(** [recurseSolve]; both the recursive call and the next pass of the outer
    loop consume fuel. *)
Fixpoint recurseSolve (fuel : nat) (level : nat) (t : Takuzu) : W (option solveError) :=
  match fuel with
  | O => outOfFuel
  | S fuel' =>
    solveNode (recurseSolve fuel' level t) (recurseSolve fuel' (S level)) fuel level t
  end.

(** [TrySolveRecurse]: the first solution, the error and the accumulator
    [*allSolutions] on return ([acc] is its content at the call; it is only
    used when [globalSearch] holds).  The boards are appended in the order
    in which the map is ranged over, which Go leaves unspecified. *)
Definition TrySolveRecurse (fuel : nat) (b : Takuzu) (acc : list Takuzu)
  : H (option Takuzu * option solveError * list Takuzu) :=
  λ h,
    match recurseSolve fuel 0 b (mkWorld h ∅ None 0) with
    | Done (err, w) =>
      let firstSol := singleSolution w in
      let acc' := if globalSearch then acc ++ (map_to_list (solutionMap w)).*2 else acc in
      match err with
      | Some e => Done (firstSol, Some e, acc', wHeap w)
      | None =>
        let firstSol' := if globalSearch then
                           match acc' with s :: _ => Some s | [] => firstSol end
                         else firstSol in
        Done (firstSol', None, acc', wHeap w)
      end
    | Panic => Panic
    | OutOfFuel => OutOfFuel
    end.
End Solver.

(** ** The content of a board, and what the operations do to it

    The functions above work on a board through the heap.  The definitions
    below describe a board by its content, a matrix of cells, and give the
    effect of each operation on that content; the theorems relate the two. *)

(** The cell at [(l, c)]. *)
Definition cellAt (m : matrix) (l c : nat) : option Cell := row ← m !! l; row !! c.

(** The cell at [(l, c)] replaced by [x]. *)
Definition setCellM (m : matrix) (l c : nat) (x : Cell) : matrix :=
  match m !! l with
  | Some row => <[l := <[c := x]> row]> m
  | None => m
  end.

(** An [n] x [n] matrix. *)
Definition squareM (n : nat) (m : matrix) : Prop :=
  length m = n ∧ Forall (λ row, length row = n) m.

(** Every defined cell holds 0 or 1. *)
Definition matrixOk (m : matrix) : Prop := Forall cellsOk m.

(** The board [b] is stored in [h] with content [m], of the size it says. *)
Definition wfBoard (h : heap) (b : Takuzu) (m : matrix) : Prop :=
  h !! Board b = Some m ∧ squareM (Size b) m.

Definition rowM (m : matrix) (l : nat) : list Cell := default [] (m !! l).
Definition colM (m : matrix) (c : nat) : list Cell :=
  (λ row, default zeroCell (row !! c)) <$> m.

(** Content after [Set(l, c, value)]. *)
Definition setM (m : matrix) (l c : nat) (value : Z) : matrix :=
  match cellAt m l c with
  | Some x =>
    if decide (value ≠ 0 ∧ value ≠ 1) then setCellM m l c (mkCell false (Value x))
    else setCellM m l c (mkCell true value)
  | None => m
  end.

(** *** Codec *)

Definition encodeCell (x : Cell) : string :=
  if Defined x then formatInt (Value x) else String "."%char EmptyString.

Definition encodeCells (cells : list Cell) : string :=
  foldl (λ s x, s +:+ encodeCell x) EmptyString cells.

(** The text of a board: its cells in row-major order. *)
Definition encodeM (m : matrix) : string := encodeCells (concat m).

(** Two cells with the same defined flag and, when defined, the same value. *)
Definition sameCell (x y : Cell) : Prop :=
  Defined x = Defined y ∧ (Defined x = true → Value x = Value y).

(** *** Line completion *)

(** What [fillRange] leaves in the cells it is given. *)
Definition fillCells (cells : list Cell) : list Cell :=
  let fill v := (λ x : Cell, if Defined x then x else mkCell true v) <$> cells in
  if bool_decide (allDefined cells) then cells
  else if countValue 0 cells =? half (length cells) then fill 1
  else if countValue 1 cells =? half (length cells) then fill 0
  else cells.

Definition setRowM (m : matrix) (l : nat) (cells : list Cell) : matrix := <[l := cells]> m.
Definition setColM (m : matrix) (c : nat) (cells : list Cell) : matrix :=
  zip_with (λ row x, <[c := x]> row) m cells.

(** Content after [FillLineColumn(l, c)]: the line first, then the column. *)
Definition fillLineColumnM (m : matrix) (l c : nat) : matrix :=
  let m1 := setRowM m l (fillCells (rowM m l)) in
  setColM m1 c (fillCells (colM m1 c)).

(** *** Single-cell forcing *)

(** The range check signals an error. *)
Definition rangeFails (cells : list Cell) : bool :=
  match checkRange cells with
  | Some (_, Some _) => true
  | _ => false
  end.

(** The board after the cell is given [v] and the line and column are
    completed fails the range check on line [l] or column [c]. *)
Definition refuted (m : matrix) (l c : nat) (v : Z) : bool :=
  let m' := fillLineColumnM (setM m l c v) l c in
  rangeFails (rowM m' l) || rangeFails (colM m' c).

(** The value of [guessPos] as the specification words it: the value of a
    defined cell; 1 when 0 is refuted; else 0 when 1 is refuted; else -1. *)
Definition guessSpec (m : matrix) (l c : nat) : Z :=
  match cellAt m l c with
  | Some x =>
    if Defined x then Value x
    else if refuted m l c 0 then 1
    else if refuted m l c 1 then 0
    else -1
  | None => -1
  end.

(** The same, worded on the operations of the board: every trial works on a
    clone of its own. *)
Definition trialFails (b : Takuzu) (l c : nat) (v : Z) : H bool :=
  bx ← Clone b;
  Takuzu_Set bx l c v;;
  FillLineColumn bx l c;;
  e1 ← CheckLine bx l;
  e2 ← CheckColumn bx c;
  mret (bool_decide (e1 ≠ None ∨ e2 ≠ None)).

Definition guessPosSpec (b : Takuzu) (l c : nat) : H Z :=
  x ← loadCell b l c;
  if Defined x then mret (Value x)
  else
    f0 ← trialFails b l c 0;
    if (f0 : bool) then mret 1
    else
      f1 ← trialFails b l c 1;
      if (f1 : bool) then mret 0 else mret (-1).

(** *** Validation *)

(** A loop with early exit over state-free code that may panic. *)
Fixpoint loopO {A B R} (body : A → B → option (B + R)) (xs : list A) (acc : B)
  : option (B + R) :=
  match xs with
  | [] => Some (inl acc)
  | x :: rest =>
    r ← body x acc;
    match r with
    | inl acc' => loopO body rest acc'
    | inr v => Some (inr v)
    end
  end.

(** The body of the loop of [Validate] on the content. *)
Definition validateStepM (m : matrix) (i : nat) (st : validateState)
  : option (validateState + bool * option validationError) :=
  let d := rowM m i in
  '(fl, err) ← checkRange d;
  match err with
  | Some e => Some (inr (false, Some (withLine e i)))
  | None =>
    let hv := computeVal d in
    if fl && seen (lineVals st) hv then Some (inr (false, Some (duplicateLine i)))
    else
      let st1 := if fl then mkValidateState (finished st) (<[hv := true]> (lineVals st)) (colVals st)
                 else mkValidateState false (lineVals st) (colVals st) in
      let d := colM m i in
      '(fl, err) ← checkRange d;
      match err with
      | Some e => Some (inr (false, Some (withColumn e i)))
      | None =>
        let hv := computeVal d in
        if fl && seen (colVals st1) hv then Some (inr (false, Some (duplicateColumn i)))
        else if fl then
          Some (inl (mkValidateState (finished st1) (lineVals st1) (<[hv := true]> (colVals st1))))
        else Some (inl (mkValidateState false (lineVals st1) (colVals st1)))
      end
  end.

(** The result of [Validate] on a board with content [m]; [None] is a panic. *)
Definition validateM (m : matrix) : option (bool * option validationError) :=
  r ← loopO (validateStepM m) (upto (length m)) (mkValidateState true ∅ ∅);
  match r with
  | inr res => Some res
  | inl st => Some (finished st, None)
  end.

(** *** The trivial pass *)

(** One cell of the trivial pass. *)
Definition passCellM (l c : nat) (st : bool * matrix) : bool * matrix :=
  let '(changed, m) := st in
  match cellAt m l c with
  | Some x =>
    if Defined x then (changed, m)
    else
      let g := guessSpec m l c in
      if decide (g ≠ -1) then (true, setM m l c g) else (changed, m)
  | None => (changed, m)
  end.

(** One line of the trivial pass on an [n] x [n] board. *)
Definition passLineM (n : nat) (st : bool * matrix) (l : nat) : bool * matrix :=
  foldl (λ st c, passCellM l c st) st (upto n).

(** Content after [trySolveTrivialPass], and whether it changed a cell. *)
Definition passM (m : matrix) : bool * matrix :=
  foldl (passLineM (length m)) (false, m) (upto (length m)).

(** Content after the loop of [TrySolveTrivial]. *)
Fixpoint trivialM (fuel : nat) (m : matrix) : option matrix :=
  match fuel with
  | O => None
  | S fuel' =>
    let '(changed, m') := passM m in
    if changed then trivialM fuel' m' else Some m'
  end.

(** Number of undefined cells. *)
Definition undefinedCount (m : matrix) : nat :=
  length (filter (λ x, Defined x = false) (concat m)).

(** [m'] keeps every defined cell of [m]. *)
Definition extendsM (m m' : matrix) : Prop :=
  ∀ l c x, cellAt m l c = Some x → Defined x = true → cellAt m' l c = Some x.

(** Every cell is defined. *)
Definition fullM (m : matrix) : Prop := Forall allDefined m.

(** ** Comparing boards, and the pointer form of [Set] ([takuzu.go]) *)

(** [(c *Cell) Set(value)] *)
Definition Cell_Set (p : cellPtr) (value : Z) : H unit :=
  if decide (value ≠ 0 ∧ value ≠ 1) then
    x ← loadPtr p; storePtr p (mkCell false (Value x))
  else
    (x ← loadPtr p; storePtr p (mkCell true (Value x)));;
    x ← loadPtr p; storePtr p (mkCell (Defined x) value).

(** The body of the inner loop of [BoardsMatch] at [(line, col)]: [inl] is
    [continue] or the end of the body, [inr] the [return] with [match = false].
    The operands of [||] are read from left to right, the right one only
    when the left one is false. *)
Definition matchCell (t1 t2 : Takuzu) (ignoreUndefined : bool) (line col : nat)
  : H (unit + bool * Z * Z) :=
  x1 ← loadCell t1 line col;
  oneUndefined ← (if negb (Defined x1) then mret true
                  else x2 ← loadCell t2 line col; mret (negb (Defined x2)));
  if (oneUndefined : bool) then
    skip ← (if ignoreUndefined then mret true
            else
              x1 ← loadCell t1 line col;
              if Defined x1 then mret false
              else x2 ← loadCell t2 line col; mret (negb (Defined x2)));
    if (skip : bool) then mret (inl tt)
    else mret (inr (false, Z.of_nat line, Z.of_nat col))
  else
    x1 ← loadCell t1 line col;
    x2 ← loadCell t2 line col;
    if decide (Value x1 ≠ Value x2) then mret (inr (false, Z.of_nat line, Z.of_nat col))
    else mret (inl tt).

(** [BoardsMatch(t1, t2, ignoreUndefined)]; [None] is the [nil] pointer.  The
    result is [(match, line, col)]. *)
Definition BoardsMatch (t1 t2 : option Takuzu) (ignoreUndefined : bool) : H (bool * Z * Z) :=
  match t1, t2 with
  | Some t1, Some t2 =>
    if decide (Size t1 ≠ Size t2) then mret (false, -1, -1)
    else
      rows ← getRows t1;
      r ← loopM (λ line (_ : unit),
             row ← getRow t1 line;
             loopM (λ col (_ : unit), matchCell t1 t2 ignoreUndefined line col)
               (upto (length row)) tt) (upto (length rows)) tt;
      match r with
      | inr res => mret res
      | inl _ => mret (true, -1, -1)
      end
  | _, _ => mret (false, -1, -1)
  end.

(** ** The entry point of the generator ([build.go]) *)

Record buildTakuzuOptions := mkBuildTakuzuOptions {
  size : Z;
  minRatio : Z;
  maxRatio : Z;
  simple : bool;
  buildBoardTimeout : Z;
  reduceBoardTimeout : Z
}.

Section Generator.
(** [newRandomTakuzu(wid, buildOpts)] draws from the process-wide random
    source; its answer to the k-th call is left open.  It returns a board
    and no error, or no board and an error. *)
Variable newRandomTakuzu : string → buildTakuzuOptions → nat → option Takuzu * option string.

(** One call of [newRandomTakuzu]; the state counts the calls made. *)
Definition attempt (wid : string) (opts : buildTakuzuOptions)
  : M nat (option Takuzu * option string) :=
  λ k, Done (newRandomTakuzu wid opts k, S k).

(** [for { takP, err = newRandomTakuzu(wid, buildOptions); if err == nil { break } }] *)
Fixpoint retryLoop (fuel : nat) (wid : string) (opts : buildTakuzuOptions)
  : M nat (option Takuzu) :=
  match fuel with
  | O => outOfFuel
  | S fuel' =>
    '(takP, err) ← attempt wid opts;
    match err with
    | None => mret takP
    | Some _ => retryLoop fuel' wid opts
    end
  end.

(** [NewRandomTakuzu]; [%] truncates towards zero. *)
Definition NewRandomTakuzu (fuel : nat) (size : Z) (simple : bool) (wid : string)
    (buildBoardTimeout reduceBoardTimeout : Z) (minRatio maxRatio : Z)
  : M nat (option Takuzu * option string) :=
  if decide (size `rem` 2 ≠ 0) then mret (None, Some "board size should be an even value")
  else if decide (size < 4) then mret (None, Some "board size is too small")
  else
    let minRatio := if decide (minRatio < 40) then 40 else minRatio in
    if decide (minRatio > maxRatio) then mret (None, Some "minRatio/maxRatio incorrect")
    else
      let maxRatio := if decide (maxRatio > 99) then 99 else maxRatio in
      let buildOptions :=
        mkBuildTakuzuOptions size minRatio maxRatio simple
          buildBoardTimeout reduceBoardTimeout in
      takP ← retryLoop fuel wid buildOptions;
      mret (takP, None).
End Generator.

(** ** Auxiliary notions used in the proofs *)

(** What the scan knows after the prefix [p] when it has not returned. *)
Definition scanTail (p : list Cell) (s : rangeScan) : Prop :=
  (prevCellCount s = 0 ∧ (p = [] ∨ ∃ q c, p = q ++ [c] ∧ Defined c = false))
  ∨ (prevCellCount s = 1 ∧ Defined (prevCell s) = true
     ∧ ∃ q, p = q ++ [prevCell s]
       ∧ (q = [] ∨ ∃ q' c2, q = q' ++ [c2] ∧ c2 ≠ cellOf (Value (prevCell s))))
  ∨ (prevCellCount s = 2 ∧ Defined (prevCell s) = true
     ∧ ∃ q, p = q ++ [prevCell s; prevCell s]).

Definition scanInv (p : list Cell) (s : rangeScan) : Prop :=
  (full s = true ↔ allDefined p)
  ∧ counters s = [countValue 0 p; countValue 1 p]
  ∧ (∀ i v, ¬ run3At p i v)
  ∧ scanTail p s.

(** The character that encodes a well-formed cell. *)
Definition encodeChar (x : Cell) : ascii :=
  if Defined x then (if Value x =? 0 then "0"%char else "1"%char) else "."%char.

(** The cell that decoding the character of [x] produces. *)
Definition normalize (x : Cell) : Cell :=
  if Defined x then mkCell true (Value x) else zeroCell.

(** The cell at [(l, c)], or the zero cell outside the matrix. *)
Definition cellD (m : matrix) (l c : nat) : Cell := default zeroCell (cellAt m l c).

(** Row-major order on positions. *)
Definition before (l c line col : nat) : Prop := (l < line ∨ (l = line ∧ c < col))%nat.

#[global] Instance before_dec l c line col : Decision (before l c line col).
Proof. unfold before. apply _. Defined.

(** The parameters that [NewRandomTakuzu] rejects. *)
Definition badParameters (size minRatio maxRatio : Z) : Prop :=
  size `rem` 2 ≠ 0 ∨ size < 4 ∨ Z.max minRatio 40 > maxRatio.


(** The range check passes. *)
Definition rangeGood (cells : list Cell) : Prop := ∃ b, checkRange cells = Some (b, None).

(** What the loop of [Validate] knows before pass [k]: the lines and columns
    below [k] pass the range check; the fingerprints of the fully defined
    ones are in the sets and are pairwise different; [finished] still holds
    only if they are all fully defined. *)
Definition validateInv (m : matrix) (k : nat) (st : validateState) : Prop :=
  (∀ i, (i < k)%nat → rangeGood (rowM m i) ∧ rangeGood (colM m i))
  ∧ (∀ i, (i < k)%nat → allDefined (rowM m i) →
        seen (lineVals st) (computeVal (rowM m i)) = true)
  ∧ (∀ i, (i < k)%nat → allDefined (colM m i) →
        seen (colVals st) (computeVal (colM m i)) = true)
  ∧ (∀ i j, (i < j)%nat → (j < k)%nat → allDefined (rowM m i) → allDefined (rowM m j) →
        computeVal (rowM m i) ≠ computeVal (rowM m j))
  ∧ (∀ i j, (i < j)%nat → (j < k)%nat → allDefined (colM m i) → allDefined (colM m j) →
        computeVal (colM m i) ≠ computeVal (colM m j))
  ∧ (finished st = true →
        ∀ i, (i < k)%nat → allDefined (rowM m i) ∧ allDefined (colM m i)).

(** The positions of line [l] and of column [c] of an [n] x [n] board. *)
Definition rowPos (l n : nat) : list (nat * nat) := (λ c, (l, c)) <$> upto n.
Definition colPos (c n : nat) : list (nat * nat) := (λ l, (l, c)) <$> upto n.

(** Pointers to the cells at the positions [ps] of the storage at [a]. *)
Definition ptrs (a : nat) (ps : list (nat * nat)) : list cellPtr :=
  (λ p : nat * nat, Some (a, p.1, p.2)) <$> ps.

(** The cells at the positions [ps]. *)
Definition readAt (m : matrix) (ps : list (nat * nat)) : list Cell :=
  (λ p : nat * nat, cellD m p.1 p.2) <$> ps.

(** An undefined cell becomes a defined [v]; a defined cell stays. *)
Definition fillCell (v : Z) (x : Cell) : Cell := if Defined x then x else mkCell true v.

(** Content after the loop [fillUndefined] over the positions [ps]. *)
Definition fillAt (m : matrix) (ps : list (nat * nat)) (v : Z) : matrix :=
  foldl (λ m (p : nat * nat), setCellM m p.1 p.2 (fillCell v (cellD m p.1 p.2))) m ps.

(** Content after [fillRange] on the pointers to the positions [ps]. *)
Definition fillRangeM (m : matrix) (ps : list (nat * nat)) : matrix :=
  let cells := readAt m ps in
  if bool_decide (allDefined cells) then m
  else if countValue 0 cells =? half (length cells) then fillAt m ps 1
  else if countValue 1 cells =? half (length cells) then fillAt m ps 0
  else m.

(** All positions lie inside the matrix. *)
Definition inside (m : matrix) (ps : list (nat * nat)) : Prop :=
  Forall (λ p : nat * nat, is_Some (cellAt m p.1 p.2)) ps.

(** The heap [h] after the content of [b] became [m] and the objects
    [junk] were allocated. *)
Definition boardHeap (h : heap) (b : Takuzu) (m : matrix) (junk : heap) : heap :=
  <[Board b := m]> h ++ junk.

(** What a step of the trivial pass may do to the flag [changed] and to the
    content of an [n] x [n] board: nothing, or set the flag and define some
    undefined cells with 0 or 1. *)
Definition passRel (n : nat) (st st' : bool * matrix) : Prop :=
  squareM n st'.2 ∧ matrixOk st'.2 ∧ extendsM st.2 st'.2
  ∧ (st' = st ∨ (st'.1 = true ∧ (undefinedCount st'.2 < undefinedCount st.2)%nat)).

(** The result of [TrySolveTrivial] on a board whose content has become [m]. *)
Definition trivialResult (m : matrix) : option (bool * option solveError) :=
  match validateM m with
  | Some (fl, err) => Some (fl, ErrWrong <$> err)
  | None => None
  end.

(** *** Invariants of the recursive solver *)

(** Partial correctness of a stateful computation. *)
Definition hoare {S A} (P : S → Prop) (m : M S A) (Q : A → S → Prop) : Prop :=
  ∀ s a s', P s → m s = Done (a, s') → Q a s'.

(** The heap [h'] comes from [h] by allocations and by writes to the object
    at address [a] only. *)
Definition frame (a : nat) (h h' : heap) : Prop :=
  (length h ≤ length h')%nat ∧ ∀ x, (x < length h)%nat → x ≠ a → h' !! x = h !! x.

(** The board [s], recorded under [key], is a solution that extends [m0]:
    stored with its size, well formed, accepted by [Validate] as fully
    defined, and encoded by [key]. *)
Definition goodSolution (h : heap) (m0 : matrix) (key : string) (s : Takuzu) : Prop :=
  ∃ ms, wfBoard h s ms ∧ matrixOk ms ∧ validateM ms = Some (true, None)
    ∧ encodeM ms = key ∧ extendsM m0 ms.

Definition mapGood (h : heap) (m0 : matrix) (sm : gmap string Takuzu) : Prop :=
  ∀ key s, sm !! key = Some s → goodSolution h m0 key s.

(** No recorded solution is stored where [t] is. *)
Definition unrecorded (t : Takuzu) (sm : gmap string Takuzu) : Prop :=
  ∀ key s, sm !! key = Some s → Board s ≠ Board t.

(** The solutions recorded since the world [w0] are stored at [t] or in
    storage allocated since. *)
Definition newAt (t : Takuzu) (w0 : world) (sm : gmap string Takuzu) : Prop :=
  ∀ key s, sm !! key = Some s →
    solutionMap w0 !! key = Some s ∨ Board s = Board t ∨ (length (wHeap w0) ≤ Board s)%nat.

(** What [recurseSolve] needs of the board [t] it is given, for the root
    content [m0]. *)
Definition solvePre (m0 : matrix) (t : Takuzu) (w : world) : Prop :=
  ∃ m, wfBoard (wHeap w) t m ∧ matrixOk m ∧ extendsM m0 m
    ∧ mapGood (wHeap w) m0 (solutionMap w) ∧ unrecorded t (solutionMap w).

(** What [recurseSolve] guarantees when it returns. *)
Definition solvePost (m0 : matrix) (t : Takuzu) (w0 w' : world) : Prop :=
  frame (Board t) (wHeap w0) (wHeap w')
  ∧ mapGood (wHeap w') m0 (solutionMap w') ∧ newAt t w0 (solutionMap w').

(** The state of a node of the search between two steps: the board [t] has
    content [m]. *)
Definition solveMid (m0 : matrix) (t : Takuzu) (w0 : world) (m : matrix) (w : world) : Prop :=
  wfBoard (wHeap w) t m ∧ matrixOk m ∧ extendsM m0 m
  ∧ frame (Board t) (wHeap w0) (wHeap w)
  ∧ mapGood (wHeap w) m0 (solutionMap w) ∧ unrecorded t (solutionMap w)
  ∧ newAt t w0 (solutionMap w).

(** [m] and [m1] agree everywhere but possibly at [(l, c)]. *)
Definition sameExcept (m1 : matrix) (l c : nat) (m : matrix) : Prop :=
  ∀ l' c', (l', c') ≠ (l, c) → cellAt m l' c' = cellAt m1 l' c'.

(** The state of a node while it guesses the cell [(l, c)], undefined in the
    content [m1] that the trivial fixpoint left. *)
Definition guessMid (m0 : matrix) (t : Takuzu) (w0 : world) (m1 : matrix) (l c : nat)
    (w : world) : Prop :=
  ∃ m, solveMid m0 t w0 m w ∧ sameExcept m1 l c m.

(** What the recursive call is assumed to do, and what the next pass of the
    outer loop is assumed to do. *)
Definition childSpec (m0 : matrix) (child : Takuzu → W (option solveError)) : Prop :=
  ∀ tx w1 err w2, solvePre m0 tx w1 → child tx w1 = Done (err, w2) → solvePost m0 tx w1 w2.

(** A run of the solver in enumerate-all mode on the empty 2 x 2 board. *)
Definition emptyBoard2 : matrix := [[zeroCell; zeroCell]; [zeroCell; zeroCell]].

Definition enumerateAll2 : outcome (option Takuzu * option solveError * list Takuzu * heap) :=
  Eval vm_compute in
    TrySolveRecurse 0 true 0 (λ _, false) (λ _, true) 8 (mkTakuzu 2 0) [] [emptyBoard2].

(** A test for [matrixOk]. *)
Definition cellOkb (x : Cell) : bool := negb (Defined x) || (Value x =? 0) || (Value x =? 1).
Definition matrixOkb (m : matrix) : bool := forallb (forallb cellOkb) m.

(** Whatever [m] returns, [m'] returns too. *)
Definition refines {S A} (m m' : M S A) : Prop := ∀ s r, m s = Done r → m' s = Done r.

(** ** Further notions used in the proofs *)

(** Two cells that [BoardsMatch] takes for equal: with [ignoreUndefined],
    two defined cells must hold the same value; without, the cells must also
    be both defined or both undefined. *)
Definition agree (ignoreUndefined : bool) (x y : Cell) : Prop :=
  if ignoreUndefined then Defined x = true → Defined y = true → Value x = Value y
  else sameCell x y.

#[global] Instance agree_dec ign x y : Decision (agree ign x y).
Proof. unfold agree, sameCell. destruct ign; apply _. Defined.

(** A test for [squareM]. *)
Definition squareMb (n : nat) (m : matrix) : bool :=
  bool_decide (length m = n) && forallb (λ row, bool_decide (length row = n)) m.

(** A board used to illustrate the statements. *)
Definition sampleBoard : matrix :=
  [[cellOf 0; cellOf 0; zeroCell; zeroCell];
   [zeroCell; zeroCell; zeroCell; zeroCell];
   [zeroCell; zeroCell; zeroCell; cellOf 1];
   [zeroCell; cellOf 1; zeroCell; zeroCell]].

(** The characters that [NewFromString] accepts, and the cell each one
    stands for. *)
Definition validChar (ch : ascii) : Prop :=
  ch = "0"%char ∨ ch = "O"%char ∨ ch = "1"%char ∨ ch = "I"%char ∨ ch = "."%char.

#[global] Instance validChar_dec ch : Decision (validChar ch).
Proof. unfold validChar. apply _. Defined.

Definition decodeCell (ch : ascii) : Cell :=
  if decide (ch = "0"%char ∨ ch = "O"%char) then cellOf 0
  else if decide (ch = "1"%char ∨ ch = "I"%char) then cellOf 1
  else zeroCell.

(** The text with the letters O and I replaced by the digits 0 and 1. *)
Definition canonChar (ch : ascii) : ascii :=
  if decide (ch = "O"%char) then "0"%char
  else if decide (ch = "I"%char) then "1"%char
  else ch.

Fixpoint canonString (s : string) : string :=
  match s with
  | EmptyString => EmptyString
  | String ch rest => String (canonChar ch) (canonString rest)
  end.

(** A board that breaks the rules: three zeros in a row on line 0. *)
Definition sampleBad : matrix :=
  [[cellOf 0; cellOf 0; cellOf 0; zeroCell];
   [zeroCell; zeroCell; zeroCell; zeroCell];
   [zeroCell; zeroCell; zeroCell; cellOf 1];
   [zeroCell; cellOf 1; zeroCell; zeroCell]].

(** [fmt.Sprintf("%d", i)] for an index. *)
Definition num (i : nat) : string := formatInt (Z.of_nat i).

(** The texts of the errors that [Validate] can return about line or
    column [i]; [axis] is "line" or "column". *)
Definition validateTexts (axis : string) (i : nat) : list string :=
  [axis +:+ " " +:+ num i +:+ ": 3+ same values 0";
   axis +:+ " " +:+ num i +:+ ": 3+ same values 1";
   axis +:+ " " +:+ num i +:+ ": too many zeroes";
   axis +:+ " " +:+ num i +:+ ": too many ones";
   "duplicate " +:+ axis +:+ "s (" +:+ num i +:+ ")"].

(** The number whose binary digits, lowest first, are [vals]. *)
Definition bitsZ (vals : list Z) : Z := foldr (λ v acc, v + 2 * acc) 0 vals.

(** What the loop of [Validate] knows exactly before pass [k]: the sets hold
    the fingerprints of the fully defined lines and columns below [k], and
    [finished] tells whether all of these are fully defined. *)
Definition validateInv2 (m : matrix) (k : nat) (st : validateState) : Prop :=
  (∀ hv, seen (lineVals st) hv = true
         ↔ ∃ j, (j < k)%nat ∧ allDefined (rowM m j) ∧ computeVal (rowM m j) = hv)
  ∧ (∀ hv, seen (colVals st) hv = true
           ↔ ∃ j, (j < k)%nat ∧ allDefined (colM m j) ∧ computeVal (colM m j) = hv)
  ∧ (finished st = true
     ↔ ∀ j, (j < k)%nat → allDefined (rowM m j) ∧ allDefined (colM m j)).

(** The rules that a line or a column must follow. *)
Definition rangeRules (cells : list Cell) : Prop :=
  ¬ hasRun3 cells
  ∧ countValue 0 cells ≤ half (length cells)
  ∧ countValue 1 cells ≤ half (length cells).

(** The rules of the game on a board: every line and every column follows
    the range rules, no two fully defined lines hold the same values, and no
    two fully defined columns do. *)
Definition takuzuRules (m : matrix) : Prop :=
  (∀ i, (i < length m)%nat → rangeRules (rowM m i) ∧ rangeRules (colM m i))
  ∧ (∀ i j, (i < j)%nat → (j < length m)%nat →
       allDefined (rowM m i) → allDefined (rowM m j) →
       Value <$> rowM m i ≠ Value <$> rowM m j)
  ∧ (∀ i j, (i < j)%nat → (j < length m)%nat →
       allDefined (colM m i) → allDefined (colM m j) →
       Value <$> colM m i ≠ Value <$> colM m j).

(** The same with the fingerprints that [Validate] compares. *)
Definition fingerprintRules (m : matrix) : Prop :=
  (∀ i, (i < length m)%nat → rangeGood (rowM m i) ∧ rangeGood (colM m i))
  ∧ (∀ i j, (i < j)%nat → (j < length m)%nat →
       allDefined (rowM m i) → allDefined (rowM m j) →
       computeVal (rowM m i) ≠ computeVal (rowM m j))
  ∧ (∀ i j, (i < j)%nat → (j < length m)%nat →
       allDefined (colM m i) → allDefined (colM m j) →
       computeVal (colM m i) ≠ computeVal (colM m j)).

(** A 66 x 66 board whose first two lines are fully defined, follow the
    range rules, and differ in their last two cells only. *)
Definition widePattern : list Cell :=
  concat (replicate 16 [cellOf 0; cellOf 1; cellOf 1; cellOf 0]).

Definition wideBoard : matrix :=
  (widePattern ++ [cellOf 0; cellOf 1])
  :: (widePattern ++ [cellOf 1; cellOf 0])
  :: replicate 64 (replicate 66 zeroCell).

(** The errors that [Validate] can return about line [i], and about
    column [i]. *)
Definition lineErrors (i : nat) : list validationError :=
  [withLine (adjacentError 0) i; withLine (adjacentError 1) i;
   withLine (tooManyError 0) i; withLine (tooManyError 1) i; duplicateLine i].
Definition columnErrors (i : nat) : list validationError :=
  [withColumn (adjacentError 0) i; withColumn (adjacentError 1) i;
   withColumn (tooManyError 0) i; withColumn (tooManyError 1) i; duplicateColumn i].

(** The range [S] keeps every defined cell of the range [cells]. *)
Definition extendsCells (cells S : list Cell) : Prop :=
  Forall2 (λ x y, Defined x = true → y = x) cells S.

(** [S] is a solution of the board [m]: a board of the same size that
    [Validate] accepts as fully defined and that keeps the defined cells
    of [m]. *)
Definition solutionOf (m S : matrix) : Prop :=
  squareM (length m) S ∧ validateM S = Some (true, None) ∧ extendsM m S.

(** The trivial deduction finds nothing at [(l, c)]: the cell is defined, or
    [guessPos] answers -1 for it. *)
Definition quiet (m : matrix) (l c : nat) : Prop :=
  ∀ x, cellAt m l c = Some x → Defined x = false → guessSpec m l c = -1.

(** *** Completeness of the search *)

(** The error is not a timeout, as the solver tests it: by its text. *)
Definition noTimeout (err : option solveError) : Prop :=
  ∀ e, err = Some e → causeText e ≠ "timeout"%string.

(** A board is recorded under the key [k]. *)
Definition recorded (k : string) (w : world) : Prop := is_Some (solutionMap w !! k).

(** What the recursive call is assumed to do for the solution [S]: started
    on a board that [S] extends, and returning without a timeout, it has
    recorded a board under the text of [S]. *)
Definition completeFor (m0 S : matrix) (child : Takuzu → W (option solveError)) : Prop :=
  ∀ tx w1 err w2 mx,
    solvePre m0 tx w1 → wfBoard (wHeap w1) tx mx → squareM (Size tx) S → extendsM mx S →
    child tx w1 = Done (err, w2) → noTimeout err → recorded (encodeM S) w2.

(** The solutions whose cell [(l, c)] holds [v] are accounted for. *)
Definition known (S : matrix) (l c : nat) (v : Z) (w : world) : Prop :=
  cellAt S l c = Some (cellOf v) → recorded (encodeM S) w.

(** *** Soundness of the errors *)

(** The error, if there is one, is a timeout. *)
Definition onlyTimeout (err : option solveError) : Prop :=
  ∀ e, err = Some e → causeText e = "timeout"%string.

(** The board [t] holds a content that [S] extends. *)
Definition keeps (t : Takuzu) (S : matrix) (w : world) : Prop :=
  ∀ m, wfBoard (wHeap w) t m → extendsM m S.

(** What the recursive call is assumed to do for the solution [S]: started
    on a board that [S] extends, it returns no error but a timeout. *)
Definition soundFor (m0 S : matrix) (child : Takuzu → W (option solveError)) : Prop :=
  ∀ tx w1 err w2 mx,
    solvePre m0 tx w1 → wfBoard (wHeap w1) tx mx → squareM (Size tx) S → extendsM mx S →
    child tx w1 = Done (err, w2) → onlyTimeout err.

(** The number of values among [vals] that [S] does not hold at [(l, c)]. *)
Definition misses (S : matrix) (l c : nat) (vals : list Z) : Z :=
  Z.of_nat (length (filter (λ v, cellAt S l c ≠ Some (cellOf v)) vals)).

(** A board that breaks no rule as it stands, and has no solution: lines 0
    and 2 can only be completed to the same line. *)
Definition sampleUnsolvable : matrix :=
  [[cellOf 0; cellOf 0; zeroCell; zeroCell];
   [zeroCell; zeroCell; zeroCell; zeroCell];
   [zeroCell; zeroCell; cellOf 1; cellOf 1];
   [zeroCell; zeroCell; zeroCell; zeroCell]].

(** *** The board returned in first-solution mode *)

(** The board that [singleSolution] points to, if any, has the size of the
    root content [m0] and is a solution that extends it. *)
Definition singleGood (h : heap) (m0 : matrix) (ss : option Takuzu) : Prop :=
  ∀ s, ss = Some s → Size s = length m0 ∧ ∃ key, goodSolution h m0 key s.

(** [singleSolution] does not point to the storage of [t]. *)
Definition singleOff (t : Takuzu) (ss : option Takuzu) : Prop :=
  ∀ s, ss = Some s → Board s ≠ Board t.

(** [singleSolution] is as it was in the world [w0], or points to the
    storage of [t] or to storage allocated since. *)
Definition singleNew (t : Takuzu) (w0 : world) (ss : option Takuzu) : Prop :=
  ∀ s, ss = Some s →
    singleSolution w0 = Some s ∨ Board s = Board t ∨ (length (wHeap w0) ≤ Board s)%nat.

Definition hasSingle (w : world) : Prop := is_Some (singleSolution w).

(** What [recurseSolve] needs, guarantees and maintains about
    [singleSolution]; with the flag [b] set, that it is not nil. *)
Definition singlePre (m0 : matrix) (t : Takuzu) (w : world) : Prop :=
  singleGood (wHeap w) m0 (singleSolution w) ∧ singleOff t (singleSolution w).

Definition singlePost (m0 : matrix) (b : bool) (t : Takuzu) (w0 w' : world) : Prop :=
  singleGood (wHeap w') m0 (singleSolution w') ∧ singleNew t w0 (singleSolution w')
  ∧ (b = true → hasSingle w').

Definition singleMid (m0 : matrix) (b : bool) (t : Takuzu) (w0 w : world) : Prop :=
  singleGood (wHeap w) m0 (singleSolution w) ∧ singleOff t (singleSolution w)
  ∧ singleNew t w0 (singleSolution w)
  ∧ (b = true → hasSingle w).

(** What the recursive call is assumed to do about [singleSolution]; in
    first-solution mode a call that returns no error has set it. *)
Definition childSingle (globalSearch : bool) (m0 : matrix)
    (child : Takuzu → W (option solveError)) : Prop :=
  ∀ b tx w1 err w2,
    solvePre m0 tx w1 → singlePre m0 tx w1 → Size tx = length m0 →
    (b = true → hasSingle w1) →
    child tx w1 = Done (err, w2) →
    singlePost m0 b tx w1 w2 ∧ (globalSearch = false → err = None → hasSingle w2).

(** *** Termination of the search *)

(** The recursive call returns on every board with fewer than [k] undefined
    cells. *)
Definition childTotal (m0 : matrix) (k : nat) (child : Takuzu → W (option solveError)) : Prop :=
  ∀ tx w1 mx, solvePre m0 tx w1 → wfBoard (wHeap w1) tx mx → (undefinedCount mx < k)%nat →
    ∃ r, child tx w1 = Done r.

(** Once [changed] is set, the board [t] has fewer undefined cells than the
    content [m1] that the trivial fixpoint left. *)
Definition progress (t : Takuzu) (m1 : matrix) (st : guessState) (w : world) : Prop :=
  changed st = true → ∀ m, wfBoard (wHeap w) t m → (undefinedCount m < undefinedCount m1)%nat.

(** ** Removing cells at random ([removeRandomCell], [build.go]) *)

(** What the functions that build a puzzle work on: the heap, the number of
    random draws made so far, and the number of searches started so far. *)
Record rworld := mkRworld { rHeap : heap; draws : nat; searches : nat }.

Abbreviation R := (M rworld).

(** A board operation inside such a function. *)
Definition liftR {A} (m : H A) : R A :=
  λ w, match m (rHeap w) with
       | Done (a, h) => Done (a, mkRworld h (draws w) (searches w))
       | Panic => Panic
       | OutOfFuel => OutOfFuel
       end.

(** [s[i]] and [s[i] = p] for an [int] index. *)
Definition indexZ {A S} (s : list A) (i : Z) : M S A :=
  if 0 <=? i then orPanic (s !! Z.to_nat i) else panic.

Definition setIndexZ {A S} (s : list A) (i : Z) (p : A) : M S (list A) :=
  if 0 <=? i then setIndex s (Z.to_nat i) p else panic.

(** [append(s[:i], s[i+1:]...)]: the slice without its element [i].  The
    slice expression [s[i+1:]] panics when [i+1] exceeds the length; the
    elements are moved inside the array of [s], whose capacity is at least
    its length. *)
Definition removeIndex {A S} (s : list A) (i : nat) : M S (list A) :=
  if decide (i + 1 ≤ length s)%nat then mret (take i s ++ drop (i + 1) s) else panic.

(** The loops that collect the addresses of the defined cells in [fields],
    a slice of [size*size] nil pointers at first, and count them in [n]. *)
Definition collectDefined (size : nat) (tak : Takuzu) : H (list cellPtr * Z) :=
  rows ← getRows tak;
  forM (λ l st,
    row ← getRow tak l;
    forM (λ c '(fields, n),
      x ← loadCell tak l c;
      if Defined x then
        p ← addrCell tak l c;
        fields' ← setIndexZ fields n p;
        mret (fields', n + 1)
      else mret (fields, n)) (upto (length row)) st)
    (upto (length rows)) (replicate (size * size) None, 0).

(** [p.Defined = d] through the pointer [p]. *)
Definition setDefinedPtr (p : cellPtr) (d : bool) : H unit :=
  x ← loadPtr p; storePtr p (mkCell d (Value x)).

Section Random.
(** The number that the [k]-th call of [rand.Intn] answers, for its
    argument. *)
Variable intn : nat → Z → Z.

(** [rand.Intn(n)]; it panics when [n <= 0]. *)
Definition rand_Intn (n : Z) : R Z :=
  λ w, if n <=? 0 then Panic
       else Done (intn (draws w) n, mkRworld (rHeap w) (S (draws w)) (searches w)).

(** One pass of [for i := 0; i < number; i++]; [inr] is the [return]. *)
Definition removeStep (i : nat) (st : list cellPtr * Z) : R (list cellPtr * Z + unit) :=
  let '(fields, n) := st in
  if n =? 0 then mret (inr tt)
  else
    k ← rand_Intn n;
    p ← indexZ fields k;
    liftR (setDefinedPtr p false);;
    fields' ← removeIndex fields i;
    mret (inl (fields', n - 1)).

Definition removeRandomCell (tak : Takuzu) (number : Z) : R unit :=
  st ← liftR (collectDefined (Size tak) tak);
  loopM removeStep (upto (Z.to_nat number)) st;;
  mret tt.

(** *** Reducing a board ([ReduceBoard]) *)

(** [schrodLvl], the package variable set by [SetSchrodingerLevel]. *)
Variable schrodLvl : nat.
(** For the search started after [s] others, the answers of the clock and,
    in Schrodinger mode, of the scheduler (see [TrySolveRecurse]). *)
Variable expired zeroFirst : nat → nat → bool.
(** The fuel given to each search and to each trivial resolution. *)
Variable fuel : nat.

(** [b.TrySolveRecurse(allSol, timeout)], [allSol] pointing to the slice
    [acc]. *)
Definition search (timeout : Z) (b : Takuzu) (acc : list Takuzu)
  : R (option Takuzu * option solveError * list Takuzu) :=
  λ w, match TrySolveRecurse schrodLvl true timeout
               (expired (searches w)) (zeroFirst (searches w)) fuel b acc (rHeap w) with
       | Done (r, h) => Done (r, mkRworld h (draws w) (S (searches w)))
       | Panic => Panic
       | OutOfFuel => OutOfFuel
       end.

(** [err != nil] and [err != nil && errors.Cause(err).Error() == "timeout"] *)
Definition isError (err : option solveError) : bool :=
  match err with Some _ => true | None => false end.
Definition isTimeout (err : option solveError) : bool :=
  match err with Some e => String.eqb (causeText e) "timeout" | None => false end.

(** The test of the reduction loop: the value of [rollback] after the
    [if trivial { ... } else { ... }]. *)
Definition reduceTest (tak : Takuzu) (trivial : bool) (reduceBoardTimeout : Z) : R bool :=
  if trivial then
    c ← liftR (Clone tak);
    '(full, err) ← liftR (TrySolveTrivial fuel c);
    mret (isError err || negb full)
  else
    c ← liftR (Clone tak);
    '(_, err, allSol) ← search reduceBoardTimeout c [];
    mret (isError err || negb (Z.of_nat (length allSol) =? 1)).

(** One pass of [for ; n > 0; n--], for the current value of [n]: a cell
    picked in the list is made undefined, and defined again when the board
    fails the test; it leaves the list in both cases. *)
Definition reduceStep (tak : Takuzu) (trivial : bool) (reduceBoardTimeout : Z)
    (n : Z) (fields : list cellPtr) : R (list cellPtr) :=
  i ← rand_Intn n;
  p ← indexZ fields i;
  liftR (setDefinedPtr p false);;
  rollback ← reduceTest tak trivial reduceBoardTimeout;
  (if (rollback : bool) then p ← indexZ fields i; liftR (setDefinedPtr p true)
   else mret tt);;
  removeIndex fields (Z.to_nat i).

(** [ReduceBoard]: the board returned and the error.  With one solution
    found the board reduced is the board given itself, with several it is
    one of the solutions. *)
Definition ReduceBoard (tak : Takuzu) (trivial : bool)
    (buildBoardTimeout reduceBoardTimeout : Z) : R (option Takuzu * option solveError) :=
  let size := Size tak in
  c ← liftR (Clone tak);
  '(_, err, allSol) ← search buildBoardTimeout c [];
  let ns := Z.of_nat (length allSol) in
  if isTimeout err && (ns =? 0) then mret (None, err)
  else if ns =? 0 then mret (None, err)
  else
    tak ← (if 1 <? ns then k ← rand_Intn ns; indexZ allSol k else mret tak);
    '(fields, n) ← liftR (collectDefined size tak);
    forM (λ j fields, reduceStep tak trivial reduceBoardTimeout (n - Z.of_nat j) fields)
      (upto (Z.to_nat n)) fields;;
    mret (Some tak, None).
End Random.

(** Number of defined cells. *)
Definition countDefined (cells : list Cell) : nat :=
  length (filter (λ x, Defined x = true) cells).
Definition definedCount (m : matrix) : nat := countDefined (concat m).

(** [m'] is [m] with some defined cells made undefined, their numbers
    kept. *)
Definition erasedFrom (m m' : matrix) : Prop :=
  ∀ l c, cellAt m' l c = cellAt m l c
         ∨ ∃ x, cellAt m l c = Some x ∧ Defined x = true
                ∧ cellAt m' l c = Some (mkCell false (Value x)).

(** The first [cnt] pointers of [fields] point to cells of the storage [a]
    that are defined in [m]. *)
Definition validPrefix (a : nat) (m : matrix) (fields : list cellPtr) (cnt : nat) : Prop :=
  ∀ j, (j < cnt)%nat →
    ∃ l c x, fields !! j = Some (Some (a, l, c)) ∧ cellAt m l c = Some x ∧ Defined x = true.

(** What holds before pass [i] of the removal loop, started on the heap [h]
    after [calls] draws with the board content [m]: the content is now [mi],
    and [fields] and [n] are as [st] says. *)
Definition removeInv (h : heap) (calls srch : nat) (tak : Takuzu) (m : matrix)
    (i : nat) (st : list cellPtr * Z) (w : rworld) : Prop :=
  ∃ mi, rHeap w = <[Board tak := mi]> h ∧ draws w = (calls + i)%nat ∧ searches w = srch
    ∧ squareM (Size tak) mi ∧ erasedFrom m mi
    ∧ (i = 0%nat → mi = m)
    ∧ (definedCount mi ≤ definedCount m)%nat
    ∧ (definedCount m ≤ definedCount mi + i)%nat
    ∧ (0 < i → definedCount mi < definedCount m)%nat
    ∧ (i ≤ definedCount m)%nat
    ∧ (length st.1 + i = Size tak * Size tak)%nat
    ∧ st.2 = Z.of_nat (definedCount m - i)
    ∧ validPrefix (Board tak) m st.1 (definedCount m - i).

(** A random source that always answers 0. *)
Definition alwaysZero : nat → Z → Z := λ _ _, 0.

(** A fully defined 2 x 2 board. *)
Definition fullBoard2 : matrix := [[cellOf 0; cellOf 1]; [cellOf 1; cellOf 0]].

(** *** Invariants of the reduction *)

(** Every recorded board has size [n]. *)
Definition mapSized (n : nat) (w : world) : Prop :=
  ∀ key s, solutionMap w !! key = Some s → Size s = n.

(** The board [m] has exactly one solution. *)
Definition uniqueSol (m : matrix) : Prop :=
  ∃ S, solutionOf m S ∧ ∀ S', solutionOf m S' → S' = S.

(** The first [cnt] pointers of [fields] point to cells of the storage [a]
    that are defined in its content [m], and no two of them are the same. *)
Definition livePrefix (a : nat) (m : matrix) (fields : list cellPtr) (cnt : nat) : Prop :=
  ∀ j, (j < cnt)%nat →
    ∃ l c x, fields !! j = Some (Some (a, l, c)) ∧ cellAt m l c = Some x ∧ Defined x = true.

Definition distinctPrefix (fields : list cellPtr) (cnt : nat) : Prop :=
  ∀ j1 j2 p, (j1 < cnt)%nat → (j2 < cnt)%nat →
    fields !! j1 = Some p → fields !! j2 = Some p → j1 = j2.

(** What holds before pass [j] of the reduction loop on the board stored at
    [a], of size [n], whose content was [B0], with [n0] defined cells, when
    the loop started. *)
Definition reduceInv (a n : nat) (B0 : matrix) (n0 j : nat)
    (fields : list cellPtr) (w : rworld) : Prop :=
  ∃ mj, rHeap w !! a = Some mj ∧ squareM n mj ∧ erasedFrom B0 mj
    ∧ (mj = B0 ∨ uniqueSol mj)
    ∧ (length fields + j = n * n)%nat
    ∧ livePrefix a mj fields (n0 - j)
    ∧ distinctPrefix fields (n0 - j).
(** * Properties *)

(** ** Range checks *)

Example checkRange_ex1 :
  checkRange [cellOf 0; cellOf 1; cellOf 1; cellOf 1; zeroCell; cellOf 0]
  = Some (true, Some (adjacentError 1)).
Proof. reflexivity. Qed.

Example checkRange_ex2 :
  checkRange [cellOf 0; zeroCell; cellOf 0; cellOf 0] = Some (false, Some (tooManyError 0)).
Proof. reflexivity. Qed.

Example checkRange_ex3 :
  checkRange [cellOf 1; cellOf 0; cellOf 0; cellOf 1] = Some (true, None).
Proof. reflexivity. Qed.

Example checkRange_panics : checkRange [cellOf 2] = None.
Proof. reflexivity. Qed.

Example checkRange_bool_unreliable :
  checkRange [cellOf 1; cellOf 1; cellOf 1; zeroCell] = Some (true, Some (adjacentError 1))
  ∧ ¬ allDefined [cellOf 1; cellOf 1; cellOf 1; zeroCell].
Proof.
  split; [reflexivity|]. intros H. repeat (apply Forall_cons_1 in H as [? H]). discriminate.
Qed.

Lemma cell_eta (c : Cell) : c = mkCell (Defined c) (Value c).
Proof. by destruct c. Qed.

Lemma cellOf_iff (c : Cell) (v : Z) : c = cellOf v ↔ Defined c = true ∧ Value c = v.
Proof. destruct c; unfold cellOf; simpl. split; [by intros [= -> ->] | by intros [-> ->]]. Qed.

Lemma countValue_nil v : countValue v [] = 0.
Proof. reflexivity. Qed.

Lemma countValue_cons v c cells :
  countValue v (c :: cells)
  = (if decide (Defined c = true ∧ Value c = v) then 1 else 0) + countValue v cells.
Proof.
  unfold countValue. rewrite filter_cons. case_decide; simpl; lia.
Qed.

Lemma countValue_snoc v cells c :
  countValue v (cells ++ [c])
  = countValue v cells + (if decide (Defined c = true ∧ Value c = v) then 1 else 0).
Proof.
  unfold countValue. rewrite filter_app, length_app, filter_cons, filter_nil.
  case_decide; simpl; lia.
Qed.

Lemma countValue_nonneg v cells : 0 ≤ countValue v cells.
Proof. unfold countValue. lia. Qed.

Lemma allDefined_snoc cells c :
  allDefined (cells ++ [c]) ↔ allDefined cells ∧ Defined c = true.
Proof.
  unfold allDefined. rewrite Forall_app, Forall_singleton. tauto.
Qed.

(** A run of three in [p ++ [c]] lies in [p] or ends at [c]. *)
Lemma run3At_snoc p c i v :
  run3At (p ++ [c]) i v →
  run3At p i v ∨ (∃ q, p = q ++ [cellOf v; cellOf v] ∧ c = cellOf v ∧ i = length q).
Proof.
  intros (H0 & H1 & H2).
  destruct (decide (S (S i) < length p)%nat) as [Hlt|Hge].
  - left. rewrite !lookup_app_l in H0, H1, H2 by lia. done.
  - right. assert (S (S i) = length p) as Hlen.
    { apply lookup_lt_Some in H2. rewrite length_app in H2. simpl in H2. lia. }
    exists (take i p). 
    rewrite lookup_app_l in H0 by lia. rewrite lookup_app_l in H1 by lia.
    rewrite lookup_app_r in H2 by lia.
    replace (S (S i) - length p)%nat with 0%nat in H2 by lia. simpl in H2.
    split_and!; [| congruence | rewrite length_take; lia].
    rewrite <- (take_drop i p) at 1. f_equal.
    apply list_eq. intros [|[|k]]; rewrite lookup_drop; simpl.
    + by rewrite Nat.add_0_r.
    + by rewrite Nat.add_1_r.
    + apply lookup_ge_None_2. lia.
Qed.

Lemma run3At_prefix p rest i v :
  (S (S i) < length p)%nat → run3At (p ++ rest) i v → run3At p i v.
Proof.
  intros Hlt (H0 & H1 & H2). rewrite !lookup_app_l in H0, H1, H2 by lia. done.
Qed.

Lemma scanInv_init : scanInv [] rangeScan0.
Proof.
  split_and!; [split; [constructor | done] | done | | left; auto].
  intros i v (H & _). by rewrite lookup_nil in H.
Qed.

Lemma incrCounter_ok n0 n1 v :
  v = 0 ∨ v = 1 →
  incrCounter [n0; n1] v
  = Some [n0 + (if decide (v = 0) then 1 else 0); n1 + (if decide (v = 1) then 1 else 0)].
Proof.
  intros [-> | ->]; unfold incrCounter; simpl; f_equal; f_equal; try lia.
  f_equal; lia.
Qed.

Lemma incrCounter_inv cnt v cnt' :
  length cnt = 2%nat → incrCounter cnt v = Some cnt' →
  (v = 0 ∨ v = 1) ∧ length cnt' = 2%nat.
Proof.
  intros Hlen. unfold incrCounter. case_decide; [done|].
  destruct (cnt !! Z.to_nat v) as [n|] eqn:Hn; [|done]. simpl. intros [= <-].
  apply lookup_lt_Some in Hn. rewrite length_insert. split; [lia | done].
Qed.

Lemma scan_counters_step p c s :
  counters s = [countValue 0 p; countValue 1 p] →
  Defined c = true → cellOk c →
  ∃ cnt, incrCounter (counters s) (Value c) = Some cnt
    ∧ cnt = [countValue 0 (p ++ [c]); countValue 1 (p ++ [c])].
Proof.
  intros -> Hd Hok. specialize (Hok Hd).
  rewrite incrCounter_ok by done. eexists; split; [done|].
  rewrite !countValue_snoc.
  destruct (cell_eta c). simpl in *. subst.
  destruct Hok as [-> | ->]; repeat case_decide; try done; intuition lia.
Qed.

Lemma snoc2_eq {A} (q q' : list A) (a b a' b' : A) :
  q ++ [a; b] = q' ++ [a'; b'] → q = q' ∧ a = a' ∧ b = b'.
Proof.
  intros H. change (q ++ [a] ++ [b] = q' ++ [a'] ++ [b']) in H.
  rewrite !app_assoc in H. apply app_inj_tail in H as [H ->].
  apply app_inj_tail in H as [-> ->]. done.
Qed.

(** One iteration of the scan on an undefined cell. *)
Lemma scanInv_undefined p c s :
  scanInv p s → Defined c = false →
  scanInv (p ++ [c]) (mkRangeScan false (counters s) (mkCell false (Value (prevCell s))) 0).
Proof.
  intros (Hf & Hc & Hn & Ht) Hd. split_and!; simpl.
  - rewrite allDefined_snoc. split; [done | intros [_ ?]; congruence].
  - rewrite Hc, !countValue_snoc. repeat case_decide; try (f_equal; [|f_equal]; lia);
      intuition congruence.
  - intros i v [H | (q & _ & -> & _)]%run3At_snoc; [by eapply Hn | done].
  - left. split; [done|]. right. eauto.
Qed.

(** One iteration on a defined cell that does not complete a run of three:
    the new run length [n] is the one the code computes. *)
Lemma scanInv_defined p c s cnt :
  scanInv p s → Defined c = true →
  cnt = [countValue 0 (p ++ [c]); countValue 1 (p ++ [c])] →
  ¬ (prevCellCount s = 2 ∧ Value c = Value (prevCell s)) →
  scanInv (p ++ [c])
    (mkRangeScan (full s) cnt c
       (if prevCellCount s =? 0 then 1
        else if Value c =? Value (prevCell s) then prevCellCount s + 1 else 1)).
Proof.
  intros (Hf & Hc & Hn & Ht) Hd -> Hno.
  assert (Hcv : c = cellOf (Value c)) by (by apply cellOf_iff).
  split_and!; simpl.
  - rewrite allDefined_snoc. tauto.
  - done.
  - intros i v [H | (q & Hp & Hcq & _)]%run3At_snoc; [by eapply Hn|].
    assert (v = Value c) as -> by (rewrite Hcq; done).
    destruct Ht as [(_ & [-> | (q1 & c1 & -> & Hd1)]) | [(_ & Hd1 & q1 & -> & Hq1) | (H2 & Hd1 & q1 & Hq1)]].
    + by destruct q as [|? [|? ?]].
    + change (q1 ++ [c1] = q ++ [cellOf (Value c)] ++ [cellOf (Value c)]) in Hp.
      rewrite app_assoc in Hp. apply app_inj_tail in Hp as [_ Hp]. by rewrite Hp in Hd1.
    + change (q1 ++ [prevCell s] = q ++ [cellOf (Value c)] ++ [cellOf (Value c)]) in Hp.
      rewrite app_assoc in Hp. apply app_inj_tail in Hp as [-> Hp].
      destruct Hq1 as [Hq1 | (q' & c2 & Hq1 & Hne)].
      * by destruct q.
      * apply app_inj_tail in Hq1 as [_ <-]. rewrite Hp in Hne. done.
    + rewrite Hq1 in Hp. apply snoc2_eq in Hp as (_ & _ & Hp).
      apply Hno. split; [done|]. by rewrite Hp.
  - destruct Ht as [(H0 & Hp) | [(H1 & Hd1 & q1 & -> & Hq1) | (H2 & Hd1 & q1 & ->)]].
    + rewrite H0. simpl. right; left. split_and!; [done..|].
      exists p. split; [done|]. destruct Hp as [-> | (q & c1 & -> & Hd1)]; [by left|].
      right. exists q, c1. split; [done|]. intros Heq. by rewrite Heq in Hd1.
    + rewrite H1. simpl. destruct (Z.eqb_spec (Value c) (Value (prevCell s))) as [He|Hne].
      * right; right. simpl. split_and!; [done..|]. exists q1.
        assert (prevCell s = c) as ->.
        { rewrite Hcv. apply cellOf_iff. done. }
        by rewrite <- app_assoc.
      * right; left. split_and!; [done..|]. eexists; split; [done|].
        right. exists q1, (prevCell s). split; [done|].
        intros [_ ?]%cellOf_iff. simpl in *. congruence.
    + rewrite H2. simpl. destruct (Z.eqb_spec (Value c) (Value (prevCell s))) as [He|Hne].
      * exfalso. by apply Hno.
      * right; left. split_and!; [done..|]. eexists; split; [done|].
        right. exists (q1 ++ [prevCell s]), (prevCell s). split; [by rewrite <- app_assoc|].
        intros [_ ?]%cellOf_iff. simpl in *. congruence.
Qed.

Lemma scanTail_count p s :
  scanTail p s → prevCellCount s = 0 ∨ prevCellCount s = 1 ∨ prevCellCount s = 2.
Proof. intros [(? & _) | [(? & _) | (? & _)]]; auto. Qed.

(** The scan from the state reached after [p]: it ends in the invariant for
    the whole range, or returns the adjacency error of the leftmost run. *)
Lemma checkRangeLoop_spec rest : ∀ p s,
  scanInv p s →
  match checkRangeLoop rest s with
  | Some (inl s') => scanInv (p ++ rest) s'
  | Some (inr (_, e)) => ∃ v, e = adjacentError v ∧ firstRun3 (p ++ rest) v
  | None => True
  end.
Proof.
  induction rest as [|c rest IH]; intros p s Hinv; simpl.
  - by rewrite app_nil_r.
  - destruct (Defined c) eqn:Hd; simpl.
    + destruct (incrCounter (counters s) (Value c)) as [cnt0|] eqn:Hcnt0; [|done].
      assert (Hc : cellOk c).
      { intros _. eapply incrCounter_inv; [|done]. destruct Hinv as (_ & -> & _). done. }
      destruct (scan_counters_step p c s) as (cnt & Hcnt1 & Hcnt);
        [apply Hinv | done | done |].
      rewrite Hcnt0 in Hcnt1. injection Hcnt1 as ->. simpl.
      destruct (decide (prevCellCount s = 2 ∧ Value c = Value (prevCell s))) as [[H2 Hv]|Hno].
      * rewrite H2, Hv, Z.eqb_refl. simpl.
        destruct Hinv as (_ & _ & Hn & Ht).
        destruct Ht as [(? & _) | [(? & _) | (_ & Hd1 & q & ->)]]; [lia..|].
        assert (prevCell s = cellOf (Value (prevCell s))) as Hpc by (by apply cellOf_iff).
        assert (c = cellOf (Value (prevCell s))) as Hcc by (by apply cellOf_iff).
        exists (Value (prevCell s)). split; [done|].
        exists (length q). split.
        -- unfold run3At. generalize dependent (Value (prevCell s)). intros v _ -> ->.
           rewrite <- !app_assoc. simpl. split_and!.
           ++ by rewrite list_lookup_middle.
           ++ rewrite lookup_app_r by lia. by replace (S (length q) - length q)%nat with 1%nat by lia.
           ++ rewrite lookup_app_r by lia. by replace (S (S (length q)) - length q)%nat with 2%nat by lia.
        -- intros j w Hj Hr. apply (Hn j w). eapply run3At_prefix; [|done].
           rewrite length_app. simpl. lia.
      * pose proof (scanInv_defined p c s cnt Hinv Hd Hcnt Hno) as Hstep.
        assert (Hcount := scanTail_count p s (proj2 (proj2 (proj2 Hinv)))).
        replace (p ++ c :: rest) with ((p ++ [c]) ++ rest) by (by rewrite <- app_assoc).
        destruct (Z.eqb_spec (prevCellCount s) 0) as [H0|H0].
        { apply IH; done. }
        destruct (Z.eqb_spec (Value c) (Value (prevCell s))) as [Hv|Hv].
        { assert (prevCellCount s = 1) as H1 by (destruct Hcount as [?|[?|?]]; [lia | done | tauto]).
          rewrite H1 in *. simpl. apply IH; done. }
        apply IH; done.
    + replace (p ++ c :: rest) with ((p ++ [c]) ++ rest) by (by rewrite <- app_assoc).
      apply IH. by apply scanInv_undefined.
Qed.

(** On well-formed cells the scan does not panic. *)
Lemma checkRangeLoop_total rest : ∀ s,
  cellsOk rest → length (counters s) = 2%nat → checkRangeLoop rest s ≠ None.
Proof.
  induction rest as [|c rest IH]; intros s Hok Hlen; simpl; [done|].
  apply Forall_cons_1 in Hok as [Hc Hok].
  destruct (Defined c) eqn:Hd; simpl; [|by apply IH].
  destruct (counters s) as [|n0 [|n1 [|]]] eqn:Hcnt; try done.
  rewrite incrCounter_ok by (by apply Hc). simpl.
  repeat match goal with |- context [if ?b then _ else _] => destruct b end;
    try done; by apply IH.
Qed.

Lemma checkRange_total cells : cellsOk cells → is_Some (checkRange cells).
Proof.
  intros Hok. unfold checkRange.
  pose proof (checkRangeLoop_total cells rangeScan0 Hok eq_refl) as Hsome.
  pose proof (checkRangeLoop_spec cells [] rangeScan0 scanInv_init) as H.
  destruct (checkRangeLoop cells rangeScan0) as [[s|[b e]]|]; simpl in *; [|by eauto|done].
  destruct H as (_ & -> & _). simpl.
  repeat match goal with |- context [if ?b then _ else _] => destruct b end; eauto.
Qed.

Lemma firstRun3_hasRun3 cells v : firstRun3 cells v → hasRun3 cells.
Proof. intros (i & H & _). by exists i, v. Qed.

(** C5: [checkRange] returns on every range whose defined cells hold 0 or 1
    (on another value, [counters[c.Value]++] may panic).  Whenever it returns,
    it returns the adjacency error carrying the value of the leftmost run of
    three equal defined cells exactly when such a run exists; otherwise the
    too-many error for 0 when the defined zeros exceed half the length, else
    the too-many error for 1 when the defined ones do, else no error; and in
    these last three cases the boolean tells whether every cell is defined. *)
Theorem checkRange_correct (cells : list Cell) :
  (cellsOk cells → is_Some (checkRange cells))
  ∧ ∀ b oe, checkRange cells = Some (b, oe) →
      (hasRun3 cells ∧ ∃ v, firstRun3 cells v ∧ oe = Some (adjacentError v))
      ∨ (¬ hasRun3 cells
         ∧ oe = (if decide (countValue 0 cells > half (length cells))
                 then Some (tooManyError 0)
                 else if decide (countValue 1 cells > half (length cells))
                 then Some (tooManyError 1)
                 else None)
         ∧ (b = true ↔ allDefined cells)).
Proof.
  split; [apply checkRange_total|]. intros b oe. unfold checkRange.
  pose proof (checkRangeLoop_spec cells [] rangeScan0 scanInv_init) as H.
  simpl in H. destruct (checkRangeLoop cells rangeScan0) as [[s | [b' e]]|]; [| |done]; simpl.
  - destruct H as (Hf & Hc & Hn & _). rewrite Hc. simpl. intros Hrun.
    right. split; [intros (i & v & ?); by eapply Hn|].
    destruct (Z.gtb_spec (countValue 0 cells) (half (length cells)));
      [injection Hrun as <- <-; by rewrite decide_True by lia|].
    rewrite decide_False by lia.
    destruct (Z.gtb_spec (countValue 1 cells) (half (length cells)));
      injection Hrun as <- <-; [by rewrite decide_True by lia|].
    by rewrite decide_False by lia.
  - destruct H as (v & -> & Hfirst). intros [= <- <-].
    left. split; [by eapply firstRun3_hasRun3 | eauto].
Qed.

Lemma checkRange_correct_witness :
  checkRange [cellOf 0; zeroCell; cellOf 0; cellOf 0] = Some (false, Some (tooManyError 0))
  ∧ ((hasRun3 [cellOf 0; zeroCell; cellOf 0; cellOf 0]
      ∧ ∃ v, firstRun3 [cellOf 0; zeroCell; cellOf 0; cellOf 0] v
             ∧ Some (tooManyError 0) = Some (adjacentError v))
     ∨ (¬ hasRun3 [cellOf 0; zeroCell; cellOf 0; cellOf 0]
        ∧ Some (tooManyError 0)
          = (if decide (countValue 0 [cellOf 0; zeroCell; cellOf 0; cellOf 0] > half 4)
             then Some (tooManyError 0)
             else if decide (countValue 1 [cellOf 0; zeroCell; cellOf 0; cellOf 0] > half 4)
             then Some (tooManyError 1)
             else None)
        ∧ (false = true ↔ allDefined [cellOf 0; zeroCell; cellOf 0; cellOf 0]))).
Proof.
  split; [reflexivity|].
  exact (proj2 (checkRange_correct [cellOf 0; zeroCell; cellOf 0; cellOf 0])
           false (Some (tooManyError 0)) eq_refl).
Defined.

(** ** The string codec *)

Example formatInt_ex : formatInt 0 = "0"%string ∧ formatInt 1 = "1"%string
  ∧ formatInt 10 = "10"%string ∧ formatInt (-1) = "-1"%string.
Proof. repeat split. Qed.

Example NewFromString_ex :
  NewFromString "0I.1O..1.01.1..0" []
  = Done (inl (mkTakuzu 4 0),
          [[[cellOf 0; cellOf 1; zeroCell; cellOf 1];
            [cellOf 0; zeroCell; zeroCell; cellOf 1];
            [zeroCell; cellOf 0; cellOf 1; zeroCell];
            [cellOf 1; zeroCell; zeroCell; cellOf 0]]]).
Proof. vm_compute. reflexivity. Qed.

Example ToString_ex :
  (r ← NewFromString "0I.1O..1.01.1..0";
   match r with inl t => ToString t | inr e => mret e end) []
  = Done ("01.10..1.01.1..0"%string,
          [[[cellOf 0; cellOf 1; zeroCell; cellOf 1];
            [cellOf 0; zeroCell; zeroCell; cellOf 1];
            [zeroCell; cellOf 0; cellOf 1; zeroCell];
            [cellOf 1; zeroCell; zeroCell; cellOf 0]]]).
Proof. vm_compute. reflexivity. Qed.

(** ** Running monadic code *)

Lemma run_bind {S A B} (m : M S A) (f : A → M S B) s a s' :
  m s = Done (a, s') → (m ≫= f) s = f a s'.
Proof. unfold mbind, M_bind. by intros ->. Qed.

Lemma run_ret {S A} (a : A) (s : S) : (mret a : M S A) s = Done (a, s).
Proof. done. Qed.

Lemma bind_Done_inv {S A B} (m : M S A) (f : A → M S B) s r :
  (m ≫= f) s = Done r → ∃ a s', m s = Done (a, s') ∧ f a s' = Done r.
Proof.
  unfold mbind, M_bind. destruct (m s) as [[a s']| |]; [eauto | done | done].
Qed.

Lemma orPanic_Some {S A} (o : option A) (a : A) (s : S) :
  o = Some a → orPanic o s = Done (a, s).
Proof. by intros ->. Qed.

(** Loop rules: an invariant indexed by the number of iterations done. *)
Lemma forM_inv {S A B} (body : A → B → M S B) (xs : list A)
    (I : nat → B → S → Prop) acc s :
  I 0%nat acc s →
  (∀ k x acc s, xs !! k = Some x → I k acc s →
     ∃ acc' s', body x acc s = Done (acc', s') ∧ I (Datatypes.S k) acc' s') →
  ∃ acc' s', forM body xs acc s = Done (acc', s') ∧ I (length xs) acc' s'.
Proof.
  revert I acc s. induction xs as [|x xs IH]; intros I acc s H0 Hstep; simpl.
  - eauto.
  - destruct (Hstep 0%nat x acc s eq_refl H0) as (acc1 & s1 & Hb & H1).
    rewrite (run_bind _ _ _ _ _ Hb).
    apply (IH (λ k, I (Datatypes.S k))); [done|].
    intros k y acc2 s2 Hk. by apply Hstep.
Qed.

Lemma loopM_inv {S A B R} (body : A → B → M S (B + R)) (xs : list A)
    (I : nat → B → S → Prop) (Q : R → S → Prop) acc s :
  I 0%nat acc s →
  (∀ k x acc s, xs !! k = Some x → I k acc s →
     ∃ r s', body x acc s = Done (r, s')
       ∧ match r with inl acc' => I (Datatypes.S k) acc' s' | inr v => Q v s' end) →
  ∃ r s', loopM body xs acc s = Done (r, s')
    ∧ match r with inl acc' => I (length xs) acc' s' | inr v => Q v s' end.
Proof.
  revert I acc s. induction xs as [|x xs IH]; intros I acc s H0 Hstep; simpl.
  - exists (inl acc), s. eauto.
  - destruct (Hstep 0%nat x acc s eq_refl H0) as (r1 & s1 & Hb & H1).
    rewrite (run_bind _ _ _ _ _ Hb). destruct r1 as [acc1 | v].
    + apply (IH (λ k, I (Datatypes.S k))); [done|].
      intros k y acc2 s2 Hk. by apply Hstep.
    + exists (inr v), s1. eauto.
Qed.

Lemma upto_lookup (n k : nat) : (k < n)%nat → upto n !! k = Some k.
Proof. intros. unfold upto. by rewrite lookup_seq_lt. Qed.

Lemma upto_lookup_inv (n k x : nat) : upto n !! k = Some x → x = k ∧ (k < n)%nat.
Proof. unfold upto. intros [-> ?]%lookup_seq. split; [done|lia]. Qed.

Lemma upto_length (n : nat) : length (upto n) = n.
Proof. apply length_seq. Qed.

Lemma forM_upto {S B} (body : nat → B → M S B) (n : nat)
    (I : nat → B → S → Prop) acc s :
  I 0%nat acc s →
  (∀ k acc s, (k < n)%nat → I k acc s →
     ∃ acc' s', body k acc s = Done (acc', s') ∧ I (Datatypes.S k) acc' s') →
  ∃ acc' s', forM body (upto n) acc s = Done (acc', s') ∧ I n acc' s'.
Proof.
  intros H0 Hstep.
  destruct (forM_inv body (upto n) I acc s H0) as (acc' & s' & Hr & HI).
  - intros k x acc1 s1 [-> Hk]%upto_lookup_inv. by apply Hstep.
  - rewrite upto_length in HI. eauto.
Qed.

Lemma loopM_upto {S B R} (body : nat → B → M S (B + R)) (n : nat)
    (I : nat → B → S → Prop) (Q : R → S → Prop) acc s :
  I 0%nat acc s →
  (∀ k acc s, (k < n)%nat → I k acc s →
     ∃ r s', body k acc s = Done (r, s')
       ∧ match r with inl acc' => I (Datatypes.S k) acc' s' | inr v => Q v s' end) →
  ∃ r s', loopM body (upto n) acc s = Done (r, s')
    ∧ match r with inl acc' => I n acc' s' | inr v => Q v s' end.
Proof.
  intros H0 Hstep.
  destruct (loopM_inv body (upto n) I Q acc s H0) as (r & s' & Hr & HI).
  - intros k x acc1 s1 [-> Hk]%upto_lookup_inv. by apply Hstep.
  - rewrite upto_length in HI. eauto.
Qed.

(** ** Matrices *)

Lemma cellAt_Some m l c x :
  cellAt m l c = Some x ↔ ∃ row, m !! l = Some row ∧ row !! c = Some x.
Proof.
  unfold cellAt. destruct (m !! l) as [row|]; simpl.
  - split; [eauto | by intros (? & [= <-] & ?)].
  - split; [done | by intros (? & ? & _)].
Qed.

Lemma squareM_row n m l row : squareM n m → m !! l = Some row → length row = n.
Proof. intros [_ H] Hl. by eapply (Forall_lookup_1 _ _ _ _ H). Qed.

Lemma squareM_lookup n m l :
  squareM n m → (l < n)%nat → ∃ row, m !! l = Some row ∧ length row = n.
Proof.
  intros Hsq Hl. destruct (lookup_lt_is_Some_2 m l) as [row Hrow]; [destruct Hsq; lia|].
  exists row. split; [done|]. by eapply squareM_row.
Qed.

Lemma squareM_cellAt n m l c :
  squareM n m → (l < n)%nat → (c < n)%nat → ∃ x, cellAt m l c = Some x.
Proof.
  intros Hsq Hl Hc. destruct (squareM_lookup n m l Hsq Hl) as (row & Hrow & Hlen).
  destruct (lookup_lt_is_Some_2 row c) as [x Hx]; [lia|].
  exists x. apply cellAt_Some. eauto.
Qed.

Lemma cellAt_lt n m l c x :
  squareM n m → cellAt m l c = Some x → (l < n)%nat ∧ (c < n)%nat.
Proof.
  intros Hsq (row & Hrow & Hx)%cellAt_Some.
  pose proof (squareM_row _ _ _ _ Hsq Hrow). destruct Hsq as [Hlen _].
  apply lookup_lt_Some in Hrow, Hx. lia.
Qed.

Lemma squareM_setCellM n m l c x : squareM n m → squareM n (setCellM m l c x).
Proof.
  intros Hsq. unfold setCellM. destruct (m !! l) as [row|] eqn:Hrow; [|done].
  destruct Hsq as [Hlen Hall]. split; [by rewrite length_insert|].
  apply Forall_insert; [done|]. rewrite length_insert.
  by eapply (Forall_lookup_1 _ _ _ _ Hall).
Qed.

Lemma cellAt_setCellM_eq m l c x :
  is_Some (cellAt m l c) → cellAt (setCellM m l c x) l c = Some x.
Proof.
  intros [y (row & Hrow & Hy)%cellAt_Some]. unfold setCellM. rewrite Hrow.
  apply cellAt_Some. exists (<[c := x]> row). split.
  - apply list_lookup_insert_eq. by eapply lookup_lt_Some.
  - apply list_lookup_insert_eq. by eapply lookup_lt_Some.
Qed.

Lemma cellAt_setCellM_ne m l c x l' c' :
  (l, c) ≠ (l', c') → cellAt (setCellM m l c x) l' c' = cellAt m l' c'.
Proof.
  intros Hne. unfold setCellM. destruct (m !! l) as [row|] eqn:Hrow; [|done].
  unfold cellAt. destruct (decide (l = l')) as [<-|Hl].
  - rewrite list_lookup_insert_eq by (by eapply lookup_lt_Some). rewrite Hrow. simpl.
    apply list_lookup_insert_ne. congruence.
  - by rewrite list_lookup_insert_ne.
Qed.

Lemma matrix_ext n (m1 m2 : matrix) :
  squareM n m1 → squareM n m2 →
  (∀ l c, (l < n)%nat → (c < n)%nat → cellAt m1 l c = cellAt m2 l c) → m1 = m2.
Proof.
  intros H1 H2 Heq. apply list_eq. intros l.
  destruct (decide (l < n)%nat) as [Hl|Hl].
  - destruct (squareM_lookup _ _ _ H1 Hl) as (r1 & Hr1 & Hlen1).
    destruct (squareM_lookup _ _ _ H2 Hl) as (r2 & Hr2 & Hlen2).
    rewrite Hr1, Hr2. f_equal. apply list_eq. intros c.
    destruct (decide (c < n)%nat) as [Hc|Hc].
    + specialize (Heq l c Hl Hc). unfold cellAt in Heq. by rewrite Hr1, Hr2 in Heq.
    + rewrite !lookup_ge_None_2 by lia. done.
  - destruct H1 as [? _], H2 as [? _]. rewrite !lookup_ge_None_2 by lia. done.
Qed.

Lemma matrixOk_cellAt m l c x : matrixOk m → cellAt m l c = Some x → cellOk x.
Proof.
  intros Hok (row & Hrow & Hx)%cellAt_Some.
  eapply (Forall_lookup_1 _ _ _ _ (Forall_lookup_1 _ _ _ _ Hok Hrow) Hx).
Qed.

Lemma matrixOk_setCellM m l c x : matrixOk m → cellOk x → matrixOk (setCellM m l c x).
Proof.
  intros Hok Hx. unfold setCellM. destruct (m !! l) as [row|] eqn:Hrow; [|done].
  apply Forall_insert; [done|]. apply Forall_insert; [|done].
  by eapply (Forall_lookup_1 _ _ _ _ Hok).
Qed.

(** ** Heap accesses *)

Lemma getRows_run h b m : h !! Board b = Some m → getRows b h = Done (m, h).
Proof. unfold getRows. by intros ->. Qed.

Lemma getRow_run h b m l row :
  h !! Board b = Some m → m !! l = Some row → getRow b l h = Done (row, h).
Proof.
  intros Hm Hrow. unfold getRow. rewrite (run_bind _ _ _ _ _ (getRows_run _ _ _ Hm)).
  by apply orPanic_Some.
Qed.

Lemma loadCell_run h b m l c x :
  h !! Board b = Some m → cellAt m l c = Some x → loadCell b l c h = Done (x, h).
Proof.
  intros Hm (row & Hrow & Hx)%cellAt_Some. unfold loadCell.
  rewrite (run_bind _ _ _ _ _ (getRow_run _ _ _ _ _ Hm Hrow)). by apply orPanic_Some.
Qed.

Lemma storeCell_run h b m l c x :
  h !! Board b = Some m → is_Some (cellAt m l c) →
  storeCell b l c x h = Done (tt, <[Board b := setCellM m l c x]> h).
Proof.
  intros Hm [y (row & Hrow & Hy)%cellAt_Some]. unfold storeCell, setCellM.
  rewrite Hm, Hrow. apply lookup_lt_Some in Hy. by rewrite decide_True.
Qed.

Lemma heap_insert_lookup (h : heap) a m m' : h !! a = Some m → <[a := m']> h !! a = Some m'.
Proof. intros H. apply list_lookup_insert_eq. by eapply lookup_lt_Some. Qed.

Lemma storeDefined_run h b m l c x d :
  h !! Board b = Some m → cellAt m l c = Some x →
  storeDefined b l c d h = Done (tt, <[Board b := setCellM m l c (mkCell d (Value x))]> h).
Proof.
  intros Hm Hx. unfold storeDefined. rewrite (run_bind _ _ _ _ _ (loadCell_run _ _ _ _ _ _ Hm Hx)).
  by apply storeCell_run.
Qed.

Lemma storeValue_run h b m l c x v :
  h !! Board b = Some m → cellAt m l c = Some x →
  storeValue b l c v h = Done (tt, <[Board b := setCellM m l c (mkCell (Defined x) v)]> h).
Proof.
  intros Hm Hx. unfold storeValue. rewrite (run_bind _ _ _ _ _ (loadCell_run _ _ _ _ _ _ Hm Hx)).
  by apply storeCell_run.
Qed.

Lemma setCellM_twice m l c x y : setCellM (setCellM m l c x) l c y = setCellM m l c y.
Proof.
  unfold setCellM. destruct (m !! l) as [row|] eqn:Hrow; [|by rewrite Hrow].
  rewrite list_lookup_insert_eq by (by eapply lookup_lt_Some).
  by rewrite list_insert_insert_eq, list_insert_insert_eq.
Qed.

(** [Set] writes the content [setM]. *)
Lemma Takuzu_Set_run h b m l c v :
  h !! Board b = Some m → is_Some (cellAt m l c) →
  Takuzu_Set b l c v h = Done (tt, <[Board b := setM m l c v]> h).
Proof.
  intros Hm [x Hx]. unfold Takuzu_Set, setM. rewrite Hx. case_decide.
  - by eapply storeDefined_run.
  - rewrite (run_bind _ _ _ _ _ (storeDefined_run _ _ _ _ _ _ true Hm Hx)).
    erewrite storeValue_run; [| by eapply heap_insert_lookup | by apply cellAt_setCellM_eq].
    by rewrite list_insert_insert_eq, setCellM_twice.
Qed.

Lemma matrixOkb_sound m : matrixOkb m = true → matrixOk m.
Proof.
  unfold matrixOkb, matrixOk, cellsOk. rewrite forallb_forall, Forall_forall.
  intros H row Hrow%list_elem_of_In. specialize (H row Hrow).
  rewrite forallb_forall in H. apply Forall_forall. intros x Hx%list_elem_of_In Hd.
  specialize (H x Hx). unfold cellOkb in H. rewrite Hd in H. simpl in H.
  apply orb_true_iff in H as [H|H]; lia.
Qed.

(** ** The string codec *)

Lemma append_nil_l (s : string) : EmptyString +:+ s = s.
Proof. reflexivity. Qed.

Lemma append_cons (a : ascii) (s1 s2 : string) : String a s1 +:+ s2 = String a (s1 +:+ s2).
Proof. reflexivity. Qed.

Lemma append_assoc (s1 s2 s3 : string) : (s1 +:+ s2) +:+ s3 = s1 +:+ (s2 +:+ s3).
Proof.
  induction s1 as [|a s1 IH]; [done|]. rewrite !append_cons. by f_equal.
Qed.

Lemma append_empty_r (s : string) : s +:+ EmptyString = s.
Proof. induction s as [|a s IH]; [done|]. rewrite append_cons. by f_equal. Qed.

Lemma string_of_list_app (l1 l2 : list ascii) :
  string_of_list_ascii (l1 ++ l2) = string_of_list_ascii l1 +:+ string_of_list_ascii l2.
Proof.
  induction l1 as [|a l1 IH]; simpl; [done|]. rewrite append_cons. by f_equal.
Qed.

Lemma string_of_list_length (l : list ascii) :
  String.length (string_of_list_ascii l) = length l.
Proof. induction l as [|a l IH]; simpl; [done | by f_equal]. Qed.

Lemma string_of_list_get (l : list ascii) (i : nat) :
  String.get i (string_of_list_ascii l) = l !! i.
Proof.
  revert i. induction l as [|a l IH]; intros [|i]; simpl; try done.
Qed.

Lemma encodeCell_char x : cellOk x → encodeCell x = String (encodeChar x) EmptyString.
Proof.
  unfold cellOk, encodeCell, encodeChar. destruct (Defined x); [|done].
  intros [-> | ->]; done.
Qed.

Lemma encodeCells_from (s0 : string) (cells : list Cell) :
  foldl (λ s x, s +:+ encodeCell x) s0 cells = s0 +:+ encodeCells cells.
Proof.
  unfold encodeCells. revert s0. induction cells as [|x cells IH] using rev_ind; intros s0.
  - simpl. by rewrite append_empty_r.
  - rewrite !foldl_app. simpl. by rewrite IH, append_assoc.
Qed.

Lemma encodeCells_app (c1 c2 : list Cell) :
  encodeCells (c1 ++ c2) = encodeCells c1 +:+ encodeCells c2.
Proof. unfold encodeCells at 1. rewrite foldl_app. apply encodeCells_from. Qed.

Lemma encodeCells_chars (cells : list Cell) :
  cellsOk cells → encodeCells cells = string_of_list_ascii (encodeChar <$> cells).
Proof.
  induction cells as [|x cells IH]; intros Hok; [done|].
  apply Forall_cons_1 in Hok as [Hx Hok].
  change (x :: cells) with ([x] ++ cells). rewrite encodeCells_app, IH by done.
  unfold encodeCells. simpl. by rewrite encodeCell_char.
Qed.

Lemma matrixOk_concat m : matrixOk m → cellsOk (concat m).
Proof. intros H. by apply Forall_concat. Qed.

Lemma concat_lookup_square n (m : matrix) l c :
  Forall (λ row, length row = n) m → (c < n)%nat →
  concat m !! (l * n + c)%nat = cellAt m l c.
Proof.
  intros Hall Hc. revert l. induction m as [|row m IH]; intros l.
  - unfold cellAt. simpl. by rewrite !lookup_nil.
  - apply Forall_cons_1 in Hall as [Hrow Hall]. simpl. destruct l as [|l].
    + simpl. rewrite lookup_app_l by lia. done.
    + rewrite lookup_app_r by (simpl; lia).
      replace (Datatypes.S l * n + c - length row)%nat with (l * n + c)%nat by (simpl; lia).
      rewrite IH by done. done.
Qed.

Lemma concat_length_square n (m : matrix) :
  Forall (λ row, length row = n) m → length (concat m) = (length m * n)%nat.
Proof.
  induction 1 as [|row m Hrow Hall IH]; [done|]. simpl. rewrite length_app. lia.
Qed.

Lemma sqrtInt_square (n : nat) : sqrtInt (n * n) = n.
Proof. unfold sqrtInt. rewrite Nat2Z.inj_mul, Z.sqrt_square by lia. lia. Qed.

(** [ToString] returns the text of the content and changes nothing. *)
Lemma ToString_run h b m : wfBoard h b m → ToString b h = Done (encodeM m, h).
Proof.
  intros [Hm Hsq]. unfold ToString.
  destruct (forM_upto
    (λ line sbuf,
      forM (λ col sbuf,
        x ← loadCell b line col;
        if Defined x then mret (sbuf +:+ formatInt (Value x))
        else mret (sbuf +:+ String "."%char EmptyString)) (upto (Size b)) sbuf)
    (Size b)
    (λ k sbuf h', h' = h ∧ sbuf = encodeCells (concat (take k m))) EmptyString h)
    as (s & h' & Hrun & -> & ->).
  - done.
  - intros k sbuf h1 Hk [-> ->].
    destruct (squareM_lookup _ _ _ Hsq Hk) as (row & Hrow & Hlen).
    destruct (forM_upto
      (λ col sbuf,
        x ← loadCell b k col;
        if Defined x then mret (sbuf +:+ formatInt (Value x))
        else mret (sbuf +:+ String "."%char EmptyString))
      (Size b)
      (λ j sbuf h', h' = h ∧ sbuf = encodeCells (concat (take k m)) +:+ encodeCells (take j row))
      (encodeCells (concat (take k m))) h) as (s & h' & Hrun & -> & ->).
    + split; [done|]. by rewrite take_0, append_empty_r.
    + intros j sbuf h1 Hj [-> ->].
      destruct (lookup_lt_is_Some_2 row j) as [x Hx]; [lia|].
      assert (cellAt m k j = Some x) as Hcell by (apply cellAt_Some; eauto).
      rewrite (run_bind _ _ _ _ _ (loadCell_run _ _ _ _ _ _ Hm Hcell)).
      exists (encodeCells (concat (take k m)) +:+ encodeCells (take (Datatypes.S j) row)), h.
      split; [|done].
      rewrite (take_S_r _ _ _ Hx), encodeCells_app, <- append_assoc.
      change (encodeCells [x]) with (encodeCell x).
      unfold encodeCell. by destruct (Defined x).
    + exists (encodeCells (concat (take k m)) +:+ encodeCells (take (Size b) row)), h.
      split; [exact Hrun|]. split; [done|].
      rewrite (take_S_r _ _ _ Hrow), concat_app, encodeCells_app. simpl.
      rewrite app_nil_r. by rewrite (take_ge row) by lia.
  - rewrite Hrun. unfold encodeM. destruct Hsq as [Hlen _]. by rewrite take_ge by lia.
Qed.

Lemma setCellM_same m l c x : cellAt m l c = Some x → setCellM m l c x = m.
Proof.
  intros (row & Hrow & Hx)%cellAt_Some. unfold setCellM. rewrite Hrow.
  rewrite (list_insert_id row) by done. by apply list_insert_id.
Qed.

Lemma cellD_Some m l c x : cellAt m l c = Some x → cellD m l c = x.
Proof. unfold cellD. by intros ->. Qed.

Lemma normalize_sameCell x : sameCell x (normalize x).
Proof. unfold sameCell, normalize. destruct (Defined x) eqn:H; simpl; auto. split; [done|]. done. Qed.

(** The [switch] on the character of a cell [x], for a target cell that is
    still the zero cell. *)
Lemma decodeChar_run h t mk l c x :
  h !! Board t = Some mk → cellAt mk l c = Some zeroCell → cellOk x →
  decodeChar t l c (encodeChar x) h
  = Done (None, <[Board t := setCellM mk l c (normalize x)]> h).
Proof.
  intros Hm Hz Hok. unfold decodeChar, encodeChar, normalize, cellOk in *.
  assert (Hstore : ∀ v,
    (storeDefined t l c true ≫= λ _, storeValue t l c v ≫= λ _, mret None) h
    = Done (@None codecError, <[Board t := setCellM mk l c (mkCell true v)]> h)).
  { intros v.
    rewrite (run_bind _ _ _ _ _ (storeDefined_run _ _ _ _ _ _ true Hm Hz)).
    erewrite run_bind;
      [| eapply storeValue_run; [by eapply heap_insert_lookup | by apply cellAt_setCellM_eq]].
    simpl. by rewrite list_insert_insert_eq, setCellM_twice. }
  destruct (Defined x).
  - destruct (Hok eq_refl) as [-> | ->]; simpl; apply Hstore.
  - simpl. rewrite setCellM_same by done. by rewrite list_insert_id.
Qed.

Lemma squareM_zero n : squareM n (replicate n (replicate n zeroCell)).
Proof.
  split; [by rewrite length_replicate|].
  apply Forall_replicate. by rewrite length_replicate.
Qed.

Lemma cellAt_zero n l c :
  (l < n)%nat → (c < n)%nat → cellAt (replicate n (replicate n zeroCell)) l c = Some zeroCell.
Proof.
  intros Hl Hc. apply cellAt_Some. exists (replicate n zeroCell).
  split; by apply lookup_replicate_2.
Qed.

Lemma heap_insert_snoc (h : heap) (m m' : matrix) : <[length h := m']> (h ++ [m]) = h ++ [m'].
Proof.
  rewrite insert_app_r_alt by lia. by replace (length h - length h)%nat with 0%nat by lia.
Qed.

Lemma heap_lookup_snoc (h : heap) (m : matrix) : (h ++ [m]) !! length h = Some m.
Proof. by rewrite list_lookup_middle. Qed.

(** Decoding the text of a well-formed board allocates a board whose cells
    are those of the original, undefined cells being zero cells. *)
Lemma NewFromString_encode h n m :
  squareM n m → matrixOk m → (2 ≤ n)%nat →
  ∃ m', NewFromString (encodeM m) h = Done (inl (mkTakuzu n (length h)), h ++ [m'])
    ∧ squareM n m'
    ∧ ∀ l c, (l < n)%nat → (c < n)%nat → cellAt m' l c = Some (normalize (cellD m l c)).
Proof.
  intros Hsq Hok Hn.
  assert (Hs : encodeM m = string_of_list_ascii (encodeChar <$> concat m)).
  { unfold encodeM. by rewrite encodeCells_chars by (by apply matrixOk_concat). }
  assert (Hlen : String.length (encodeM m) = (n * n)%nat).
  { rewrite Hs, string_of_list_length, length_fmap.
    destruct Hsq as [Hl Hall]. rewrite (concat_length_square n) by done. by rewrite Hl. }
  assert (Hget : ∀ l c, (l < n)%nat → (c < n)%nat →
    String.get (l * n + c) (encodeM m) = Some (encodeChar (cellD m l c))).
  { intros l c Hl Hc. rewrite Hs, string_of_list_get, list_lookup_fmap.
    destruct Hsq as [? Hall]. rewrite (concat_lookup_square n) by done.
    destruct (squareM_cellAt n m l c) as [x Hx]; [done..|]. rewrite Hx. simpl.
    by rewrite (cellD_Some _ _ _ _ Hx). }
  unfold NewFromString. rewrite Hlen.
  rewrite decide_False by nia. rewrite sqrtInt_square.
  rewrite decide_False by (intros Hne; by apply Hne).
  set (t := mkTakuzu n (length h)).
  assert (Hnew : New n h = Done (t, h ++ [replicate n (replicate n zeroCell)])) by done.
  rewrite (run_bind _ _ _ _ _ Hnew). clear Hnew.
  pose (Inv := λ line col (i : nat) (h' : heap),
    i = (line * n + col)%nat ∧ ∃ mk, h' = h ++ [mk] ∧ squareM n mk
      ∧ ∀ l c, (l < n)%nat → (c < n)%nat →
          cellAt mk l c = Some (if decide (before l c line col) then normalize (cellD m l c)
                                else zeroCell)).
  destruct (loopM_upto
    (λ line i,
      loopM (λ col i,
        ch ← orPanic (String.get i (encodeM m));
        e ← decodeChar t line col ch;
        match e with
        | Some msg => mret (inr msg)
        | None => mret (inl (Datatypes.S i))
        end) (upto n) i)
    n (λ line i h', Inv line 0%nat i h') (λ (_ : codecError) _, False) 0%nat
    (h ++ [replicate n (replicate n zeroCell)]))
    as (r & h' & Hrun & Hpost).
  - split; [done|]. exists (replicate n (replicate n zeroCell)).
    split; [done|]. split; [apply squareM_zero|].
    intros l c Hl Hc. rewrite cellAt_zero by done.
    rewrite decide_False; [done|]. unfold before. lia.
  - intros line i h1 Hline Hinv.
    destruct (loopM_upto
      (λ col i,
        ch ← orPanic (String.get i (encodeM m));
        e ← decodeChar t line col ch;
        match e with
        | Some msg => mret (inr msg)
        | None => mret (inl (Datatypes.S i))
        end)
      n (λ col i h', Inv line col i h') (λ (_ : codecError) _, False) i h1)
      as (r & h' & Hrun & Hpost).
    + done.
    + intros col j h2 Hcol (-> & mk & -> & Hsqk & Hcells).
      rewrite (run_bind _ _ _ _ _ (orPanic_Some _ _ _ (Hget line col Hline Hcol))).
      assert (Hz : cellAt mk line col = Some zeroCell).
      { rewrite Hcells by done. rewrite decide_False; [done|]. unfold before. lia. }
      assert (Hck : cellOk (cellD m line col)).
      { destruct (squareM_cellAt n m line col) as [x Hx]; [done..|].
        rewrite (cellD_Some _ _ _ _ Hx). by eapply matrixOk_cellAt. }
      rewrite (run_bind _ _ _ _ _
        (decodeChar_run (h ++ [mk]) t mk line col _ (heap_lookup_snoc h mk) Hz Hck)).
      eexists (inl _), _. split; [reflexivity|]. split; [lia|].
      exists (setCellM mk line col (normalize (cellD m line col))).
      split; [apply heap_insert_snoc|]. split; [by apply squareM_setCellM|].
      intros l c Hl Hc. destruct (decide ((line, col) = (l, c))) as [[= <- <-]|Hne].
      * rewrite cellAt_setCellM_eq by (by rewrite Hz). rewrite decide_True; [done|].
        unfold before. lia.
      * rewrite cellAt_setCellM_ne by done. rewrite Hcells by done.
        destruct (decide (before l c line col)) as [Hb|Hb].
        -- rewrite decide_True; [done|]. unfold before in *. lia.
        -- rewrite decide_False; [done|]. unfold before in *.
           intros Hb'. apply Hb. assert (l ≠ line ∨ c ≠ col) by (destruct (decide (l = line)); [right; congruence | by left]). lia.
    + exists r, h'. split; [done|]. destruct r as [i'|msg]; [|done].
      destruct Hpost as (-> & mk & -> & Hsqk & Hcells). split; [lia|].
      exists mk. split; [done|]. split; [done|].
      intros l c Hl Hc. rewrite Hcells by done.
      destruct (decide (before l c line n)) as [Hb|Hb].
      * rewrite decide_True; [done|]. unfold before in *. lia.
      * rewrite decide_False; [done|]. unfold before in *. lia.
  - rewrite (run_bind _ _ _ _ _ Hrun). destruct r as [i'|msg]; [|done].
    destruct Hpost as (-> & mk & -> & Hsqk & Hcells). exists mk.
    split; [done|]. split; [done|]. intros l c Hl Hc. rewrite Hcells by done.
    rewrite decide_True; [done|]. unfold before. lia.
Qed.

(** C2: for a well-formed board of even size at least 4, [ToString] followed
    by [NewFromString] succeeds and gives a board of the same size whose
    cells have the same defined flag and, when defined, the same value. *)
Theorem codec_roundtrip (h : heap) (b : Takuzu) (m : matrix) :
  wfBoard h b m → matrixOk m → Nat.Even (Size b) → (4 ≤ Size b)%nat →
  ∃ s t h' m',
    ToString b h = Done (s, h)
    ∧ NewFromString s h = Done (inl t, h')
    ∧ wfBoard h' t m' ∧ Size t = Size b
    ∧ ∀ l c x, cellAt m l c = Some x → ∃ y, cellAt m' l c = Some y ∧ sameCell x y.
Proof.
  intros Hwf Hok _ Hn. pose proof Hwf as [Hm Hsq].
  destruct (NewFromString_encode h (Size b) m Hsq Hok) as (m' & Hdec & Hsq' & Hcells); [lia|].
  exists (encodeM m), (mkTakuzu (Size b) (length h)), (h ++ [m']), m'.
  split; [by apply ToString_run|]. split; [done|].
  split; [split; [apply heap_lookup_snoc | done]|]. split; [done|].
  intros l c x Hx. destruct (cellAt_lt _ _ _ _ _ Hsq Hx) as [Hl Hc].
  exists (normalize x). rewrite Hcells by done. rewrite (cellD_Some _ _ _ _ Hx).
  split; [done | apply normalize_sameCell].
Qed.

Lemma codec_roundtrip_witness :
  let m := [[cellOf 0; cellOf 1; zeroCell; mkCell false 1];
            [cellOf 0; zeroCell; zeroCell; cellOf 1];
            [zeroCell; cellOf 0; cellOf 1; zeroCell];
            [cellOf 1; zeroCell; zeroCell; cellOf 0]] in
  let b := mkTakuzu 4 1 in
  let h := [[]; m] in
  (wfBoard h b m ∧ matrixOk m ∧ Nat.Even (Size b) ∧ (4 ≤ Size b)%nat)
  ∧ ∃ s t h' m',
      ToString b h = Done (s, h)
      ∧ NewFromString s h = Done (inl t, h')
      ∧ wfBoard h' t m' ∧ Size t = Size b
      ∧ ∀ l c x, cellAt m l c = Some x → ∃ y, cellAt m' l c = Some y ∧ sameCell x y.
Proof.
  intros m b h.
  assert (Hwf : wfBoard h b m).
  { split; [reflexivity|]. split; [reflexivity|]. repeat constructor. }
  assert (Hok : matrixOk m).
  { by apply matrixOkb_sound. }
  assert (Hev : Nat.Even (Size b)) by (by exists 2%nat).
  assert (Hn : (4 ≤ Size b)%nat) by (simpl; lia).
  split; [exact (conj Hwf (conj Hok (conj Hev Hn)))|].
  exact (codec_roundtrip h b m Hwf Hok Hev Hn).
Defined.

Example NewFromString_invalid_char :
  NewFromString "...A............" []
  = Done (inr "invalid char in string",
          [replicate 4 (replicate 4 zeroCell)]).
Proof. vm_compute. reflexivity. Qed.

(** C8 as stated fails, in both halves.  The text of the scenario has 14
    characters, so the length check rejects it before any character is
    looked at.  And a text of five characters need not have five bytes:
    [accentedText] has nine, which passes the length check with size 3, and
    its second byte is then refused as a character. *)
Lemma NewFromString_S4_counterexample :
  (NewFromString "...A.........." [] = Done (inr "bad string length", [])
   ∧ ¬ (∃ msg h', NewFromString "...A.........." [] = Done (inr msg, h')
          ∧ String.prefix "invalid char" msg = true))
  ∧ (runeCount accentedText = 5%nat ∧ String.length accentedText = 9%nat
     ∧ NewFromString accentedText []
       = Done (inr "invalid char in string", [replicate 3 (replicate 3 zeroCell)])).
Proof.
  split; [split; [reflexivity|] | by vm_compute].
  intros (msg & h' & Hrun & Hpre).
  vm_compute in Hrun. injection Hrun as <- <-. vm_compute in Hpre. discriminate.
Qed.

(** C8, amended: [NewFromString "...A.........."] fails with "bad string
    length" (14 is not a perfect square and the length is checked first), and
    so does every string of 5 bytes, that is with [len(s) = 5]. *)
Theorem NewFromString_bad_length :
  (∀ h, NewFromString "...A.........." h = Done (inr "bad string length", h))
  ∧ (∀ s h, String.length s = 5%nat →
       NewFromString s h = Done (inr "bad string length", h)).
Proof.
  split; [reflexivity|]. intros s h Hlen. unfold NewFromString. rewrite Hlen. reflexivity.
Qed.

Lemma NewFromString_bad_length_witness :
  String.length "01.10" = 5%nat
  ∧ NewFromString "01.10" [] = Done (inr "bad string length", []).
Proof.
  split; [reflexivity|]. exact (proj2 NewFromString_bad_length "01.10" [] eq_refl).
Defined.

(** ** The entry point of the generator *)

Lemma retryLoop_no_error gen fuel wid opts k r k' :
  retryLoop gen fuel wid opts k = Done (r, k') → (k < k')%nat.
Proof.
  revert k. induction fuel as [|fuel IH]; intros k; simpl; [done|].
  unfold mbind, M_bind, attempt. destruct (gen wid opts k) as [takP [e|]].
  - intros H%IH. lia.
  - intros [= <- <-]. lia.
Qed.

(** C9: [NewRandomTakuzu] returns an error and no board, having made no call
    to the generator proper, exactly when the size is odd, or below 4, or
    [minRatio] raised to at least 40 exceeds [maxRatio].  Otherwise it
    retries generation with [maxRatio] clamped to 99, after the comparison,
    and never returns an error. *)
Theorem NewRandomTakuzu_guard gen fuel size simple wid bbt rbt minRatio maxRatio k :
  (badParameters size minRatio maxRatio →
     ∃ e, NewRandomTakuzu gen fuel size simple wid bbt rbt minRatio maxRatio k
          = Done ((None, Some e), k))
  ∧ (∀ r e k', NewRandomTakuzu gen fuel size simple wid bbt rbt minRatio maxRatio k
               = Done ((r, Some e), k') → badParameters size minRatio maxRatio)
  ∧ (¬ badParameters size minRatio maxRatio →
       NewRandomTakuzu gen fuel size simple wid bbt rbt minRatio maxRatio k
       = (takP ← retryLoop gen fuel wid
                   (mkBuildTakuzuOptions size (Z.max minRatio 40) (Z.min maxRatio 99)
                      simple bbt rbt);
          mret (takP, None)) k).
Proof.
  unfold NewRandomTakuzu, badParameters.
  destruct (decide (size `rem` 2 ≠ 0)) as [Hodd|Heven].
  { split_and!; [eauto | auto | tauto]. }
  destruct (decide (size < 4)) as [Hsmall|Hbig].
  { split_and!; [eauto | auto | tauto]. }
  assert (Hmin : (if decide (minRatio < 40) then 40 else minRatio) = Z.max minRatio 40)
    by (destruct (decide (minRatio < 40)); lia).
  rewrite Hmin.
  destruct (decide (Z.max minRatio 40 > maxRatio)) as [Hbad|Hgood].
  { split_and!; [eauto | auto | tauto]. }
  assert (Hmax : (if decide (maxRatio > 99) then 99 else maxRatio) = Z.min maxRatio 99).
  { destruct (decide (maxRatio > 99)); lia. }
  rewrite Hmax. split_and!.
  - intros [?|[?|?]]; done.
  - intros r e k' (takP & k1 & _ & [=])%bind_Done_inv.
  - done.
Qed.

(** [maxRatio] is clamped only after the comparison: with [minRatio = 100]
    and [maxRatio = 150] the generator is called with 100 and 99. *)
Example NewRandomTakuzu_clamp_after gen :
  NewRandomTakuzu gen 1 6 false "w" 0 0 100 150 0%nat
  = (takP ← retryLoop gen 1 "w" (mkBuildTakuzuOptions 6 100 99 false 0 0); mret (takP, None)) 0%nat.
Proof. reflexivity. Qed.

(** ** Board validation *)

Lemma rowM_lookup m l row : m !! l = Some row → rowM m l = row.
Proof. unfold rowM. by intros ->. Qed.

Lemma colM_lookup m l c x : cellAt m l c = Some x → colM m c !! l = Some x.
Proof.
  intros (row & Hrow & Hx)%cellAt_Some. unfold colM.
  rewrite list_lookup_fmap, Hrow. simpl. by rewrite Hx.
Qed.

Lemma colM_length m c : length (colM m c) = length m.
Proof. unfold colM. by rewrite length_fmap. Qed.

Lemma GetLine_run h b m i :
  wfBoard h b m → (i < Size b)%nat → GetLine b i h = Done (rowM m i, h).
Proof.
  intros [Hm Hsq] Hi. destruct (squareM_lookup _ _ _ Hsq Hi) as (row & Hrow & _).
  unfold GetLine. rewrite (rowM_lookup _ _ _ Hrow). by eapply getRow_run.
Qed.

Lemma GetColumn_run h b m i :
  wfBoard h b m → (i < Size b)%nat → GetColumn b i h = Done (colM m i, h).
Proof.
  intros [Hm Hsq] Hi. unfold GetColumn.
  rewrite (run_bind _ _ _ _ _ (getRows_run _ _ _ Hm)).
  pose proof Hsq as [Hlen _].
  destruct (forM_upto
    (λ l (c : list Cell),
      x ← loadCell b l i;
      if decide (l < length c)%nat then mret (<[l := x]> c) else panic)
    (length m)
    (λ k c h', h' = h ∧ c = take k (colM m i) ++ replicate (Size b - k) zeroCell)
    (replicate (Size b) zeroCell) h) as (c & h' & Hrun & -> & ->).
  - split; [done|]. by rewrite take_0, Nat.sub_0_r.
  - intros k c h1 Hk [-> ->].
    destruct (squareM_cellAt _ _ k i Hsq) as [x Hx]; [lia | done |].
    rewrite (run_bind _ _ _ _ _ (loadCell_run _ _ _ _ _ _ Hm Hx)).
    assert (Hlt : (k < length (colM m i))%nat) by (rewrite colM_length; lia).
    rewrite decide_True by (rewrite length_app, length_take, length_replicate; lia).
    eexists _, h. split; [reflexivity|]. split; [done|].
    rewrite (take_S_r _ _ _ (colM_lookup _ _ _ _ Hx)).
    replace (Size b - k)%nat with (Datatypes.S (Size b - Datatypes.S k)) by lia.
    simpl. rewrite insert_app_r_alt by (rewrite length_take; lia).
    rewrite length_take.
    replace (k - k `min` length (colM m i))%nat with 0%nat by lia. simpl.
    by rewrite <- app_assoc.
  - rewrite Hrun. f_equal. f_equal.
    rewrite take_ge by (rewrite colM_length; lia).
    replace (Size b - length m)%nat with 0%nat by lia. apply app_nil_r.
Qed.

(** A loop whose body neither reads nor writes the state beyond what a
    state-free body does. *)
Lemma loopM_pure {S A B R} (body : A → B → M S (B + R)) (f : A → B → option (B + R))
    (xs : list A) (acc : B) (s : S) :
  (∀ x acc, x ∈ xs →
     body x acc s = match f x acc with Some r => Done (r, s) | None => Panic end) →
  loopM body xs acc s = match loopO f xs acc with Some r => Done (r, s) | None => Panic end.
Proof.
  revert acc. induction xs as [|x xs IH]; intros acc Hbody; simpl; [done|].
  unfold mbind at 1, M_bind at 1. rewrite Hbody by left.
  destruct (f x acc) as [[acc'|v]|]; simpl; [|done..].
  apply IH. intros y acc2 Hy. apply Hbody. by right.
Qed.

Lemma validateStep_run h b m i st :
  wfBoard h b m → (i < Size b)%nat →
  validateStep b i st h
  = match validateStepM m i st with Some r => Done (r, h) | None => Panic end.
Proof.
  intros Hwf Hi. unfold validateStep, validateStepM.
  rewrite (run_bind _ _ _ _ _ (GetLine_run _ _ _ _ Hwf Hi)).
  destruct (checkRange (rowM m i)) as [[fl [e|]]|] eqn:Hrow; simpl; [done| |done].
  unfold mbind at 1, M_bind at 1. simpl.
  destruct (fl && seen (lineVals st) (computeVal (rowM m i))) eqn:Hdup; [done|].
  rewrite (run_bind _ _ _ _ _ (GetColumn_run _ _ _ _ Hwf Hi)).
  destruct (checkRange (colM m i)) as [[fl' [e|]]|] eqn:Hcol; simpl; [done| |done].
  unfold mbind at 1, M_bind at 1. simpl.
  match goal with |- context [fl' && ?x] => destruct (fl' && x) end; [done|].
  by destruct fl'.
Qed.

(** [Validate] computes [validateM] of the content and changes nothing. *)
Lemma Validate_run h b m :
  wfBoard h b m →
  Validate b h = match validateM m with Some r => Done (r, h) | None => Panic end.
Proof.
  intros Hwf. unfold Validate, validateM. unfold mbind at 1, M_bind at 1.
  pose proof Hwf as [_ [Hlen _]]. rewrite Hlen.
  rewrite (loopM_pure _ (validateStepM m)).
  - destruct (loopO _ _ _) as [[st|res]|]; done.
  - intros i st Hi. apply list_elem_of_lookup in Hi as [k [-> Hi]%upto_lookup_inv].
    by apply validateStep_run.
Qed.

(** A scan that reaches the end of the range has only met well-formed cells. *)
Lemma checkRangeLoop_cellsOk cells : ∀ s s',
  length (counters s) = 2%nat → checkRangeLoop cells s = Some (inl s') → cellsOk cells.
Proof.
  induction cells as [|c cells IH]; intros s s' Hlen Hrun; [constructor|].
  simpl in Hrun. destruct (Defined c) eqn:Hd; simpl in Hrun.
  - destruct (incrCounter (counters s) (Value c)) as [cnt|] eqn:Hcnt; [|done].
    simpl in Hrun. destruct (incrCounter_inv _ _ _ Hlen Hcnt) as [Hv Hlen'].
    constructor; [by intros _|].
    repeat match type of Hrun with
    | (if ?b then _ else _) = _ => destruct b
    end; try done; by eapply IH; [|exact Hrun].
  - constructor; [intros ?; congruence|]. by eapply IH; [|exact Hrun].
Qed.

(** What a range check without error establishes. *)
Lemma checkRange_no_error cells b :
  checkRange cells = Some (b, None) →
  cellsOk cells ∧ ¬ hasRun3 cells
  ∧ countValue 0 cells ≤ half (length cells) ∧ countValue 1 cells ≤ half (length cells)
  ∧ (b = true ↔ allDefined cells).
Proof.
  intros Hrun. unfold checkRange in Hrun.
  destruct (checkRangeLoop cells rangeScan0) as [[s|[b' e]]|] eqn:Hloop; simpl in Hrun; [|done..].
  assert (Hok : cellsOk cells) by (by eapply checkRangeLoop_cellsOk; [|exact Hloop]).
  pose proof (checkRangeLoop_spec cells [] rangeScan0 scanInv_init) as H.
  rewrite Hloop in H. simpl in H. destruct H as (Hf & Hc & Hn & _).
  rewrite Hc in Hrun. simpl in Hrun.
  destruct (Z.gtb_spec (countValue 0 cells) (half (length cells))); [done|].
  destruct (Z.gtb_spec (countValue 1 cells) (half (length cells))); [done|].
  injection Hrun as <-. split_and!; [done | | done | done | done].
  intros (i & v & Hr). by eapply Hn.
Qed.

(** The fingerprint only looks at the values. *)
Lemma computeValFrom_values c1 : ∀ c2 i val,
  Value <$> c1 = Value <$> c2 → computeValFrom i c1 val = computeValFrom i c2 val.
Proof.
  induction c1 as [|x c1 IH]; intros [|y c2] i val Heq; try done.
  simpl in *. injection Heq as Hv Heq. rewrite Hv. by apply IH.
Qed.

Lemma computeVal_values c1 c2 : Value <$> c1 = Value <$> c2 → computeVal c1 = computeVal c2.
Proof. apply computeValFrom_values. Qed.

Lemma seen_insert (s : gmap Z bool) hv hv' :
  seen (<[hv := true]> s) hv' = true ↔ hv = hv' ∨ seen s hv' = true.
Proof.
  unfold seen. destruct (decide (hv = hv')) as [->|Hne].
  - rewrite lookup_insert_eq. simpl. tauto.
  - rewrite lookup_insert_ne by done. split; [auto | by intros [?|?]].
Qed.

Lemma validateInvariant_start m : validateInv m 0 (mkValidateState true ∅ ∅).
Proof. split_and!; intros; lia. Qed.

Lemma validateStepM_error m i st b e :
  validateStepM m i st = Some (inr (b, e)) → b = false ∧ e ≠ None.
Proof.
  unfold validateStepM.
  destruct (checkRange (rowM m i)) as [[fl [e1|]]|]; simpl; [by intros [= <- <-] | | done].
  destruct (fl && seen _ _); [by intros [= <- <-]|].
  destruct (checkRange (colM m i)) as [[fl' [e2|]]|]; simpl; [by intros [= <- <-] | | done].
  destruct (fl' && seen _ _); [by intros [= <- <-]|]. by destruct fl'.
Qed.

(** One pass of the loop of [Validate] that does not return keeps the
    invariant. *)
Lemma validateStepM_inv m k st st' :
  validateInv m k st → validateStepM m k st = Some (inl st') →
  validateInv m (Datatypes.S k) st'.
Proof.
  intros (Hgood & Hrows & Hcols & Hdr & Hdc & Hfin). unfold validateStepM.
  destruct (checkRange (rowM m k)) as [[fl [e1|]]|] eqn:Hrow; simpl; [done| |done].
  destruct (fl && seen (lineVals st) (computeVal (rowM m k))) eqn:Hseen; [done|].
  destruct (checkRange (colM m k)) as [[fl' [e2|]]|] eqn:Hcol; simpl; [done| |done].
  match goal with |- context [fl' && ?x] => destruct (fl' && x) eqn:Hseen' end; [done|].
  destruct (checkRange_no_error _ _ Hrow) as (_ & _ & _ & _ & Hfl).
  destruct (checkRange_no_error _ _ Hcol) as (_ & _ & _ & _ & Hfl').
  assert (Hlt : ∀ i, (i < Datatypes.S k)%nat → (i < k)%nat ∨ i = k) by lia.
  intros Hst'.
  assert (Hl : ∀ hv, seen (lineVals st') hv = true
             ↔ (fl = true ∧ computeVal (rowM m k) = hv) ∨ seen (lineVals st) hv = true).
  { intros hv. destruct fl, fl'; simpl in Hst'; simplify_eq; simpl; rewrite ?seen_insert; intuition congruence. }
  assert (Hc : ∀ hv, seen (colVals st') hv = true
             ↔ (fl' = true ∧ computeVal (colM m k) = hv) ∨ seen (colVals st) hv = true).
  { intros hv. destruct fl, fl'; simpl in Hst'; simplify_eq; simpl; rewrite ?seen_insert; intuition congruence. }
  assert (Hf : finished st' = true → fl = true ∧ fl' = true ∧ finished st = true).
  { destruct fl, fl'; simpl in Hst'; simplify_eq; simpl; intuition congruence. }
  assert (Hs : fl = true → seen (lineVals st) (computeVal (rowM m k)) = false).
  { intros ->. done. }
  assert (Hs' : fl' = true → seen (colVals st) (computeVal (colM m k)) = false).
  { intros ->. simpl in Hseen'. destruct fl; simpl in Hseen'; done. }
  clear Hst' Hseen Hseen'.
  split_and!.
  - intros i [Hi | ->]%Hlt; [by apply Hgood|]. split; eexists; eauto.
  - intros i [Hi | ->]%Hlt Hall; apply Hl; [right; by apply Hrows | left; tauto].
  - intros i [Hi | ->]%Hlt Hall; apply Hc; [right; by apply Hcols | left; tauto].
  - intros i j Hij [Hj | ->]%Hlt Hi Hj'; [by apply Hdr|].
    intros Heq. apply Hfl in Hj'. specialize (Hs Hj').
    rewrite <- Heq, Hrows in Hs by done. done.
  - intros i j Hij [Hj | ->]%Hlt Hi Hj'; [by apply Hdc|].
    intros Heq. apply Hfl' in Hj'. specialize (Hs' Hj').
    rewrite <- Heq, Hcols in Hs' by done. done.
  - intros (Hf1 & Hf2 & Hf3)%Hf i [Hi | ->]%Hlt; [by apply Hfin|]. tauto.
Qed.

Lemma loopO_validate m len : ∀ start st r,
  validateInv m start st →
  loopO (validateStepM m) (seq start len) st = Some r →
  match r with
  | inl st' => validateInv m (start + len) st'
  | inr (b, e) => b = false ∧ e ≠ None
  end.
Proof.
  induction len as [|len IH]; intros start st r Hinv; simpl.
  - intros [= <-]. by rewrite Nat.add_0_r.
  - destruct (validateStepM m start st) as [[st1|[b e]]|] eqn:Hstep; simpl; [| |done].
    + intros Hrun. replace (start + Datatypes.S len)%nat with (Datatypes.S start + len)%nat by lia.
      eapply IH; [|done]. by eapply validateStepM_inv.
    + intros [= <-]. by eapply validateStepM_error.
Qed.

(** [Validate] without error: the invariant holds for the whole board. *)
Lemma validateM_no_error m fl :
  validateM m = Some (fl, None) →
  ∃ st, validateInv m (length m) st ∧ finished st = fl.
Proof.
  unfold validateM.
  destruct (loopO _ _ _) as [r|] eqn:Hloop; simpl; [|done].
  pose proof (loopO_validate m (length m) 0 _ r (validateInvariant_start m) Hloop) as H.
  destruct r as [st|[b e]]; simpl in *.
  - intros [= <-]. eauto.
  - intros [= -> ->]. by destruct H.
Qed.

Lemma rowM_length n m i : squareM n m → (i < n)%nat → length (rowM m i) = n.
Proof.
  intros Hsq Hi. destruct (squareM_lookup _ _ _ Hsq Hi) as (row & Hrow & Hlen).
  by rewrite (rowM_lookup _ _ _ Hrow).
Qed.

(** C1: when [Validate] returns no error on a board stored with the size it
    says, no line or column holds three equal adjacent defined values or
    more than [Size/2] defined zeros or ones, and no two fully defined lines,
    and no two fully defined columns, hold the same values. *)
Theorem Validate_sound (h h' : heap) (b : Takuzu) (m : matrix) (fl : bool) :
  wfBoard h b m → Validate b h = Done ((fl, None), h') →
  (∀ i, (i < Size b)%nat →
     ¬ hasRun3 (rowM m i) ∧ ¬ hasRun3 (colM m i)
     ∧ countValue 0 (rowM m i) ≤ half (Size b) ∧ countValue 1 (rowM m i) ≤ half (Size b)
     ∧ countValue 0 (colM m i) ≤ half (Size b) ∧ countValue 1 (colM m i) ≤ half (Size b))
  ∧ (∀ i j, (i < Size b)%nat → (j < Size b)%nat → i ≠ j →
       allDefined (rowM m i) → allDefined (rowM m j) →
       Value <$> rowM m i ≠ Value <$> rowM m j)
  ∧ (∀ i j, (i < Size b)%nat → (j < Size b)%nat → i ≠ j →
       allDefined (colM m i) → allDefined (colM m j) →
       Value <$> colM m i ≠ Value <$> colM m j).
Proof.
  intros Hwf Hrun. rewrite (Validate_run _ _ _ Hwf) in Hrun.
  destruct (validateM m) as [[fl' e]|] eqn:Hval; [|done]. injection Hrun as -> -> <-.
  destruct (validateM_no_error _ _ Hval) as (st & (Hgood & _ & _ & Hdr & Hdc & _) & _).
  destruct Hwf as [_ Hsq]. pose proof Hsq as [Hlen _]. rewrite Hlen in *.
  split_and!.
  - intros i Hi. destruct (Hgood i Hi) as [[b1 Hr] [b2 Hc]].
    destruct (checkRange_no_error _ _ Hr) as (_ & Hr3 & Hr0 & Hr1 & _).
    destruct (checkRange_no_error _ _ Hc) as (_ & Hc3 & Hc0 & Hc1 & _).
    rewrite (rowM_length (Size b)) in Hr0, Hr1 by done.
    rewrite colM_length, Hlen in Hc0, Hc1. done.
  - intros i j Hi Hj Hne Hfi Hfj Heq%computeVal_values.
    destruct (decide (i < j)%nat).
    + by apply (Hdr i j).
    + apply (Hdr j i); [lia | done..].
  - intros i j Hi Hj Hne Hfi Hfj Heq%computeVal_values.
    destruct (decide (i < j)%nat).
    + by apply (Hdc i j).
    + apply (Hdc j i); [lia | done..].
Qed.

Lemma Validate_sound_witness :
  let m := [[cellOf 0; cellOf 1; cellOf 1; cellOf 0];
            [cellOf 1; cellOf 1; cellOf 0; cellOf 0];
            [cellOf 1; cellOf 0; zeroCell; cellOf 1];
            [cellOf 0; cellOf 0; cellOf 1; cellOf 1]] in
  let b := mkTakuzu 4 0 in
  (wfBoard [m] b m ∧ Validate b [m] = Done ((false, None), [m]))
  ∧ (∀ i, (i < Size b)%nat →
       ¬ hasRun3 (rowM m i) ∧ ¬ hasRun3 (colM m i)
       ∧ countValue 0 (rowM m i) ≤ half (Size b) ∧ countValue 1 (rowM m i) ≤ half (Size b)
       ∧ countValue 0 (colM m i) ≤ half (Size b) ∧ countValue 1 (colM m i) ≤ half (Size b))
  ∧ (∀ i j, (i < Size b)%nat → (j < Size b)%nat → i ≠ j →
       allDefined (rowM m i) → allDefined (rowM m j) →
       Value <$> rowM m i ≠ Value <$> rowM m j)
  ∧ (∀ i j, (i < Size b)%nat → (j < Size b)%nat → i ≠ j →
       allDefined (colM m i) → allDefined (colM m j) →
       Value <$> colM m i ≠ Value <$> colM m j).
Proof.
  intros m b.
  assert (Hwf : wfBoard [m] b m).
  { split; [reflexivity|]. split; [reflexivity|]. repeat constructor. }
  assert (Hrun : Validate b [m] = Done ((false, None), [m])) by (vm_compute; reflexivity).
  split; [exact (conj Hwf Hrun)|].
  exact (Validate_sound [m] [m] b m false Hwf Hrun).
Defined.

Example Validate_duplicate_lines :
  Validate (mkTakuzu 4 0)
    [[[cellOf 0; cellOf 1; cellOf 1; cellOf 0];
      [cellOf 1; cellOf 0; cellOf 0; cellOf 1];
      [cellOf 0; cellOf 1; cellOf 1; cellOf 0];
      [zeroCell; zeroCell; zeroCell; zeroCell]]]
  = Done ((false, Some (duplicateLine 2)),
    [[[cellOf 0; cellOf 1; cellOf 1; cellOf 0];
      [cellOf 1; cellOf 0; cellOf 0; cellOf 1];
      [cellOf 0; cellOf 1; cellOf 1; cellOf 0];
      [zeroCell; zeroCell; zeroCell; zeroCell]]]).
Proof. vm_compute. reflexivity. Qed.

(** ** Copies *)

Lemma heap_insert_insert (h : heap) a (m1 m2 : matrix) :
  <[a := m2]> (<[a := m1]> h) = <[a := m2]> h.
Proof. apply list_insert_insert_eq. Qed.

Lemma heap_insert_ne (h : heap) a a' (m : matrix) : a ≠ a' → <[a := m]> h !! a' = h !! a'.
Proof. intros. by apply list_lookup_insert_ne. Qed.

(** Copying the cells of [src] over a board [dst] of the same size stored
    elsewhere gives [dst] the content of [src]. *)
Lemma copyCells_run h src dst m md :
  wfBoard h src m → h !! Board dst = Some md → squareM (Size src) md →
  Board src ≠ Board dst →
  copyCells src dst h = Done (tt, <[Board dst := m]> h).
Proof.
  intros [Hm Hsq] Hd Hsqd Hne. unfold copyCells.
  rewrite (run_bind _ _ _ _ _ (getRows_run _ _ _ Hm)).
  pose proof Hsq as [Hlen _]. rewrite Hlen. set (n := Size src) in *.
  pose (Inv := λ line col (h' : heap),
    ∃ mk, h' = <[Board dst := mk]> h ∧ squareM n mk
      ∧ ∀ l c, (l < n)%nat → (c < n)%nat →
          cellAt mk l c = if decide (before l c line col) then cellAt m l c else cellAt md l c).
  destruct (forM_upto
    (λ line (_ : unit),
      row ← getRow src line;
      forM (λ col (_ : unit), x ← loadCell src line col; storeCell dst line col x)
        (upto (length row)) tt)
    n (λ line _ h', Inv line 0%nat h') tt h) as ([] & h' & Hrun & Hpost).
  - exists md. split; [by rewrite list_insert_id|]. split; [done|].
    intros l c Hl Hc. rewrite decide_False; [done|]. unfold before. lia.
  - intros line [] h1 Hline (mk & -> & Hsqk & Hcells).
    assert (Hsrc : <[Board dst := mk]> h !! Board src = Some m).
    { by rewrite heap_insert_ne. }
    destruct (squareM_lookup _ _ _ Hsq Hline) as (row & Hrow & Hrlen).
    rewrite (run_bind _ _ _ _ _ (getRow_run _ _ _ _ _ Hsrc Hrow)). rewrite Hrlen.
    destruct (forM_upto
      (λ col (_ : unit), x ← loadCell src line col; storeCell dst line col x)
      n (λ col _ h', Inv line col h') tt (<[Board dst := mk]> h)) as ([] & h' & Hrun & Hpost).
    + exists mk. done.
    + intros col [] h2 Hcol (mk2 & -> & Hsq2 & Hcells2).
      assert (Hsrc2 : <[Board dst := mk2]> h !! Board src = Some m).
      { by rewrite heap_insert_ne. }
      destruct (squareM_cellAt _ _ line col Hsq) as [x Hx]; [done..|].
      rewrite (run_bind _ _ _ _ _ (loadCell_run _ _ _ _ _ _ Hsrc2 Hx)).
      erewrite storeCell_run;
        [| by eapply heap_insert_lookup | by apply (squareM_cellAt n)].
      eexists tt, _. split; [reflexivity|].
      exists (setCellM mk2 line col x).
      split; [by rewrite heap_insert_insert|]. split; [by apply squareM_setCellM|].
      intros l c Hl Hc. destruct (decide ((line, col) = (l, c))) as [[= <- <-]|Hne'].
      * rewrite cellAt_setCellM_eq by (by apply (squareM_cellAt n)).
        rewrite decide_True; [done|]. unfold before. lia.
      * rewrite cellAt_setCellM_ne by done. rewrite Hcells2 by done.
        assert (l ≠ line ∨ c ≠ col)
          by (destruct (decide (l = line)); [right; congruence | by left]).
        destruct (decide (before l c line col)) as [Hb|Hb].
        -- rewrite decide_True; [done|]. unfold before in *. lia.
        -- rewrite decide_False; [done|]. unfold before in *. lia.
    + exists tt, h'. split; [done|]. destruct Hpost as (mk2 & -> & Hsq2 & Hcells2).
      exists mk2. split; [done|]. split; [done|].
      intros l c Hl Hc. rewrite Hcells2 by done.
      destruct (decide (before l c line n)) as [Hb|Hb].
      * rewrite decide_True; [done|]. unfold before in *. lia.
      * rewrite decide_False; [done|]. unfold before in *. lia.
  - rewrite Hrun. destruct Hpost as (mk & -> & Hsqk & Hcells). f_equal. f_equal. f_equal.
    apply (matrix_ext n); [done..|]. intros l c Hl Hc. rewrite Hcells by done.
    rewrite decide_True; [done|]. unfold before. lia.
Qed.

(** [Clone] allocates a board with the same content. *)
Lemma Clone_run h b m :
  wfBoard h b m → Clone b h = Done (mkTakuzu (Size b) (length h), h ++ [m]).
Proof.
  intros [Hm Hsq]. unfold Clone.
  set (c := mkTakuzu (Size b) (length h)).
  assert (Hnew : New (Size b) h = Done (c, h ++ [replicate (Size b) (replicate (Size b) zeroCell)]))
    by done.
  rewrite (run_bind _ _ _ _ _ Hnew).
  assert (Hlt : (Board b < length h)%nat) by (by eapply lookup_lt_Some).
  erewrite run_bind; [| eapply (copyCells_run _ b c m)].
  - simpl. by rewrite heap_insert_snoc.
  - split; [|done]. by rewrite lookup_app_l.
  - apply heap_lookup_snoc.
  - apply squareM_zero.
  - simpl. lia.
Qed.

(** [Copy] between boards of the same size stored at different places. *)
Lemma Copy_run h src dst m md :
  wfBoard h src m → wfBoard h dst md → Size src = Size dst → Board src ≠ Board dst →
  Copy src dst h = Done (None, <[Board dst := m]> h).
Proof.
  intros Hsrc [Hd Hsqd] Hsize Hne. unfold Copy. rewrite decide_False by (by intros ?).
  erewrite run_bind; [| eapply copyCells_run; [done | done | by rewrite Hsize | done]].
  done.
Qed.

(** ** Line completion *)

Lemma cellD_lookup m l c x : cellAt m l c = Some x → cellD m l c = x.
Proof. unfold cellD. by intros ->. Qed.

Lemma addrCell_run h b m l c :
  h !! Board b = Some m → is_Some (cellAt m l c) →
  addrCell b l c h = Done (Some (Board b, l, c), h).
Proof.
  intros Hm [x Hx]. unfold addrCell.
  by rewrite (run_bind _ _ _ _ _ (loadCell_run _ _ _ _ _ _ Hm Hx)).
Qed.

Lemma upto_S (k : nat) : upto (Datatypes.S k) = upto k ++ [k].
Proof. unfold upto. by rewrite seq_S. Qed.

(** Filling a slice of [n] nil pointers index by index. *)
Lemma pointers_loop h (n : nat) (body : nat → H cellPtr) (f : nat → cellPtr) :
  (∀ k, (k < n)%nat → body k h = Done (f k, h)) →
  forM (λ l r, p ← body l; setIndex r l p) (upto n) (replicate n None) h
  = Done (f <$> upto n, h).
Proof.
  intros Hbody.
  destruct (forM_upto (λ l r, p ← body l; setIndex r l p) n
    (λ k r h', h' = h ∧ r = (f <$> upto k) ++ replicate (n - k) None)
    (replicate n None) h) as (r & h' & Hrun & -> & ->).
  - split; [done|]. by rewrite Nat.sub_0_r.
  - intros k r h1 Hk [-> ->]. rewrite (run_bind _ _ _ _ _ (Hbody k Hk)).
    unfold setIndex. rewrite decide_True
      by (rewrite length_app, length_fmap, upto_length, length_replicate; lia).
    eexists _, h. split; [reflexivity|]. split; [done|].
    rewrite upto_S, fmap_app, <- app_assoc.
    replace (n - k)%nat with (Datatypes.S (n - Datatypes.S k)) by lia.
    rewrite insert_app_r_alt by (rewrite length_fmap, upto_length; lia).
    rewrite length_fmap, upto_length. by replace (k - k)%nat with 0%nat by lia.
  - rewrite Hrun. replace (n - n)%nat with 0%nat by lia. simpl. by rewrite app_nil_r.
Qed.

Lemma GetLinePointers_run h b m l :
  wfBoard h b m → (l < Size b)%nat →
  GetLinePointers b l h = Done (ptrs (Board b) (rowPos l (Size b)), h).
Proof.
  intros [Hm Hsq] Hl. unfold GetLinePointers.
  destruct (squareM_lookup _ _ _ Hsq Hl) as (row & Hrow & Hlen).
  rewrite (run_bind _ _ _ _ _ (getRow_run _ _ _ _ _ Hm Hrow)). rewrite Hlen.
  rewrite (pointers_loop h (Size b) (λ c, addrCell b l c) (λ c, Some (Board b, l, c))).
  - unfold ptrs, rowPos. by rewrite <- list_fmap_compose.
  - intros k Hk. apply (addrCell_run _ _ m); [done|]. by apply (squareM_cellAt (Size b)).
Qed.

Lemma GetColumnPointers_run h b m c :
  wfBoard h b m → (c < Size b)%nat →
  GetColumnPointers b c h = Done (ptrs (Board b) (colPos c (Size b)), h).
Proof.
  intros [Hm Hsq] Hc. unfold GetColumnPointers.
  rewrite (run_bind _ _ _ _ _ (getRows_run _ _ _ Hm)).
  pose proof Hsq as [Hlen _]. rewrite Hlen.
  rewrite (pointers_loop h (Size b) (λ l, addrCell b l c) (λ l, Some (Board b, l, c))).
  - unfold ptrs, colPos. by rewrite <- list_fmap_compose.
  - intros k Hk. apply (addrCell_run _ _ m); [done|]. by apply (squareM_cellAt (Size b)).
Qed.


Lemma is_Some_cellAt_setCellM m l c x l' c' :
  is_Some (cellAt (setCellM m l c x) l' c') ↔ is_Some (cellAt m l' c').
Proof.
  destruct (decide ((l, c) = (l', c'))) as [[= <- <-]|Hne].
  - split; intros [y Hy].
    + unfold setCellM in Hy. destruct (m !! l) as [row|] eqn:Hrow; [|eauto].
      apply cellAt_Some in Hy as (row' & Hrow' & Hy).
      rewrite list_lookup_insert_eq in Hrow' by (by eapply lookup_lt_Some).
      injection Hrow' as <-. apply lookup_lt_Some in Hy. rewrite length_insert in Hy.
      destruct (lookup_lt_is_Some_2 row c Hy) as [z Hz]. exists z. apply cellAt_Some. eauto.
    + exists x. apply cellAt_setCellM_eq. eauto.
  - by rewrite cellAt_setCellM_ne.
Qed.

Lemma inside_setCellM m l c x ps : inside m ps → inside (setCellM m l c x) ps.
Proof.
  unfold inside. intros H. eapply Forall_impl; [done|].
  intros p Hp. by apply is_Some_cellAt_setCellM.
Qed.

Lemma loadPtr_run h a m l c x :
  h !! a = Some m → cellAt m l c = Some x → loadPtr (Some (a, l, c)) h = Done (x, h).
Proof. intros Hm Hx. simpl. by apply (loadCell_run _ (mkTakuzu 0 a) m). Qed.

Lemma storePtr_run h a m l c x :
  h !! a = Some m → is_Some (cellAt m l c) →
  storePtr (Some (a, l, c)) x h = Done (tt, <[a := setCellM m l c x]> h).
Proof. intros Hm Hx. simpl. by apply (storeCell_run _ (mkTakuzu 0 a) m). Qed.

(** The loop that fills the undefined cells behind the pointers. *)
Lemma fillUndefined_run ps : ∀ h a m v,
  h !! a = Some m → inside m ps →
  fillUndefined (ptrs a ps) v h = Done (tt, <[a := fillAt m ps v]> h).
Proof.
  unfold fillUndefined.
  induction ps as [|[l c] ps IH]; intros h a m v Hm Hin; simpl.
  - by rewrite list_insert_id.
  - apply Forall_cons_1 in Hin as [[x Hx] Hin]. simpl in Hx.
    unfold mbind at 1, M_bind at 1.
    rewrite (run_bind _ _ _ _ _ (loadPtr_run _ _ _ _ _ _ Hm Hx)).
    rewrite (cellD_lookup _ _ _ _ Hx). unfold fillCell.
    destruct (Defined x) eqn:Hd; simpl.
    + rewrite setCellM_same by done. by apply IH.
    + rewrite (run_bind _ _ _ _ _ (loadPtr_run _ _ _ _ _ _ Hm Hx)).
      erewrite run_bind; [| by eapply storePtr_run; eauto].
      erewrite run_bind;
        [| eapply loadPtr_run; [by eapply heap_insert_lookup | by apply cellAt_setCellM_eq; eauto]].
      erewrite (storeCell_run _ (mkTakuzu 0 a));
        [| by eapply heap_insert_lookup | by apply is_Some_cellAt_setCellM; eauto].
      simpl. rewrite heap_insert_insert, setCellM_twice.
      erewrite IH; [| by eapply heap_insert_lookup | by apply inside_setCellM].
      by rewrite heap_insert_insert.
Qed.

Lemma ptrs_lookup a ps k p : ps !! k = Some p → ptrs a ps !! k = Some (Some (a, p.1, p.2)).
Proof. intros H. unfold ptrs. by rewrite list_lookup_fmap, H. Qed.

Lemma readAt_lookup m ps k p : ps !! k = Some p → readAt m ps !! k = Some (cellD m p.1 p.2).
Proof. intros H. unfold readAt. by rewrite list_lookup_fmap, H. Qed.

(** The counting loop of [fillRange]. *)
Lemma fillRange_count h a m ps :
  h !! a = Some m → inside m ps → cellsOk (readAt m ps) →
  forM (λ x '(notFull, n),
      p ← orPanic (ptrs a ps !! x);
      cx ← loadPtr p;
      if Defined cx then
        cx ← loadPtr p;
        n' ← orPanic (incrCounter n (Value cx)); mret (notFull, n')
      else mret (true, n)) (upto (length (ptrs a ps))) (false, [0; 0]) h
  = Done ((negb (bool_decide (allDefined (readAt m ps))),
           [countValue 0 (readAt m ps); countValue 1 (readAt m ps)]), h).
Proof.
  intros Hm Hin Hok.
  assert (Hlen : length (ptrs a ps) = length ps) by (unfold ptrs; by rewrite length_fmap).
  rewrite Hlen.
  destruct (forM_upto
    (λ x '(notFull, n),
      p ← orPanic (ptrs a ps !! x);
      cx ← loadPtr p;
      if Defined cx then
        cx ← loadPtr p;
        n' ← orPanic (incrCounter n (Value cx)); mret (notFull, n')
      else mret (true, n))
    (length ps)
    (λ k (st : bool * list Z) h',
      h' = h ∧ (st.1 = false ↔ allDefined (take k (readAt m ps)))
      ∧ st.2 = [countValue 0 (take k (readAt m ps)); countValue 1 (take k (readAt m ps))])
    (false, [0; 0]) h) as ([nf n] & h' & Hrun & -> & Hnf & Hn).
  - split; [done|]. rewrite take_0. split; [|done]. split; [constructor | done].
  - intros k [nf n] h1 Hk (-> & Hnf & Hn). simpl in *.
    destruct (lookup_lt_is_Some_2 ps k Hk) as [[l c] Hp].
    rewrite (run_bind _ _ _ _ _ (orPanic_Some _ _ _ (ptrs_lookup a _ _ _ Hp))). simpl.
    destruct (Forall_lookup_1 _ _ _ _ Hin Hp) as [x Hx]. simpl in Hx.
    rewrite (run_bind _ _ _ _ _ (loadCell_run _ (mkTakuzu 0 a) _ _ _ _ Hm Hx)).
    pose proof (readAt_lookup m _ _ _ Hp) as Hr. simpl in Hr.
    rewrite (cellD_lookup _ _ _ _ Hx) in Hr.
    rewrite (take_S_r _ _ _ Hr).
    destruct (Defined x) eqn:Hd.
    + rewrite (run_bind _ _ _ _ _ (loadCell_run _ (mkTakuzu 0 a) _ _ _ _ Hm Hx)).
      destruct (scan_counters_step (take k (readAt m ps)) x
                  (mkRangeScan true n zeroCell 0)) as (cnt & Hcnt & ->);
        [done | done | by eapply (Forall_lookup_1 _ _ _ _ Hok) |].
      simpl in Hcnt. rewrite (run_bind _ _ _ _ _ (orPanic_Some _ _ _ Hcnt)).
      eexists (_, _), h. split; [reflexivity|]. simpl. split; [done|]. split; [|done].
      rewrite allDefined_snoc. tauto.
    + eexists (_, _), h. split; [reflexivity|]. simpl. split; [done|]. split.
      * rewrite allDefined_snoc. split; [done | intros [_ ?]; congruence].
      * rewrite Hn, !countValue_snoc. rewrite !decide_False by (intros [? _]; congruence).
        by rewrite !Z.add_0_r.
  - rewrite Hrun. simpl in *.
    assert (Htake : take (length ps) (readAt m ps) = readAt m ps).
    { apply take_ge. unfold readAt. by rewrite length_fmap. }
    rewrite Htake in *. rewrite Hn. f_equal. f_equal. f_equal.
    destruct nf; simpl.
    + symmetry. apply negb_true_iff, bool_decide_eq_false. intros H%Hnf. done.
    + symmetry. apply negb_false_iff, bool_decide_eq_true. by apply Hnf.
Qed.

(** [fillRange] on the pointers to [ps]. *)
Lemma fillRange_run h a m ps :
  h !! a = Some m → inside m ps → cellsOk (readAt m ps) →
  fillRange (ptrs a ps) h = Done (tt, <[a := fillRangeM m ps]> h).
Proof.
  intros Hm Hin Hok. unfold fillRange, fillRangeM.
  rewrite (run_bind _ _ _ _ _ (fillRange_count _ _ _ _ Hm Hin Hok)).
  assert (Hlen : length (ptrs a ps) = length (readAt m ps))
    by (unfold ptrs, readAt; by rewrite !length_fmap).
  rewrite Hlen. destruct (bool_decide (allDefined (readAt m ps))); simpl.
  { by rewrite list_insert_id. }
  unfold mbind at 1, M_bind at 1. simpl.
  destruct (countValue 0 (readAt m ps) =? half (length (readAt m ps))).
  { by apply fillUndefined_run. }
  unfold mbind at 1, M_bind at 1. simpl.
  destruct (countValue 1 (readAt m ps) =? half (length (readAt m ps))).
  { by apply fillUndefined_run. }
  by rewrite list_insert_id.
Qed.

Lemma matrixOk_pointwise m :
  matrixOk m ↔ ∀ l c x, cellAt m l c = Some x → cellOk x.
Proof.
  split; [intros H l c x; by apply matrixOk_cellAt|].
  intros H. apply Forall_lookup_2. intros l row Hrow.
  apply Forall_lookup_2. intros c x Hx. apply (H l c). apply cellAt_Some. eauto.
Qed.

Lemma fillCell_idem v x : fillCell v (fillCell v x) = fillCell v x.
Proof. unfold fillCell. by destruct (Defined x) eqn:H; simpl; rewrite ?H. Qed.

Lemma fillCell_ok v x : v = 0 ∨ v = 1 → cellOk x → cellOk (fillCell v x).
Proof. intros Hv Hx. unfold fillCell. destruct (Defined x); [done|]. by intros _. Qed.

Lemma fillAt_spec n ps v : ∀ m,
  squareM n m → inside m ps →
  squareM n (fillAt m ps v)
  ∧ ∀ l c, cellAt (fillAt m ps v) l c
           = if decide ((l, c) ∈ ps) then fillCell v <$> cellAt m l c else cellAt m l c.
Proof.
  induction ps as [|[pl pc] ps IH]; intros m Hsq Hin.
  - split; [done|]. intros l c. rewrite decide_False; [done|]. by intros ?%elem_of_nil.
  - apply Forall_cons_1 in Hin as [[x Hx] Hin]. simpl in Hx.
    unfold fillAt. simpl. fold (fillAt (setCellM m pl pc (fillCell v (cellD m pl pc))) ps v).
    rewrite (cellD_lookup _ _ _ _ Hx).
    destruct (IH (setCellM m pl pc (fillCell v x))) as [Hsq' Hcells];
      [by apply squareM_setCellM | by apply inside_setCellM|].
    split; [done|]. intros l c. rewrite Hcells.
    destruct (decide ((pl, pc) = (l, c))) as [[= <- <-]|Hne].
    + rewrite cellAt_setCellM_eq by eauto. rewrite Hx. simpl.
      rewrite (decide_True (P := (pl, pc) ∈ (pl, pc) :: ps)) by left.
      case_decide; [by rewrite fillCell_idem | done].
    + rewrite cellAt_setCellM_ne by done.
      destruct (decide ((l, c) ∈ ps)) as [Hel|Hel].
      * rewrite decide_True; [done | by right].
      * rewrite decide_False; [done|]. intros [?|?]%elem_of_cons; [congruence | done].
Qed.

Lemma elem_of_rowPos l n l' c' : (l', c') ∈ rowPos l n ↔ l' = l ∧ (c' < n)%nat.
Proof.
  unfold rowPos, upto. rewrite list_elem_of_fmap. split.
  - intros (c & [= -> ->] & Hc%elem_of_seq). split; [done | lia].
  - intros [-> Hc]. exists c'. split; [done|]. apply elem_of_seq. lia.
Qed.

Lemma elem_of_colPos c n l' c' : (l', c') ∈ colPos c n ↔ c' = c ∧ (l' < n)%nat.
Proof.
  unfold colPos, upto. rewrite list_elem_of_fmap. split.
  - intros (l & [= -> ->] & Hl%elem_of_seq). split; [done | lia].
  - intros [-> Hl]. exists l'. split; [done|]. apply elem_of_seq. lia.
Qed.

Lemma inside_rowPos n m l : squareM n m → (l < n)%nat → inside m (rowPos l n).
Proof.
  intros Hsq Hl. apply Forall_forall. intros [l' c'] [-> Hc]%elem_of_rowPos.
  by apply (squareM_cellAt n).
Qed.

Lemma inside_colPos n m c : squareM n m → (c < n)%nat → inside m (colPos c n).
Proof.
  intros Hsq Hc. apply Forall_forall. intros [l' c'] [-> Hl]%elem_of_colPos.
  by apply (squareM_cellAt n).
Qed.

Lemma readAt_rowPos n m l : squareM n m → (l < n)%nat → readAt m (rowPos l n) = rowM m l.
Proof.
  intros Hsq Hl. destruct (squareM_lookup _ _ _ Hsq Hl) as (row & Hrow & Hlen).
  rewrite (rowM_lookup _ _ _ Hrow). apply list_eq. intros c.
  unfold readAt, rowPos. rewrite !list_lookup_fmap.
  destruct (decide (c < n)%nat) as [Hc|Hc].
  - rewrite upto_lookup by done. simpl.
    destruct (lookup_lt_is_Some_2 row c) as [x Hx]; [lia|]. rewrite Hx. f_equal.
    apply cellD_lookup, cellAt_Some. eauto.
  - unfold upto. rewrite !lookup_ge_None_2; [done | lia | rewrite length_seq; lia].
Qed.

Lemma readAt_colPos n m c : squareM n m → (c < n)%nat → readAt m (colPos c n) = colM m c.
Proof.
  intros Hsq Hc. apply list_eq. intros l.
  unfold readAt, colPos. rewrite !list_lookup_fmap.
  destruct (decide (l < n)%nat) as [Hl|Hl].
  - rewrite upto_lookup by done. simpl.
    destruct (squareM_cellAt _ _ l c Hsq Hl Hc) as [x Hx].
    by rewrite (colM_lookup _ _ _ _ Hx), (cellD_lookup _ _ _ _ Hx).
  - unfold upto. rewrite lookup_ge_None_2 by (rewrite length_seq; lia).
    rewrite lookup_ge_None_2; [done|]. rewrite colM_length. destruct Hsq. lia.
Qed.

Lemma setRowM_map_spec n m l (f : Cell → Cell) :
  squareM n m → (l < n)%nat →
  squareM n (setRowM m l (f <$> rowM m l))
  ∧ ∀ l' c', cellAt (setRowM m l (f <$> rowM m l)) l' c'
             = if decide (l' = l) then f <$> cellAt m l' c' else cellAt m l' c'.
Proof.
  intros Hsq Hl. destruct (squareM_lookup _ _ _ Hsq Hl) as (row & Hrow & Hlen).
  rewrite (rowM_lookup _ _ _ Hrow). unfold setRowM. split.
  - destruct Hsq as [Hlenm Hall]. split; [by rewrite length_insert|].
    apply Forall_insert; [done|]. by rewrite length_fmap.
  - intros l' c'. unfold cellAt. destruct (decide (l' = l)) as [->|Hne].
    + rewrite list_lookup_insert_eq by (by eapply lookup_lt_Some). rewrite Hrow. simpl.
      by rewrite list_lookup_fmap.
    + by rewrite list_lookup_insert_ne.
Qed.

Lemma setColM_map_spec n m c (f : Cell → Cell) :
  squareM n m → (c < n)%nat →
  squareM n (setColM m c (f <$> colM m c))
  ∧ ∀ l' c', cellAt (setColM m c (f <$> colM m c)) l' c'
             = if decide (c' = c) then f <$> cellAt m l' c' else cellAt m l' c'.
Proof.
  intros Hsq Hc. unfold setColM.
  assert (Hrow : ∀ l', (zip_with (λ row x, <[c := x]> row) m (f <$> colM m c)) !! l'
    = (λ row, <[c := f (default zeroCell (row !! c))]> row) <$> m !! l').
  { intros l'. rewrite lookup_zip_with. unfold colM. rewrite !list_lookup_fmap.
    by destruct (m !! l'). }
  split.
  - destruct Hsq as [Hlen Hall]. split.
    + rewrite length_zip_with, length_fmap, colM_length. lia.
    + apply Forall_lookup_2. intros l' row' Hl'. rewrite Hrow in Hl'.
      destruct (m !! l') as [row|] eqn:Hr; [|done]. injection Hl' as <-.
      rewrite length_insert. by eapply (Forall_lookup_1 _ _ _ _ Hall).
  - intros l' c'. unfold cellAt. rewrite Hrow.
    destruct (m !! l') as [row|] eqn:Hr; simpl; [|by case_decide].
    pose proof (squareM_row _ _ _ _ Hsq Hr) as Hlen.
    destruct (decide (c' = c)) as [->|Hne].
    + destruct (lookup_lt_is_Some_2 row c) as [y Hy]; [lia|]. rewrite Hy. simpl.
      apply list_lookup_insert_eq. lia.
    + by rewrite list_lookup_insert_ne.
Qed.

Lemma fillAt_row n m l v :
  squareM n m → (l < n)%nat →
  fillAt m (rowPos l n) v = setRowM m l (fillCell v <$> rowM m l).
Proof.
  intros Hsq Hl.
  destruct (fillAt_spec n (rowPos l n) v m Hsq (inside_rowPos _ _ _ Hsq Hl)) as [Hsq1 Hc1].
  destruct (setRowM_map_spec n m l (fillCell v) Hsq Hl) as [Hsq2 Hc2].
  apply (matrix_ext n); [done..|]. intros l' c' Hl' Hc'. rewrite Hc1, Hc2.
  destruct (decide (l' = l)) as [->|Hne].
  - rewrite decide_True; [done|]. by apply elem_of_rowPos.
  - rewrite decide_False; [done|]. by intros [? _]%elem_of_rowPos.
Qed.

Lemma fillAt_col n m c v :
  squareM n m → (c < n)%nat →
  fillAt m (colPos c n) v = setColM m c (fillCell v <$> colM m c).
Proof.
  intros Hsq Hc.
  destruct (fillAt_spec n (colPos c n) v m Hsq (inside_colPos _ _ _ Hsq Hc)) as [Hsq1 Hc1].
  destruct (setColM_map_spec n m c (fillCell v) Hsq Hc) as [Hsq2 Hc2].
  apply (matrix_ext n); [done..|]. intros l' c' Hl' Hc'. rewrite Hc1, Hc2.
  destruct (decide (c' = c)) as [->|Hne].
  - rewrite decide_True; [done|]. by apply elem_of_colPos.
  - rewrite decide_False; [done|]. by intros [? _]%elem_of_colPos.
Qed.

Lemma setRowM_same n m l : squareM n m → (l < n)%nat → setRowM m l (rowM m l) = m.
Proof.
  intros Hsq Hl. destruct (squareM_lookup _ _ _ Hsq Hl) as (row & Hrow & _).
  rewrite (rowM_lookup _ _ _ Hrow). by apply list_insert_id.
Qed.

Lemma setColM_same n m c : squareM n m → (c < n)%nat → setColM m c (colM m c) = m.
Proof.
  intros Hsq Hc. destruct (setColM_map_spec n m c id Hsq Hc) as [Hsq2 Hc2].
  rewrite list_fmap_id in *. apply (matrix_ext n); [done..|].
  intros l' c' _ _. rewrite Hc2. case_decide; [|done]. by destruct (cellAt m l' c').
Qed.

(** The effect of [fillRange] on the pointers of a line and of a column, in
    terms of the cells of that line or column. *)
Lemma fillRangeM_row n m l :
  squareM n m → (l < n)%nat →
  fillRangeM m (rowPos l n) = setRowM m l (fillCells (rowM m l)).
Proof.
  intros Hsq Hl. unfold fillRangeM, fillCells. rewrite (readAt_rowPos n) by done.
  repeat match goal with |- context [if ?b then _ else _] => destruct b end;
    first [by rewrite (setRowM_same n) | by apply fillAt_row].
Qed.

Lemma fillRangeM_col n m c :
  squareM n m → (c < n)%nat →
  fillRangeM m (colPos c n) = setColM m c (fillCells (colM m c)).
Proof.
  intros Hsq Hc. unfold fillRangeM, fillCells. rewrite (readAt_colPos n) by done.
  repeat match goal with |- context [if ?b then _ else _] => destruct b end;
    first [by rewrite (setColM_same n) | by apply fillAt_col].
Qed.

(** The shape of [fillCells]: the cells unchanged, or the undefined ones
    given the same value 0 or 1. *)
Lemma fillCells_shape cells :
  fillCells cells = cells ∨ fillCells cells = fillCell 1 <$> cells
  ∨ fillCells cells = fillCell 0 <$> cells.
Proof.
  unfold fillCells.
  repeat match goal with |- context [if ?b then _ else _] => destruct b end; auto.
Qed.

Lemma squareM_setRow_fill n m l :
  squareM n m → matrixOk m → (l < n)%nat →
  squareM n (setRowM m l (fillCells (rowM m l)))
  ∧ matrixOk (setRowM m l (fillCells (rowM m l))).
Proof.
  intros Hsq Hok Hl.
  destruct (fillCells_shape (rowM m l)) as [-> | [-> | ->]].
  - by rewrite (setRowM_same n).
  - destruct (setRowM_map_spec n m l (fillCell 1) Hsq Hl) as [Hsq2 Hc2]. split; [done|].
    apply matrixOk_pointwise. intros l' c' x. rewrite Hc2.
    rewrite matrixOk_pointwise in Hok. specialize (Hok l' c').
    destruct (cellAt m l' c') as [y|]; [|by case_decide].
    case_decide; simpl; intros [= <-]; [apply fillCell_ok|]; auto.
  - destruct (setRowM_map_spec n m l (fillCell 0) Hsq Hl) as [Hsq2 Hc2]. split; [done|].
    apply matrixOk_pointwise. intros l' c' x. rewrite Hc2.
    rewrite matrixOk_pointwise in Hok. specialize (Hok l' c').
    destruct (cellAt m l' c') as [y|]; [|by case_decide].
    case_decide; simpl; intros [= <-]; [apply fillCell_ok|]; auto.
Qed.

Lemma squareM_setCol_fill n m c :
  squareM n m → matrixOk m → (c < n)%nat →
  squareM n (setColM m c (fillCells (colM m c)))
  ∧ matrixOk (setColM m c (fillCells (colM m c))).
Proof.
  intros Hsq Hok Hc.
  destruct (fillCells_shape (colM m c)) as [-> | [-> | ->]].
  - by rewrite (setColM_same n).
  - destruct (setColM_map_spec n m c (fillCell 1) Hsq Hc) as [Hsq2 Hc2]. split; [done|].
    apply matrixOk_pointwise. intros l' c' x. rewrite Hc2.
    rewrite matrixOk_pointwise in Hok. specialize (Hok l' c').
    destruct (cellAt m l' c') as [y|]; [|by case_decide].
    case_decide; simpl; intros [= <-]; [apply fillCell_ok|]; auto.
  - destruct (setColM_map_spec n m c (fillCell 0) Hsq Hc) as [Hsq2 Hc2]. split; [done|].
    apply matrixOk_pointwise. intros l' c' x. rewrite Hc2.
    rewrite matrixOk_pointwise in Hok. specialize (Hok l' c').
    destruct (cellAt m l' c') as [y|]; [|by case_decide].
    case_decide; simpl; intros [= <-]; [apply fillCell_ok|]; auto.
Qed.

Lemma fillLineColumnM_wf n m l c :
  squareM n m → matrixOk m → (l < n)%nat → (c < n)%nat →
  squareM n (fillLineColumnM m l c) ∧ matrixOk (fillLineColumnM m l c).
Proof.
  intros Hsq Hok Hl Hc. unfold fillLineColumnM.
  destruct (squareM_setRow_fill n m l Hsq Hok Hl) as [Hsq1 Hok1].
  by apply squareM_setCol_fill.
Qed.

Lemma matrixOk_rowM n m l : squareM n m → matrixOk m → (l < n)%nat → cellsOk (rowM m l).
Proof.
  intros Hsq Hok Hl. destruct (squareM_lookup _ _ _ Hsq Hl) as (row & Hrow & _).
  rewrite (rowM_lookup _ _ _ Hrow). by eapply (Forall_lookup_1 _ _ _ _ Hok).
Qed.

Lemma matrixOk_colM n m c : squareM n m → matrixOk m → (c < n)%nat → cellsOk (colM m c).
Proof.
  intros Hsq Hok Hc. apply Forall_lookup_2. intros l x Hx.
  assert (Hl : (l < n)%nat).
  { apply lookup_lt_Some in Hx. rewrite colM_length in Hx. destruct Hsq. lia. }
  destruct (squareM_cellAt _ _ l c Hsq Hl Hc) as [y Hy].
  rewrite (colM_lookup _ _ _ _ Hy) in Hx. injection Hx as <-. by eapply matrixOk_cellAt.
Qed.

(** [FillLineColumn] writes the content [fillLineColumnM]. *)
Lemma FillLineColumn_run h b m l c :
  wfBoard h b m → matrixOk m → (l < Size b)%nat → (c < Size b)%nat →
  FillLineColumn b l c h = Done (tt, <[Board b := fillLineColumnM m l c]> h).
Proof.
  intros Hwf Hok Hl Hc. pose proof Hwf as [Hm Hsq]. unfold FillLineColumn.
  rewrite (run_bind _ _ _ _ _ (GetLinePointers_run _ _ _ _ Hwf Hl)).
  erewrite run_bind;
    [| apply (fillRange_run _ _ m); [done | by apply (inside_rowPos (Size b)) |
       rewrite (readAt_rowPos (Size b)) by done; by apply (matrixOk_rowM (Size b))]].
  rewrite (fillRangeM_row (Size b)) by done.
  destruct (squareM_setRow_fill _ _ _ Hsq Hok Hl) as [Hsq1 Hok1].
  set (m1 := setRowM m l (fillCells (rowM m l))) in *.
  assert (Hwf1 : wfBoard (<[Board b := m1]> h) b m1).
  { split; [by eapply heap_insert_lookup | done]. }
  rewrite (run_bind _ _ _ _ _ (GetColumnPointers_run _ _ _ _ Hwf1 Hc)).
  erewrite (fillRange_run _ _ m1);
    [| by eapply heap_insert_lookup | by apply (inside_colPos (Size b)) |
       rewrite (readAt_colPos (Size b)) by done; by apply (matrixOk_colM (Size b))].
  rewrite (fillRangeM_col (Size b)) by done. by rewrite heap_insert_insert.
Qed.

(** ** Single-cell forcing *)

Lemma setM_wf n m l c v :
  squareM n m → matrixOk m → squareM n (setM m l c v) ∧ matrixOk (setM m l c v).
Proof.
  intros Hsq Hok. unfold setM. destruct (cellAt m l c) as [x|]; [|done].
  case_decide as Hv.
  - split; [by apply squareM_setCellM|]. apply matrixOk_setCellM; [done|].
    intros Hd. simpl in Hd. done.
  - split; [by apply squareM_setCellM|]. apply matrixOk_setCellM; [done|].
    intros _. simpl. lia.
Qed.

Lemma CheckLine_run h b m i :
  wfBoard h b m → matrixOk m → (i < Size b)%nat →
  ∃ e, CheckLine b i h = Done (e, h) ∧ (rangeFails (rowM m i) = bool_decide (e ≠ None)).
Proof.
  intros Hwf Hok Hi. pose proof Hwf as [_ Hsq]. unfold CheckLine.
  rewrite (run_bind _ _ _ _ _ (GetLine_run _ _ _ _ Hwf Hi)).
  destruct (checkRange_total (rowM m i)) as [[fl e] Hr]; [by apply (matrixOk_rowM (Size b))|].
  rewrite (run_bind _ _ _ _ _ (orPanic_Some _ _ _ Hr)).
  exists e. split; [done|]. unfold rangeFails. rewrite Hr. by destruct e.
Qed.

Lemma CheckColumn_run h b m i :
  wfBoard h b m → matrixOk m → (i < Size b)%nat →
  ∃ e, CheckColumn b i h = Done (e, h) ∧ (rangeFails (colM m i) = bool_decide (e ≠ None)).
Proof.
  intros Hwf Hok Hi. pose proof Hwf as [_ Hsq]. unfold CheckColumn.
  rewrite (run_bind _ _ _ _ _ (GetColumn_run _ _ _ _ Hwf Hi)).
  destruct (checkRange_total (colM m i)) as [[fl e] Hr]; [by apply (matrixOk_colM (Size b))|].
  rewrite (run_bind _ _ _ _ _ (orPanic_Some _ _ _ Hr)).
  exists e. split; [done|]. unfold rangeFails. rewrite Hr. by destruct e.
Qed.

Lemma lineOrColumnFails_run h b m l c :
  wfBoard h b m → matrixOk m → (l < Size b)%nat → (c < Size b)%nat →
  lineOrColumnFails b l c h = Done (rangeFails (rowM m l) || rangeFails (colM m c), h).
Proof.
  intros Hwf Hok Hl Hc. unfold lineOrColumnFails.
  destruct (CheckLine_run _ _ _ _ Hwf Hok Hl) as (e1 & Hr1 & ->).
  destruct (CheckColumn_run _ _ _ _ Hwf Hok Hc) as (e2 & Hr2 & ->).
  rewrite (run_bind _ _ _ _ _ Hr1). destruct e1 as [e1|]; [done|].
  by rewrite (run_bind _ _ _ _ _ Hr2).
Qed.

Lemma wfBoard_snoc h n mx : squareM n mx → wfBoard (h ++ [mx]) (mkTakuzu n (length h)) mx.
Proof. intros Hsq. split; [apply heap_lookup_snoc | done]. Qed.

(** One trial of [guessPos] on the clone [bx]: give the cell [v], complete the
    line and the column, check them. *)
Lemma trial_run h n m l c v (k : bool → H Z) :
  squareM n m → matrixOk m → (l < n)%nat → (c < n)%nat →
  let bx := mkTakuzu n (length h) in
  (Takuzu_Set bx l c v;; FillLineColumn bx l c;; bad ← lineOrColumnFails bx l c; k bad)
    (h ++ [m])
  = k (refuted m l c v) (h ++ [fillLineColumnM (setM m l c v) l c]).
Proof.
  intros Hsq Hok Hl Hc bx.
  erewrite run_bind;
    [| apply (Takuzu_Set_run _ bx m); [apply heap_lookup_snoc | by apply (squareM_cellAt n)]].
  simpl. rewrite heap_insert_snoc.
  destruct (setM_wf n m l c v Hsq Hok) as [Hsq1 Hok1].
  erewrite run_bind;
    [| apply (FillLineColumn_run _ bx (setM m l c v)); [by apply wfBoard_snoc | done..]].
  simpl. rewrite heap_insert_snoc.
  destruct (fillLineColumnM_wf n _ l c Hsq1 Hok1 Hl Hc) as [Hsq2 Hok2].
  erewrite run_bind;
    [| apply (lineOrColumnFails_run _ bx (fillLineColumnM (setM m l c v) l c));
       [by apply wfBoard_snoc | done..]].
  done.
Qed.

(** [guessPos] computes [guessSpec] of the content; the only change to the
    heap is the clone it allocates for an undefined cell. *)
Lemma guessPos_run h b m l c :
  wfBoard h b m → matrixOk m → (l < Size b)%nat → (c < Size b)%nat →
  ∃ junk, guessPos b l c h = Done (guessSpec m l c, h ++ junk).
Proof.
  intros Hwf Hok Hl Hc. pose proof Hwf as [Hm Hsq].
  destruct (squareM_cellAt _ _ l c Hsq Hl Hc) as [x Hx].
  unfold guessPos, guessSpec. rewrite Hx.
  rewrite (run_bind _ _ _ _ _ (loadCell_run _ _ _ _ _ _ Hm Hx)).
  destruct (Defined x) eqn:Hd.
  { exists []. rewrite app_nil_r.
    by rewrite (run_bind _ _ _ _ _ (loadCell_run _ _ _ _ _ _ Hm Hx)). }
  rewrite (run_bind _ _ _ _ _ (Clone_run _ _ _ Hwf)).
  rewrite (trial_run h (Size b) m l c 0) by done.
  destruct (refuted m l c 0) eqn:H0; [by eexists|].
  set (bx := mkTakuzu (Size b) (length h)).
  set (m0 := fillLineColumnM (setM m l c 0) l c).
  assert (Hlt : (Board b < length h)%nat) by (by eapply lookup_lt_Some).
  destruct (setM_wf (Size b) m l c 0 Hsq Hok) as [Hsq1 Hok1].
  destruct (fillLineColumnM_wf (Size b) _ l c Hsq1 Hok1 Hl Hc) as [Hsq2 Hok2].
  erewrite run_bind; [| apply (Copy_run _ b bx m m0)].
  - simpl. rewrite heap_insert_snoc.
    rewrite (trial_run h (Size b) m l c 1) by done.
    destruct (refuted m l c 1); by eexists.
  - split; [by rewrite lookup_app_l | done].
  - by apply wfBoard_snoc.
  - done.
  - simpl. lia.
Qed.

Lemma trialFails_run h b m l c v :
  wfBoard h b m → matrixOk m → (l < Size b)%nat → (c < Size b)%nat →
  trialFails b l c v h
  = Done (refuted m l c v, h ++ [fillLineColumnM (setM m l c v) l c]).
Proof.
  intros Hwf Hok Hl Hc. pose proof Hwf as [Hm Hsq]. unfold trialFails.
  rewrite (run_bind _ _ _ _ _ (Clone_run _ _ _ Hwf)).
  set (bx := mkTakuzu (Size b) (length h)).
  erewrite run_bind;
    [| apply (Takuzu_Set_run _ bx m);
       [apply heap_lookup_snoc | by apply (squareM_cellAt (Size b))]].
  simpl. rewrite heap_insert_snoc.
  destruct (setM_wf (Size b) m l c v Hsq Hok) as [Hsq1 Hok1].
  erewrite run_bind;
    [| apply (FillLineColumn_run _ bx (setM m l c v)); [by apply wfBoard_snoc | done..]].
  simpl. rewrite heap_insert_snoc.
  destruct (fillLineColumnM_wf (Size b) _ l c Hsq1 Hok1 Hl Hc) as [Hsq2 Hok2].
  set (m' := fillLineColumnM (setM m l c v) l c) in *.
  destruct (CheckLine_run (h ++ [m']) bx m' l) as (e1 & Hr1 & He1);
    [by apply wfBoard_snoc | done..|].
  destruct (CheckColumn_run (h ++ [m']) bx m' c) as (e2 & Hr2 & He2);
    [by apply wfBoard_snoc | done..|].
  rewrite (run_bind _ _ _ _ _ Hr1), (run_bind _ _ _ _ _ Hr2).
  unfold refuted. fold m'. rewrite He1, He2.
  assert (Hb : bool_decide (e1 ≠ None ∨ e2 ≠ None)
               = bool_decide (e1 ≠ None) || bool_decide (e2 ≠ None)).
  { by destruct e1, e2. }
  by rewrite <- Hb.
Qed.

(** C4: on a well-formed board, [guessPos] returns the value of a defined
    cell; otherwise 1 if giving the cell 0 on a clone and completing its line
    and column makes the line or the column fail the range check; otherwise 0
    if the same trial with 1 on a fresh clone fails; otherwise -1.  The
    program [guessPosSpec] words exactly this, and both return [guessSpec] of
    the content. *)
Theorem guessPos_refines_spec (h : heap) (b : Takuzu) (m : matrix) (l c : nat) :
  wfBoard h b m → matrixOk m → (l < Size b)%nat → (c < Size b)%nat →
  ∃ g h1 h2,
    guessPos b l c h = Done (g, h1)
    ∧ guessPosSpec b l c h = Done (g, h2)
    ∧ g = guessSpec m l c.
Proof.
  intros Hwf Hok Hl Hc. pose proof Hwf as [Hm Hsq].
  destruct (guessPos_run h b m l c Hwf Hok Hl Hc) as [junk Hrun].
  exists (guessSpec m l c), (h ++ junk).
  destruct (squareM_cellAt _ _ l c Hsq Hl Hc) as [x Hx].
  unfold guessPosSpec, guessSpec. rewrite Hx.
  rewrite (run_bind _ _ _ _ _ (loadCell_run _ _ _ _ _ _ Hm Hx)).
  destruct (Defined x) eqn:Hd.
  { exists h. split; [|done]. revert Hrun. unfold guessSpec. by rewrite Hx, Hd. }
  rewrite (run_bind _ _ _ _ _ (trialFails_run _ _ _ _ _ 0 Hwf Hok Hl Hc)).
  destruct (refuted m l c 0) eqn:H0.
  { eexists. split; [|done]. revert Hrun. unfold guessSpec. by rewrite Hx, Hd, H0. }
  erewrite run_bind; [| apply (trialFails_run _ b m); [|done..]].
  - destruct (refuted m l c 1) eqn:H1; eexists; (split; [|done]);
      revert Hrun; unfold guessSpec; by rewrite Hx, Hd, H0, H1.
  - split; [|done]. rewrite lookup_app_l; [done | by eapply lookup_lt_Some].
Qed.

Lemma guessPos_refines_spec_witness :
  let m := [[cellOf 0; cellOf 0; zeroCell; cellOf 1];
            [zeroCell; zeroCell; zeroCell; zeroCell];
            [zeroCell; zeroCell; zeroCell; zeroCell];
            [zeroCell; zeroCell; zeroCell; zeroCell]] in
  let b := mkTakuzu 4 0 in
  (wfBoard [m] b m ∧ matrixOk m ∧ (0 < Size b)%nat ∧ (2 < Size b)%nat)
  ∧ ∃ g h1 h2,
      guessPos b 0 2 [m] = Done (g, h1)
      ∧ guessPosSpec b 0 2 [m] = Done (g, h2)
      ∧ g = guessSpec m 0 2.
Proof.
  intros m b.
  assert (Hwf : wfBoard [m] b m).
  { split; [reflexivity|]. split; [reflexivity|]. repeat constructor. }
  assert (Hok : matrixOk m).
  { by apply matrixOkb_sound. }
  assert (H0 : (0 < Size b)%nat) by (simpl; lia).
  assert (H2 : (2 < Size b)%nat) by (simpl; lia).
  split; [exact (conj Hwf (conj Hok (conj H0 H2)))|].
  exact (guessPos_refines_spec [m] b m 0 2 Hwf Hok H0 H2).
Defined.

Example guessPos_three_in_a_row :
  guessPos (mkTakuzu 4 0) 0 2
    [[[cellOf 0; cellOf 0; zeroCell; cellOf 1];
      [zeroCell; zeroCell; zeroCell; zeroCell];
      [zeroCell; zeroCell; zeroCell; zeroCell];
      [zeroCell; zeroCell; zeroCell; zeroCell]]]
  = Done (1,
    [[[cellOf 0; cellOf 0; zeroCell; cellOf 1];
      [zeroCell; zeroCell; zeroCell; zeroCell];
      [zeroCell; zeroCell; zeroCell; zeroCell];
      [zeroCell; zeroCell; zeroCell; zeroCell]];
     [[cellOf 0; cellOf 0; cellOf 0; cellOf 1];
      [zeroCell; zeroCell; zeroCell; zeroCell];
      [zeroCell; zeroCell; zeroCell; zeroCell];
      [zeroCell; zeroCell; zeroCell; zeroCell]]]).
Proof. vm_compute. reflexivity. Qed.

Lemma wfBoard_app h b m junk : wfBoard h b m → wfBoard (h ++ junk) b m.
Proof.
  intros [Hm Hsq]. split; [|done]. rewrite lookup_app_l; [done | by eapply lookup_lt_Some].
Qed.

(** [TrivialHint] only allocates. *)
Lemma TrivialHint_run h b m :
  wfBoard h b m → matrixOk m → ∃ r junk, TrivialHint b h = Done (r, h ++ junk).
Proof.
  intros Hwf Hok. unfold TrivialHint.
  pose (body := λ (line col : nat) (_ : unit),
    (x ← loadCell b line col;
     if Defined x then mret (inl tt)
     else
       value ← guessPos b line col;
       if decide (value ≠ -1)
       then mret (inr (Z.of_nat line, Z.of_nat col, value))
       else mret (inl tt)) : H (unit + Z * Z * Z)).
  destruct (loopM_upto
    (λ line (_ : unit), loopM (body line) (upto (Size b)) tt) (Size b)
    (λ _ _ h', ∃ junk, h' = h ++ junk) (λ _ h', ∃ junk, h' = h ++ junk) tt h)
    as (r & h' & Hrun & Hpost).
  - exists []. by rewrite app_nil_r.
  - intros line [] h1 Hline [junk ->].
    destruct (loopM_upto (body line) (Size b)
      (λ _ _ h', ∃ junk, h' = h ++ junk) (λ _ h', ∃ junk, h' = h ++ junk) tt (h ++ junk))
      as (r & h' & Hrun & Hpost).
    + by exists junk.
    + intros col [] h2 Hcol [junk2 ->]. unfold body.
      pose proof (wfBoard_app _ _ _ junk2 Hwf) as Hwf2. pose proof Hwf2 as [Hm2 Hsq].
      destruct (squareM_cellAt _ _ line col Hsq Hline Hcol) as [x Hx].
      rewrite (run_bind _ _ _ _ _ (loadCell_run _ _ _ _ _ _ Hm2 Hx)).
      destruct (Defined x).
      { exists (inl tt), (h ++ junk2). split; [done|]. by exists junk2. }
      destruct (guessPos_run _ _ _ line col Hwf2 Hok Hline Hcol) as [junk3 Hg].
      rewrite (run_bind _ _ _ _ _ Hg). rewrite <- app_assoc.
      case_decide; eexists _, _; (split; [reflexivity|]); simpl; eauto.
    + exists r, h'. split; [done|]. by destruct r.
  - unfold body in Hrun. rewrite (run_bind _ _ _ _ _ Hrun).
    destruct r as [[]|res]; destruct Hpost as [junk ->]; eauto.
Qed.

(** C10: [guessPos], and so [TrivialHint], leave the board as it is: they
    return, the content of the board is the same afterwards, and so is every
    other object that was in the heap. *)
Theorem guessPos_leaves_board (h : heap) (b : Takuzu) (m : matrix) (l c : nat) :
  wfBoard h b m → matrixOk m → (l < Size b)%nat → (c < Size b)%nat →
  (∃ g h', guessPos b l c h = Done (g, h')
     ∧ wfBoard h' b m ∧ ∀ a, (a < length h)%nat → h' !! a = h !! a)
  ∧ (∃ r h', TrivialHint b h = Done (r, h')
       ∧ wfBoard h' b m ∧ ∀ a, (a < length h)%nat → h' !! a = h !! a).
Proof.
  intros Hwf Hok Hl Hc. split.
  - destruct (guessPos_run h b m l c Hwf Hok Hl Hc) as [junk Hrun].
    eexists _, _. split; [exact Hrun|]. split; [by apply wfBoard_app|].
    intros a Ha. by rewrite lookup_app_l.
  - destruct (TrivialHint_run h b m Hwf Hok) as (r & junk & Hrun).
    eexists _, _. split; [exact Hrun|]. split; [by apply wfBoard_app|].
    intros a Ha. by rewrite lookup_app_l.
Qed.

Lemma guessPos_leaves_board_witness :
  let m := [[cellOf 0; cellOf 0; zeroCell; cellOf 1];
            [zeroCell; zeroCell; zeroCell; zeroCell];
            [zeroCell; zeroCell; zeroCell; zeroCell];
            [zeroCell; zeroCell; zeroCell; zeroCell]] in
  let b := mkTakuzu 4 0 in
  (wfBoard [m] b m ∧ matrixOk m ∧ (0 < Size b)%nat ∧ (2 < Size b)%nat)
  ∧ (∃ g h', guessPos b 0 2 [m] = Done (g, h')
       ∧ wfBoard h' b m ∧ ∀ a, (a < length [m])%nat → h' !! a = [m] !! a)
  ∧ (∃ r h', TrivialHint b [m] = Done (r, h')
       ∧ wfBoard h' b m ∧ ∀ a, (a < length [m])%nat → h' !! a = [m] !! a).
Proof.
  intros m b.
  assert (Hwf : wfBoard [m] b m).
  { split; [reflexivity|]. split; [reflexivity|]. repeat constructor. }
  assert (Hok : matrixOk m).
  { by apply matrixOkb_sound. }
  assert (H0 : (0 < Size b)%nat) by (simpl; lia).
  assert (H2 : (2 < Size b)%nat) by (simpl; lia).
  split; [exact (conj Hwf (conj Hok (conj H0 H2)))|].
  exact (guessPos_leaves_board [m] b m 0 2 Hwf Hok H0 H2).
Defined.

(** ** The trivial pass *)

Lemma filter_length_insert {A} (P : A → Prop) `{∀ x, Decision (P x)} (l : list A) i x y :
  l !! i = Some x →
  (length (filter P (<[i := y]> l)) + (if decide (P x) then 1 else 0)
   = length (filter P l) + (if decide (P y) then 1 else 0))%nat.
Proof.
  intros Hx. rewrite insert_take_drop by (by eapply lookup_lt_Some).
  rewrite <- (take_drop_middle l i x Hx) at 3.
  rewrite !filter_app, !filter_cons, !length_app.
  destruct (decide (P x)), (decide (P y)); simpl; lia.
Qed.

Lemma undefinedCount_setCellM m l c x y :
  cellAt m l c = Some x →
  (undefinedCount (setCellM m l c y) + (if Defined x then 0 else 1)
   = undefinedCount m + (if Defined y then 0 else 1))%nat.
Proof.
  intros (row & Hrow & Hx)%cellAt_Some. unfold setCellM, undefinedCount. rewrite Hrow.
  rewrite insert_take_drop by (by eapply lookup_lt_Some).
  rewrite <- (take_drop_middle m l row Hrow) at 3.
  rewrite !concat_app, !concat_cons, !filter_app, !length_app.
  pose proof (filter_length_insert (λ x, Defined x = false) row c x y Hx) as Hf.
  simpl in Hf.
  destruct (Defined x) eqn:Hdx, (Defined y) eqn:Hdy; repeat case_decide; try done; lia.
Qed.

Lemma extendsM_refl m : extendsM m m.
Proof. by intros l c x. Qed.

Lemma extendsM_trans m1 m2 m3 : extendsM m1 m2 → extendsM m2 m3 → extendsM m1 m3.
Proof. intros H12 H23 l c x Hx Hd. apply H23; [|done]. by apply H12. Qed.

Lemma extendsM_setCellM m l c x y :
  cellAt m l c = Some x → Defined x = false → extendsM m (setCellM m l c y).
Proof.
  intros Hx Hd l' c' z Hz Hdz. destruct (decide ((l, c) = (l', c'))) as [[= <- <-]|Hne].
  - congruence.
  - by rewrite cellAt_setCellM_ne.
Qed.

Lemma guessSpec_undefined m l c x :
  cellAt m l c = Some x → Defined x = false →
  guessSpec m l c = 1 ∨ guessSpec m l c = 0 ∨ guessSpec m l c = -1.
Proof.
  intros Hx Hd. unfold guessSpec. rewrite Hx, Hd.
  destruct (refuted m l c 0); [auto|]. destruct (refuted m l c 1); auto.
Qed.

Lemma passRel_refl n st : squareM n st.2 → matrixOk st.2 → passRel n st st.
Proof. intros. split_and!; [done | done | apply extendsM_refl | by left]. Qed.

Lemma passRel_trans n st1 st2 st3 : passRel n st1 st2 → passRel n st2 st3 → passRel n st1 st3.
Proof.
  intros (_ & _ & He12 & H12) (Hsq & Hok & He23 & H23).
  split_and!; [done | done | by eapply extendsM_trans|].
  destruct H23 as [-> | [Ht Hlt]]; [done|]. right. split; [done|].
  destruct H12 as [-> | [_ Hlt']]; lia.
Qed.

Lemma passCellM_rel n l c st :
  squareM n st.2 → matrixOk st.2 → passRel n st (passCellM l c st).
Proof.
  destruct st as [ch m]. simpl. intros Hsq Hok. unfold passCellM.
  destruct (cellAt m l c) as [x|] eqn:Hx; [|by apply passRel_refl].
  destruct (Defined x) eqn:Hd; [by apply passRel_refl|].
  case_decide as Hg; [|by apply passRel_refl].
  destruct (setM_wf n m l c (guessSpec m l c) Hsq Hok) as [Hsq' Hok'].
  split_and!; [done | done | |]; simpl.
  - unfold setM. rewrite Hx. case_decide; by apply (extendsM_setCellM _ _ _ x).
  - right. split; [done|].
    destruct (guessSpec_undefined m l c x Hx Hd) as [Hv | [Hv | Hv]]; [| |done].
    + unfold setM. rewrite Hx, Hv. rewrite decide_False by lia.
      pose proof (undefinedCount_setCellM m l c x (mkCell true 1) Hx) as Hc.
      rewrite Hd in Hc. simpl in Hc. lia.
    + unfold setM. rewrite Hx, Hv. rewrite decide_False by lia.
      pose proof (undefinedCount_setCellM m l c x (mkCell true 0) Hx) as Hc.
      rewrite Hd in Hc. simpl in Hc. lia.
Qed.

Lemma foldl_passRel {A} n (f : bool * matrix → A → bool * matrix) (xs : list A) :
  (∀ st x, squareM n st.2 → matrixOk st.2 → passRel n st (f st x)) →
  ∀ st, squareM n st.2 → matrixOk st.2 → passRel n st (foldl f st xs).
Proof.
  intros Hf. induction xs as [|x xs IH]; intros st Hsq Hok; simpl.
  - by apply passRel_refl.
  - pose proof (Hf st x Hsq Hok) as H1. eapply passRel_trans; [done|].
    destruct H1 as (? & ? & _). by apply IH.
Qed.

Lemma passLineM_rel n st l :
  squareM n st.2 → matrixOk st.2 → passRel n st (passLineM n st l).
Proof.
  unfold passLineM. apply foldl_passRel. intros st' c. apply passCellM_rel.
Qed.

Lemma passM_rel n m : squareM n m → matrixOk m → passRel n (false, m) (passM m).
Proof.
  intros Hsq Hok. unfold passM. pose proof Hsq as [Hlen _]. rewrite Hlen.
  apply (foldl_passRel n (passLineM n) _); [|done..].
  intros st l. apply passLineM_rel.
Qed.

(** A pass that reports no change has left the content as it was. *)
Lemma passM_unchanged n m : squareM n m → matrixOk m → (passM m).1 = false → (passM m).2 = m.
Proof.
  intros Hsq Hok Hch. destruct (passM_rel n m Hsq Hok) as (_ & _ & _ & [-> | [Ht _]]);
    [done | congruence].
Qed.

Lemma boardHeap_wf h b m junk :
  (Board b < length h)%nat → squareM (Size b) m → wfBoard (boardHeap h b m junk) b m.
Proof.
  intros Hlt Hsq. split; [|done]. unfold boardHeap.
  rewrite lookup_app_l by (by rewrite length_insert). by apply list_lookup_insert_eq.
Qed.

Lemma boardHeap_set h b m1 m2 junk :
  (Board b < length h)%nat →
  <[Board b := m2]> (boardHeap h b m1 junk) = boardHeap h b m2 junk.
Proof.
  intros Hlt. unfold boardHeap. rewrite insert_app_l by (by rewrite length_insert).
  by rewrite list_insert_insert_eq.
Qed.

Lemma boardHeap_app h b m junk junk' :
  boardHeap h b m junk ++ junk' = boardHeap h b m (junk ++ junk').
Proof. unfold boardHeap. by rewrite app_assoc. Qed.

Lemma boardHeap_init h b m : h !! Board b = Some m → h = boardHeap h b m [].
Proof. intros Hm. unfold boardHeap. by rewrite app_nil_r, list_insert_id. Qed.

Lemma boardHeap_again h b m1 junk1 m2 junk2 :
  (Board b < length h)%nat →
  boardHeap (boardHeap h b m1 junk1) b m2 junk2 = boardHeap h b m2 (junk1 ++ junk2).
Proof.
  intros Hlt. unfold boardHeap at 1. rewrite boardHeap_set by done. apply boardHeap_app.
Qed.

(** The body of the inner loop of [trySolveTrivialPass]. *)
Lemma passCell_run h b mk junk line col (ch : bool) :
  (Board b < length h)%nat → squareM (Size b) mk → matrixOk mk →
  (line < Size b)%nat → (col < Size b)%nat →
  ∃ junk',
    (x ← loadCell b line col;
     if Defined x then mret ch
     else
       guess ← guessPos b line col;
       if decide (guess ≠ -1) then Takuzu_Set b line col guess;; mret true
       else mret ch) (boardHeap h b mk junk)
    = Done ((passCellM line col (ch, mk)).1,
            boardHeap h b (passCellM line col (ch, mk)).2 junk').
Proof.
  intros Hlt Hsq Hok Hline Hcol.
  pose proof (boardHeap_wf h b mk junk Hlt Hsq) as Hwf. pose proof Hwf as [Hm _].
  destruct (squareM_cellAt _ _ line col Hsq Hline Hcol) as [x Hx].
  rewrite (run_bind _ _ _ _ _ (loadCell_run _ _ _ _ _ _ Hm Hx)).
  unfold passCellM. rewrite Hx. destruct (Defined x); [by exists junk|].
  destruct (guessPos_run _ _ _ line col Hwf Hok Hline Hcol) as [junk2 Hg].
  rewrite (run_bind _ _ _ _ _ Hg). rewrite boardHeap_app.
  case_decide; [|by eexists].
  erewrite run_bind;
    [| apply (Takuzu_Set_run _ b mk); [by apply boardHeap_wf | by eauto]].
  rewrite boardHeap_set by done. by eexists.
Qed.

(** [trySolveTrivialPass] computes [passM] of the content. *)
Lemma trySolveTrivialPass_run h b m junk :
  (Board b < length h)%nat → squareM (Size b) m → matrixOk m →
  ∃ junk', trySolveTrivialPass b (boardHeap h b m junk)
           = Done ((passM m).1, boardHeap h b (passM m).2 junk').
Proof.
  intros Hlt Hsq Hok. unfold trySolveTrivialPass, passM.
  pose proof Hsq as [Hlen _]. rewrite Hlen. set (n := Size b) in *.
  pose (inner := λ (line col : nat) (changed : bool),
    (x ← loadCell b line col;
     if Defined x then mret changed
     else
       guess ← guessPos b line col;
       if decide (guess ≠ -1) then Takuzu_Set b line col guess;; mret true
       else mret changed) : H bool).
  pose (Inv := λ (st : bool * matrix) (ch : bool) (h' : heap),
    ch = st.1 ∧ passRel n (false, m) st ∧ ∃ junk', h' = boardHeap h b st.2 junk').
  destruct (forM_upto (λ line changed, forM (inner line) (upto n) changed) n
    (λ line, Inv (foldl (passLineM n) (false, m) (upto line))) false (boardHeap h b m junk))
    as (ch & h' & Hrun & -> & _ & junk' & ->).
  - split; [done|]. split; [by apply passRel_refl|]. by exists junk.
  - intros line ch h1 Hline (-> & Hrel & junk1 & ->).
    set (st0 := foldl (passLineM n) (false, m) (upto line)) in *.
    destruct (forM_upto (inner line) n
      (λ col, Inv (foldl (λ st c, passCellM line c st) st0 (upto col)))
      st0.1 (boardHeap h b st0.2 junk1)) as (ch & h' & Hrun & -> & Hrel' & junk' & ->).
    + split; [done|]. split; [done|]. by exists junk1.
    + intros col ch h2 Hcol (-> & Hrel2 & junk2 & ->).
      set (st := foldl (λ st c, passCellM line c st) st0 (upto col)) in *.
      destruct Hrel2 as (Hsq2 & Hok2 & Hrest).
      destruct (passCell_run h b st.2 junk2 line col st.1 Hlt Hsq2 Hok2 Hline Hcol)
        as [junk3 Hcell].
      rewrite <- (surjective_pairing st) in Hcell.
      unfold inner. rewrite Hcell. eexists _, _. split; [reflexivity|].
      rewrite upto_S, foldl_app. cbn [foldl]. fold st.
      split; [done|]. split; [|by eexists].
      eapply passRel_trans; [split_and!; try done; apply Hrest|].
      by apply passCellM_rel.
    + eexists _, _. split; [exact Hrun|].
      rewrite upto_S, foldl_app. cbn [foldl]. fold st0.
      split; [done|]. split; [done|]. by eexists.
  - exists junk'. exact Hrun.
Qed.

(** ** The trivial fixpoint *)

(** What the loop of [TrySolveTrivial] reaches: a well-formed content that
    extends the initial one and that a further pass leaves unchanged. *)
Lemma trivialM_spec n fuel : ∀ m m',
  squareM n m → matrixOk m → trivialM fuel m = Some m' →
  squareM n m' ∧ matrixOk m' ∧ extendsM m m'
  ∧ (undefinedCount m' ≤ undefinedCount m)%nat ∧ passM m' = (false, m').
Proof.
  induction fuel as [|fuel IH]; intros m m' Hsq Hok; simpl; [done|].
  pose proof (passM_rel n m Hsq Hok) as (Hsq1 & Hok1 & Hext1 & Hch).
  destruct (passM m) as [ch m1] eqn:Hpass. simpl in *. destruct ch.
  - intros Hrun. destruct (IH _ _ Hsq1 Hok1 Hrun) as (? & ? & ? & ? & ?).
    split_and!; [done | done | by eapply extendsM_trans | | done].
    destruct Hch as [[=] | [_ ?]]. lia.
  - intros [= <-]. destruct Hch as [[= ->] | [[=] _]].
    split_and!; [done | done | apply extendsM_refl | done | done].
Qed.

Lemma trivialM_total n fuel : ∀ m,
  squareM n m → matrixOk m → (undefinedCount m < fuel)%nat → is_Some (trivialM fuel m).
Proof.
  induction fuel as [|fuel IH]; intros m Hsq Hok Hlt; [lia|]. simpl.
  pose proof (passM_rel n m Hsq Hok) as (Hsq1 & Hok1 & _ & Hch).
  destruct (passM m) as [ch m1] eqn:Hpass. simpl in *.
  destruct ch; [|by eauto]. apply IH; [done..|].
  destruct Hch as [[=] | [_ ?]]. lia.
Qed.

Lemma trivialM_fixpoint m fuel : passM m = (false, m) → trivialM (Datatypes.S fuel) m = Some m.
Proof. intros H. simpl. by rewrite H. Qed.

(** The loop of [TrySolveTrivial] follows [trivialM]. *)
Lemma trySolveTrivialLoop_run h b fuel : ∀ m junk,
  (Board b < length h)%nat → squareM (Size b) m → matrixOk m →
  match trivialM fuel m with
  | Some m' => ∃ junk', trySolveTrivialLoop fuel b (boardHeap h b m junk)
                        = Done (tt, boardHeap h b m' junk')
  | None => trySolveTrivialLoop fuel b (boardHeap h b m junk) = OutOfFuel
  end.
Proof.
  induction fuel as [|fuel IH]; intros m junk Hlt Hsq Hok; simpl; [done|].
  destruct (trySolveTrivialPass_run h b m junk Hlt Hsq Hok) as [junk1 Hpass].
  rewrite (run_bind _ _ _ _ _ Hpass).
  pose proof (passM_rel _ m Hsq Hok) as (Hsq1 & Hok1 & _).
  destruct (passM m) as [ch m1]. simpl in *. destruct ch; simpl.
  - by apply IH.
  - by exists junk1.
Qed.

Lemma loopO_total {A B R} (f : A → B → option (B + R)) (xs : list A) :
  (∀ x acc, x ∈ xs → is_Some (f x acc)) → ∀ acc, is_Some (loopO f xs acc).
Proof.
  induction xs as [|x xs IH]; intros Hf acc; simpl; [by eauto|].
  destruct (Hf x acc) as [[acc'|v] ->]; [by left | | by eauto]. simpl.
  apply IH. intros y acc2 Hy. apply Hf. by right.
Qed.

Lemma validateM_total n m : squareM n m → matrixOk m → is_Some (validateM m).
Proof.
  intros Hsq Hok. unfold validateM.
  destruct (loopO_total (validateStepM m) (upto (length m))) with (acc := mkValidateState true ∅ ∅)
    as [r ->].
  - intros i st Hi. apply list_elem_of_lookup in Hi as [k [-> Hi]%upto_lookup_inv].
    pose proof Hsq as [Hlen _]. rewrite Hlen in Hi.
    destruct (checkRange_total (rowM m k)) as [[fl1 e1] Hr]; [by apply (matrixOk_rowM n)|].
    destruct (checkRange_total (colM m k)) as [[fl2 e2] Hc]; [by apply (matrixOk_colM n)|].
    unfold validateStepM. rewrite Hr. simpl. destruct e1; [by eauto|].
    destruct (fl1 && _); [by eauto|]. rewrite Hc. simpl. destruct e2; [by eauto|].
    destruct (fl2 && _); [by eauto|]. destruct fl2; eauto.
  - simpl. destruct r; eauto.
Qed.

(** [TrySolveTrivial] from a well-formed board: the content becomes the
    fixpoint of the pass and the result is that of [Validate] on it. *)
Lemma TrySolveTrivial_run h b m junk fuel :
  (Board b < length h)%nat → squareM (Size b) m → matrixOk m →
  match trivialM fuel m with
  | Some m' => ∃ r junk', TrySolveTrivial fuel b (boardHeap h b m junk)
                          = Done (r, boardHeap h b m' junk')
                          ∧ trivialResult m' = Some r
  | None => TrySolveTrivial fuel b (boardHeap h b m junk) = OutOfFuel
  end.
Proof.
  intros Hlt Hsq Hok. unfold TrySolveTrivial.
  pose proof (trySolveTrivialLoop_run h b fuel m junk Hlt Hsq Hok) as Hloop.
  destruct (trivialM fuel m) as [m'|] eqn:Htriv.
  - destruct Hloop as [junk' Hloop]. rewrite (run_bind _ _ _ _ _ Hloop).
    destruct (trivialM_spec _ _ _ _ Hsq Hok Htriv) as (Hsq' & Hok' & _).
    pose proof (Validate_run _ b m' (boardHeap_wf h b m' junk' Hlt Hsq')) as Hv.
    unfold trivialResult.
    destruct (validateM_total _ _ Hsq' Hok') as [[fl err] Hvm]. rewrite Hvm in *.
    rewrite (run_bind _ _ _ _ _ Hv).
    destruct err; eexists _, junk'; split; reflexivity.
  - unfold mbind, M_bind. by rewrite Hloop.
Qed.

Lemma boardHeap_same h b m junk : h !! Board b = Some m → boardHeap h b m junk = h ++ junk.
Proof. intros Hm. unfold boardHeap. by rewrite list_insert_id. Qed.

(** C6: the trivial fixpoint is idempotent.  On a well-formed board
    [TrySolveTrivial] returns as soon as the fuel exceeds the number of
    undefined cells; and whenever it returns, running it again on the
    resulting board returns the same pair of all-defined flag and error and
    leaves the board, and every other object of the heap, unchanged. *)
Theorem TrySolveTrivial_idempotent (h : heap) (b : Takuzu) (m : matrix) (fuel : nat) :
  wfBoard h b m → matrixOk m →
  ((undefinedCount m < fuel)%nat → ∃ r h1, TrySolveTrivial fuel b h = Done (r, h1))
  ∧ (∀ r h1, TrySolveTrivial fuel b h = Done (r, h1) →
       ∀ fuel', (0 < fuel')%nat →
         ∃ h2, TrySolveTrivial fuel' b h1 = Done (r, h2)
           ∧ ∀ a, (a < length h1)%nat → h2 !! a = h1 !! a).
Proof.
  intros [Hm Hsq] Hok.
  assert (Hlt : (Board b < length h)%nat) by (by eapply lookup_lt_Some).
  pose proof (TrySolveTrivial_run h b m [] fuel Hlt Hsq Hok) as Hrun.
  rewrite <- (boardHeap_init _ _ _ Hm) in Hrun. split.
  - intros Hfuel. destruct (trivialM_total _ _ _ Hsq Hok Hfuel) as [m' Hm'].
    rewrite Hm' in Hrun. destruct Hrun as (r & junk & Hrun & _). eauto.
  - intros r h1 Hdone fuel' Hfuel'.
    destruct (trivialM fuel m) as [m'|] eqn:Htriv; [|congruence].
    destruct Hrun as (r' & junk & Hrun & Hres). rewrite Hrun in Hdone.
    injection Hdone as -> <-.
    destruct (trivialM_spec _ _ _ _ Hsq Hok Htriv) as (Hsq' & Hok' & _ & _ & Hfix).
    pose proof (boardHeap_wf h b m' junk Hlt Hsq') as [Hm1 _].
    assert (Hlt1 : (Board b < length (boardHeap h b m' junk))%nat)
      by (by eapply lookup_lt_Some).
    pose proof (TrySolveTrivial_run _ b m' [] fuel' Hlt1 Hsq' Hok') as Hrun2.
    rewrite <- (boardHeap_init _ _ _ Hm1) in Hrun2.
    destruct fuel' as [|fuel']; [lia|]. rewrite (trivialM_fixpoint _ _ Hfix) in Hrun2.
    destruct Hrun2 as (r2 & junk2 & Hrun2 & Hres2).
    rewrite Hres in Hres2. injection Hres2 as <-.
    rewrite (boardHeap_same _ _ _ _ Hm1) in Hrun2.
    eexists. split; [exact Hrun2|]. intros a Ha. by rewrite lookup_app_l.
Qed.

Lemma TrySolveTrivial_idempotent_witness :
  let m := [[cellOf 0; cellOf 0; zeroCell; zeroCell];
            [zeroCell; zeroCell; zeroCell; zeroCell];
            [zeroCell; zeroCell; zeroCell; cellOf 1];
            [zeroCell; cellOf 1; zeroCell; zeroCell]] in
  let b := mkTakuzu 4 0 in
  (wfBoard [m] b m ∧ matrixOk m)
  ∧ ((undefinedCount m < 20)%nat → ∃ r h1, TrySolveTrivial 20 b [m] = Done (r, h1))
  ∧ (∀ r h1, TrySolveTrivial 20 b [m] = Done (r, h1) →
       ∀ fuel', (0 < fuel')%nat →
         ∃ h2, TrySolveTrivial fuel' b h1 = Done (r, h2)
           ∧ ∀ a, (a < length h1)%nat → h2 !! a = h1 !! a).
Proof.
  intros m b.
  assert (Hwf : wfBoard [m] b m).
  { split; [reflexivity|]. split; [reflexivity|]. repeat constructor. }
  assert (Hok : matrixOk m).
  { by apply matrixOkb_sound. }
  split; [exact (conj Hwf Hok)|].
  exact (TrySolveTrivial_idempotent [m] b m 20 Hwf Hok).
Defined.

Example TrySolveTrivial_ex :
  match TrySolveTrivial 20 (mkTakuzu 4 0)
          [[[cellOf 0; cellOf 0; zeroCell; zeroCell];
            [zeroCell; zeroCell; zeroCell; zeroCell];
            [zeroCell; zeroCell; zeroCell; cellOf 1];
            [zeroCell; cellOf 1; zeroCell; zeroCell]]] with
  | Done (r, h) => Some (r, h !! 0%nat)
  | _ => None
  end
  = Some ((false, None),
          Some [[cellOf 0; cellOf 0; cellOf 1; cellOf 1];
                [zeroCell; zeroCell; zeroCell; cellOf 0];
                [zeroCell; zeroCell; zeroCell; cellOf 1];
                [zeroCell; cellOf 1; zeroCell; cellOf 0]]).
Proof. vm_compute. reflexivity. Qed.

(** ** The recursive solver *)

(** The same scenario with both children of the first two levels launched
    together, whichever of them answers first. *)
Example solver_scenario_S1_schrodinger (first : bool) :
  match
  (r ← NewFromString "......0....0..1.......1.1.00..1.....";
   match r with
   | inr _ => mret None
   | inl b =>
     '(sol, err, _) ← TrySolveRecurse 2 false 0 (λ _, false) (λ _, first) 64 b [];
     match sol, err with
     | Some t, None => s ← ToString t; mret (Some s)
     | _, _ => mret None
     end
   end) [] with
  | Done (s, _) => s
  | _ => None
  end = Some "011001010110101100001011110010100101".
Proof. destruct first; vm_compute; reflexivity. Qed.

(** *** Rules for partial correctness *)

Lemma hoare_ret {S A} (P : A → S → Prop) (a : A) : hoare (P a) (mret a : M S A) P.
Proof. intros s a' s' HP [= <- <-]. done. Qed.

Lemma hoare_bind {S A B} (P : S → Prop) (Q : A → S → Prop) (R : B → S → Prop)
    (m : M S A) (f : A → M S B) :
  hoare P m Q → (∀ a, hoare (Q a) (f a) R) → hoare P (m ≫= f) R.
Proof.
  intros Hm Hf s b s' HP (a & s1 & H1 & H2)%bind_Done_inv.
  eapply Hf; [|done]. by eapply Hm.
Qed.

Lemma hoare_conseq {S A} (P P' : S → Prop) (Q Q' : A → S → Prop) (m : M S A) :
  hoare P' m Q' → (∀ s, P s → P' s) → (∀ a s, Q' a s → Q a s) → hoare P m Q.
Proof. intros Hm HP HQ s a s' Hs Hrun. apply HQ. eapply Hm; [by apply HP | done]. Qed.

Lemma hoare_loopM {S A B R} (I : S → Prop) (body : A → B → M S (B + R)) (xs : list A) :
  (∀ x acc, hoare I (body x acc) (λ _, I)) → ∀ acc, hoare I (loopM body xs acc) (λ _, I).
Proof.
  intros Hbody. induction xs as [|x xs IH]; intros acc; simpl.
  - apply (hoare_ret (λ _, I)).
  - eapply hoare_bind; [apply Hbody|]. intros [acc'|v]; [apply IH|].
    apply (hoare_ret (λ _, I)).
Qed.

Lemma liftH_Done {A} (m : H A) w a w' :
  liftH m w = Done (a, w') ↔
  ∃ h', m (wHeap w) = Done (a, h')
        ∧ w' = mkWorld h' (solutionMap w) (singleSolution w) (ticks w).
Proof.
  unfold liftH. destruct (m (wHeap w)) as [[a1 h1]| |]; split.
  - intros [= <- <-]. eauto.
  - intros (h' & [= <- <-] & ->). done.
  - done.
  - by intros (? & ? & _).
  - done.
  - by intros (? & ? & _).
Qed.

(** *** Frames *)

Lemma frame_refl a h : frame a h h.
Proof. split; [lia | done]. Qed.

Lemma frame_trans a h1 h2 h3 : frame a h1 h2 → frame a h2 h3 → frame a h1 h3.
Proof.
  intros [Hl1 H1] [Hl2 H2]. split; [lia|]. intros x Hx Hne.
  rewrite H2 by (done || lia). by apply H1.
Qed.

Lemma frame_boardHeap h b m junk : frame (Board b) h (boardHeap h b m junk).
Proof.
  unfold boardHeap. split; [rewrite length_app, length_insert; lia|].
  intros x Hx Hne. rewrite lookup_app_l by (by rewrite length_insert).
  by apply list_lookup_insert_ne.
Qed.

Lemma frame_fresh a a' h h' :
  (length h ≤ a')%nat → (∀ x, (x < length h)%nat → h' !! x = h !! x) →
  (length h ≤ length h')%nat → frame a h h'.
Proof. intros Hfresh Hsame Hlen. split; [done|]. intros x Hx _. by apply Hsame. Qed.

Lemma goodSolution_frame h h' m0 key s a :
  goodSolution h m0 key s → frame a h h' → Board s ≠ a → goodSolution h' m0 key s.
Proof.
  intros (ms & [Hms Hsq] & Hok & Hval & Henc & Hext) [Hlen Hsame] Hne.
  exists ms. split_and!; try done. split; [|done].
  rewrite Hsame; [done | by eapply lookup_lt_Some | done].
Qed.

Lemma mapGood_frame h h' m0 sm a :
  mapGood h m0 sm → (∀ key s, sm !! key = Some s → Board s ≠ a) → frame a h h' →
  mapGood h' m0 sm.
Proof.
  intros Hgood Hne Hfr key s Hs. eapply goodSolution_frame; [by eapply Hgood | done |].
  by eapply Hne.
Qed.

Lemma goodSolution_lt h m0 key s : goodSolution h m0 key s → (Board s < length h)%nat.
Proof. intros (ms & [Hms _] & _). by eapply lookup_lt_Some. Qed.

(** *** Steps of a node *)

Lemma solveMid_start m0 t w0 :
  solvePre m0 t w0 → ∃ m, solveMid m0 t w0 m w0.
Proof.
  intros (m & Hwf & Hok & Hext & Hgood & Hun). exists m.
  split_and!; first [done | apply frame_refl | (intros key s Hs; by left)].
Qed.

Lemma solveMid_pre m0 t w0 m w : solveMid m0 t w0 m w → solvePre m0 t w.
Proof. intros (Hwf & Hok & Hext & _ & Hgood & Hun & _). by exists m. Qed.

Lemma solveMid_post m0 t w0 m w : solveMid m0 t w0 m w → solvePost m0 t w0 w.
Proof. intros (_ & _ & _ & Hfr & Hgood & _ & Hnew). done. Qed.

Lemma solveMid_ext m0 t w0 m w w' :
  wHeap w' = wHeap w → solutionMap w' = solutionMap w →
  solveMid m0 t w0 m w → solveMid m0 t w0 m w'.
Proof. unfold solveMid. by intros -> ->. Qed.

(** Composition of a later [solvePost], relative to the world [w], with the
    state [w] of the node relative to [w0]. *)
Lemma solvePost_trans m0 t w0 m w w' :
  solveMid m0 t w0 m w → solvePost m0 t w w' → solvePost m0 t w0 w'.
Proof.
  intros (_ & _ & _ & Hfr & _ & _ & Hnew) (Hfr' & Hgood' & Hnew').
  split_and!; [by eapply frame_trans | done |].
  intros key s Hs. destruct (Hnew' key s Hs) as [Hold | [Ht | Hfresh]].
  - by eapply Hnew.
  - auto.
  - right; right. destruct Hfr as [Hlen _]. lia.
Qed.

(** A write to the board of the node, with allocations. *)
Lemma solveMid_write m0 t w0 m w m' junk :
  solveMid m0 t w0 m w → squareM (Size t) m' → matrixOk m' → extendsM m0 m' →
  solveMid m0 t w0 m'
    (mkWorld (boardHeap (wHeap w) t m' junk) (solutionMap w) (singleSolution w) (ticks w)).
Proof.
  intros ([Hm Hsq] & Hok & Hext & Hfr & Hgood & Hun & Hnew) Hsq' Hok' Hext'.
  assert (Hlt : (Board t < length (wHeap w))%nat) by (by eapply lookup_lt_Some).
  split_and!; simpl; try done.
  - by apply boardHeap_wf.
  - eapply frame_trans; [done | apply frame_boardHeap].
  - eapply mapGood_frame; [done | done | apply frame_boardHeap].
Qed.

Lemma sameExcept_refl m1 l c : sameExcept m1 l c m1.
Proof. by intros l' c' _. Qed.

Lemma sameExcept_setM m1 l c m v : sameExcept m1 l c m → sameExcept m1 l c (setM m l c v).
Proof.
  intros Hs l' c' Hne. unfold setM. destruct (cellAt m l c); [|by apply Hs].
  case_decide; (rewrite cellAt_setCellM_ne by done); by apply Hs.
Qed.

Lemma extendsM_sameExcept m0 m1 l c x m :
  extendsM m0 m1 → cellAt m1 l c = Some x → Defined x = false →
  sameExcept m1 l c m → extendsM m0 m.
Proof.
  intros Hext Hx Hd Hs l' c' y Hy Hdy.
  destruct (decide ((l', c') = (l, c))) as [[= -> ->]|Hne].
  - pose proof (Hext _ _ _ Hy Hdy) as Hy1. congruence.
  - rewrite Hs by done. by apply Hext.
Qed.

Lemma firstClear_spec h t m line col h' :
  wfBoard h t m → firstClear t h = Done ((line, col), h') →
  h' = h ∧ (line = Size t ∨ col = Size t
            ∨ ((line < Size t)%nat ∧ (col < Size t)%nat
               ∧ ∃ x, cellAt m line col = Some x ∧ Defined x = false)).
Proof.
  intros [Hm Hsq] Hrun. unfold firstClear in Hrun.
  pose (Q := λ (pos : nat * nat) (h1 : heap),
    h1 = h ∧ (pos.1 < Size t)%nat ∧ (pos.2 < Size t)%nat
    ∧ ∃ x, cellAt m pos.1 pos.2 = Some x ∧ Defined x = false).
  destruct (loopM_upto
    (λ line (_ : unit),
      loopM (λ col (_ : unit),
        x ← loadCell t line col;
        if negb (Defined x) then mret (inr (line, col)) else mret (inl tt))
        (upto (Size t)) tt) (Size t)
    (λ _ _ h1, h1 = h) Q tt h) as (r & h1 & Hloop & Hpost).
  - done.
  - intros l [] h2 Hl ->.
    destruct (loopM_upto
      (λ col (_ : unit),
        x ← loadCell t l col;
        if negb (Defined x) then mret (inr (l, col)) else mret (inl tt))
      (Size t) (λ _ _ h1, h1 = h) Q tt h) as (r & h1 & Hloop & Hpost).
    + done.
    + intros c [] h3 Hc ->.
      destruct (squareM_cellAt _ _ l c Hsq Hl Hc) as [x Hx].
      rewrite (run_bind _ _ _ _ _ (loadCell_run _ _ _ _ _ _ Hm Hx)).
      destruct (Defined x) eqn:Hd; simpl.
      * by exists (inl tt), h.
      * exists (inr (l, c)), h. split; [done|]. unfold Q. simpl. eauto 10.
    + exists r, h1. split; [done|]. by destruct r.
  - rewrite (run_bind _ _ _ _ _ Hloop) in Hrun. destruct r as [[]|[l c]].
    + injection Hrun as <- <- <-. split; [done|]. by left.
    + injection Hrun as <- <- <-. destruct Hpost as (-> & Hl & Hc & Hx).
      split; [done|]. right; right. done.
Qed.

Section SolverProofs.
Variable schrodLvl : nat.
Variable globalSearch : bool.
Variable timeout : Z.
Variable expired zeroFirst : nat → bool.
Variable m0 : matrix.

(** Recording a board that [Validate] accepts as fully defined. *)
Lemma recordSolution_post t w0 m w w' :
  solveMid m0 t w0 m w → validateM m = Some (true, None) →
  recordSolution globalSearch t w = Done (tt, w') → solvePost m0 t w0 w'.
Proof.
  intros Hmid Hval Hrun. unfold recordSolution in Hrun. destruct globalSearch.
  - apply bind_Done_inv in Hrun as (key & w1 & Hkey & Hupd).
    apply liftH_Done in Hkey as (h1 & Hstr & ->).
    destruct Hmid as (Hwf & Hok & Hext & Hfr & Hgood & Hun & Hnew).
    rewrite (ToString_run _ _ _ Hwf) in Hstr. injection Hstr as <- <-.
    injection Hupd as <-. simpl. split_and!; simpl; [done | |].
    + intros key s. destruct (decide (encodeM m = key)) as [<-|Hne].
      * rewrite lookup_insert_eq. intros [= <-]. by exists m.
      * rewrite lookup_insert_ne by done. apply Hgood.
    + intros key s. destruct (decide (encodeM m = key)) as [<-|Hne].
      * rewrite lookup_insert_eq. intros [= <-]. auto.
      * rewrite lookup_insert_ne by done. apply Hnew.
  - injection Hrun as <-. eapply solveMid_post, solveMid_ext; [| |done]; done.
Qed.

Lemma finishNode_post t w0 m w err w' :
  solveMid m0 t w0 m w → finishNode globalSearch t w = Done (err, w') →
  solvePost m0 t w0 w'.
Proof.
  intros Hmid Hrun. unfold finishNode in Hrun.
  apply bind_Done_inv in Hrun as ([fl e] & w1 & Hval & Hrest).
  apply liftH_Done in Hval as (h1 & Hval & ->).
  pose proof Hmid as (Hwf & _). rewrite (Validate_run _ _ _ Hwf) in Hval.
  destruct (validateM m) as [[fl' e']|] eqn:Hvm; [|done]. injection Hval as -> -> <-.
  assert (Hmid1 : solveMid m0 t w0 m
            (mkWorld (wHeap w) (solutionMap w) (singleSolution w) (ticks w)))
    by (by eapply solveMid_ext; [| |exact Hmid]).
  destruct e as [e|].
  - injection Hrest as <- <-. by eapply solveMid_post.
  - apply bind_Done_inv in Hrest as ([] & w2 & Hrec & [= <- <-]).
    destruct fl.
    + by eapply recordSolution_post.
    + injection Hrec as <-. by eapply solveMid_post.
Qed.

Lemma frame_app a (h junk : heap) : frame a h (h ++ junk).
Proof.
  split; [rewrite length_app; lia|]. intros x Hx _. by rewrite lookup_app_l.
Qed.

(** Launching a child on a clone leaves the node as it is; what the child
    records is stored in the clone or in storage allocated later. *)
Lemma launch_spec child t w0 m1 l c x v :
  childSpec m0 child → extendsM m0 m1 → cellAt m1 l c = Some x → Defined x = false →
  (l < Size t)%nat → (c < Size t)%nat →
  hoare (guessMid m0 t w0 m1 l c) (launch child t l c v) (λ _, guessMid m0 t w0 m1 l c).
Proof.
  intros Hchild Hext1 Hx Hd Hl Hc w [v' err] w' (m & Hmid & Hsame) Hrun.
  pose proof Hmid as (Hwf & Hok & Hext & Hfr & Hgood & Hun & Hnew).
  pose proof Hwf as [Hm Hsq].
  assert (Hlt : (Board t < length (wHeap w))%nat) by (by eapply lookup_lt_Some).
  unfold launch in Hrun.
  apply bind_Done_inv in Hrun as (tx & w1 & Hclone & Hrun).
  apply liftH_Done in Hclone as (h1 & Hclone & ->).
  rewrite (Clone_run _ _ _ Hwf) in Hclone. injection Hclone as <- <-.
  apply bind_Done_inv in Hrun as ([] & w2 & Hset & Hrun).
  apply liftH_Done in Hset as (h2 & Hset & ->). simpl in Hset.
  set (tx := mkTakuzu (Size t) (length (wHeap w))) in *.
  rewrite (Takuzu_Set_run _ tx m) in Hset;
    [| apply heap_lookup_snoc | by apply (squareM_cellAt (Size t))].
  simpl in Hset. rewrite heap_insert_snoc in Hset. injection Hset as <-.
  apply bind_Done_inv in Hrun as (err' & w3 & Hchildrun & [= <- <- <-]).
  destruct (setM_wf (Size t) m l c v Hsq Hok) as [Hsq' Hok'].
  set (w2 := mkWorld (wHeap w ++ [setM m l c v]) (solutionMap w) (singleSolution w) (ticks w)) in *.
  assert (Hpre : solvePre m0 tx w2).
  { exists (setM m l c v). split_and!; simpl.
    - by apply wfBoard_snoc.
    - done.
    - apply (extendsM_sameExcept m0 m1 l c x); [done..|]. by apply sameExcept_setM.
    - eapply (mapGood_frame _ _ _ _ (length (wHeap w))); [done | | apply frame_app].
      intros key s Hs. apply Hgood, goodSolution_lt in Hs. lia.
    - intros key s Hs. apply Hgood, goodSolution_lt in Hs. simpl. lia. }
  destruct (Hchild tx w2 err' w3 Hpre Hchildrun) as ([Hlen3 Hsame3] & Hgood3 & Hnew3).
  simpl in *. rewrite length_app in *. simpl in *.
  exists m. split; [|done]. split_and!; try done.
  - split; [|done]. rewrite Hsame3 by (rewrite ?length_app; simpl; lia).
    by rewrite lookup_app_l.
  - destruct Hfr as [Hlen0 Hsame0]. split; [lia|]. intros a Ha Hne.
    rewrite Hsame3 by (rewrite ?length_app; simpl; lia).
    rewrite lookup_app_l by lia. by apply Hsame0.
  - intros key s Hs. destruct (Hnew3 key s Hs) as [Hold | [Htx | Hfresh]]; simpl in *.
    + by eapply Hun.
    + lia.
    + rewrite length_app in Hfresh. simpl in Hfresh. lia.
  - intros key s Hs. destruct (Hnew3 key s Hs) as [Hold | [Htx | Hfresh]]; simpl in *.
    + by eapply Hnew.
    + right; right. destruct Hfr. lia.
    + right; right. rewrite length_app in Hfresh. simpl in Hfresh. destruct Hfr. lia.
Qed.

Lemma guessMid_ext t w0 m1 l c w w' :
  wHeap w' = wHeap w → solutionMap w' = solutionMap w →
  guessMid m0 t w0 m1 l c w → guessMid m0 t w0 m1 l c w'.
Proof. intros Hh Hs (m & Hmid & Hsame). exists m. split; [|done]. by eapply solveMid_ext. Qed.

Lemma hoare_ask t w0 m1 l c (f : nat → bool) :
  hoare (guessMid m0 t w0 m1 l c) (ask f) (λ _, guessMid m0 t w0 m1 l c).
Proof. intros w a w' Hgm [= <- <-]. by eapply guessMid_ext; [| |exact Hgm]. Qed.

(** Committing a value to the guessed cell of the node. *)
Lemma hoare_set t w0 m1 l c x v :
  extendsM m0 m1 → cellAt m1 l c = Some x → Defined x = false →
  (l < Size t)%nat → (c < Size t)%nat →
  hoare (guessMid m0 t w0 m1 l c) (liftH (Takuzu_Set t l c v))
    (λ _, guessMid m0 t w0 m1 l c).
Proof.
  intros Hext1 Hx Hd Hl Hc w [] w' (m & Hmid & Hsame) (h' & Hset & ->)%liftH_Done.
  pose proof Hmid as ([Hm Hsq] & Hok & _).
  rewrite (Takuzu_Set_run _ t m) in Hset by (done || by apply (squareM_cellAt (Size t))).
  injection Hset as <-. destruct (setM_wf (Size t) m l c v Hsq Hok) as [Hsq' Hok'].
  exists (setM m l c v). split; [|by apply sameExcept_setM].
  pose proof (solveMid_write m0 t w0 m w (setM m l c v) [] Hmid Hsq' Hok') as Hw.
  unfold boardHeap in Hw. rewrite app_nil_r in Hw. apply Hw.
  apply (extendsM_sameExcept m0 m1 l c x); [done..|]. by apply sameExcept_setM.
Qed.

Lemma collectResult_spec level t w0 m1 l c x val err st :
  extendsM m0 m1 → cellAt m1 l c = Some x → Defined x = false →
  (l < Size t)%nat → (c < Size t)%nat →
  hoare (guessMid m0 t w0 m1 l c)
    (collectResult globalSearch timeout expired level t l c val err st)
    (λ _, guessMid m0 t w0 m1 l c).
Proof.
  intros Hext1 Hx Hd Hl Hc. unfold collectResult. destruct err as [e|].
  - eapply hoare_bind with (Q := λ _, guessMid m0 t w0 m1 l c).
    + destruct ((timeout >? 0) && (2 <? Z.of_nat level));
        [apply hoare_ask | apply (hoare_ret (λ _, guessMid m0 t w0 m1 l c))].
    + intros late.
      destruct ((late : bool) && negb (String.eqb (causeText e) "timeout"));
        [apply (hoare_ret (λ _, guessMid m0 t w0 m1 l c))|].
      destruct (String.eqb (causeText e) "timeout");
        [apply (hoare_ret (λ _, guessMid m0 t w0 m1 l c))|].
      eapply hoare_bind; [by eapply hoare_set|]. intros [].
      apply (hoare_ret (λ _, guessMid m0 t w0 m1 l c)).
  - destruct (negb globalSearch); apply (hoare_ret (λ _, guessMid m0 t w0 m1 l c)).
Qed.

Lemma loadCell_heap b l c h x h' : loadCell b l c h = Done (x, h') → h' = h.
Proof.
  unfold loadCell, getRow, getRows, mbind, M_bind, orPanic.
  destruct (h !! Board b) as [m|]; [|done].
  destruct (m !! l) as [row|]; simpl; [|done].
  destruct (row !! c); simpl; [|done]. by intros [= _ <-].
Qed.

Lemma hoare_load t w0 m1 l c l' c' :
  hoare (guessMid m0 t w0 m1 l c) (liftH (loadCell t l' c'))
    (λ _, guessMid m0 t w0 m1 l c).
Proof.
  intros w a w' Hgm (h' & Hload & ->)%liftH_Done.
  apply loadCell_heap in Hload as ->. by eapply guessMid_ext; [| |exact Hgm].
Qed.

Lemma tryValue_spec child schrodinger level t w0 m1 l c x testval st :
  childSpec m0 child → extendsM m0 m1 → cellAt m1 l c = Some x → Defined x = false →
  (l < Size t)%nat → (c < Size t)%nat →
  hoare (guessMid m0 t w0 m1 l c)
    (tryValue globalSearch timeout expired zeroFirst child schrodinger level t l c testval st)
    (λ _, guessMid m0 t w0 m1 l c).
Proof.
  intros Hchild Hext1 Hx Hd Hl Hc. unfold tryValue.
  pose (GM := guessMid m0 t w0 m1 l c).
  eapply hoare_bind; [apply hoare_load|]. intros y.
  destruct (negb globalSearch && Defined y); [apply (hoare_ret (λ _, GM))|].
  eapply hoare_bind with (Q := λ _, GM).
  - destruct schrodinger.
    + eapply hoare_bind; [by eapply launch_spec|]. intros a0.
      eapply hoare_bind; [by eapply launch_spec|]. intros a1.
      eapply hoare_bind; [apply hoare_ask|]. intros first.
      apply (hoare_ret (λ _, GM)).
    + eapply hoare_bind; [by eapply launch_spec|]. intros a.
      apply (hoare_ret (λ _, GM)).
  - intros answers. eapply hoare_bind with (Q := λ _, GM).
    + apply hoare_loopM. intros [val err] st'. by eapply collectResult_spec.
    + intros [st'|res]; [|apply (hoare_ret (λ _, GM))].
      destruct ((changed st' && negb globalSearch) || schrodinger);
        apply (hoare_ret (λ _, GM)).
Qed.

Lemma tryValues_spec child schrodinger level t w0 m1 l c x :
  childSpec m0 child → extendsM m0 m1 → cellAt m1 l c = Some x → Defined x = false →
  (l < Size t)%nat → (c < Size t)%nat →
  hoare (guessMid m0 t w0 m1 l c)
    (tryValues globalSearch timeout expired zeroFirst child schrodinger level t l c)
    (λ _, guessMid m0 t w0 m1 l c).
Proof.
  intros Hchild Hext1 Hx Hd Hl Hc. unfold tryValues.
  pose (GM := guessMid m0 t w0 m1 l c).
  eapply hoare_bind; [by eapply tryValue_spec|].
  intros [st|st|res]; try apply (hoare_ret (λ _, GM)).
  eapply hoare_bind; [by eapply tryValue_spec|].
  intros [st'|st'|res]; apply (hoare_ret (λ _, GM)).
Qed.

(** One pass of the outer loop of [recurseSolve], given what the recursive
    call and the next pass do. *)
Lemma solveNode_spec again child fuel level t w0 err w' :
  childSpec m0 child →
  (∀ w1 err1 w2, solvePre m0 t w1 → again w1 = Done (err1, w2) → solvePost m0 t w1 w2) →
  solvePre m0 t w0 →
  solveNode schrodLvl globalSearch timeout expired zeroFirst again child fuel level t w0
  = Done (err, w') →
  solvePost m0 t w0 w'.
Proof.
  intros Hchild Hagain Hpre Hrun.
  destruct (solveMid_start _ _ _ Hpre) as (m & Hmid).
  pose proof Hmid as ([Hm Hsq] & Hok & Hext & _).
  assert (Hlt : (Board t < length (wHeap w0))%nat) by (by eapply lookup_lt_Some).
  unfold solveNode in Hrun.
  apply bind_Done_inv in Hrun as ([fl e] & w1 & Htriv & Hrun).
  apply liftH_Done in Htriv as (h1 & Htriv & ->).
  pose proof (TrySolveTrivial_run (wHeap w0) t m [] fuel Hlt Hsq Hok) as Hrun1.
  rewrite <- (boardHeap_init _ _ _ Hm) in Hrun1.
  destruct (trivialM fuel m) as [m1|] eqn:Hm1; [|congruence].
  destruct Hrun1 as (r & junk & Hrun1 & Hres). rewrite Hrun1 in Htriv.
  injection Htriv as -> <-.
  destruct (trivialM_spec _ _ _ _ Hsq Hok Hm1) as (Hsq1 & Hok1 & Hext1 & _).
  assert (Hext01 : extendsM m0 m1) by (by eapply extendsM_trans).
  pose proof (solveMid_write m0 t w0 m w0 m1 junk Hmid Hsq1 Hok1 Hext01) as Hmid1.
  set (w1 := mkWorld (boardHeap (wHeap w0) t m1 junk) (solutionMap w0)
               (singleSolution w0) (ticks w0)) in *.
  unfold trivialResult in Hres.
  destruct (validateM m1) as [[fl' e']|] eqn:Hval; [|done]. injection Hres as -> He.
  destruct e as [e|].
  { injection Hrun as <- <-. by eapply solveMid_post. }
  destruct e' as [e'|]; [done|]. clear He.
  destruct fl.
  { apply bind_Done_inv in Hrun as ([] & w2 & Hrec & [= <- <-]).
    by eapply recordSolution_post. }
  apply bind_Done_inv in Hrun as ([line col] & w2 & Hfirst & Hrun).
  apply liftH_Done in Hfirst as (h2 & Hfirst & ->).
  pose proof Hmid1 as (Hwf1 & _).
  destruct (firstClear_spec _ _ _ _ _ _ Hwf1 Hfirst) as [-> Hpos].
  assert (Hmid2 : solveMid m0 t w0 m1
            (mkWorld (wHeap w1) (solutionMap w1) (singleSolution w1) (ticks w1)))
    by (by eapply solveMid_ext; [| |exact Hmid1]).
  set (w2 := mkWorld (wHeap w1) (solutionMap w1) (singleSolution w1) (ticks w1)) in *.
  destruct (decide (line = Size t ∨ col = Size t)) as [Hend|Hin].
  { by eapply finishNode_post. }
  destruct Hpos as [? | [? | (Hl & Hc & x & Hx & Hd)]]; [tauto | tauto |].
  apply bind_Done_inv in Hrun as (r & w3 & Htry & Hrun).
  assert (Hgm : guessMid m0 t w0 m1 line col w2).
  { exists m1. split; [done | apply sameExcept_refl]. }
  pose proof (tryValues_spec child _ level t w0 m1 line col x
                Hchild Hext01 Hx Hd Hl Hc w2 r w3 Hgm Htry) as (m3 & Hmid3 & _).
  destruct r as [st|res].
  - destruct (errCount st =? 2).
    { injection Hrun as <- <-. by eapply solveMid_post. }
    destruct (bool_decide (level < schrodLvl)%nat || globalSearch || negb (changed st)).
    + by eapply finishNode_post.
    + eapply solvePost_trans; [done|]. eapply Hagain; [|done]. by eapply solveMid_pre.
  - injection Hrun as <- <-. by eapply solveMid_post.
Qed.

(** [recurseSolve] only records solutions that extend the root content, in
    storage of its own, and only writes to its own board. *)
Lemma recurseSolve_spec fuel : ∀ level t w0 err w',
  solvePre m0 t w0 →
  recurseSolve schrodLvl globalSearch timeout expired zeroFirst fuel level t w0
  = Done (err, w') →
  solvePost m0 t w0 w'.
Proof.
  induction fuel as [|fuel IH]; intros level t w0 err w' Hpre Hrun; [done|].
  simpl in Hrun. eapply solveNode_spec; [| |done|exact Hrun].
  - intros tx w1 err1 w2. apply IH.
  - intros w1 err1 w2. apply IH.
Qed.

End SolverProofs.

(** [Validate] answers "fully defined" only for a fully defined content. *)
Lemma validateM_full m : validateM m = Some (true, None) → fullM m.
Proof.
  intros Hval. destruct (validateM_no_error _ _ Hval) as (st & Hinv & Hfin).
  destruct Hinv as (_ & _ & _ & _ & _ & Hfull).
  apply Forall_lookup_2. intros i row Hrow.
  destruct (Hfull Hfin i) as [Hr _]; [by eapply lookup_lt_Some|].
  by rewrite (rowM_lookup _ _ _ Hrow) in Hr.
Qed.

(** C3: when [TrySolveRecurse] is called on a well-formed board with an
    accumulator and returns without a timeout error, the boards it appends to
    the accumulator have pairwise different texts, and each of them is fully
    defined, passes [Validate] without error, and keeps every defined cell of
    the board given.  (The proof does not use that the error is no timeout.) *)
Theorem TrySolveRecurse_all_solutions
    (schrodLvl : nat) (timeout : Z) (expired zeroFirst : nat → bool) (fuel : nat)
    (h0 h' : heap) (b : Takuzu) (m : matrix) (acc acc' : list Takuzu)
    (sol : option Takuzu) (err : option solveError) :
  wfBoard h0 b m → matrixOk m →
  TrySolveRecurse schrodLvl true timeout expired zeroFirst fuel b acc h0
  = Done ((sol, err, acc'), h') →
  err ≠ Some ErrTimeout →
  ∃ new keys,
    acc' = acc ++ new
    ∧ NoDup keys
    ∧ Forall2 (λ s key, ToString s h' = Done (key, h')) new keys
    ∧ Forall (λ s, ∃ ms, wfBoard h' s ms ∧ fullM ms
                 ∧ Validate s h' = Done ((true, None), h') ∧ extendsM m ms) new.
Proof.
  intros Hwf Hok Hrun _. unfold TrySolveRecurse in Hrun.
  destruct (recurseSolve _ _ _ _ _ _ _ _ _) as [[err0 w]| |] eqn:Hrec; [|done..].
  assert (Hpre : solvePre m b (mkWorld h0 ∅ None 0)).
  { exists m. split_and!; simpl; [done | done | apply extendsM_refl | |];
      intros key s Hs; by rewrite lookup_empty in Hs. }
  destruct (recurseSolve_spec _ _ _ _ _ _ _ _ _ _ _ _ Hpre Hrec) as (_ & Hgood & _).
  assert (Hres : acc' = acc ++ (map_to_list (solutionMap w)).*2 ∧ h' = wHeap w).
  { destruct err0; injection Hrun as <- <- <- <-; done. }
  destruct Hres as [-> ->].
  exists ((map_to_list (solutionMap w)).*2), ((map_to_list (solutionMap w)).*1).
  split; [done|]. split; [apply NoDup_fst_map_to_list|]. split.
  - apply Forall2_fmap, Forall_Forall2_diag, Forall_forall.
    intros [key s] Hin%elem_of_map_to_list. simpl.
    destruct (Hgood key s Hin) as (ms & Hwfs & _ & _ & <- & _).
    by apply ToString_run.
  - apply Forall_fmap, Forall_forall.
    intros [key s] Hin%elem_of_map_to_list. simpl.
    destruct (Hgood key s Hin) as (ms & Hwfs & Hoks & Hval & _ & Hext).
    exists ms. split_and!; [done | by apply validateM_full | | done].
    by rewrite (Validate_run _ _ _ Hwfs), Hval.
Qed.

Lemma TrySolveRecurse_all_solutions_witness :
  let b := mkTakuzu 2 0 in
  let h0 := [emptyBoard2] in
  let acc' := [mkTakuzu 2 9; mkTakuzu 2 5] in
  let h' := match enumerateAll2 with Done (_, h) => h | _ => [] end in
  (wfBoard h0 b emptyBoard2 ∧ matrixOk emptyBoard2
   ∧ TrySolveRecurse 0 true 0 (λ _, false) (λ _, true) 8 b [] h0
     = Done ((Some (mkTakuzu 2 9), None, acc'), h')
   ∧ (None : option solveError) ≠ Some ErrTimeout)
  ∧ ∃ new keys,
      acc' = [] ++ new
      ∧ NoDup keys
      ∧ Forall2 (λ s key, ToString s h' = Done (key, h')) new keys
      ∧ Forall (λ s, ∃ ms, wfBoard h' s ms ∧ fullM ms
                   ∧ Validate s h' = Done ((true, None), h')
                   ∧ extendsM emptyBoard2 ms) new.
Proof.
  intros b h0 acc' h'.
  assert (Hwf : wfBoard h0 b emptyBoard2).
  { split; [reflexivity|]. split; [reflexivity|]. repeat constructor. }
  assert (Hok : matrixOk emptyBoard2).
  { by apply matrixOkb_sound. }
  assert (Hrun : TrySolveRecurse 0 true 0 (λ _, false) (λ _, true) 8 b [] h0
                 = Done ((Some (mkTakuzu 2 9), None, acc'), h'))
    by (vm_compute; reflexivity).
  assert (Hne : (None : option solveError) ≠ Some ErrTimeout) by discriminate.
  split; [exact (conj Hwf (conj Hok (conj Hrun Hne)))|].
  exact (TrySolveRecurse_all_solutions 0 0 (λ _, false) (λ _, true) 8 h0 h' b
           emptyBoard2 [] acc' (Some (mkTakuzu 2 9)) None Hwf Hok Hrun Hne).
Defined.

(** ** More fuel never changes a result *)

Lemma refines_refl {S A} (m : M S A) : refines m m.
Proof. by intros s r. Qed.

Lemma refines_bind {S A B} (m m' : M S A) (f f' : A → M S B) :
  refines m m' → (∀ a, refines (f a) (f' a)) → refines (m ≫= f) (m' ≫= f').
Proof.
  intros Hm Hf s r (a & s1 & H1 & H2)%bind_Done_inv.
  rewrite (run_bind _ _ _ _ _ (Hm _ _ H1)). by apply Hf.
Qed.

Lemma refines_liftH {A} (m m' : H A) : refines m m' → refines (liftH m) (liftH m').
Proof.
  intros Hm w [a w'] (h' & Hrun & ->)%liftH_Done. apply liftH_Done. eauto.
Qed.

Lemma trySolveTrivialLoop_mono b fuel : ∀ fuel', (fuel ≤ fuel')%nat →
  refines (trySolveTrivialLoop fuel b) (trySolveTrivialLoop fuel' b).
Proof.
  induction fuel as [|fuel IH]; intros fuel' Hle; [by intros s r|].
  destruct fuel' as [|fuel']; [lia|]. simpl.
  apply refines_bind; [apply refines_refl|]. intros changed.
  destruct (negb changed); [apply refines_refl|]. apply IH. lia.
Qed.

Lemma TrySolveTrivial_mono b fuel fuel' : (fuel ≤ fuel')%nat →
  refines (TrySolveTrivial fuel b) (TrySolveTrivial fuel' b).
Proof.
  intros Hle. unfold TrySolveTrivial.
  apply refines_bind; [by apply trySolveTrivialLoop_mono|]. intros _. apply refines_refl.
Qed.

Section SolverFuel.
Variable schrodLvl : nat.
Variable globalSearch : bool.
Variable timeout : Z.
Variable expired zeroFirst : nat → bool.

Lemma launch_mono child child' t l c v :
  (∀ tx, refines (child tx) (child' tx)) →
  refines (launch child t l c v) (launch child' t l c v).
Proof.
  intros Hchild. unfold launch.
  apply refines_bind; [apply refines_refl|]. intros tx.
  apply refines_bind; [apply refines_refl|]. intros _.
  apply refines_bind; [apply Hchild|]. intros err. apply refines_refl.
Qed.

Lemma tryValue_mono child child' schrodinger level t l c testval st :
  (∀ tx, refines (child tx) (child' tx)) →
  refines
    (tryValue globalSearch timeout expired zeroFirst child schrodinger level t l c testval st)
    (tryValue globalSearch timeout expired zeroFirst child' schrodinger level t l c testval st).
Proof.
  intros Hchild. unfold tryValue.
  apply refines_bind; [apply refines_refl|]. intros x.
  destruct (negb globalSearch && Defined x); [apply refines_refl|].
  apply refines_bind; [|intros answers; apply refines_refl].
  destruct schrodinger.
  - apply refines_bind; [by apply launch_mono|]. intros a0.
    apply refines_bind; [by apply launch_mono|]. intros a1. apply refines_refl.
  - apply refines_bind; [by apply launch_mono|]. intros a. apply refines_refl.
Qed.

Lemma tryValues_mono child child' schrodinger level t l c :
  (∀ tx, refines (child tx) (child' tx)) →
  refines
    (tryValues globalSearch timeout expired zeroFirst child schrodinger level t l c)
    (tryValues globalSearch timeout expired zeroFirst child' schrodinger level t l c).
Proof.
  intros Hchild. unfold tryValues.
  apply refines_bind; [by apply tryValue_mono|]. intros [st|st|res]; try apply refines_refl.
  apply refines_bind; [by apply tryValue_mono|]. intros r. apply refines_refl.
Qed.

Lemma solveNode_mono again again' child child' fuel fuel' level t :
  refines again again' → (∀ tx, refines (child tx) (child' tx)) → (fuel ≤ fuel')%nat →
  refines
    (solveNode schrodLvl globalSearch timeout expired zeroFirst again child fuel level t)
    (solveNode schrodLvl globalSearch timeout expired zeroFirst again' child' fuel' level t).
Proof.
  intros Hagain Hchild Hle. unfold solveNode.
  apply refines_bind; [by apply refines_liftH, TrySolveTrivial_mono|]. intros [fl err].
  destruct err; [apply refines_refl|]. destruct fl; [apply refines_refl|].
  apply refines_bind; [apply refines_refl|]. intros [line col].
  case_decide; [apply refines_refl|].
  apply refines_bind; [by apply tryValues_mono|]. intros [st|res]; [|apply refines_refl].
  destruct (errCount st =? 2); [apply refines_refl|].
  destruct (_ || _ || _); [apply refines_refl | done].
Qed.

Lemma recurseSolve_mono fuel : ∀ fuel' level t, (fuel ≤ fuel')%nat →
  refines
    (recurseSolve schrodLvl globalSearch timeout expired zeroFirst fuel level t)
    (recurseSolve schrodLvl globalSearch timeout expired zeroFirst fuel' level t).
Proof.
  induction fuel as [|fuel IH]; intros fuel' level t Hle; [by intros s r|].
  destruct fuel' as [|fuel']; [lia|]. simpl.
  apply solveNode_mono; [apply IH; lia | intros tx; apply IH; lia | lia].
Qed.

(** A result of [TrySolveRecurse] stays the result with any larger fuel. *)
Lemma TrySolveRecurse_mono fuel fuel' b acc :
  (fuel ≤ fuel')%nat →
  refines
    (TrySolveRecurse schrodLvl globalSearch timeout expired zeroFirst fuel b acc)
    (TrySolveRecurse schrodLvl globalSearch timeout expired zeroFirst fuel' b acc).
Proof.
  intros Hle h r. unfold TrySolveRecurse.
  destruct (recurseSolve _ _ _ _ _ fuel _ _ _) as [[err w]| |] eqn:Hrun; [|done..].
  by rewrite (recurseSolve_mono fuel fuel' 0 b Hle _ _ Hrun).
Qed.

End SolverFuel.

(** C7 (scenario S1), with the Schrodinger level at its initial value 0:
    decoding the text gives a 6 x 6 board, and the solver in first-solution
    mode (nil accumulator, timeout 0) returns without error the board whose
    text is expected, with any fuel from 64 on.  With no timeout and no
    Schrodinger level the two oracles are never asked, so the run is the same
    for all of them. *)
Theorem solver_scenario_S1 (expired zeroFirst : nat → bool) (fuel : nat) :
  (64 ≤ fuel)%nat →
  ∃ b h1 sol acc h2,
    NewFromString "......0....0..1.......1.1.00..1....." [] = Done (inl b, h1)
    ∧ Size b = 6%nat
    ∧ TrySolveRecurse 0 false 0 expired zeroFirst fuel b [] h1
      = Done ((Some sol, None, acc), h2)
    ∧ ToString sol h2 = Done ("011001010110101100001011110010100101", h2).
Proof.
  intros Hle.
  eexists _, _, _, _, _. split; [vm_compute; reflexivity|]. split; [reflexivity|].
  split.
  - apply (TrySolveRecurse_mono 0 false 0 expired zeroFirst 64 fuel _ _ Hle).
    vm_compute. reflexivity.
  - vm_compute. reflexivity.
Qed.

Lemma solver_scenario_S1_witness :
  (64 ≤ 64)%nat
  ∧ ∃ b h1 sol acc h2,
    NewFromString "......0....0..1.......1.1.00..1....." [] = Done (inl b, h1)
    ∧ Size b = 6%nat
    ∧ TrySolveRecurse 0 false 0 (λ _, false) (λ _, true) 64 b [] h1
      = Done ((Some sol, None, acc), h2)
    ∧ ToString sol h2 = Done ("011001010110101100001011110010100101", h2).
Proof.
  exact (conj (le_n 64) (solver_scenario_S1 (λ _, false) (λ _, true) 64 (le_n 64))).
Defined.

(** ** Comparing boards ([BoardsMatch]) *)

Lemma squareMb_sound n m : squareMb n m = true → squareM n m.
Proof.
  unfold squareMb. intros [H1 H2]%andb_prop. split; [by apply bool_decide_eq_true in H1|].
  apply Forall_forall. intros row Hrow. rewrite forallb_forall in H2.
  apply (bool_decide_eq_true _). apply H2. by apply list_elem_of_In.
Qed.

Lemma wfBoard_check h b m :
  h !! Board b = Some m → squareMb (Size b) m = true → wfBoard h b m.
Proof. intros Hm Hsq. split; [done | by apply squareMb_sound]. Qed.

(** The decision that the body of the loop takes on two cells. *)
Lemma matchCell_run h t1 t2 m1 m2 ign line col x y :
  h !! Board t1 = Some m1 → h !! Board t2 = Some m2 →
  cellAt m1 line col = Some x → cellAt m2 line col = Some y →
  matchCell t1 t2 ign line col h
  = Done (if decide (agree ign x y) then inl tt
          else inr (false, Z.of_nat line, Z.of_nat col), h).
Proof.
  intros H1 H2 Hx Hy.
  pose proof (loadCell_run _ _ _ _ _ _ H1 Hx) as L1.
  pose proof (loadCell_run _ _ _ _ _ _ H2 Hy) as L2.
  unfold matchCell, mbind, M_bind, mret, M_ret. rewrite L1.
  destruct x as [dx vx], y as [dy vy]; unfold agree, sameCell; simpl in *.
  destruct dx, dy, ign; simpl; rewrite ?L1, ?L2; simpl; rewrite ?L1, ?L2; simpl;
    repeat case_decide; try done; exfalso; intuition (congruence || lia).
Qed.

Lemma BoardsMatch_run (h : heap) (t1 t2 : Takuzu) (m1 m2 : matrix) (ign : bool) :
  wfBoard h t1 m1 → wfBoard h t2 m2 → Size t1 = Size t2 →
  ∃ mt line col,
    BoardsMatch (Some t1) (Some t2) ign h = Done ((mt, line, col), h)
    ∧ if (mt : bool) then
        line = -1 ∧ col = -1
        ∧ ∀ l c, (l < Size t1)%nat → (c < Size t1)%nat →
            agree ign (cellD m1 l c) (cellD m2 l c)
      else
        ∃ l c, line = Z.of_nat l ∧ col = Z.of_nat c
          ∧ (l < Size t1)%nat ∧ (c < Size t1)%nat
          ∧ ¬ agree ign (cellD m1 l c) (cellD m2 l c)
          ∧ ∀ l' c', before l' c' l c → (c' < Size t1)%nat →
              agree ign (cellD m1 l' c') (cellD m2 l' c').
Proof.
  intros [H1 Hsq1] [H2 Hsq2] Hsize. unfold BoardsMatch.
  rewrite decide_False by (intros ?; done).
  rewrite (run_bind _ _ _ _ _ (getRows_run _ _ _ H1)).
  set (n := Size t1) in *.
  pose (Q := λ (v : bool * Z * Z) (s : heap),
    s = h ∧ ∃ l c, v = (false, Z.of_nat l, Z.of_nat c)
      ∧ (l < n)%nat ∧ (c < n)%nat
      ∧ ¬ agree ign (cellD m1 l c) (cellD m2 l c)
      ∧ ∀ l' c', before l' c' l c → (c' < n)%nat →
          agree ign (cellD m1 l' c') (cellD m2 l' c')).
  pose proof Hsq1 as [Hlen1 _]. rewrite Hlen1.
  destruct (loopM_upto
    (λ line (_ : unit),
       row ← getRow t1 line;
       loopM (λ col (_ : unit), matchCell t1 t2 ign line col) (upto (length row)) tt) n
    (λ k _ s, s = h ∧ ∀ l c, (l < k)%nat → (c < n)%nat →
                agree ign (cellD m1 l c) (cellD m2 l c)) Q tt h)
    as (r & h' & Hrun & Hpost).
  - split; [done|]. intros l c Hl. lia.
  - intros line [] s Hline [-> Hprev].
    destruct (squareM_lookup _ _ _ Hsq1 Hline) as (row & Hrow & Hrowlen).
    rewrite (run_bind _ _ _ _ _ (getRow_run _ _ _ _ _ H1 Hrow)). rewrite Hrowlen.
    destruct (loopM_upto (λ col (_ : unit), matchCell t1 t2 ign line col) n
      (λ k _ s, s = h ∧ ∀ c, (c < k)%nat → agree ign (cellD m1 line c) (cellD m2 line c))
      Q tt h) as (r & h' & Hrun & Hpost).
    + split; [done|]. intros c Hc. lia.
    + intros col [] s Hcol [-> Hprevc].
      destruct (squareM_cellAt _ _ line col Hsq1 Hline Hcol) as [x Hx].
      destruct (squareM_cellAt n m2 line col) as [y Hy]; [by rewrite Hsize | done..|].
      rewrite (matchCell_run _ _ _ _ _ _ _ _ _ _ H1 H2 Hx Hy).
      rewrite <- (cellD_Some _ _ _ _ Hx), <- (cellD_Some _ _ _ _ Hy).
      case_decide as Ha.
      * eexists _, _. split; [reflexivity|]. split; [done|].
        intros c Hc. destruct (decide (c = col)) as [->|]; [done|]. apply Hprevc. lia.
      * eexists _, _. split; [reflexivity|]. split; [done|].
        exists line, col. split_and!; try done.
        intros l' c' [Hl'|[-> Hc']] Hc'n; [by apply Hprev | by apply Hprevc].
    + exists r, h'. split; [done|]. destruct r as [[]|v]; [|done].
      destruct Hpost as [-> Hall]. split; [done|].
      intros l c Hl Hc. destruct (decide (l = line)) as [->|]; [by apply Hall|].
      apply Hprev; [lia | done].
  - rewrite (run_bind _ _ _ _ _ Hrun). destruct r as [[]|[[mt line] col]].
    + destruct Hpost as [-> Hall]. exists true, (-1), (-1). done.
    + destruct Hpost as (-> & l & c & [= -> -> ->] & Hrest).
      exists false, (Z.of_nat l), (Z.of_nat c). split; [done|]. by exists l, c.
Qed.


(** [BoardsMatch] on two stored boards of the same size: it writes nothing;
    it answers [true] with [line = col = -1] exactly when the boards agree
    at every position, and otherwise [false] with the first position, in
    row-major order, where they disagree. *)
Theorem BoardsMatch_spec (h : heap) (t1 t2 : Takuzu) (m1 m2 : matrix) (ign : bool) :
  wfBoard h t1 m1 → wfBoard h t2 m2 → Size t1 = Size t2 →
  ∃ mt line col,
    BoardsMatch (Some t1) (Some t2) ign h = Done ((mt, line, col), h)
    ∧ if (mt : bool) then
        line = -1 ∧ col = -1
        ∧ ∀ l c, (l < Size t1)%nat → (c < Size t1)%nat →
            agree ign (cellD m1 l c) (cellD m2 l c)
      else
        ∃ l c, line = Z.of_nat l ∧ col = Z.of_nat c
          ∧ (l < Size t1)%nat ∧ (c < Size t1)%nat
          ∧ ¬ agree ign (cellD m1 l c) (cellD m2 l c)
          ∧ ∀ l' c', before l' c' l c → (c' < Size t1)%nat →
              agree ign (cellD m1 l' c') (cellD m2 l' c').
Proof. apply BoardsMatch_run. Qed.

Lemma BoardsMatch_spec_witness :
  let h := [sampleBoard; setM sampleBoard 2 3 0] in
  (wfBoard h (mkTakuzu 4 0) sampleBoard
   ∧ wfBoard h (mkTakuzu 4 1) (setM sampleBoard 2 3 0)
   ∧ Size (mkTakuzu 4 0) = Size (mkTakuzu 4 1))
  ∧ ∃ mt line col,
      BoardsMatch (Some (mkTakuzu 4 0)) (Some (mkTakuzu 4 1)) false h
      = Done ((mt, line, col), h)
      ∧ if (mt : bool) then
          line = -1 ∧ col = -1
          ∧ ∀ l c, (l < 4)%nat → (c < 4)%nat →
              agree false (cellD sampleBoard l c) (cellD (setM sampleBoard 2 3 0) l c)
        else
          ∃ l c, line = Z.of_nat l ∧ col = Z.of_nat c
            ∧ (l < 4)%nat ∧ (c < 4)%nat
            ∧ ¬ agree false (cellD sampleBoard l c) (cellD (setM sampleBoard 2 3 0) l c)
            ∧ ∀ l' c', before l' c' l c → (c' < 4)%nat →
                agree false (cellD sampleBoard l' c') (cellD (setM sampleBoard 2 3 0) l' c').
Proof.
  intros h.
  assert (H1 : wfBoard h (mkTakuzu 4 0) sampleBoard) by (by apply wfBoard_check).
  assert (H2 : wfBoard h (mkTakuzu 4 1) (setM sampleBoard 2 3 0)) by (by apply wfBoard_check).
  split; [exact (conj H1 (conj H2 eq_refl))|].
  exact (BoardsMatch_spec h _ _ _ _ false H1 H2 eq_refl).
Defined.

Example BoardsMatch_ex :
  BoardsMatch (Some (mkTakuzu 4 0)) (Some (mkTakuzu 4 1)) false
    [sampleBoard; setM sampleBoard 2 3 0]
  = Done ((false, 2, 3), [sampleBoard; setM sampleBoard 2 3 0]).
Proof. vm_compute. reflexivity. Qed.

Lemma agree_refl ign x : agree ign x x.
Proof. destruct ign; simpl; [done|]. by split. Qed.

Lemma agree_sym ign x y : agree ign x y → agree ign y x.
Proof.
  destruct ign; simpl.
  - intros Hxy Hy Hx. symmetry. by apply Hxy.
  - intros [Hd Hv]. split; [done|]. intros Hy. symmetry. apply Hv. by rewrite Hd.
Qed.

(** The first position of disagreement is unique. *)
Lemma first_position_unique (P : nat → nat → Prop) (n l1 c1 l2 c2 : nat) :
  (c1 < n)%nat → (c2 < n)%nat → ¬ P l1 c1 → ¬ P l2 c2 →
  (∀ l' c', before l' c' l1 c1 → (c' < n)%nat → P l' c') →
  (∀ l' c', before l' c' l2 c2 → (c' < n)%nat → P l' c') →
  l1 = l2 ∧ c1 = c2.
Proof.
  intros Hc1 Hc2 Hn1 Hn2 Hb1 Hb2.
  destruct (decide (before l1 c1 l2 c2)) as [Hb|Hnb1]; [by destruct Hn1; apply Hb2|].
  destruct (decide (before l2 c2 l1 c1)) as [Hb|Hnb2]; [by destruct Hn2; apply Hb1|].
  unfold before in *. lia.
Qed.

(** [BoardsMatch] is symmetric in its two boards: the answer, and the
    position reported, are the same in both orders, also for [nil] boards
    and boards of different sizes. *)
Theorem BoardsMatch_sym (h : heap) (o1 o2 : option Takuzu) (ign : bool) :
  (∀ t, o1 = Some t → ∃ m, wfBoard h t m) →
  (∀ t, o2 = Some t → ∃ m, wfBoard h t m) →
  BoardsMatch o1 o2 ign h = BoardsMatch o2 o1 ign h.
Proof.
  intros Hw1 Hw2. destruct o1 as [t1|], o2 as [t2|]; try reflexivity.
  destruct (Hw1 t1 eq_refl) as [m1 H1]. destruct (Hw2 t2 eq_refl) as [m2 H2].
  destruct (decide (Size t1 = Size t2)) as [Hs|Hs].
  - destruct (BoardsMatch_run h t1 t2 m1 m2 ign H1 H2 Hs) as (mt & line & col & -> & Hp).
    destruct (BoardsMatch_run h t2 t1 m2 m1 ign H2 H1 (eq_sym Hs))
      as (mt' & line' & col' & -> & Hp').
    rewrite <- Hs in Hp'. destruct mt, mt'.
    + destruct Hp as (-> & -> & _), Hp' as (-> & -> & _). done.
    + exfalso. destruct Hp as (_ & _ & Hall), Hp' as (l & c & _ & _ & Hl & Hc & Hn & _).
      apply Hn, agree_sym, Hall; done.
    + exfalso. destruct Hp' as (_ & _ & Hall), Hp as (l & c & _ & _ & Hl & Hc & Hn & _).
      apply Hn, agree_sym, Hall; done.
    + destruct Hp as (l & c & -> & -> & Hl & Hc & Hn & Hb).
      destruct Hp' as (l' & c' & -> & -> & Hl' & Hc' & Hn' & Hb').
      destruct (first_position_unique
        (λ l c, agree ign (cellD m1 l c) (cellD m2 l c)) (Size t1) l c l' c')
        as [-> ->]; try done.
      * intros Ha. by apply Hn', agree_sym.
      * intros l0 c0 Hbef Hc0. by apply agree_sym, Hb'.
  - unfold BoardsMatch. rewrite !decide_True; done.
Qed.

Lemma BoardsMatch_sym_witness :
  let h := [sampleBoard; setM sampleBoard 2 3 0] in
  let o1 := Some (mkTakuzu 4 0) in
  let o2 := Some (mkTakuzu 4 1) in
  ((∀ t, o1 = Some t → ∃ m, wfBoard h t m) ∧ (∀ t, o2 = Some t → ∃ m, wfBoard h t m))
  ∧ BoardsMatch o1 o2 true h = BoardsMatch o2 o1 true h.
Proof.
  intros h o1 o2.
  assert (H1 : ∀ t, o1 = Some t → ∃ m, wfBoard h t m).
  { intros t [= <-]. exists sampleBoard. by apply wfBoard_check. }
  assert (H2 : ∀ t, o2 = Some t → ∃ m, wfBoard h t m).
  { intros t [= <-]. exists (setM sampleBoard 2 3 0). by apply wfBoard_check. }
  split; [exact (conj H1 H2)|].
  exact (BoardsMatch_sym h o1 o2 true H1 H2).
Defined.

Lemma BoardsMatch_true h t1 t2 m1 m2 ign :
  wfBoard h t1 m1 → wfBoard h t2 m2 → Size t1 = Size t2 →
  (∀ l c, (l < Size t1)%nat → (c < Size t1)%nat → agree ign (cellD m1 l c) (cellD m2 l c)) →
  BoardsMatch (Some t1) (Some t2) ign h = Done ((true, -1, -1), h).
Proof.
  intros H1 H2 Hs Hall.
  destruct (BoardsMatch_run h t1 t2 m1 m2 ign H1 H2 Hs) as (mt & line & col & -> & Hp).
  destruct mt.
  - by destruct Hp as (-> & -> & _).
  - exfalso. destruct Hp as (l & c & _ & _ & Hl & Hc & Hn & _). by apply Hn, Hall.
Qed.

(** A board and its clone match, with and without [ignoreUndefined]. *)
Theorem BoardsMatch_clone (h : heap) (b : Takuzu) (m : matrix) (ign : bool) :
  wfBoard h b m →
  ∃ c h', Clone b h = Done (c, h')
    ∧ BoardsMatch (Some b) (Some c) ign h' = Done ((true, -1, -1), h').
Proof.
  intros Hwf. eexists _, _. split; [by apply Clone_run|].
  apply (BoardsMatch_true _ _ _ m m).
  - by apply wfBoard_app.
  - apply wfBoard_snoc. by destruct Hwf.
  - done.
  - intros l c _ _. apply agree_refl.
Qed.

Lemma BoardsMatch_clone_witness :
  wfBoard [sampleBoard] (mkTakuzu 4 0) sampleBoard
  ∧ ∃ c h', Clone (mkTakuzu 4 0) [sampleBoard] = Done (c, h')
      ∧ BoardsMatch (Some (mkTakuzu 4 0)) (Some c) false h' = Done ((true, -1, -1), h').
Proof.
  assert (H1 : wfBoard [sampleBoard] (mkTakuzu 4 0) sampleBoard) by (by apply wfBoard_check).
  split; [exact H1|].
  exact (BoardsMatch_clone [sampleBoard] (mkTakuzu 4 0) sampleBoard false H1).
Defined.

Lemma extendsM_agree m1 m2 l c :
  extendsM m1 m2 → agree true (cellD m1 l c) (cellD m2 l c).
Proof.
  intros Hext. unfold agree, cellD. destruct (cellAt m1 l c) as [x|] eqn:Hx; simpl; [|done].
  intros Hd _. by rewrite (Hext _ _ _ Hx Hd).
Qed.

(** With [ignoreUndefined], a board matches every board of the same size
    that keeps its defined cells, such as a solution of it. *)
Theorem BoardsMatch_extends (h : heap) (t1 t2 : Takuzu) (m1 m2 : matrix) :
  wfBoard h t1 m1 → wfBoard h t2 m2 → Size t1 = Size t2 → extendsM m1 m2 →
  BoardsMatch (Some t1) (Some t2) true h = Done ((true, -1, -1), h).
Proof.
  intros H1 H2 Hs Hext. apply (BoardsMatch_true _ _ _ m1 m2); try done.
  intros l c _ _. by apply extendsM_agree.
Qed.

Lemma extendsM_setM_undefined m l c v x :
  cellAt m l c = Some x → Defined x = false → extendsM m (setM m l c v).
Proof.
  intros Hx Hd. unfold setM. rewrite Hx. case_decide; by apply (extendsM_setCellM _ _ _ x).
Qed.

Lemma BoardsMatch_extends_witness :
  let h := [sampleBoard; setM sampleBoard 2 2 1] in
  (wfBoard h (mkTakuzu 4 0) sampleBoard
   ∧ wfBoard h (mkTakuzu 4 1) (setM sampleBoard 2 2 1)
   ∧ Size (mkTakuzu 4 0) = Size (mkTakuzu 4 1)
   ∧ extendsM sampleBoard (setM sampleBoard 2 2 1))
  ∧ BoardsMatch (Some (mkTakuzu 4 0)) (Some (mkTakuzu 4 1)) true h
    = Done ((true, -1, -1), h).
Proof.
  intros h.
  assert (H1 : wfBoard h (mkTakuzu 4 0) sampleBoard) by (by apply wfBoard_check).
  assert (H2 : wfBoard h (mkTakuzu 4 1) (setM sampleBoard 2 2 1)) by (by apply wfBoard_check).
  assert (H3 : extendsM sampleBoard (setM sampleBoard 2 2 1)).
  { by apply (extendsM_setM_undefined _ _ _ _ zeroCell). }
  split; [exact (conj H1 (conj H2 (conj eq_refl H3)))|].
  exact (BoardsMatch_extends h _ _ _ _ H1 H2 eq_refl H3).
Defined.

(** ** Writing a cell, cloning and copying a board *)

Lemma loadCell_None h b m l c :
  h !! Board b = Some m → cellAt m l c = None → loadCell b l c h = Panic.
Proof.
  intros Hm Hx. unfold loadCell, getRow.
  unfold mbind, M_bind. rewrite (getRows_run _ _ _ Hm).
  unfold cellAt in Hx. destruct (m !! l) as [row|]; simpl in *; [|done].
  by rewrite Hx.
Qed.

Lemma Takuzu_Set_None h b m l c v :
  h !! Board b = Some m → cellAt m l c = None → Takuzu_Set b l c v h = Panic.
Proof.
  intros Hm Hx. unfold Takuzu_Set, storeDefined.
  case_decide; unfold mbind, M_bind; by rewrite (loadCell_None _ _ _ _ _ Hm Hx).
Qed.

Lemma cellAt_None_iff n m l c :
  squareM n m → cellAt m l c = None ↔ ¬ ((l < n)%nat ∧ (c < n)%nat).
Proof.
  intros Hsq. split.
  - intros Hx [Hl Hc]. destruct (squareM_cellAt _ _ _ _ Hsq Hl Hc) as [x Hx']. congruence.
  - intros Hn. destruct (cellAt m l c) as [x|] eqn:Hx; [|done].
    destruct Hn. by apply (cellAt_lt _ _ _ _ _ Hsq Hx).
Qed.

Lemma cellAt_setM_eq m l c v x :
  cellAt m l c = Some x →
  cellAt (setM m l c v) l c
  = Some (if decide (v = 0 ∨ v = 1) then cellOf v else mkCell false (Value x)).
Proof.
  intros Hx. unfold setM. rewrite Hx.
  case_decide as Hv.
  - rewrite cellAt_setCellM_eq by (by rewrite Hx). rewrite decide_False; [done | lia].
  - rewrite cellAt_setCellM_eq by (by rewrite Hx). rewrite decide_True; [done | lia].
Qed.

Lemma cellAt_setM_ne m l c v l' c' :
  (l, c) ≠ (l', c') → cellAt (setM m l c v) l' c' = cellAt m l' c'.
Proof.
  intros Hne. unfold setM. destruct (cellAt m l c); [|done].
  case_decide; by apply cellAt_setCellM_ne.
Qed.

Lemma squareM_setM n m l c v : squareM n m → squareM n (setM m l c v).
Proof.
  intros Hsq. unfold setM. destruct (cellAt m l c); [|done].
  case_decide; by apply squareM_setCellM.
Qed.

(** [Set(l, c, value)] on a stored board.  Inside the board it returns, and
    a later read of the cell gives a defined [value] when [value] is 0 or 1;
    any other [value] leaves the cell undefined with the number it held.  No
    other cell and no other object changes.  Outside the board it panics.
    The pointer form [(&b.Board[l][c]).Set(value)] does the same. *)
Theorem Takuzu_Set_spec (h : heap) (b : Takuzu) (m : matrix) (l c : nat) (v : Z) :
  wfBoard h b m →
  ((l < Size b)%nat ∧ (c < Size b)%nat →
     ∃ h' m', Takuzu_Set b l c v h = Done (tt, h') ∧ wfBoard h' b m'
       ∧ loadCell b l c h'
         = Done (if decide (v = 0 ∨ v = 1) then cellOf v
                 else mkCell false (Value (cellD m l c)), h')
       ∧ (∀ l' c', (l, c) ≠ (l', c') → cellAt m' l' c' = cellAt m l' c')
       ∧ (∀ a, a ≠ Board b → h' !! a = h !! a))
  ∧ (¬ ((l < Size b)%nat ∧ (c < Size b)%nat) → Takuzu_Set b l c v h = Panic)
  ∧ Cell_Set (Some (Board b, l, c)) v h = Takuzu_Set b l c v h.
Proof.
  intros [Hm Hsq]. split_and!.
  - intros [Hl Hc]. destruct (squareM_cellAt _ _ _ _ Hsq Hl Hc) as [x Hx].
    exists (<[Board b := setM m l c v]> h), (setM m l c v).
    assert (Hm' : <[Board b := setM m l c v]> h !! Board b = Some (setM m l c v))
      by (by eapply heap_insert_lookup).
    split_and!.
    + apply Takuzu_Set_run; [done | by rewrite Hx].
    + split; [done | by apply squareM_setM].
    + rewrite (cellD_Some _ _ _ _ Hx).
      apply (loadCell_run _ _ _ _ _ _ Hm'). by apply cellAt_setM_eq.
    + intros l' c' Hne. by apply cellAt_setM_ne.
    + intros a Ha. by apply heap_insert_ne.
  - intros Hout. apply (Takuzu_Set_None _ _ m); [done|].
    by apply (cellAt_None_iff (Size b)).
  - reflexivity.
Qed.

Lemma Takuzu_Set_spec_witness :
  let b := mkTakuzu 4 0 in
  let h := [sampleBoard] in
  wfBoard h b sampleBoard
  ∧ ((0 < Size b)%nat ∧ (1 < Size b)%nat →
       ∃ h' m', Takuzu_Set b 0 1 (-1) h = Done (tt, h') ∧ wfBoard h' b m'
         ∧ loadCell b 0 1 h'
           = Done (if decide (-1 = 0 ∨ -1 = 1) then cellOf (-1)
                   else mkCell false (Value (cellD sampleBoard 0 1)), h')
         ∧ (∀ l' c', (0%nat, 1%nat) ≠ (l', c') → cellAt m' l' c' = cellAt sampleBoard l' c')
         ∧ (∀ a, a ≠ Board b → h' !! a = h !! a))
  ∧ (¬ ((0 < Size b)%nat ∧ (1 < Size b)%nat) → Takuzu_Set b 0 1 (-1) h = Panic)
  ∧ Cell_Set (Some (Board b, 0%nat, 1%nat)) (-1) h = Takuzu_Set b 0 1 (-1) h.
Proof.
  intros b h.
  assert (H1 : wfBoard h b sampleBoard) by (by apply wfBoard_check).
  split; [exact H1|].
  exact (Takuzu_Set_spec h b sampleBoard 0 1 (-1) H1).
Defined.

Example Takuzu_Set_undefine :
  (Takuzu_Set (mkTakuzu 4 0) 0 1 (-1);; ToString (mkTakuzu 4 0)) [sampleBoard]
  = Done ("0..........1.1..", [setCellM sampleBoard 0 1 (mkCell false 0)]).
Proof. vm_compute. reflexivity. Qed.

Lemma Takuzu_Set_inv h b m l c v h2 :
  h !! Board b = Some m → Takuzu_Set b l c v h = Done (tt, h2) →
  h2 = <[Board b := setM m l c v]> h.
Proof.
  intros Hm Hrun. destruct (cellAt m l c) as [x|] eqn:Hx.
  - rewrite (Takuzu_Set_run _ _ m) in Hrun; [congruence | done | by rewrite Hx].
  - by rewrite (Takuzu_Set_None _ _ m) in Hrun.
Qed.

(** [Clone] returns a board of the same size and content in storage of its
    own: the original and every older object are as before, and a later
    [Set] on either board leaves the other one as it is. *)
Theorem Clone_independent (h : heap) (b : Takuzu) (m : matrix) :
  wfBoard h b m →
  ∃ c h1, Clone b h = Done (c, h1)
    ∧ Size c = Size b ∧ Board c ≠ Board b
    ∧ wfBoard h1 b m ∧ wfBoard h1 c m
    ∧ (∀ a, (a < length h)%nat → h1 !! a = h !! a)
    ∧ (∀ l k v h2, Takuzu_Set c l k v h1 = Done (tt, h2) → wfBoard h2 b m)
    ∧ (∀ l k v h2, Takuzu_Set b l k v h1 = Done (tt, h2) → wfBoard h2 c m).
Proof.
  intros Hwf. pose proof Hwf as [Hm Hsq].
  assert (Hlt : (Board b < length h)%nat) by (by eapply lookup_lt_Some).
  set (c := mkTakuzu (Size b) (length h)).
  assert (Hb1 : wfBoard (h ++ [m]) b m) by (by apply wfBoard_app).
  assert (Hc1 : wfBoard (h ++ [m]) c m) by (by apply wfBoard_snoc).
  exists c, (h ++ [m]). split_and!; try done.
  - by apply Clone_run.
  - simpl. lia.
  - intros a Ha. by rewrite lookup_app_l.
  - intros l k v h2 Hset. destruct Hc1 as [Hcm _], Hb1 as [Hbm _].
    rewrite (Takuzu_Set_inv _ _ _ _ _ _ _ Hcm Hset). split; [|done].
    rewrite heap_insert_ne; [done | simpl; lia].
  - intros l k v h2 Hset. destruct Hc1 as [Hcm _], Hb1 as [Hbm _].
    rewrite (Takuzu_Set_inv _ _ _ _ _ _ _ Hbm Hset). split; [|done].
    rewrite heap_insert_ne; [done | simpl; lia].
Qed.

Lemma Clone_independent_witness :
  let b := mkTakuzu 4 0 in
  let h := [sampleBoard] in
  wfBoard h b sampleBoard
  ∧ ∃ c h1, Clone b h = Done (c, h1)
      ∧ Size c = Size b ∧ Board c ≠ Board b
      ∧ wfBoard h1 b sampleBoard ∧ wfBoard h1 c sampleBoard
      ∧ (∀ a, (a < length h)%nat → h1 !! a = h !! a)
      ∧ (∀ l k v h2, Takuzu_Set c l k v h1 = Done (tt, h2) → wfBoard h2 b sampleBoard)
      ∧ (∀ l k v h2, Takuzu_Set b l k v h1 = Done (tt, h2) → wfBoard h2 c sampleBoard).
Proof.
  intros b h.
  assert (H1 : wfBoard h b sampleBoard) by (by apply wfBoard_check).
  split; [exact H1|].
  exact (Clone_independent h b sampleBoard H1).
Defined.

(** Copying a board onto itself, or onto another value that shares its
    storage, writes every cell back unchanged. *)
Lemma copyCells_self h src dst m :
  wfBoard h src m → Board dst = Board src → copyCells src dst h = Done (tt, h).
Proof.
  intros [Hm Hsq] Heq. unfold copyCells.
  rewrite (run_bind _ _ _ _ _ (getRows_run _ _ _ Hm)).
  pose proof Hsq as [Hlen _]. rewrite Hlen. set (n := Size src) in *.
  assert (Hd : h !! Board dst = Some m) by (by rewrite Heq).
  destruct (forM_upto
    (λ line (_ : unit),
      row ← getRow src line;
      forM (λ col (_ : unit), x ← loadCell src line col; storeCell dst line col x)
        (upto (length row)) tt)
    n (λ _ _ h', h' = h) tt h) as ([] & h' & Hrun & ->); [done| |done].
  intros line [] h1 Hline ->.
  destruct (squareM_lookup _ _ _ Hsq Hline) as (row & Hrow & Hrlen).
  rewrite (run_bind _ _ _ _ _ (getRow_run _ _ _ _ _ Hm Hrow)). rewrite Hrlen.
  destruct (forM_upto
    (λ col (_ : unit), x ← loadCell src line col; storeCell dst line col x)
    n (λ _ _ h', h' = h) tt h) as ([] & h' & Hrun & ->); [done| |by exists tt, h].
  intros col [] h2 Hcol ->.
  destruct (squareM_cellAt _ _ line col Hsq) as [x Hx]; [done..|].
  rewrite (run_bind _ _ _ _ _ (loadCell_run _ _ _ _ _ _ Hm Hx)).
  rewrite (storeCell_run _ _ m) by (by rewrite ?Hx).
  rewrite (setCellM_same _ _ _ _ Hx). rewrite list_insert_id by done.
  by exists tt, h.
Qed.

(** [Copy(src, dst)]: boards of different sizes give the error "sizes do not
    match" and nothing is written; boards of the same size give no error and
    leave [dst] with the content of [src], [src] and every other object
    being as before (also when [dst] shares the storage of [src]). *)
Theorem Copy_spec (h : heap) (src dst : Takuzu) (m md : matrix) :
  wfBoard h src m → wfBoard h dst md →
  (Size src ≠ Size dst → Copy src dst h = Done (Some "sizes do not match"%string, h))
  ∧ (Size src = Size dst →
       ∃ h', Copy src dst h = Done (None, h')
         ∧ wfBoard h' dst m ∧ wfBoard h' src m
         ∧ ∀ a, a ≠ Board dst → h' !! a = h !! a).
Proof.
  intros Hsrc Hdst. split.
  - intros Hne. unfold Copy. by rewrite decide_True.
  - intros Heq. destruct (decide (Board src = Board dst)) as [Ha|Ha].
    + exists h. unfold Copy. rewrite decide_False by (by intros ?).
      rewrite (run_bind _ _ _ _ _ (copyCells_self _ _ _ _ Hsrc (eq_sym Ha))).
      split_and!; try done.
      destruct Hsrc as [Hm Hsq], Hdst as [Hd _]. split; [by rewrite <- Ha | by rewrite <- Heq].
    + exists (<[Board dst := m]> h). split_and!.
      * by apply (Copy_run _ _ _ _ md).
      * destruct Hsrc as [Hm Hsq], Hdst as [Hd _]. split; [|by rewrite <- Heq].
        by eapply heap_insert_lookup.
      * destruct Hsrc as [Hm Hsq]. split; [|done]. by rewrite heap_insert_ne.
      * intros a Hne. by apply heap_insert_ne.
Qed.

Lemma Copy_spec_witness :
  let h := [sampleBoard; setM sampleBoard 2 2 1] in
  let src := mkTakuzu 4 0 in
  let dst := mkTakuzu 4 1 in
  (wfBoard h src sampleBoard ∧ wfBoard h dst (setM sampleBoard 2 2 1))
  ∧ (Size src ≠ Size dst → Copy src dst h = Done (Some "sizes do not match"%string, h))
  ∧ (Size src = Size dst →
       ∃ h', Copy src dst h = Done (None, h')
         ∧ wfBoard h' dst sampleBoard ∧ wfBoard h' src sampleBoard
         ∧ ∀ a, a ≠ Board dst → h' !! a = h !! a).
Proof.
  intros h src dst.
  assert (H1 : wfBoard h src sampleBoard) by (by apply wfBoard_check).
  assert (H2 : wfBoard h dst (setM sampleBoard 2 2 1)) by (by apply wfBoard_check).
  split; [exact (conj H1 H2)|].
  exact (Copy_spec h src dst _ _ H1 H2).
Defined.

(** ** Decoding any text ([NewFromString]) *)

Lemma decodeCell_ok ch : cellOk (decodeCell ch).
Proof. unfold decodeCell, cellOk. repeat case_decide; simpl; auto. Qed.

Lemma decodeChar_valid h t mk l c ch :
  h !! Board t = Some mk → cellAt mk l c = Some zeroCell → validChar ch →
  decodeChar t l c ch h = Done (None, <[Board t := setCellM mk l c (decodeCell ch)]> h).
Proof.
  intros Hm Hz Hv. unfold decodeChar, decodeCell.
  assert (Hstore : ∀ v,
    (storeDefined t l c true ≫= λ _, storeValue t l c v ≫= λ _, mret None) h
    = Done (@None codecError, <[Board t := setCellM mk l c (mkCell true v)]> h)).
  { intros v.
    rewrite (run_bind _ _ _ _ _ (storeDefined_run _ _ _ _ _ _ true Hm Hz)).
    erewrite run_bind;
      [| eapply storeValue_run; [by eapply heap_insert_lookup | by apply cellAt_setCellM_eq]].
    simpl. by rewrite list_insert_insert_eq, setCellM_twice. }
  case_decide as H0; [apply Hstore|].
  case_decide as H1; [apply Hstore|].
  rewrite decide_True by (unfold validChar in Hv; tauto).
  rewrite setCellM_same by done. by rewrite list_insert_id.
Qed.

Lemma decodeChar_invalid h t l c ch :
  ¬ validChar ch →
  decodeChar t l c ch h = Done (Some "invalid char in string"%string, h).
Proof.
  intros Hv. unfold decodeChar, validChar in *.
  rewrite !decide_False; [done | tauto..].
Qed.

Lemma sqrtInt_exact (l : nat) :
  (sqrtInt l * sqrtInt l = l)%nat ↔ ∃ n, l = (n * n)%nat.
Proof.
  split; [intros H; by exists (sqrtInt l)|]. intros [n ->]. by rewrite sqrtInt_square.
Qed.

Lemma string_get_list (s : string) (i : nat) :
  String.get i s = list_ascii_of_string s !! i.
Proof.
  rewrite <- (string_of_list_ascii_of_string s) at 1. apply string_of_list_get.
Qed.

Lemma string_length_list (s : string) :
  String.length s = length (list_ascii_of_string s).
Proof.
  rewrite <- (string_of_list_ascii_of_string s) at 1. apply string_of_list_length.
Qed.

(** The two loops of [NewFromString] on a text of [n * n] characters: they
    stop at the first character outside the alphabet, or decode every
    character into its cell. *)
Lemma NewFromString_run s h n :
  String.length s = (n * n)%nat → (2 ≤ n)%nat →
  ∃ r h', NewFromString s h = Done (r, h')
    ∧ match r with
      | inl t =>
        t = mkTakuzu n (length h)
        ∧ Forall validChar (list_ascii_of_string s)
        ∧ ∃ m', h' = h ++ [m'] ∧ squareM n m'
            ∧ ∀ l c, (l < n)%nat → (c < n)%nat →
                ∃ ch, String.get (l * n + c) s = Some ch
                      ∧ cellAt m' l c = Some (decodeCell ch)
      | inr msg =>
        msg = "invalid char in string"%string
        ∧ ¬ Forall validChar (list_ascii_of_string s)
      end.
Proof.
  intros Hlen Hn.
  assert (Hget : ∀ l c, (l < n)%nat → (c < n)%nat →
    ∃ ch, String.get (l * n + c) s = Some ch).
  { intros l c Hl Hc. rewrite string_get_list. apply lookup_lt_is_Some_2.
    rewrite <- string_length_list, Hlen. nia. }
  unfold NewFromString. rewrite Hlen.
  rewrite decide_False by nia. rewrite sqrtInt_square.
  rewrite decide_False by (intros Hne; by apply Hne).
  set (t := mkTakuzu n (length h)).
  assert (Hnew : New n h = Done (t, h ++ [replicate n (replicate n zeroCell)])) by done.
  rewrite (run_bind _ _ _ _ _ Hnew). clear Hnew.
  pose (Inv := λ line col (i : nat) (h' : heap),
    i = (line * n + col)%nat ∧ ∃ mk, h' = h ++ [mk] ∧ squareM n mk
      ∧ ∀ l c, (l < n)%nat → (c < n)%nat →
          if decide (before l c line col)
          then ∃ ch, String.get (l * n + c) s = Some ch ∧ validChar ch
                     ∧ cellAt mk l c = Some (decodeCell ch)
          else cellAt mk l c = Some zeroCell).
  pose (Q := λ (msg : codecError) (_ : heap),
    msg = "invalid char in string"%string
    ∧ ∃ i ch, String.get i s = Some ch ∧ ¬ validChar ch).
  pose (body := λ (line col i : nat),
    (ch ← orPanic (String.get i s);
     e ← decodeChar t line col ch;
     match e with
     | Some msg => mret (inr msg)
     | None => mret (inl (Datatypes.S i))
     end) : H (nat + codecError)).
  destruct (loopM_upto (λ line i, loopM (body line) (upto n) i)
    n (λ line i h', Inv line 0%nat i h') Q 0%nat
    (h ++ [replicate n (replicate n zeroCell)]))
    as (r & h' & Hrun & Hpost).
  - split; [done|]. exists (replicate n (replicate n zeroCell)).
    split; [done|]. split; [apply squareM_zero|].
    intros l c Hl Hc. rewrite decide_False by (unfold before; lia). by apply cellAt_zero.
  - intros line i h1 Hline Hinv.
    destruct (loopM_upto (body line) n (λ col i h', Inv line col i h') Q i h1)
      as (r & h' & Hrun & Hpost).
    + done.
    + intros col j h2 Hcol (-> & mk & -> & Hsqk & Hcells). unfold body.
      destruct (Hget line col Hline Hcol) as [ch Hch].
      rewrite (run_bind _ _ _ _ _ (orPanic_Some _ _ _ Hch)).
      assert (Hz : cellAt mk line col = Some zeroCell).
      { specialize (Hcells line col Hline Hcol).
        by rewrite decide_False in Hcells by (unfold before; lia). }
      destruct (decide (validChar ch)) as [Hv|Hv].
      * rewrite (run_bind _ _ _ _ _
          (decodeChar_valid (h ++ [mk]) t mk line col ch (heap_lookup_snoc h mk) Hz Hv)).
        eexists (inl _), _. split; [reflexivity|]. split; [lia|].
        exists (setCellM mk line col (decodeCell ch)).
        split; [apply heap_insert_snoc|]. split; [by apply squareM_setCellM|].
        intros l c Hl Hc. specialize (Hcells l c Hl Hc).
        destruct (decide ((line, col) = (l, c))) as [[= <- <-]|Hne].
        -- rewrite decide_True by (unfold before; lia). exists ch.
           split_and!; [done..|]. apply cellAt_setCellM_eq. by rewrite Hz.
        -- rewrite cellAt_setCellM_ne by done.
           assert (l ≠ line ∨ c ≠ col)
             by (destruct (decide (l = line)); [right; congruence | by left]).
           destruct (decide (before l c line col)) as [Hb|Hb].
           ++ rewrite decide_True by (unfold before in *; lia). done.
           ++ rewrite decide_False by (unfold before in *; lia). done.
      * rewrite (run_bind _ _ _ _ _ (decodeChar_invalid _ t line col ch Hv)).
        eexists (inr _), _. split; [reflexivity|]. split; [done|]. by exists (line * n + col)%nat, ch.
    + exists r, h'. split; [done|]. destruct r as [i'|msg]; [|done].
      destruct Hpost as (-> & mk & -> & Hsqk & Hcells). split; [lia|].
      exists mk. split; [done|]. split; [done|].
      intros l c Hl Hc. specialize (Hcells l c Hl Hc).
      destruct (decide (before l c line n)) as [Hb|Hb].
      * rewrite decide_True by (unfold before in *; lia). done.
      * rewrite decide_False by (unfold before in *; lia). done.
  - fold body in Hrun |- *. rewrite (run_bind _ _ _ _ _ Hrun). destruct r as [i'|msg].
    + destruct Hpost as (-> & mk & -> & Hsqk & Hcells).
      eexists (inl t), _. split; [reflexivity|]. split; [done|].
      assert (Hall : ∀ l c, (l < n)%nat → (c < n)%nat →
        ∃ ch, String.get (l * n + c) s = Some ch ∧ validChar ch
              ∧ cellAt mk l c = Some (decodeCell ch)).
      { intros l c Hl Hc. specialize (Hcells l c Hl Hc).
        by rewrite decide_True in Hcells by (unfold before; lia). }
      split.
      * apply Forall_lookup. intros i ch Hi.
        assert (Hi' : (i < n * n)%nat).
        { rewrite <- Hlen, string_length_list. by eapply lookup_lt_Some. }
        destruct (Hall (i / n)%nat (i mod n)%nat) as (ch' & Hch' & Hv & _).
        { apply Nat.Div0.div_lt_upper_bound. lia. }
        { apply Nat.mod_upper_bound. lia. }
        replace (i / n * n + i mod n)%nat with i in Hch'
          by (pose proof (Nat.div_mod_eq i n); lia).
        rewrite string_get_list in Hch'. congruence.
      * exists mk. split; [done|]. split; [done|].
        intros l c Hl Hc. destruct (Hall l c Hl Hc) as (ch & ? & ? & ?). by exists ch.
    + destruct Hpost as (-> & i & ch & Hch & Hv).
      eexists (inr _), _. split; [reflexivity|]. split; [done|].
      intros Hall. apply Hv. rewrite string_get_list in Hch.
      by apply (Forall_lookup_1 _ _ _ _ Hall Hch).
Qed.

(** [NewFromString] on any text.  A text whose length is not [n * n] for
    some [n >= 2] is rejected with "bad string length" and nothing is
    allocated.  A text of [n * n] characters (odd [n] included) is decoded
    into a fresh [n] x [n] board, cell by cell in row-major order, when all
    its characters are among [0 O 1 I .], and rejected with "invalid char in
    string" otherwise. *)
Theorem NewFromString_spec (s : string) (h : heap) :
  ((∀ n, (2 ≤ n)%nat → String.length s ≠ (n * n)%nat) →
     NewFromString s h = Done (inr "bad string length"%string, h))
  ∧ (∀ n, (2 ≤ n)%nat → String.length s = (n * n)%nat →
       (Forall validChar (list_ascii_of_string s) →
          ∃ m', NewFromString s h = Done (inl (mkTakuzu n (length h)), h ++ [m'])
            ∧ squareM n m'
            ∧ ∀ l c, (l < n)%nat → (c < n)%nat →
                ∃ ch, String.get (l * n + c) s = Some ch
                      ∧ cellAt m' l c = Some (decodeCell ch))
       ∧ (¬ Forall validChar (list_ascii_of_string s) →
            ∃ h', NewFromString s h = Done (inr "invalid char in string"%string, h'))).
Proof.
  split.
  - intros Hno. unfold NewFromString.
    case_decide as H4; [done|]. case_decide as Hsq; [done|].
    exfalso. apply (Hno (sqrtInt (String.length s))); [nia | lia].
  - intros n Hn Hlen.
    destruct (NewFromString_run s h n Hlen Hn) as (r & h' & Hrun & Hpost).
    destruct r as [t|msg].
    + destruct Hpost as (-> & Hall & m' & -> & Hsq & Hcells).
      split; [|done]. intros _. by exists m'.
    + destruct Hpost as [-> Hbad]. split; [done|]. intros _. by exists h'.
Qed.

Lemma NewFromString_spec_witness :
  ((2 ≤ 4)%nat ∧ String.length "0I.1O..1.01.1..0" = (4 * 4)%nat
   ∧ Forall validChar (list_ascii_of_string "0I.1O..1.01.1..0"))
  ∧ ∃ m', NewFromString "0I.1O..1.01.1..0" [] = Done (inl (mkTakuzu 4 0), [] ++ [m'])
      ∧ squareM 4 m'
      ∧ ∀ l c, (l < 4)%nat → (c < 4)%nat →
          ∃ ch, String.get (l * 4 + c) "0I.1O..1.01.1..0" = Some ch
                ∧ cellAt m' l c = Some (decodeCell ch).
Proof.
  assert (H1 : (2 ≤ 4)%nat) by lia.
  assert (H2 : Forall validChar (list_ascii_of_string "0I.1O..1.01.1..0")).
  { apply (bool_decide_eq_true _). vm_compute. reflexivity. }
  split; [exact (conj H1 (conj eq_refl H2))|].
  exact (proj1 (proj2 (NewFromString_spec "0I.1O..1.01.1..0" []) 4%nat H1 eq_refl) H2).
Defined.

Lemma canonChar_decode ch : validChar ch → encodeChar (decodeCell ch) = canonChar ch.
Proof.
  unfold validChar, encodeChar, decodeCell, canonChar.
  intros [->|[->|[->|[->| ->]]]]; reflexivity.
Qed.

Lemma canonString_list s :
  canonString s = string_of_list_ascii (canonChar <$> list_ascii_of_string s).
Proof. induction s as [|ch s IH]; simpl; [done | by rewrite IH]. Qed.

(** Decoding a text and encoding the board again gives the text back with
    the letters O and I replaced by the digits 0 and 1. *)
Theorem NewFromString_ToString (s : string) (h : heap) (n : nat) :
  (2 ≤ n)%nat → String.length s = (n * n)%nat →
  Forall validChar (list_ascii_of_string s) →
  ∃ t h', NewFromString s h = Done (inl t, h')
    ∧ ToString t h' = Done (canonString s, h').
Proof.
  intros Hn Hlen Hall.
  destruct (NewFromString_run s h n Hlen Hn) as (r & h' & Hrun & Hpost).
  destruct r as [t|msg]; [|by destruct Hpost as [_ Hbad]].
  destruct Hpost as (-> & _ & m' & -> & Hsq & Hcells).
  eexists _, _. split; [done|].
  rewrite (ToString_run _ _ m') by (by apply wfBoard_snoc). f_equal. f_equal.
  assert (Hok : matrixOk m').
  { apply matrixOk_pointwise. intros l c x Hx.
    destruct (cellAt_lt _ _ _ _ _ Hsq Hx) as [Hl Hc].
    destruct (Hcells l c Hl Hc) as (ch & _ & Hx'). rewrite Hx in Hx'.
    injection Hx' as ->. apply decodeCell_ok. }
  unfold encodeM. rewrite encodeCells_chars by (by apply matrixOk_concat).
  rewrite canonString_list. f_equal.
  destruct Hsq as [Hlm Hrows].
  apply list_eq. intros i. rewrite !list_lookup_fmap.
  destruct (decide (i < n * n)%nat) as [Hi|Hi].
  - assert (Hl : (i / n < n)%nat) by (apply Nat.Div0.div_lt_upper_bound; lia).
    assert (Hc : (i mod n < n)%nat) by (apply Nat.mod_upper_bound; lia).
    destruct (Hcells _ _ Hl Hc) as (ch & Hch & Hx).
    assert (Hi' : (i / n * n + i mod n)%nat = i) by (pose proof (Nat.div_mod_eq i n); lia).
    rewrite <- (concat_lookup_square n) in Hx by done.
    rewrite Hi' in Hx, Hch. rewrite string_get_list in Hch. rewrite Hx, Hch. simpl.
    f_equal. apply canonChar_decode. by apply (Forall_lookup_1 _ _ _ _ Hall Hch).
  - rewrite !lookup_ge_None_2; [done | |].
    + rewrite <- string_length_list. lia.
    + rewrite (concat_length_square n), Hlm by done. lia.
Qed.

Lemma NewFromString_ToString_witness :
  ((2 ≤ 4)%nat ∧ String.length "0I.1O..1.01.1..0" = (4 * 4)%nat
   ∧ Forall validChar (list_ascii_of_string "0I.1O..1.01.1..0"))
  ∧ ∃ t h', NewFromString "0I.1O..1.01.1..0" [] = Done (inl t, h')
      ∧ ToString t h' = Done (canonString "0I.1O..1.01.1..0", h').
Proof.
  assert (H1 : (2 ≤ 4)%nat) by lia.
  assert (H2 : Forall validChar (list_ascii_of_string "0I.1O..1.01.1..0")).
  { apply (bool_decide_eq_true _). vm_compute. reflexivity. }
  split; [exact (conj H1 (conj eq_refl H2))|].
  exact (NewFromString_ToString "0I.1O..1.01.1..0" [] 4 H1 eq_refl H2).
Defined.

Example canonString_ex : canonString "0I.1O..1.01.1..0" = "01.10..1.01.1..0"%string.
Proof. reflexivity. Qed.

(** ** More on range checks *)

Lemma checkRange_cases cells b oe :
  checkRange cells = Some (b, oe) →
  (∃ v, firstRun3 cells v ∧ oe = Some (adjacentError v))
  ∨ (¬ hasRun3 cells
     ∧ oe = (if decide (countValue 0 cells > half (length cells))
             then Some (tooManyError 0)
             else if decide (countValue 1 cells > half (length cells))
             then Some (tooManyError 1)
             else None)
     ∧ (b = true ↔ allDefined cells)).
Proof.
  unfold checkRange.
  pose proof (checkRangeLoop_spec cells [] rangeScan0 scanInv_init) as H.
  simpl in H. destruct (checkRangeLoop cells rangeScan0) as [[s | [b' e]]|]; [| |done]; simpl.
  - destruct H as (Hf & Hc & Hn & _). rewrite Hc. simpl. intros Hrun.
    right. split; [intros (i & v & ?); by eapply Hn|].
    destruct (Z.gtb_spec (countValue 0 cells) (half (length cells)));
      [injection Hrun as <- <-; by rewrite decide_True by lia|].
    rewrite decide_False by lia.
    destruct (Z.gtb_spec (countValue 1 cells) (half (length cells)));
      injection Hrun as <- <-; [by rewrite decide_True by lia|].
    by rewrite decide_False by lia.
  - destruct H as (v & -> & Hfirst). intros [= <- <-]. left. eauto.
Qed.

(** When the range check signals an error. *)
Lemma rangeFails_iff cells :
  cellsOk cells →
  rangeFails cells = true
  ↔ hasRun3 cells ∨ countValue 0 cells > half (length cells)
    ∨ countValue 1 cells > half (length cells).
Proof.
  intros Hok. unfold rangeFails.
  destruct (checkRange_total cells Hok) as [[b oe] Hr]. rewrite Hr.
  destruct (checkRange_cases _ _ _ Hr) as [(v & Hf & ->)|(Hn & -> & _)].
  - split; [|done]. intros _. left. by eapply firstRun3_hasRun3.
  - repeat case_decide; split; try done; try (intros _; lia); intros [?|[?|?]]; try done; lia.
Qed.

Lemma rangeGood_iff cells :
  rangeGood cells ↔ cellsOk cells ∧ rangeFails cells = false.
Proof.
  unfold rangeGood, rangeFails. split.
  - intros [b Hr]. rewrite Hr. split; [|done]. by apply (checkRange_no_error _ b).
  - intros [Hok Hf]. destruct (checkRange_total cells Hok) as [[b oe] Hr]. rewrite Hr in Hf.
    destruct oe; [done|]. by exists b.
Qed.

(** *** [CheckRangeCounts] *)

Lemma allDefined_cons_bool c cells :
  bool_decide (allDefined (c :: cells)) = Defined c && bool_decide (allDefined cells).
Proof.
  destruct (Defined c) eqn:Hd; simpl.
  - apply bool_decide_ext. split; [by intros [_ H]%Forall_cons_1 | intros H; by constructor].
  - apply bool_decide_eq_false_2. intros [H _]%Forall_cons_1. congruence.
Qed.

Lemma checkRangeCountsLoop_ok cells : ∀ fl n0 n1,
  cellsOk cells →
  checkRangeCountsLoop cells fl [n0; n1]
  = Some (fl && bool_decide (allDefined cells),
          [n0 + countValue 0 cells; n1 + countValue 1 cells]).
Proof.
  induction cells as [|c cells IH]; intros fl n0 n1 Hok.
  - cbn [checkRangeCountsLoop]. rewrite !countValue_nil, !Z.add_0_r.
    rewrite (bool_decide_eq_true_2 (allDefined [])) by constructor.
    by rewrite andb_true_r.
  - apply Forall_cons_1 in Hok as [Hc Hok]. cbn [checkRangeCountsLoop].
    rewrite !countValue_cons, allDefined_cons_bool.
    destruct (Defined c) eqn:Hd.
    + rewrite incrCounter_ok by (by apply Hc). cbn [mbind option_bind]. rewrite IH by done.
      rewrite andb_true_l.
      destruct (Hc Hd) as [Hv|Hv]; rewrite Hv; repeat case_decide;
        try (exfalso; intuition lia); by rewrite <- !Z.add_assoc.
    + rewrite IH by done. rewrite andb_false_l, andb_false_r.
      rewrite !decide_False by (intros [? _]; congruence).
      by rewrite !Z.add_0_l.
Qed.

Lemma checkRangeCountsLoop_bad cells : ∀ fl cnt,
  length cnt = 2%nat → ¬ cellsOk cells → checkRangeCountsLoop cells fl cnt = None.
Proof.
  induction cells as [|c cells IH]; intros fl cnt Hlen Hbad.
  - destruct Hbad. constructor.
  - simpl. destruct (Defined c) eqn:Hd.
    + destruct (incrCounter cnt (Value c)) as [cnt'|] eqn:Hi; [|done]. simpl.
      destruct (incrCounter_inv _ _ _ Hlen Hi) as [Hv Hlen'].
      apply IH; [done|]. intros Hok. apply Hbad. constructor; [by intros _ | done].
    + apply IH; [done|]. intros Hok. apply Hbad. constructor; [|done].
      intros Hd'. congruence.
Qed.

Lemma countValue_total cells :
  cellsOk cells →
  countValue 0 cells + countValue 1 cells
  = Z.of_nat (length (filter (λ c, Defined c = true) cells)).
Proof.
  induction cells as [|c cells IH]; intros Hok; [done|].
  apply Forall_cons_1 in Hok as [Hc Hok]. rewrite !countValue_cons.
  rewrite filter_cons. specialize (IH Hok).
  destruct (decide (Defined c = true)) as [Hd|Hd].
  - simpl length. destruct (Hc Hd) as [Hv|Hv]; rewrite Hv; repeat case_decide;
      try (exfalso; intuition lia); lia.
  - rewrite !decide_False by (intros [? _]; congruence). lia.
Qed.

Lemma allDefined_filter cells :
  allDefined cells ↔ length (filter (λ c, Defined c = true) cells) = length cells.
Proof.
  induction cells as [|c cells IH]; [by split; [|constructor]|].
  rewrite filter_cons. pose proof (length_filter (λ c, Defined c = true) cells) as Hle.
  destruct (decide (Defined c = true)) as [Hd|Hd]; simpl.
  - split.
    + intros [_ H]%Forall_cons_1. f_equal. by apply IH.
    + intros [= H]. constructor; [done | by apply IH].
  - split; [by intros [? _]%Forall_cons_1 | lia].
Qed.

(** [CheckRangeCounts] returns on a range exactly when its defined cells
    hold 0 or 1 (another value indexes the two counters out of range).  It
    then gives the number of defined zeros, the number of defined ones, and
    whether every cell is defined, which is the case exactly when the two
    numbers add up to the length. *)
Theorem CheckRangeCounts_spec (cells : list Cell) :
  (cellsOk cells →
     CheckRangeCounts cells
     = Some (bool_decide (allDefined cells), countValue 0 cells, countValue 1 cells)
     ∧ (allDefined cells
        ↔ countValue 0 cells + countValue 1 cells = Z.of_nat (length cells)))
  ∧ (¬ cellsOk cells → CheckRangeCounts cells = None).
Proof.
  split.
  - intros Hok. split.
    + unfold CheckRangeCounts. rewrite checkRangeCountsLoop_ok by done. simpl.
      do 3 f_equal; lia.
    + rewrite countValue_total by done. rewrite allDefined_filter. lia.
  - intros Hbad. unfold CheckRangeCounts.
    by rewrite checkRangeCountsLoop_bad.
Qed.

Lemma CheckRangeCounts_spec_witness :
  cellsOk [cellOf 0; zeroCell; cellOf 1; cellOf 0]
  ∧ CheckRangeCounts [cellOf 0; zeroCell; cellOf 1; cellOf 0]
    = Some (bool_decide (allDefined [cellOf 0; zeroCell; cellOf 1; cellOf 0]),
            countValue 0 [cellOf 0; zeroCell; cellOf 1; cellOf 0],
            countValue 1 [cellOf 0; zeroCell; cellOf 1; cellOf 0])
    ∧ (allDefined [cellOf 0; zeroCell; cellOf 1; cellOf 0]
       ↔ countValue 0 [cellOf 0; zeroCell; cellOf 1; cellOf 0]
         + countValue 1 [cellOf 0; zeroCell; cellOf 1; cellOf 0]
         = Z.of_nat (length [cellOf 0; zeroCell; cellOf 1; cellOf 0])).
Proof.
  assert (Hok : cellsOk [cellOf 0; zeroCell; cellOf 1; cellOf 0]).
  { repeat constructor; intros _; simpl; lia. }
  split; [exact Hok|].
  exact (proj1 (CheckRangeCounts_spec [cellOf 0; zeroCell; cellOf 1; cellOf 0]) Hok).
Defined.

Example CheckRangeCounts_ex :
  CheckRangeCounts [cellOf 0; zeroCell; cellOf 1; cellOf 0] = Some (false, 2, 1)
  ∧ CheckRangeCounts [cellOf 0; cellOf 7] = None.
Proof. split; reflexivity. Qed.

(** *** The texts of validation errors *)

Lemma checkRangeLoop_error_value cells : ∀ s b e,
  length (counters s) = 2%nat → checkRangeLoop cells s = Some (inr (b, e)) →
  e = adjacentError 0 ∨ e = adjacentError 1.
Proof.
  induction cells as [|c cells IH]; intros s b e Hlen Hrun; [done|].
  simpl in Hrun. destruct (Defined c); simpl in Hrun; [|by eapply IH; [|exact Hrun]].
  destruct (incrCounter (counters s) (Value c)) as [cnt|] eqn:Hi; [|done]. simpl in Hrun.
  destruct (incrCounter_inv _ _ _ Hlen Hi) as [Hv Hlen'].
  destruct (prevCellCount s =? 0); [by eapply IH; [|exact Hrun]|].
  destruct (Value c =? Value (prevCell s)); [|by eapply IH; [|exact Hrun]].
  destruct (prevCellCount s + 1 >? 2); [|by eapply IH; [|exact Hrun]].
  injection Hrun as <- <-. destruct Hv as [-> | ->]; auto.
Qed.

(** The errors that [checkRange] can return. *)
Lemma checkRange_error_shape cells b e :
  checkRange cells = Some (b, Some e) →
  e ∈ [adjacentError 0; adjacentError 1; tooManyError 0; tooManyError 1].
Proof.
  unfold checkRange. intros Hrun.
  destruct (checkRangeLoop cells rangeScan0) as [[s|[b' e']]|] eqn:Hloop; simpl in Hrun; [| |done].
  - destruct (counters s !! 0%nat); simpl in Hrun; [|done].
    destruct (counters s !! 1%nat); simpl in Hrun; [|done].
    repeat match type of Hrun with context [if ?c then _ else _] => destruct c end;
      simplify_eq; set_solver.
  - injection Hrun as <- <-.
    destruct (checkRangeLoop_error_value cells rangeScan0 _ _ eq_refl Hloop) as [-> | ->];
      set_solver.
Qed.

Lemma rangeError_text e :
  e ∈ [adjacentError 0; adjacentError 1; tooManyError 0; tooManyError 1] →
  validationError_Error e = "internal validation error"%string.
Proof.
  intros He. repeat (apply elem_of_cons in He as [-> | He]; [reflexivity|]).
  by apply elem_of_nil in He.
Qed.

(** An error returned by [CheckLine] or [CheckColumn] carries neither a line
    nor a column number, so the text that its method [Error] gives is always
    "internal validation error", whatever the violation. *)
Theorem CheckLine_error_text (h h' : heap) (b : Takuzu) (i : nat) (e : validationError) :
  CheckLine b i h = Done (Some e, h') ∨ CheckColumn b i h = Done (Some e, h') →
  validationError_Error e = "internal validation error"%string.
Proof.
  assert (Hgen : ∀ (get : H (list Cell)),
    (d ← get; r ← orPanic (checkRange d); mret r.2) h = Done (Some e, h') →
    validationError_Error e = "internal validation error"%string).
  { intros get (d & h1 & _ & Hrest)%bind_Done_inv.
    apply bind_Done_inv in Hrest as ([fl oe] & h2 & Hr & Hret).
    injection Hret as Hoe Hh. simpl in Hoe. subst oe h2.
    destruct (checkRange d) as [[fl' oe']|] eqn:Hcr; [|done].
    injection Hr as Hfl Hoe Hh. subst.
    by apply rangeError_text, (checkRange_error_shape d fl). }
  intros [Hrun|Hrun]; by eapply Hgen.
Qed.

Lemma CheckLine_error_text_witness :
  (CheckLine (mkTakuzu 4 0) 0 [sampleBad] = Done (Some (adjacentError 0), [sampleBad])
   ∨ CheckColumn (mkTakuzu 4 0) 0 [sampleBad] = Done (Some (adjacentError 0), [sampleBad]))
  ∧ validationError_Error (adjacentError 0) = "internal validation error"%string.
Proof.
  assert (H1 : CheckLine (mkTakuzu 4 0) 0 [sampleBad]
               = Done (Some (adjacentError 0), [sampleBad])) by (vm_compute; reflexivity).
  split; [left; exact H1|].
  exact (CheckLine_error_text [sampleBad] [sampleBad] (mkTakuzu 4 0) 0 (adjacentError 0)
           (or_introl H1)).
Defined.

(** ** The fingerprints of [Validate] *)

Lemma wrapInt_mod z : wrapInt z `mod` 2 ^ 64 = z `mod` 2 ^ 64.
Proof.
  unfold wrapInt.
  rewrite <- Zminus_mod_idemp_l. rewrite Z.mod_mod by lia.
  rewrite Zminus_mod_idemp_l. f_equal. lia.
Qed.

Lemma wrapInt_eq_iff x y : wrapInt x = wrapInt y ↔ x `mod` 2 ^ 64 = y `mod` 2 ^ 64.
Proof.
  split.
  - intros H. by rewrite <- (wrapInt_mod x), <- (wrapInt_mod y), H.
  - intros H. unfold wrapInt. f_equal.
    rewrite <- (Zplus_mod_idemp_l x), <- (Zplus_mod_idemp_l y). by rewrite H.
Qed.

Lemma wrapInt_shift z : ∃ k, wrapInt z = z + k * 2 ^ 64.
Proof.
  exists (- ((z + 2 ^ 63) `div` 2 ^ 64)). unfold wrapInt.
  pose proof (Z.div_mod (z + 2 ^ 63) (2 ^ 64)). lia.
Qed.

Lemma wrapInt_step a v i :
  0 ≤ i →
  wrapInt (wrapInt a + wrapInt (Z.shiftl (wrapInt (v * 1)) i)) = wrapInt (a + v * 2 ^ i).
Proof.
  intros Hi. apply wrapInt_eq_iff. rewrite Z.shiftl_mul_pow2 by done.
  destruct (wrapInt_shift a) as [k1 ->].
  destruct (wrapInt_shift (v * 1)) as [k3 ->].
  destruct (wrapInt_shift ((v * 1 + k3 * 2 ^ 64) * 2 ^ i)) as [k2 ->].
  replace (a + k1 * 2 ^ 64 + ((v * 1 + k3 * 2 ^ 64) * 2 ^ i + k2 * 2 ^ 64))
    with (a + v * 2 ^ i + (k1 + k3 * 2 ^ i + k2) * 2 ^ 64) by lia.
  apply Z_mod_plus_full.
Qed.

Lemma computeValFrom_bits cells : ∀ i a,
  computeValFrom i cells (wrapInt a)
  = wrapInt (a + 2 ^ Z.of_nat i * bitsZ (Value <$> cells)).
Proof.
  induction cells as [|c cells IH]; intros i a; simpl.
  - f_equal. lia.
  - rewrite wrapInt_step by lia. rewrite IH. f_equal.
    rewrite Nat2Z.inj_succ, Z.pow_succ_r by lia.
    change (list_fmap Cell Z Value cells) with (Value <$> cells). ring.
Qed.

Lemma computeVal_bits cells : computeVal cells = wrapInt (bitsZ (Value <$> cells)).
Proof.
  unfold computeVal. change 0 with (wrapInt 0) at 1. rewrite computeValFrom_bits.
  f_equal. simpl. lia.
Qed.

Lemma bitsZ_cons v vals : bitsZ (v :: vals) = v + 2 * bitsZ vals.
Proof. reflexivity. Qed.

Lemma bitsZ_app a b : bitsZ (a ++ b) = bitsZ a + 2 ^ Z.of_nat (length a) * bitsZ b.
Proof.
  induction a as [|v a IH].
  - cbn [app length]. change (bitsZ []) with 0. change (Z.of_nat 0) with 0. lia.
  - cbn [app length]. rewrite !bitsZ_cons, IH.
    rewrite Nat2Z.inj_succ, Z.pow_succ_r by lia. ring.
Qed.

Lemma bitsZ_bound vals :
  Forall (λ v, v = 0 ∨ v = 1) vals → 0 ≤ bitsZ vals < 2 ^ Z.of_nat (length vals).
Proof.
  induction 1 as [|v vals Hv _ IH].
  - change (bitsZ []) with 0. cbn [length]. change (Z.of_nat 0) with 0. lia.
  - rewrite bitsZ_cons. cbn [length].
    rewrite Nat2Z.inj_succ, Z.pow_succ_r by lia. lia.
Qed.

Lemma bitsZ_inj v1 : ∀ v2,
  Forall (λ v, v = 0 ∨ v = 1) v1 → Forall (λ v, v = 0 ∨ v = 1) v2 →
  length v1 = length v2 → bitsZ v1 = bitsZ v2 → v1 = v2.
Proof.
  induction v1 as [|a v1 IH]; intros [|b v2] H1 H2 Hlen Heq; try done.
  apply Forall_cons_1 in H1 as [Ha H1]. apply Forall_cons_1 in H2 as [Hb H2].
  rewrite !bitsZ_cons in Heq. cbn [length] in Hlen.
  assert (a = b) as -> by lia. f_equal. apply IH; [done | done | lia | lia].
Qed.

Lemma values_01 cells :
  cellsOk cells → allDefined cells → Forall (λ v, v = 0 ∨ v = 1) (Value <$> cells).
Proof.
  intros Hok Hall. apply Forall_fmap. apply Forall_forall. intros c Hc. simpl.
  apply (proj1 (Forall_forall _ _) Hok c Hc).
  by apply (proj1 (Forall_forall _ _) Hall c Hc).
Qed.

(** On fully defined ranges of at most 64 cells the fingerprint tells the
    values apart. *)
Lemma computeVal_inj c1 c2 :
  cellsOk c1 → cellsOk c2 → allDefined c1 → allDefined c2 →
  length c1 = length c2 → (length c1 ≤ 64)%nat →
  computeVal c1 = computeVal c2 → Value <$> c1 = Value <$> c2.
Proof.
  intros Hok1 Hok2 Ha1 Ha2 Hlen H64. rewrite !computeVal_bits, wrapInt_eq_iff.
  pose proof (bitsZ_bound _ (values_01 _ Hok1 Ha1)) as B1.
  pose proof (bitsZ_bound _ (values_01 _ Hok2 Ha2)) as B2.
  rewrite length_fmap in B1, B2.
  assert (2 ^ Z.of_nat (length c1) ≤ 2 ^ 64) by (apply Z.pow_le_mono_r; lia).
  assert (2 ^ Z.of_nat (length c2) ≤ 2 ^ 64) by (apply Z.pow_le_mono_r; lia).
  rewrite !Z.mod_small by lia. intros Heq.
  apply bitsZ_inj; [by apply values_01.. | by rewrite !length_fmap | done].
Qed.

(** The fingerprint does not see the cells from index 64 on. *)
Lemma computeVal_take c1 c2 :
  take 64 (Value <$> c1) = take 64 (Value <$> c2) → computeVal c1 = computeVal c2.
Proof.
  intros Heq. rewrite !computeVal_bits. apply wrapInt_eq_iff.
  rewrite <- (take_drop 64 (Value <$> c1)), <- (take_drop 64 (Value <$> c2)).
  rewrite !bitsZ_app, <- Heq.
  set (T := take 64 (Value <$> c1)).
  destruct (decide (64 ≤ length (Value <$> c1))%nat) as [Hl|Hl].
  - assert (HT : Z.of_nat (length T) = 64).
    { unfold T. rewrite length_take_le by done. done. }
    rewrite HT.
    rewrite (Z.mul_comm (2 ^ 64) (bitsZ (drop 64 (Value <$> c1)))).
    rewrite (Z.mul_comm (2 ^ 64) (bitsZ (drop 64 (Value <$> c2)))).
    by rewrite !Z_mod_plus_full.
  - assert (Hd1 : drop 64 (Value <$> c1) = []) by (apply drop_ge; lia).
    assert (Hlen : length (Value <$> c2) = length (Value <$> c1)).
    { apply (f_equal length) in Heq. rewrite !length_take in Heq. lia. }
    assert (Hd2 : drop 64 (Value <$> c2) = []) by (apply drop_ge; lia).
    by rewrite Hd1, Hd2.
Qed.

(** ** What [Validate] accepts *)

Lemma validateStepM_inl m k st st' :
  validateInv2 m k st → validateStepM m k st = Some (inl st') →
  validateInv2 m (Datatypes.S k) st'.
Proof.
  intros (Hrows & Hcols & Hfin). unfold validateStepM.
  destruct (checkRange (rowM m k)) as [[fl [e1|]]|] eqn:Hrow; simpl; [done| |done].
  destruct (fl && seen (lineVals st) (computeVal (rowM m k))) eqn:Hseen; [done|].
  destruct (checkRange (colM m k)) as [[fl' [e2|]]|] eqn:Hcol; simpl; [done| |done].
  match goal with |- context [fl' && ?x] => destruct (fl' && x) eqn:Hseen' end; [done|].
  destruct (checkRange_no_error _ _ Hrow) as (_ & _ & _ & _ & Hfl).
  destruct (checkRange_no_error _ _ Hcol) as (_ & _ & _ & _ & Hfl').
  assert (Hlt : ∀ i, (i < Datatypes.S k)%nat ↔ (i < k)%nat ∨ i = k) by lia.
  intros Hst'.
  assert (Hl : ∀ hv, seen (lineVals st') hv = true
             ↔ (fl = true ∧ computeVal (rowM m k) = hv) ∨ seen (lineVals st) hv = true).
  { intros hv. destruct fl, fl'; simpl in Hst'; simplify_eq; simpl; rewrite ?seen_insert;
      intuition congruence. }
  assert (Hc : ∀ hv, seen (colVals st') hv = true
             ↔ (fl' = true ∧ computeVal (colM m k) = hv) ∨ seen (colVals st) hv = true).
  { intros hv. destruct fl, fl'; simpl in Hst'; simplify_eq; simpl; rewrite ?seen_insert;
      intuition congruence. }
  assert (Hf : finished st' = true ↔ fl = true ∧ fl' = true ∧ finished st = true).
  { destruct fl, fl'; simpl in Hst'; simplify_eq; simpl; intuition congruence. }
  clear Hst' Hseen Hseen'.
  split_and!.
  - intros hv. rewrite Hl, Hrows, Hfl. split.
    + intros [[Hall <-]|(j & Hj & Hall & <-)]; [exists k | exists j]; split_and!; try done; lia.
    + intros (j & [Hj| ->]%Hlt & Hall & <-); [right; by exists j | by left].
  - intros hv. rewrite Hc, Hcols, Hfl'. split.
    + intros [[Hall <-]|(j & Hj & Hall & <-)]; [exists k | exists j]; split_and!; try done; lia.
    + intros (j & [Hj| ->]%Hlt & Hall & <-); [right; by exists j | by left].
  - rewrite Hf, Hfin, Hfl, Hfl'. split.
    + intros (H1 & H2 & H3) j [Hj| ->]%Hlt; [by apply H3 | done].
    + intros Hall. split_and!.
      * apply Hall. lia.
      * apply Hall. lia.
      * intros j Hj. apply Hall. lia.
Qed.

Lemma validateStepM_progress m k st :
  validateInv2 m k st → rangeGood (rowM m k) → rangeGood (colM m k) →
  (allDefined (rowM m k) → ∀ j, (j < k)%nat → allDefined (rowM m j) →
     computeVal (rowM m j) ≠ computeVal (rowM m k)) →
  (allDefined (colM m k) → ∀ j, (j < k)%nat → allDefined (colM m j) →
     computeVal (colM m j) ≠ computeVal (colM m k)) →
  ∃ st', validateStepM m k st = Some (inl st').
Proof.
  intros (Hrows & Hcols & Hfin) [fl Hrow] [fl' Hcol] Hdr Hdc. unfold validateStepM.
  rewrite Hrow. simpl.
  destruct (checkRange_no_error _ _ Hrow) as (_ & _ & _ & _ & Hfl).
  destruct (checkRange_no_error _ _ Hcol) as (_ & _ & _ & _ & Hfl').
  assert (Hs : fl && seen (lineVals st) (computeVal (rowM m k)) = false).
  { destruct fl; [|done]. simpl. apply not_true_is_false. intros Hseen.
    apply Hrows in Hseen as (j & Hj & Hall & Heq). by apply (Hdr (proj1 Hfl eq_refl) j). }
  rewrite Hs. rewrite Hcol. simpl.
  assert (Hs' : ∀ cv, (∀ hv, seen cv hv = true → seen (colVals st) hv = true) →
     fl' && seen cv (computeVal (colM m k)) = false).
  { intros cv Hcv. destruct fl'; [|done]. simpl. apply not_true_is_false. intros Hseen.
    apply Hcv, Hcols in Hseen as (j & Hj & Hall & Heq). by apply (Hdc (proj1 Hfl' eq_refl) j). }
  rewrite Hs' by (by destruct fl). destruct fl'; eauto.
Qed.

Lemma validateInv2_start m : validateInv2 m 0 (mkValidateState true ∅ ∅).
Proof.
  split_and!.
  - intros hv. split; [done|]. intros (j & Hj & _). lia.
  - intros hv. split; [done|]. intros (j & Hj & _). lia.
  - split; [|done]. intros _ j Hj. lia.
Qed.

Lemma loopO_validate2 m len : ∀ start st st',
  validateInv2 m start st →
  loopO (validateStepM m) (seq start len) st = Some (inl st') →
  validateInv2 m (start + len) st'.
Proof.
  induction len as [|len IH]; intros start st st' Hinv; simpl.
  - intros [= <-]. by rewrite Nat.add_0_r.
  - destruct (validateStepM m start st) as [[st1|[b e]]|] eqn:Hstep; simpl; [| done..].
    intros Hrun. replace (start + Datatypes.S len)%nat with (Datatypes.S start + len)%nat by lia.
    eapply IH; [|done]. by eapply validateStepM_inl.
Qed.

Lemma loopO_validate_progress m len : ∀ start st,
  (start + len ≤ length m)%nat → fingerprintRules m → validateInv2 m start st →
  ∃ st', loopO (validateStepM m) (seq start len) st = Some (inl st').
Proof.
  induction len as [|len IH]; intros start st Hle Hrules Hinv; simpl; [by eauto|].
  destruct Hrules as (Hgood & Hdr & Hdc).
  destruct (validateStepM_progress m start st Hinv) as [st1 Hstep].
  - apply Hgood. lia.
  - apply Hgood. lia.
  - intros Hall j Hj Hallj. apply Hdr; try done. lia.
  - intros Hall j Hj Hallj. apply Hdc; try done. lia.
  - rewrite Hstep. simpl. apply IH; [lia | done |]. by eapply validateStepM_inl.
Qed.

Lemma fullM_rows m : fullM m ↔ ∀ j, (j < length m)%nat → allDefined (rowM m j).
Proof.
  unfold fullM. rewrite Forall_lookup. split.
  - intros H j Hj. destruct (lookup_lt_is_Some_2 m j Hj) as [row Hrow].
    rewrite (rowM_lookup _ _ _ Hrow). by eapply H.
  - intros H j row Hrow. rewrite <- (rowM_lookup _ _ _ Hrow). apply H.
    by eapply lookup_lt_Some.
Qed.

Lemma allDefined_colM n m c : squareM n m → fullM m → (c < n)%nat → allDefined (colM m c).
Proof.
  intros [Hlen Hrows] Hfull Hc. unfold colM, allDefined. apply Forall_fmap.
  apply Forall_lookup. intros l row Hrow. simpl.
  assert (Hrl : length row = n) by (by eapply (proj1 (Forall_lookup _ _) Hrows)).
  destruct (lookup_lt_is_Some_2 row c) as [x Hx]; [lia|]. rewrite Hx. simpl.
  pose proof (proj1 (Forall_lookup _ _) Hfull l row Hrow) as Hr.
  apply (proj1 (Forall_lookup _ _) Hr c x Hx).
Qed.

(** The boolean of [Validate], when it returns no error, tells whether the
    board is fully defined. *)
Lemma validateM_finished n m fl :
  squareM n m → validateM m = Some (fl, None) → fl = true ↔ fullM m.
Proof.
  intros Hsq. unfold validateM.
  destruct (loopO _ _ _) as [[st|[b e]]|] eqn:Hloop; simpl; [| |done].
  - intros [= <-].
    pose proof (loopO_validate2 m (length m) 0 _ _ (validateInv2_start m) Hloop) as (_ & _ & Hfin).
    simpl in Hfin. rewrite Hfin, fullM_rows. split.
    + intros H j Hj. by apply H.
    + intros H j Hj. split; [by apply H|].
      apply (allDefined_colM n); [done | by apply fullM_rows |]. destruct Hsq. lia.
  - intros [= -> ->].
    by destruct (loopO_validate m (length m) 0 _ _ (validateInvariant_start m) Hloop).
Qed.

Lemma validateM_complete n m :
  squareM n m → fingerprintRules m → validateM m = Some (bool_decide (fullM m), None).
Proof.
  intros Hsq Hrules.
  destruct (loopO_validate_progress m (length m) 0 (mkValidateState true ∅ ∅))
    as [st Hloop]; [simpl; lia | done | apply validateInv2_start |].
  assert (Hval : validateM m = Some (finished st, None)).
  { unfold validateM, upto. by rewrite Hloop. }
  rewrite Hval. do 2 f_equal.
  pose proof (validateM_finished n m _ Hsq Hval) as Hfin.
  destruct (finished st); symmetry.
  - apply bool_decide_eq_true_2. by apply Hfin.
  - apply bool_decide_eq_false_2. intros Hfull. by apply Hfin in Hfull.
Qed.

Lemma validateM_rules m fl : validateM m = Some (fl, None) → fingerprintRules m.
Proof.
  intros Hval.
  destruct (validateM_no_error _ _ Hval) as (st & (Hgood & _ & _ & Hdr & Hdc & _) & _).
  done.
Qed.

Lemma rangeGood_rules cells : rangeGood cells ↔ cellsOk cells ∧ rangeRules cells.
Proof.
  rewrite rangeGood_iff. unfold rangeRules. split.
  - intros [Hok Hf]. split; [done|].
    pose proof (rangeFails_iff cells Hok) as Hiff. rewrite Hf in Hiff.
    split_and!.
    + intros H. by pose proof (proj2 Hiff (or_introl H)).
    + destruct (decide (countValue 0 cells ≤ half (length cells))); [done|].
      exfalso. assert (false = true); [|done]. apply Hiff. right. left. lia.
    + destruct (decide (countValue 1 cells ≤ half (length cells))); [done|].
      exfalso. assert (false = true); [|done]. apply Hiff. right. right. lia.
  - intros (Hok & Hn & H0 & H1). split; [done|].
    apply not_true_is_false. intros [?|[?|?]]%(rangeFails_iff cells Hok); [done | lia | lia].
Qed.

Lemma colM_lookup_inv m c l x : colM m c !! l = Some x → (l < length m)%nat.
Proof. intros H. apply lookup_lt_Some in H. by rewrite colM_length in H. Qed.

(** On a board of size at most 64, comparing fingerprints is comparing
    values. *)
Lemma rules_fingerprint n m :
  squareM n m → matrixOk m → (n ≤ 64)%nat → takuzuRules m ↔ fingerprintRules m.
Proof.
  intros Hsq Hok H64. pose proof Hsq as [Hlen _]. unfold takuzuRules, fingerprintRules.
  rewrite Hlen.
  assert (Hrow : ∀ i, (i < n)%nat → cellsOk (rowM m i)) by (intros; by apply (matrixOk_rowM n)).
  assert (Hcol : ∀ i, (i < n)%nat → cellsOk (colM m i)) by (intros; by apply (matrixOk_colM n)).
  assert (Hrl : ∀ i, (i < n)%nat → length (rowM m i) = n) by (intros; by apply rowM_length).
  assert (Hcl : ∀ i, length (colM m i) = n) by (intros; by rewrite colM_length).
  split.
  - intros (Hgood & Hdr & Hdc). split_and!.
    + intros i Hi. destruct (Hgood i Hi). split; apply rangeGood_rules; auto.
    + intros i j Hij Hj Hi' Hj' Heq. apply (Hdr i j); try done.
      apply computeVal_inj; try done; try apply Hrow; try lia.
      * rewrite !Hrl by lia. done.
      * rewrite Hrl by lia. done.
    + intros i j Hij Hj Hi' Hj' Heq. apply (Hdc i j); try done.
      apply computeVal_inj; try done; try apply Hcol; try lia.
      * by rewrite !Hcl.
      * by rewrite Hcl.
  - intros (Hgood & Hdr & Hdc). split_and!.
    + intros i Hi. destruct (Hgood i Hi) as [H1 H2].
      apply rangeGood_rules in H1 as [_ H1]. apply rangeGood_rules in H2 as [_ H2]. done.
    + intros i j Hij Hj Hi' Hj' Heq%computeVal_values. by apply (Hdr i j).
    + intros i j Hij Hj Hi' Hj' Heq%computeVal_values. by apply (Hdc i j).
Qed.

(** On a stored board of size at most 64 (the width taken for a Go [int])
    whose defined cells hold 0 or 1, [Validate] returns no error exactly when
    the rules of the game hold: no three equal adjacent values and at most
    [Size/2] zeros and ones in any line or column, no two fully defined lines
    with the same values, no two such columns.  The boolean then tells
    whether every cell is defined; with an error it is [false]. *)
Theorem Validate_exact (h : heap) (b : Takuzu) (m : matrix) :
  wfBoard h b m → matrixOk m → (Size b ≤ 64)%nat →
  (takuzuRules m → Validate b h = Done ((bool_decide (fullM m), None), h))
  ∧ (¬ takuzuRules m → ∃ e, Validate b h = Done ((false, Some e), h)).
Proof.
  intros Hwf Hok H64. pose proof Hwf as [_ Hsq]. rewrite (Validate_run _ _ _ Hwf).
  pose proof (rules_fingerprint _ _ Hsq Hok H64) as Hiff. split.
  - intros Hrules%Hiff. by rewrite (validateM_complete _ _ Hsq Hrules).
  - intros Hbad. destruct (validateM_total _ _ Hsq Hok) as [[fl [e|]] Hval]; rewrite Hval.
    + exists e. unfold validateM in Hval.
      destruct (loopO _ _ _) as [[st|[b' e']]|] eqn:Hloop; simpl in Hval; [done| |done].
      injection Hval as -> ->.
      by destruct (loopO_validate m (length m) 0 _ _ (validateInvariant_start m) Hloop) as [-> _].
    + destruct Hbad. apply Hiff. by eapply validateM_rules.
Qed.

Lemma Validate_exact_witness :
  let b := mkTakuzu 4 0 in
  (wfBoard [sampleBoard] b sampleBoard ∧ matrixOk sampleBoard ∧ (Size b ≤ 64)%nat)
  ∧ (takuzuRules sampleBoard
     → Validate b [sampleBoard] = Done ((bool_decide (fullM sampleBoard), None), [sampleBoard]))
  ∧ (¬ takuzuRules sampleBoard
     → ∃ e, Validate b [sampleBoard] = Done ((false, Some e), [sampleBoard])).
Proof.
  intros b.
  assert (H1 : wfBoard [sampleBoard] b sampleBoard) by (by apply wfBoard_check).
  assert (H2 : matrixOk sampleBoard) by (by apply matrixOkb_sound).
  assert (H3 : (Size b ≤ 64)%nat) by (simpl; lia).
  split; [exact (conj H1 (conj H2 H3))|].
  exact (Validate_exact [sampleBoard] b sampleBoard H1 H2 H3).
Defined.

(** The fingerprint that [Validate] compares is a 64-bit number built from
    the cells at indices 0 to 63.  So two fully defined lines (or columns)
    that hold the same values in their first 64 cells make [Validate] report
    an error, even when they differ further right. *)
Theorem Validate_fingerprint_collision (h h' : heap) (b : Takuzu) (m : matrix)
    (i j : nat) (fl : bool) (err : option validationError) :
  wfBoard h b m → (i < j)%nat → (j < Size b)%nat →
  (allDefined (rowM m i) ∧ allDefined (rowM m j)
   ∧ take 64 (Value <$> rowM m i) = take 64 (Value <$> rowM m j))
  ∨ (allDefined (colM m i) ∧ allDefined (colM m j)
     ∧ take 64 (Value <$> colM m i) = take 64 (Value <$> colM m j)) →
  Validate b h = Done ((fl, err), h') → err ≠ None.
Proof.
  intros Hwf Hij Hj Hsame Hrun ->. rewrite (Validate_run _ _ _ Hwf) in Hrun.
  destruct (validateM m) as [[fl' e]|] eqn:Hval; [|done]. injection Hrun as -> -> <-.
  destruct (validateM_rules _ _ Hval) as (_ & Hdr & Hdc).
  destruct Hwf as [_ [Hlen _]]. rewrite Hlen in *.
  destruct Hsame as [(Hi & Hj' & Heq)|(Hi & Hj' & Heq)].
  - by apply (Hdr i j Hij Hj Hi Hj'), computeVal_take.
  - by apply (Hdc i j Hij Hj Hi Hj'), computeVal_take.
Qed.

Lemma Validate_fingerprint_collision_witness :
  let b := mkTakuzu 66 0 in
  (wfBoard [wideBoard] b wideBoard ∧ (0 < 1)%nat ∧ (1 < Size b)%nat
   ∧ ((allDefined (rowM wideBoard 0) ∧ allDefined (rowM wideBoard 1)
       ∧ take 64 (Value <$> rowM wideBoard 0) = take 64 (Value <$> rowM wideBoard 1))
      ∨ (allDefined (colM wideBoard 0) ∧ allDefined (colM wideBoard 1)
         ∧ take 64 (Value <$> colM wideBoard 0) = take 64 (Value <$> colM wideBoard 1)))
   ∧ Validate b [wideBoard] = Done ((false, Some (duplicateLine 1)), [wideBoard]))
  ∧ Some (duplicateLine 1) ≠ None.
Proof.
  intros b.
  assert (H1 : wfBoard [wideBoard] b wideBoard).
  { apply wfBoard_check; [reflexivity | vm_compute; reflexivity]. }
  assert (H2 : (0 < 1)%nat) by lia.
  assert (H3 : (1 < Size b)%nat) by (simpl; lia).
  assert (H4 : allDefined (rowM wideBoard 0) ∧ allDefined (rowM wideBoard 1)
               ∧ take 64 (Value <$> rowM wideBoard 0) = take 64 (Value <$> rowM wideBoard 1)).
  { split_and!; [apply (bool_decide_eq_true _); vm_compute; reflexivity ..
                | vm_compute; reflexivity]. }
  assert (H5 : Validate b [wideBoard] = Done ((false, Some (duplicateLine 1)), [wideBoard])).
  { vm_compute. reflexivity. }
  split; [exact (conj H1 (conj H2 (conj H3 (conj (or_introl H4) H5))))|].
  exact (Validate_fingerprint_collision [wideBoard] [wideBoard] b wideBoard 0 1 false
           (Some (duplicateLine 1)) H1 H2 H3 (or_introl H4) H5).
Defined.

Example wideBoard_lines_differ :
  Value <$> rowM wideBoard 0 ≠ Value <$> rowM wideBoard 1
  ∧ rangeGood (rowM wideBoard 0) ∧ rangeGood (rowM wideBoard 1).
Proof.
  split_and!; [vm_compute; discriminate | exists true; vm_compute; reflexivity ..].
Qed.

(** *** The errors of [Validate] and their texts *)

Lemma validateStepM_error_shape m i st b oe :
  validateStepM m i st = Some (inr (b, oe)) →
  b = false ∧ ∃ e, oe = Some e ∧ (e ∈ lineErrors i ∨ e ∈ columnErrors i).
Proof.
  unfold validateStepM.
  destruct (checkRange (rowM m i)) as [[fl [e1|]]|] eqn:Hrow; simpl; [| |done].
  { intros [= <- <-]. split; [done|]. exists (withLine e1 i). split; [done|]. left.
    pose proof (checkRange_error_shape _ _ _ Hrow) as He.
    unfold lineErrors.
    repeat (apply elem_of_cons in He as [-> | He]; [set_solver|]).
    by apply elem_of_nil in He. }
  destruct (fl && seen (lineVals st) (computeVal (rowM m i))).
  { intros [= <- <-]. split; [done|]. exists (duplicateLine i). split; [done|]. left.
    unfold lineErrors. set_solver. }
  destruct (checkRange (colM m i)) as [[fl' [e2|]]|] eqn:Hcol; simpl; [| |done].
  { intros [= <- <-]. split; [done|]. exists (withColumn e2 i). split; [done|]. right.
    pose proof (checkRange_error_shape _ _ _ Hcol) as He.
    unfold columnErrors.
    repeat (apply elem_of_cons in He as [-> | He]; [set_solver|]).
    by apply elem_of_nil in He. }
  match goal with |- context [fl' && ?x] => destruct (fl' && x) end.
  { intros [= <- <-]. split; [done|]. exists (duplicateColumn i). split; [done|]. right.
    unfold columnErrors. set_solver. }
  by destruct fl'.
Qed.

Lemma loopO_error_at {A B R} (f : A → B → option (B + R)) (xs : list A) : ∀ acc r,
  loopO f xs acc = Some (inr r) → ∃ x acc', x ∈ xs ∧ f x acc' = Some (inr r).
Proof.
  induction xs as [|x xs IH]; intros acc r; simpl; [done|].
  destruct (f x acc) as [[acc1|r1]|] eqn:Hf; simpl; [| |done].
  - intros (y & acc' & Hy & Hfy)%IH. exists y, acc'. split; [by right | done].
  - intros [= <-]. exists x, acc. split; [by left | done].
Qed.

Lemma lineErrors_texts i :
  validationError_Error <$> lineErrors i = validateTexts "line" i.
Proof. reflexivity. Qed.

Lemma columnErrors_texts i :
  validationError_Error <$> columnErrors i = validateTexts "column" i.
Proof. reflexivity. Qed.

Lemma validateTexts_not_internal axis i t :
  axis = "line"%string ∨ axis = "column"%string → t ∈ validateTexts axis i →
  t ≠ "internal validation error"%string.
Proof.
  unfold validateTexts. intros [-> | ->] Ht;
    repeat (apply elem_of_cons in Ht as [-> | Ht]; [discriminate|]);
    by apply elem_of_nil in Ht.
Qed.

(** An error returned by [Validate] names a line or a column of the board,
    and its text is one of: "<axis> <i>: 3+ same values <v>", "<axis> <i>:
    too many zeroes", "<axis> <i>: too many ones", "duplicate <axis>s (<i>)";
    it is never "internal validation error".  The boolean returned with an
    error is [false]. *)
Theorem Validate_error_text (h h' : heap) (b : Takuzu) (m : matrix)
    (fl : bool) (e : validationError) :
  wfBoard h b m → Validate b h = Done ((fl, Some e), h') →
  fl = false
  ∧ (∃ i axis, (i < Size b)%nat ∧ (axis = "line"%string ∨ axis = "column"%string)
       ∧ validationError_Error e ∈ validateTexts axis i)
  ∧ validationError_Error e ≠ "internal validation error"%string.
Proof.
  intros Hwf Hrun. rewrite (Validate_run _ _ _ Hwf) in Hrun.
  destruct (validateM m) as [[fl' oe]|] eqn:Hval; [|done]. injection Hrun as -> -> <-.
  unfold validateM in Hval.
  destruct (loopO _ _ _) as [[st|[b' oe']]|] eqn:Hloop; simpl in Hval; [done| |done].
  injection Hval as -> ->.
  apply loopO_error_at in Hloop as (i & st & Hi & Hstep).
  apply list_elem_of_lookup in Hi as [k [-> Hi]%upto_lookup_inv].
  destruct Hwf as [_ [Hlen _]]. rewrite Hlen in Hi.
  apply validateStepM_error_shape in Hstep as (-> & e' & [= <-] & He).
  assert (Htext : ∃ axis, (axis = "line"%string ∨ axis = "column"%string)
                    ∧ validationError_Error e ∈ validateTexts axis k).
  { destruct He as [He|He].
    - exists "line"%string. split; [by left|]. rewrite <- lineErrors_texts.
      by apply list_elem_of_fmap_2.
    - exists "column"%string. split; [by right|]. rewrite <- columnErrors_texts.
      by apply list_elem_of_fmap_2. }
  destruct Htext as (axis & Hax & Ht). split_and!; [done | by exists k, axis |].
  by apply (validateTexts_not_internal axis k).
Qed.

Lemma Validate_error_text_witness :
  let b := mkTakuzu 4 0 in
  let e := withLine (adjacentError 0) 0 in
  (wfBoard [sampleBad] b sampleBad
   ∧ Validate b [sampleBad] = Done ((false, Some e), [sampleBad]))
  ∧ false = false
  ∧ (∃ i axis, (i < Size b)%nat ∧ (axis = "line"%string ∨ axis = "column"%string)
       ∧ validationError_Error e ∈ validateTexts axis i)
  ∧ validationError_Error e ≠ "internal validation error"%string.
Proof.
  intros b e.
  assert (H1 : wfBoard [sampleBad] b sampleBad) by (by apply wfBoard_check).
  assert (H2 : Validate b [sampleBad] = Done ((false, Some e), [sampleBad])).
  { vm_compute. reflexivity. }
  split; [exact (conj H1 H2)|].
  exact (Validate_error_text [sampleBad] [sampleBad] b sampleBad false e H1 H2).
Defined.

Example Validate_error_text_ex :
  validationError_Error (withLine (adjacentError 0) 0) = "line 0: 3+ same values 0"%string.
Proof. reflexivity. Qed.

(** ** Deductions are forced *)

Lemma extendsCells_length cells S : extendsCells cells S → length cells = length S.
Proof. apply Forall2_length. Qed.

Lemma extendsCells_lookup cells S k x :
  extendsCells cells S → cells !! k = Some x → Defined x = true → S !! k = Some x.
Proof.
  intros Hext Hx Hd. destruct (Forall2_lookup_l _ _ _ _ _ Hext Hx) as (y & Hy & Hxy).
  by rewrite Hy, (Hxy Hd).
Qed.

Lemma extendsCells_intro cells S :
  length cells = length S →
  (∀ k x, cells !! k = Some x → Defined x = true → S !! k = Some x) →
  extendsCells cells S.
Proof.
  intros Hlen H. apply Forall2_same_length_lookup_2; [done|].
  intros k x y Hx Hy Hd. specialize (H k x Hx Hd). congruence.
Qed.

Lemma countValue_extends v cells S :
  extendsCells cells S → countValue v cells ≤ countValue v S.
Proof.
  induction 1 as [|x y cells S Hxy _ IH]; [done|].
  rewrite !countValue_cons. destruct (decide (Defined x = true ∧ Value x = v)) as [[Hd Hv]|Hn].
  - rewrite (Hxy Hd). rewrite decide_True by done. lia.
  - case_decide; lia.
Qed.

(** A cell that [S] defines with [v] where [cells] has none counts on top
    of the cells of [cells]. *)
Lemma countValue_extends_strict v cells S k x y :
  extendsCells cells S → cells !! k = Some x → Defined x = false →
  S !! k = Some y → Defined y = true → Value y = v →
  countValue v cells + 1 ≤ countValue v S.
Proof.
  intros Hext. revert k. induction Hext as [|x' y' cells S Hxy Hext IH]; intros k Hx Hd Hy Hdy Hv.
  - done.
  - rewrite !countValue_cons. destruct k as [|k]; simpl in *.
    + injection Hx as ->. injection Hy as ->.
      rewrite decide_False by (intros [? _]; congruence).
      rewrite decide_True by done. pose proof (countValue_extends v _ _ Hext). lia.
    + specialize (IH k Hx Hd Hy Hdy Hv).
      destruct (decide (Defined x' = true ∧ Value x' = v)) as [[Hd' Hv']|Hn].
      * rewrite (Hxy Hd'). rewrite decide_True by done. lia.
      * case_decide; lia.
Qed.

Lemma hasRun3_extends cells S : extendsCells cells S → hasRun3 cells → hasRun3 S.
Proof.
  intros Hext (i & v & H1 & H2 & H3). exists i, v.
  split_and!; by apply (extendsCells_lookup cells).
Qed.

Lemma rangeFails_extends cells S :
  cellsOk cells → cellsOk S → extendsCells cells S →
  rangeFails cells = true → rangeFails S = true.
Proof.
  intros Hok HokS Hext. rewrite !rangeFails_iff by done.
  rewrite <- (extendsCells_length _ _ Hext).
  pose proof (countValue_extends 0 _ _ Hext) as Hle0.
  pose proof (countValue_extends 1 _ _ Hext) as Hle1.
  intros [Hr|[Hc0|Hc1]]; [left; by eapply hasRun3_extends | right; left; lia | right; right; lia].
Qed.

Lemma extendsCells_refl cells : extendsCells cells cells.
Proof. apply Forall2_same_length_lookup_2; [done|]. intros; congruence. Qed.

Lemma extendsCells_fill v cells S :
  extendsCells cells S →
  (∀ k x y, cells !! k = Some x → Defined x = false → S !! k = Some y → y = cellOf v) →
  extendsCells (fillCell v <$> cells) S.
Proof.
  intros Hext Hv. apply extendsCells_intro.
  - rewrite length_fmap. by apply extendsCells_length.
  - intros k x Hx Hd. rewrite list_lookup_fmap in Hx.
    destruct (cells !! k) as [x0|] eqn:Hx0; [|done]. injection Hx as <-.
    unfold fillCell in *. destruct (Defined x0) eqn:Hd0.
    + by apply (extendsCells_lookup cells).
    + destruct (Forall2_lookup_l _ _ _ _ _ Hext Hx0) as (y & Hy & _).
      rewrite Hy. f_equal. by eapply Hv.
Qed.

(** What [fillRange] writes is forced: a fully defined range that keeps the
    defined cells and follows the range rules also keeps the cells filled
    in. *)
Lemma fillCells_forced cells S :
  extendsCells cells S → allDefined S → cellsOk S → rangeRules S →
  extendsCells (fillCells cells) S.
Proof.
  intros Hext Hall Hok (_ & H0 & H1). unfold fillCells.
  pose proof (extendsCells_length _ _ Hext) as Hlen.
  case_bool_decide; [done|].
  assert (Hcell : ∀ k x y, cells !! k = Some x → Defined x = false → S !! k = Some y →
    (Value y = 0 ∧ countValue 0 cells + 1 ≤ countValue 0 S ∧ y = cellOf 0)
    ∨ (Value y = 1 ∧ countValue 1 cells + 1 ≤ countValue 1 S ∧ y = cellOf 1)).
  { intros k x y Hx Hd Hy.
    assert (Hdy : Defined y = true) by (by apply (proj1 (Forall_lookup _ _) Hall k y)).
    assert (Hoky : cellOk y) by (by apply (proj1 (Forall_lookup _ _) Hok k y)).
    destruct (Hoky Hdy) as [Hv|Hv]; [left | right];
      (split_and!; [done | by eapply countValue_extends_strict | by apply cellOf_iff]). }
  rewrite Hlen.
  destruct (Z.eqb_spec (countValue 0 cells) (half (length S))) as [Hc0|Hc0].
  - apply extendsCells_fill; [done|]. intros k x y Hx Hd Hy.
    destruct (Hcell k x y Hx Hd Hy) as [(_ & Hcnt & _)|(_ & _ & ->)]; [|done]. lia.
  - destruct (Z.eqb_spec (countValue 1 cells) (half (length S))) as [Hc1|Hc1]; [|done].
    apply extendsCells_fill; [done|]. intros k x y Hx Hd Hy.
    destruct (Hcell k x y Hx Hd Hy) as [(_ & _ & ->)|(_ & Hcnt & _)]; [done|]. lia.
Qed.

Lemma rowM_lookup_cell m l k : rowM m l !! k = cellAt m l k.
Proof. unfold rowM, cellAt. by destruct (m !! l). Qed.

Lemma colM_lookup_cell n m c l :
  squareM n m → (c < n)%nat → colM m c !! l = cellAt m l c.
Proof.
  intros Hsq Hc. unfold colM, cellAt. rewrite list_lookup_fmap.
  destruct (m !! l) as [row|] eqn:Hrow; simpl; [|done].
  pose proof (squareM_row _ _ _ _ Hsq Hrow) as Hlen.
  destruct (lookup_lt_is_Some_2 row c) as [x Hx]; [lia|]. by rewrite Hx.
Qed.

Lemma extendsM_rowM n m S l :
  squareM n m → squareM n S → extendsM m S → (l < n)%nat →
  extendsCells (rowM m l) (rowM S l).
Proof.
  intros Hm HS Hext Hl. apply extendsCells_intro.
  - by rewrite !(rowM_length n).
  - intros k x. rewrite !rowM_lookup_cell. apply Hext.
Qed.

Lemma extendsM_colM n m S c :
  squareM n m → squareM n S → extendsM m S → (c < n)%nat →
  extendsCells (colM m c) (colM S c).
Proof.
  intros Hm HS Hext Hc. apply extendsCells_intro.
  - rewrite !colM_length. destruct Hm, HS. congruence.
  - intros k x. rewrite !(colM_lookup_cell n) by done. apply Hext.
Qed.

Lemma fillCells_map cells :
  ∃ f : Cell → Cell, fillCells cells = f <$> cells.
Proof.
  destruct (fillCells_shape cells) as [H|[H|H]]; rewrite H.
  - exists id. by rewrite list_fmap_id.
  - by exists (fillCell 1).
  - by exists (fillCell 0).
Qed.

Lemma extendsM_setRow_fill n m S l :
  squareM n m → squareM n S → (l < n)%nat → extendsM m S →
  extendsCells (fillCells (rowM m l)) (rowM S l) →
  extendsM (setRowM m l (fillCells (rowM m l))) S.
Proof.
  intros Hm HS Hl Hext Hrow. destruct (fillCells_map (rowM m l)) as [f Hf].
  rewrite Hf in *. destruct (setRowM_map_spec n m l f Hm Hl) as [_ Hcells].
  intros l' c' x Hx Hd. rewrite Hcells in Hx. case_decide as Hl'; [|by apply Hext].
  subst l'. rewrite <- rowM_lookup_cell, <- list_lookup_fmap in Hx.
  rewrite <- rowM_lookup_cell. by apply (extendsCells_lookup _ _ _ _ Hrow).
Qed.

Lemma extendsM_setCol_fill n m S c :
  squareM n m → squareM n S → (c < n)%nat → extendsM m S →
  extendsCells (fillCells (colM m c)) (colM S c) →
  extendsM (setColM m c (fillCells (colM m c))) S.
Proof.
  intros Hm HS Hc Hext Hcol. destruct (fillCells_map (colM m c)) as [f Hf].
  rewrite Hf in *. destruct (setColM_map_spec n m c f Hm Hc) as [_ Hcells].
  intros l' c' x Hx Hd. rewrite Hcells in Hx. case_decide as Hc'; [|by apply Hext].
  subst c'. rewrite <- (colM_lookup_cell n), <- list_lookup_fmap in Hx by done.
  rewrite <- (colM_lookup_cell n) by done. by apply (extendsCells_lookup _ _ _ _ Hcol).
Qed.

Lemma fullM_allDefined_rowM n m l : squareM n m → fullM m → (l < n)%nat → allDefined (rowM m l).
Proof. intros [Hlen _] Hfull Hl. apply fullM_rows; [done | lia]. Qed.

(** What being accepted by [Validate] as fully defined gives. *)
Lemma solution_facts n m S :
  squareM n m → solutionOf m S →
  squareM n S ∧ matrixOk S ∧ fullM S ∧ fingerprintRules S ∧ extendsM m S.
Proof.
  intros [Hlen _] (HS & Hval & Hext). rewrite Hlen in HS.
  pose proof (validateM_rules _ _ Hval) as Hrules.
  split_and!; try done.
  - apply Forall_lookup_2. intros i row Hrow.
    destruct Hrules as (Hgood & _). destruct (Hgood i) as [[fl Hr] _]; [by eapply lookup_lt_Some|].
    rewrite (rowM_lookup _ _ _ Hrow) in Hr. by apply (checkRange_no_error _ fl).
  - by apply (validateM_finished n S true).
Qed.

Lemma solution_rangeRules n S i :
  squareM n S → fingerprintRules S → (i < n)%nat →
  rangeRules (rowM S i) ∧ rangeRules (colM S i).
Proof.
  intros [Hlen _] (Hgood & _) Hi. destruct (Hgood i) as [H1 H2]; [lia|].
  apply rangeGood_rules in H1 as [_ H1]. apply rangeGood_rules in H2 as [_ H2]. done.
Qed.

(** [FillLineColumn] only writes what every solution holds. *)
Lemma fillLineColumnM_forced n m S l c :
  squareM n m → matrixOk m → (l < n)%nat → (c < n)%nat →
  squareM n S → matrixOk S → fullM S → fingerprintRules S → extendsM m S →
  extendsM (fillLineColumnM m l c) S.
Proof.
  intros Hm Hok Hl Hc HS HokS Hfull Hrules Hext. unfold fillLineColumnM.
  destruct (solution_rangeRules n S l HS Hrules Hl) as [Hrl _].
  destruct (solution_rangeRules n S c HS Hrules Hc) as [_ Hrc].
  destruct (squareM_setRow_fill n m l Hm Hok Hl) as [Hm1 Hok1].
  set (m1 := setRowM m l (fillCells (rowM m l))) in *.
  assert (Hext1 : extendsM m1 S).
  { apply (extendsM_setRow_fill n); try done.
    apply fillCells_forced; [by apply (extendsM_rowM n) | by apply (fullM_allDefined_rowM n)
      | by apply (matrixOk_rowM n) | done]. }
  apply (extendsM_setCol_fill n); try done.
  apply fillCells_forced; [by apply (extendsM_colM n) | by apply (allDefined_colM n)
    | by apply (matrixOk_colM n) | done].
Qed.

Lemma extendsM_setM_solution m S l c x v :
  extendsM m S → cellAt m l c = Some x → Defined x = false →
  cellAt S l c = Some (cellOf v) → v = 0 ∨ v = 1 → extendsM (setM m l c v) S.
Proof.
  intros Hext Hx Hd HS Hv l' c' y Hy Hdy.
  destruct (decide ((l, c) = (l', c'))) as [[= <- <-]|Hne].
  - rewrite (cellAt_setM_eq _ _ _ _ _ Hx) in Hy. rewrite decide_True in Hy by done.
    by injection Hy as <-.
  - rewrite cellAt_setM_ne in Hy by done. by apply Hext.
Qed.

(** A value that [guessPos] refutes is held by no solution. *)
Lemma refuted_excludes n m S l c x v :
  squareM n m → matrixOk m → (l < n)%nat → (c < n)%nat →
  squareM n S → matrixOk S → fullM S → fingerprintRules S → extendsM m S →
  cellAt m l c = Some x → Defined x = false → v = 0 ∨ v = 1 →
  refuted m l c v = true → cellAt S l c ≠ Some (cellOf v).
Proof.
  intros Hm Hok Hl Hc HS HokS Hfull Hrules Hext Hx Hd Hv Href HSv.
  destruct (setM_wf n m l c v Hm Hok) as [Hm1 Hok1].
  destruct (fillLineColumnM_wf n _ l c Hm1 Hok1 Hl Hc) as [Hm2 Hok2].
  assert (Hext2 : extendsM (fillLineColumnM (setM m l c v) l c) S).
  { apply (fillLineColumnM_forced n); try done. by apply (extendsM_setM_solution _ _ _ _ x). }
  destruct Hrules as (Hgood & _). pose proof HS as [HlenS _].
  destruct (Hgood l) as [[_ Hrl]%rangeGood_iff _]; [lia|].
  destruct (Hgood c) as [_ [_ Hrc]%rangeGood_iff]; [lia|].
  unfold refuted in Href. apply orb_true_iff in Href as [Hf|Hf].
  - rewrite (rangeFails_extends (rowM (fillLineColumnM (setM m l c v) l c) l) (rowM S l))
      in Hrl; [done | | | | done].
    + by apply (matrixOk_rowM n).
    + by apply (matrixOk_rowM n).
    + by apply (extendsM_rowM n).
  - rewrite (rangeFails_extends (colM (fillLineColumnM (setM m l c v) l c) c) (colM S c))
      in Hrc; [done | | | | done].
    + by apply (matrixOk_colM n).
    + by apply (matrixOk_colM n).
    + by apply (extendsM_colM n).
Qed.

Lemma solution_cell n S l c :
  squareM n S → matrixOk S → fullM S → (l < n)%nat → (c < n)%nat →
  cellAt S l c = Some (cellOf 0) ∨ cellAt S l c = Some (cellOf 1).
Proof.
  intros HS Hok Hfull Hl Hc. destruct (squareM_cellAt _ _ _ _ HS Hl Hc) as [y Hy].
  rewrite Hy. pose proof (matrixOk_cellAt _ _ _ _ Hok Hy) as Hoky.
  assert (Hd : Defined y = true).
  { apply cellAt_Some in Hy as (row & Hrow & Hy).
    pose proof (proj1 (Forall_lookup _ _) Hfull l row Hrow) as Hr.
    by apply (proj1 (Forall_lookup _ _) Hr c y). }
  destruct (Hoky Hd) as [Hv|Hv]; [left | right]; f_equal; by apply cellOf_iff.
Qed.

(** What [guessPos] deduces for an undefined cell is what every solution
    holds there. *)
Lemma guessSpec_sound n m S l c x :
  squareM n m → matrixOk m → (l < n)%nat → (c < n)%nat →
  squareM n S → matrixOk S → fullM S → fingerprintRules S → extendsM m S →
  cellAt m l c = Some x → Defined x = false → guessSpec m l c ≠ -1 →
  cellAt S l c = Some (cellOf (guessSpec m l c)).
Proof.
  intros Hm Hok Hl Hc HS HokS Hfull Hrules Hext Hx Hd.
  unfold guessSpec. rewrite Hx, Hd.
  destruct (solution_cell n S l c HS HokS Hfull Hl Hc) as [Hy|Hy].
  - destruct (refuted m l c 0) eqn:H0.
    + exfalso. by eapply (refuted_excludes n m S l c x 0); try done; left.
    + destruct (refuted m l c 1) eqn:H1; done.
  - destruct (refuted m l c 0) eqn:H0; [done|].
    destruct (refuted m l c 1) eqn:H1; [|done].
    exfalso. by eapply (refuted_excludes n m S l c x 1); try done; right.
Qed.

Section KeepsSolutions.
Variable n : nat.
Variable S : matrix.
Hypothesis HS : squareM n S.
Hypothesis HokS : matrixOk S.
Hypothesis Hfull : fullM S.
Hypothesis Hrules : fingerprintRules S.

Lemma passCellM_keeps l c st :
  (l < n)%nat → (c < n)%nat →
  squareM n st.2 → matrixOk st.2 → extendsM st.2 S →
  extendsM (passCellM l c st).2 S.
Proof.
  destruct st as [ch m]. simpl. intros Hl Hc Hm Hok Hext.
  destruct (cellAt m l c) as [x|] eqn:Hx; [|done].
  destruct (Defined x) eqn:Hd; [done|]. case_decide as Hg; [|done]. simpl.
  pose proof (guessSpec_sound n m S l c x Hm Hok Hl Hc HS HokS Hfull Hrules Hext Hx Hd Hg) as Hy.
  apply (extendsM_setM_solution _ _ _ _ x); try done.
  destruct (guessSpec_undefined m l c x Hx Hd) as [->|[->|Hm1]]; [by right | by left | done].
Qed.

Lemma passLineM_keeps l st :
  (l < n)%nat → squareM n st.2 → matrixOk st.2 → extendsM st.2 S →
  extendsM (passLineM n st l).2 S.
Proof.
  intros Hl. unfold passLineM, upto.
  assert (Hgen : ∀ len start st, (start + len ≤ n)%nat →
    squareM n st.2 → matrixOk st.2 → extendsM st.2 S →
    extendsM (foldl (λ st c, passCellM l c st) st (seq start len)).2 S).
  { induction len as [|len IH]; intros start st' Hle Hm Hok Hext; [done|]. simpl.
    destruct (passCellM_rel n l start st' Hm Hok) as (Hm' & Hok' & _).
    apply IH; [lia | done | done |]. apply passCellM_keeps; try done. lia. }
  apply Hgen. simpl. lia.
Qed.

Lemma passM_keeps m :
  squareM n m → matrixOk m → extendsM m S → extendsM (passM m).2 S.
Proof.
  intros Hm Hok Hext. unfold passM, upto. pose proof Hm as [Hlen _]. rewrite Hlen.
  assert (Hgen : ∀ len start st, (start + len ≤ n)%nat →
    squareM n st.2 → matrixOk st.2 → extendsM st.2 S →
    extendsM (foldl (passLineM n) st (seq start len)).2 S).
  { induction len as [|len IH]; intros start st' Hle Hm' Hok' Hext'; [done|]. simpl.
    destruct (passLineM_rel n st' start Hm' Hok') as (Hm2 & Hok2 & _).
    apply IH; [lia | done | done |]. apply passLineM_keeps; try done. lia. }
  apply (Hgen n 0%nat (false, m)); simpl; [lia | done..].
Qed.

Lemma trivialM_keeps fuel : ∀ m m',
  squareM n m → matrixOk m → extendsM m S → trivialM fuel m = Some m' → extendsM m' S.
Proof.
  induction fuel as [|fuel IH]; intros m m' Hm Hok Hext; simpl; [done|].
  pose proof (passM_keeps m Hm Hok Hext) as Hext'.
  destruct (passM_rel n m Hm Hok) as (Hm' & Hok' & _).
  destruct (passM m) as [ch m1]. simpl in *. destruct ch.
  - by apply IH.
  - by intros [= <-].
Qed.

End KeepsSolutions.

(** *** [FillLineColumn] *)

Lemma fillCells_keeps cells :
  ∃ f : Cell → Cell, fillCells cells = f <$> cells ∧ ∀ x, Defined x = true → f x = x.
Proof.
  destruct (fillCells_shape cells) as [H|[H|H]]; rewrite H.
  - exists id. by rewrite list_fmap_id.
  - exists (fillCell 1). split; [done|]. intros x Hd. unfold fillCell. by rewrite Hd.
  - exists (fillCell 0). split; [done|]. intros x Hd. unfold fillCell. by rewrite Hd.
Qed.

Lemma fillCells_full cells :
  countValue 0 cells = half (length cells) ∨ countValue 1 cells = half (length cells) →
  allDefined (fillCells cells).
Proof.
  intros Hcnt. unfold fillCells. case_bool_decide as Hall; [done|].
  assert (Hfill : ∀ v, allDefined (fillCell v <$> cells)).
  { intros v. apply Forall_fmap, Forall_forall. intros x _. simpl. unfold fillCell.
    by destruct (Defined x) eqn:Hd. }
  destruct (Z.eqb_spec (countValue 0 cells) (half (length cells))); [apply Hfill|].
  destruct (Z.eqb_spec (countValue 1 cells) (half (length cells))); [apply Hfill|].
  lia.
Qed.

Lemma fillLineColumnM_cells n m l c :
  squareM n m → matrixOk m → (l < n)%nat → (c < n)%nat →
  extendsM m (fillLineColumnM m l c)
  ∧ (∀ l' c', l' ≠ l → c' ≠ c → cellAt (fillLineColumnM m l c) l' c' = cellAt m l' c')
  ∧ (countValue 0 (rowM m l) = half n ∨ countValue 1 (rowM m l) = half n →
       allDefined (rowM (fillLineColumnM m l c) l)).
Proof.
  intros Hm Hok Hl Hc. unfold fillLineColumnM.
  destruct (squareM_setRow_fill n m l Hm Hok Hl) as [Hm1 Hok1].
  destruct (fillCells_keeps (rowM m l)) as (f & Hf & Hfd).
  destruct (setRowM_map_spec n m l f Hm Hl) as [_ Hcells1]. rewrite <- Hf in Hcells1.
  set (m1 := setRowM m l (fillCells (rowM m l))) in *.
  destruct (fillCells_keeps (colM m1 c)) as (g & Hg & Hgd).
  destruct (setColM_map_spec n m1 c g Hm1 Hc) as [Hm2 Hcells2]. rewrite <- Hg in Hcells2, Hm2.
  assert (Hext1 : extendsM m m1).
  { intros l' c' x Hx Hd. rewrite Hcells1. case_decide; [|done]. rewrite Hx. simpl.
    by rewrite Hfd. }
  assert (Hext2 : extendsM m1 (setColM m1 c (fillCells (colM m1 c)))).
  { intros l' c' x Hx Hd. rewrite Hcells2. case_decide; [|done]. rewrite Hx. simpl.
    by rewrite Hgd. }
  split_and!.
  - by eapply extendsM_trans.
  - intros l' c' Hl' Hc'. rewrite Hcells2, decide_False by done.
    by rewrite Hcells1, decide_False by done.
  - intros Hcnt. rewrite <- (rowM_length n m l) in Hcnt by done.
    pose proof (fillCells_full _ Hcnt) as Hall.
    assert (Hrow1 : rowM m1 l = fillCells (rowM m l)).
    { unfold m1, setRowM, rowM. rewrite list_lookup_insert_eq; [done|]. destruct Hm. lia. }
    rewrite <- Hrow1 in Hall.
    pose proof (extendsM_rowM n _ _ l Hm1 Hm2 Hext2 Hl) as Hext.
    apply Forall_lookup_2. intros k y Hy.
    destruct (Forall2_lookup_r _ _ _ _ _ Hext Hy) as (x & Hx & Hxy).
    pose proof (proj1 (Forall_lookup _ _) Hall k x Hx) as Hd. simpl in Hd.
    by rewrite (Hxy Hd).
Qed.

(** [FillLineColumn(l, c)] on a stored board: it returns; it changes no
    defined cell, no cell outside line [l] and column [c], and no other
    object; a line [l] that held [Size/2] zeros or [Size/2] ones is fully
    defined afterwards; and every cell it defines holds the value that all
    solutions of the board hold there. *)
Theorem FillLineColumn_spec (h : heap) (b : Takuzu) (m : matrix) (l c : nat) :
  wfBoard h b m → matrixOk m → (l < Size b)%nat → (c < Size b)%nat →
  ∃ h' m', FillLineColumn b l c h = Done (tt, h')
    ∧ wfBoard h' b m' ∧ matrixOk m'
    ∧ extendsM m m'
    ∧ (∀ l' c', l' ≠ l → c' ≠ c → cellAt m' l' c' = cellAt m l' c')
    ∧ (∀ a, a ≠ Board b → h' !! a = h !! a)
    ∧ (countValue 0 (rowM m l) = half (Size b) ∨ countValue 1 (rowM m l) = half (Size b) →
         allDefined (rowM m' l))
    ∧ (∀ S, solutionOf m S → extendsM m' S).
Proof.
  intros Hwf Hok Hl Hc. pose proof Hwf as [Hm Hsq].
  destruct (fillLineColumnM_wf _ _ l c Hsq Hok Hl Hc) as [Hsq' Hok'].
  destruct (fillLineColumnM_cells _ _ l c Hsq Hok Hl Hc) as (Hext & Hout & Hfill).
  exists (<[Board b := fillLineColumnM m l c]> h), (fillLineColumnM m l c).
  split_and!; try done.
  - by apply FillLineColumn_run.
  - split; [by eapply heap_insert_lookup | done].
  - intros a Ha. by apply heap_insert_ne.
  - intros S Hsol.
    destruct (solution_facts _ _ _ Hsq Hsol) as (HS & HokS & Hfull & Hrules & HextS).
    by apply (fillLineColumnM_forced (Size b)).
Qed.

Lemma FillLineColumn_spec_witness :
  let b := mkTakuzu 4 0 in
  let h := [setM sampleBoard 0 2 1] in
  let m := setM sampleBoard 0 2 1 in
  (wfBoard h b m ∧ matrixOk m ∧ (0 < Size b)%nat ∧ (3 < Size b)%nat)
  ∧ ∃ h' m', FillLineColumn b 0 3 h = Done (tt, h')
      ∧ wfBoard h' b m' ∧ matrixOk m'
      ∧ extendsM m m'
      ∧ (∀ l' c', l' ≠ 0%nat → c' ≠ 3%nat → cellAt m' l' c' = cellAt m l' c')
      ∧ (∀ a, a ≠ Board b → h' !! a = h !! a)
      ∧ (countValue 0 (rowM m 0) = half (Size b) ∨ countValue 1 (rowM m 0) = half (Size b) →
           allDefined (rowM m' 0))
      ∧ (∀ S, solutionOf m S → extendsM m' S).
Proof.
  intros b h m.
  assert (H1 : wfBoard h b m) by (by apply wfBoard_check).
  assert (H2 : matrixOk m) by (by apply matrixOkb_sound).
  assert (H3 : (0 < Size b)%nat) by (simpl; lia).
  assert (H4 : (3 < Size b)%nat) by (simpl; lia).
  split; [exact (conj H1 (conj H2 (conj H3 H4)))|].
  exact (FillLineColumn_spec h b m 0 3 H1 H2 H3 H4).
Defined.

Example FillLineColumn_ex :
  (FillLineColumn (mkTakuzu 4 0) 0 3;; ToString (mkTakuzu 4 0)) [setM sampleBoard 0 2 1]
  = Done ("0011...0...1.1.0"%string,
          [[[cellOf 0; cellOf 0; cellOf 1; cellOf 1];
            [zeroCell; zeroCell; zeroCell; cellOf 0];
            [zeroCell; zeroCell; zeroCell; cellOf 1];
            [zeroCell; cellOf 1; zeroCell; cellOf 0]]]).
Proof. vm_compute. reflexivity. Qed.

(** *** [guessPos] and [TrivialHint] *)

(** [guessPos] answers -1, 0 or 1 on a stored board whose defined cells hold
    0 or 1, and an answer other than -1 is the value that every solution of
    the board holds at the position. *)
Theorem guessPos_forced (h h' : heap) (b : Takuzu) (m : matrix) (l c : nat) (g : Z) :
  wfBoard h b m → matrixOk m → (l < Size b)%nat → (c < Size b)%nat →
  guessPos b l c h = Done (g, h') →
  (g = -1 ∨ g = 0 ∨ g = 1)
  ∧ (g ≠ -1 → ∀ S, solutionOf m S → cellAt S l c = Some (cellOf g)).
Proof.
  intros Hwf Hok Hl Hc Hrun. pose proof Hwf as [Hm Hsq].
  destruct (guessPos_run _ _ _ l c Hwf Hok Hl Hc) as [junk Hg]. rewrite Hg in Hrun.
  injection Hrun as <- <-.
  destruct (squareM_cellAt _ _ l c Hsq Hl Hc) as [x Hx].
  destruct (Defined x) eqn:Hd.
  - assert (Hgv : guessSpec m l c = Value x) by (unfold guessSpec; by rewrite Hx, Hd).
    rewrite Hgv. split.
    + destruct (matrixOk_cellAt _ _ _ _ Hok Hx Hd) as [-> | ->]; auto.
    + intros _ S (_ & _ & Hext). rewrite (Hext _ _ _ Hx Hd). f_equal. by apply cellOf_iff.
  - split.
    + destruct (guessSpec_undefined m l c x Hx Hd) as [->|[->| ->]]; auto.
    + intros Hg1 S Hsol.
      destruct (solution_facts _ _ _ Hsq Hsol) as (HS & HokS & Hfull & Hrules & HextS).
      by apply (guessSpec_sound (Size b) m S l c x).
Qed.

Lemma guessPos_forced_witness :
  let b := mkTakuzu 4 0 in
  (wfBoard [sampleBoard] b sampleBoard ∧ matrixOk sampleBoard
   ∧ (0 < Size b)%nat ∧ (2 < Size b)%nat
   ∧ guessPos b 0 2 [sampleBoard]
     = Done (1, [sampleBoard; fillLineColumnM (setM sampleBoard 0 2 0) 0 2]))
  ∧ (1 = -1 ∨ 1 = 0 ∨ 1 = 1)
  ∧ (1 ≠ -1 → ∀ S, solutionOf sampleBoard S → cellAt S 0 2 = Some (cellOf 1)).
Proof.
  intros b.
  assert (H1 : wfBoard [sampleBoard] b sampleBoard) by (by apply wfBoard_check).
  assert (H2 : matrixOk sampleBoard) by (by apply matrixOkb_sound).
  assert (H3 : (0 < Size b)%nat) by (simpl; lia).
  assert (H4 : (2 < Size b)%nat) by (simpl; lia).
  assert (H5 : guessPos b 0 2 [sampleBoard]
               = Done (1, [sampleBoard; fillLineColumnM (setM sampleBoard 0 2 0) 0 2])).
  { vm_compute. reflexivity. }
  split; [exact (conj H1 (conj H2 (conj H3 (conj H4 H5))))|].
  exact (guessPos_forced _ _ b sampleBoard 0 2 1 H1 H2 H3 H4 H5).
Defined.

(** ** The trivial pass and its hint *)

Lemma passCellM_quiet m l c : quiet m l c → passCellM l c (false, m) = (false, m).
Proof.
  intros Hq. unfold passCellM. destruct (cellAt m l c) as [x|] eqn:Hx; [|done].
  destruct (Defined x) eqn:Hd; [done|]. rewrite (Hq x Hx Hd). case_decide; [congruence | done].
Qed.

Lemma passCellM_loud m l c x :
  cellAt m l c = Some x → Defined x = false → guessSpec m l c ≠ -1 →
  (passCellM l c (false, m)).1 = true.
Proof. intros Hx Hd Hg. unfold passCellM. rewrite Hx, Hd. by rewrite decide_True. Qed.

Lemma passCellM_flag l c m : (passCellM l c (true, m)).1 = true.
Proof.
  unfold passCellM. destruct (cellAt m l c) as [x|]; [|done].
  destruct (Defined x); [done|]. by case_decide.
Qed.

Lemma quiet_dec m l c : Decision (quiet m l c).
Proof.
  unfold quiet. destruct (cellAt m l c) as [x|]; [|left; done].
  destruct (Defined x) eqn:Hd; [left; intros ? [= <-]; congruence|].
  destruct (decide (guessSpec m l c = -1)) as [Hg|Hg].
  - left. by intros.
  - right. intros H. apply Hg. by apply (H x).
Qed.

Lemma passCells_flag l cs : ∀ st, st.1 = true →
  (foldl (λ st c, passCellM l c st) st cs).1 = true.
Proof.
  induction cs as [|c cs IH]; intros [ch m] Hflag; simpl in *; [done|].
  subst ch. apply IH, passCellM_flag.
Qed.

Lemma passLines_flag n ls : ∀ st, st.1 = true → (foldl (passLineM n) st ls).1 = true.
Proof.
  induction ls as [|l ls IH]; intros st Hflag; simpl; [done|].
  apply IH. by apply passCells_flag.
Qed.

(** The pass leaves the flag [changed] unset exactly when it finds nothing
    anywhere. *)
Lemma passLineM_quiet m l : ∀ len start,
  (∀ c, (c < start)%nat → quiet m l c) →
  (foldl (λ st c, passCellM l c st) (false, m) (seq start len) = (false, m)
   ∧ ∀ c, (c < start + len)%nat → quiet m l c)
  ∨ (foldl (λ st c, passCellM l c st) (false, m) (seq start len)).1 = true.
Proof.
  induction len as [|len IH]; intros start Hq; cbn [foldl seq].
  - left. by rewrite Nat.add_0_r.
  - replace (start + Datatypes.S len)%nat with (Datatypes.S start + len)%nat by lia.
    destruct (quiet_dec m l start) as [Hs|Hs].
    + rewrite passCellM_quiet by done. apply IH.
      intros c Hc. destruct (decide (c = start)) as [->|]; [done|]. apply Hq. lia.
    + right. apply passCells_flag. unfold quiet in Hs.
      destruct (cellAt m l start) as [x|] eqn:Hx; [|by destruct Hs].
      destruct (Defined x) eqn:Hd; [destruct Hs; intros ? [= <-]; congruence|].
      apply (passCellM_loud _ _ _ x); [done..|]. intros Hg. apply Hs. by intros.
Qed.

Lemma passM_quiet_gen n m : ∀ len start,
  (∀ l c, (l < start)%nat → (c < n)%nat → quiet m l c) →
  (foldl (passLineM n) (false, m) (seq start len) = (false, m)
   ∧ ∀ l c, (l < start + len)%nat → (c < n)%nat → quiet m l c)
  ∨ (foldl (passLineM n) (false, m) (seq start len)).1 = true.
Proof.
  induction len as [|len IH]; intros start Hq; cbn [foldl seq].
  - left. by rewrite Nat.add_0_r.
  - replace (start + Datatypes.S len)%nat with (Datatypes.S start + len)%nat by lia.
    destruct (passLineM_quiet m start n 0%nat) as [[Hst' Hq']|Hflag'].
    + intros c Hc. lia.
    + assert (Hline : passLineM n (false, m) start = (false, m)) by exact Hst'.
      rewrite Hline. apply IH. intros l c Hl Hc.
      destruct (decide (l = start)) as [->|]; [by apply Hq' | apply Hq; [lia | done]].
    + right. apply passLines_flag. exact Hflag'.
Qed.

Lemma passM_quiet n m :
  squareM n m →
  (passM m).1 = false ↔ ∀ l c, (l < n)%nat → (c < n)%nat → quiet m l c.
Proof.
  intros [Hlen _]. unfold passM, upto. rewrite Hlen.
  assert (Hgen : ∀ len start,
    (∀ l c, (l < n)%nat → (c < n)%nat → quiet m l c) →
    foldl (passLineM n) (false, m) (seq start len) = (false, m) ∨ (n < start + len)%nat).
  { intros len start Hq. revert start.
    induction len as [|len IH]; intros start; cbn [foldl seq]; [by left|].
    destruct (decide (start < n)%nat) as [Hs|Hs]; [|right; lia].
    assert (Hline : passLineM n (false, m) start = (false, m)).
    { unfold passLineM, upto.
      assert (Hc : ∀ len' start',
        (start' + len' ≤ n)%nat →
        foldl (λ st c, passCellM start c st) (false, m) (seq start' len') = (false, m)).
      { induction len' as [|len' IH']; intros start' Hle; cbn [foldl seq]; [done|].
        rewrite passCellM_quiet by (apply Hq; lia). apply IH'. lia. }
      apply Hc. simpl. lia. }
    rewrite Hline. destruct (IH (Datatypes.S start)); [by left | right; lia]. }
  destruct (passM_quiet_gen n m n 0%nat) as [[Heq Hq]|Hflag].
  { intros l c Hl. lia. }
  - rewrite Heq. simpl. split; [|done]. intros _ l c Hl Hc. by apply Hq.
  - rewrite Hflag. split; [done|]. intros Hq.
    destruct (Hgen n 0%nat Hq) as [Heq|Hlt]; [|simpl in Hlt; lia].
    rewrite Heq in Hflag. done.
Qed.

(** [TrivialHint] scans the board in row-major order and stops at the first
    undefined cell for which [guessPos] finds a value. *)
Lemma TrivialHint_scan h b m :
  wfBoard h b m → matrixOk m →
  ∃ r junk, TrivialHint b h = Done (r, h ++ junk)
    ∧ ((r = (-1, -1, -1) ∧ ∀ l c, (l < Size b)%nat → (c < Size b)%nat → quiet m l c)
       ∨ (∃ l c x, r = (Z.of_nat l, Z.of_nat c, guessSpec m l c)
            ∧ (l < Size b)%nat ∧ (c < Size b)%nat
            ∧ cellAt m l c = Some x ∧ Defined x = false ∧ guessSpec m l c ≠ -1
            ∧ ∀ l' c', before l' c' l c → (c' < Size b)%nat → quiet m l' c')).
Proof.
  intros Hwf Hok. unfold TrivialHint. set (n := Size b).
  pose (body := λ (line col : nat) (_ : unit),
    (x ← loadCell b line col;
     if Defined x then mret (inl tt)
     else
       value ← guessPos b line col;
       if decide (value ≠ -1)
       then mret (inr (Z.of_nat line, Z.of_nat col, value))
       else mret (inl tt)) : H (unit + Z * Z * Z)).
  pose (Q := λ (r : Z * Z * Z) (h' : heap),
    (∃ junk, h' = h ++ junk)
    ∧ ∃ l c x, r = (Z.of_nat l, Z.of_nat c, guessSpec m l c)
        ∧ (l < n)%nat ∧ (c < n)%nat
        ∧ cellAt m l c = Some x ∧ Defined x = false ∧ guessSpec m l c ≠ -1
        ∧ ∀ l' c', before l' c' l c → (c' < n)%nat → quiet m l' c').
  destruct (loopM_upto
    (λ line (_ : unit), loopM (body line) (upto n) tt) n
    (λ k _ h', (∃ junk, h' = h ++ junk)
               ∧ ∀ l c, (l < k)%nat → (c < n)%nat → quiet m l c) Q tt h)
    as (r & h' & Hrun & Hpost).
  - split; [exists []; by rewrite app_nil_r|]. intros l c Hl. lia.
  - intros line [] h1 Hline [[junk ->] Hprev].
    destruct (loopM_upto (body line) n
      (λ k _ h', (∃ junk, h' = h ++ junk) ∧ ∀ c, (c < k)%nat → quiet m line c) Q tt (h ++ junk))
      as (r & h' & Hrun & Hpost).
    + split; [by exists junk|]. intros c Hc. lia.
    + intros col [] h2 Hcol [[junk2 ->] Hprevc]. unfold body.
      pose proof (wfBoard_app _ _ _ junk2 Hwf) as Hwf2. pose proof Hwf2 as [Hm2 Hsq].
      destruct (squareM_cellAt _ _ line col Hsq Hline Hcol) as [x Hx].
      rewrite (run_bind _ _ _ _ _ (loadCell_run _ _ _ _ _ _ Hm2 Hx)).
      destruct (Defined x) eqn:Hd.
      { exists (inl tt), (h ++ junk2). split; [done|]. split; [by exists junk2|].
        intros c Hc. destruct (decide (c = col)) as [->|]; [|apply Hprevc; lia].
        intros x' Hx' Hd'. congruence. }
      destruct (guessPos_run _ _ _ line col Hwf2 Hok Hline Hcol) as [junk3 Hg].
      rewrite (run_bind _ _ _ _ _ Hg). rewrite <- app_assoc.
      case_decide as Hgv.
      * eexists (inr _), _. split; [reflexivity|]. split; [by eexists|].
        exists line, col, x. split_and!; try done.
        intros l' c' [Hl'|[-> Hc']] Hc'n; [by apply Hprev | by apply Hprevc].
      * eexists (inl tt), _. split; [reflexivity|]. split; [by eexists|].
        intros c Hc. destruct (decide (c = col)) as [->|]; [|apply Hprevc; lia].
        intros x' Hx' Hd'. destruct (decide (guessSpec m line col = -1)); [done|].
        by destruct Hgv.
    + exists r, h'. split; [done|]. destruct r as [[]|v]; [|done].
      destruct Hpost as [Hj Hall]. split; [done|].
      intros l c Hl Hc. destruct (decide (l = line)) as [->|]; [by apply Hall|].
      apply Hprev; [lia | done].
  - unfold body in Hrun. fold n. rewrite (run_bind _ _ _ _ _ Hrun).
    destruct r as [[]|res].
    + destruct Hpost as [[junk ->] Hall]. eexists _, junk. split; [reflexivity|]. by left.
    + destruct Hpost as [[junk ->] Hfound]. eexists _, junk. split; [reflexivity|]. by right.
Qed.

(** [TrivialHint] on a stored board whose defined cells hold 0 or 1: it
    returns and leaves the board as it is.  Either it answers (-1, -1, -1),
    and then a pass of [trySolveTrivialPass] changes nothing; or it answers
    the first undefined cell, in row-major order, for which [guessPos] finds
    a value, with that value, which is 0 or 1 and is held at that position
    by every solution of the board, and then a pass reports a change. *)
Theorem TrivialHint_spec (h : heap) (b : Takuzu) (m : matrix) :
  wfBoard h b m → matrixOk m →
  ∃ line col value h', TrivialHint b h = Done ((line, col, value), h')
    ∧ wfBoard h' b m
    ∧ (value = -1 →
         line = -1 ∧ col = -1 ∧ ∃ h2, trySolveTrivialPass b h' = Done (false, h2))
    ∧ (value ≠ -1 →
         (∃ l c x, line = Z.of_nat l ∧ col = Z.of_nat c
            ∧ cellAt m l c = Some x ∧ Defined x = false
            ∧ (value = 0 ∨ value = 1)
            ∧ (∀ S, solutionOf m S → cellAt S l c = Some (cellOf value))
            ∧ ∀ l' c' g hg hg', before l' c' l c → (c' < Size b)%nat →
                guessPos b l' c' hg = Done (g, hg') → wfBoard hg b m →
                g = -1 ∨ ∃ x', cellAt m l' c' = Some x' ∧ Defined x' = true)
         ∧ ∃ h2, trySolveTrivialPass b h' = Done (true, h2)).
Proof.
  intros Hwf Hok. pose proof Hwf as [Hm Hsq].
  assert (Hlt : (Board b < length h)%nat) by (by eapply lookup_lt_Some).
  destruct (TrivialHint_scan h b m Hwf Hok) as (r & junk & Hrun & Hcases).
  destruct (trySolveTrivialPass_run h b m junk Hlt Hsq Hok) as [junk' Hpass].
  rewrite (boardHeap_same _ _ _ _ Hm) in Hpass.
  destruct Hcases as [[-> Hq]|(l & c & x & -> & Hl & Hc & Hx & Hd & Hg & Hbefore)].
  - exists (-1), (-1), (-1), (h ++ junk). split_and!; [done | by apply wfBoard_app | | done].
    intros _. split_and!; [done..|].
    rewrite (proj2 (passM_quiet _ _ Hsq) Hq) in Hpass. eauto.
  - exists (Z.of_nat l), (Z.of_nat c), (guessSpec m l c), (h ++ junk).
    split_and!; [done | by apply wfBoard_app | done |].
    intros _. split.
    + exists l, c, x. split_and!; try done.
      * destruct (guessSpec_undefined m l c x Hx Hd) as [->|[->|Hm1]]; auto. done.
      * intros S Hsol.
        destruct (solution_facts _ _ _ Hsq Hsol) as (HS & HokS & Hfull & Hrules & HextS).
        by apply (guessSpec_sound (Size b) m S l c x).
      * intros l' c' g hg hg' Hbef Hc' Hgrun Hwfg.
        assert (Hl' : (l' < Size b)%nat) by (unfold before in Hbef; lia).
        destruct (guessPos_run _ _ _ l' c' Hwfg Hok Hl' Hc') as [junkg Hg']. rewrite Hg' in Hgrun.
        injection Hgrun as <- <-.
        destruct (squareM_cellAt _ _ l' c' Hsq Hl' Hc') as [x' Hx'].
        destruct (Defined x') eqn:Hd'; [right; by exists x'|].
        left. by apply (Hbefore l' c' Hbef Hc' x').
    + destruct ((passM m).1) eqn:Hflag; [eauto|].
      exfalso. apply Hg. by apply (proj1 (passM_quiet _ _ Hsq) Hflag l c Hl Hc x).
Qed.

Lemma TrivialHint_spec_witness :
  let b := mkTakuzu 4 0 in
  (wfBoard [sampleBoard] b sampleBoard ∧ matrixOk sampleBoard)
  ∧ ∃ line col value h', TrivialHint b [sampleBoard] = Done ((line, col, value), h')
      ∧ wfBoard h' b sampleBoard
      ∧ (value = -1 →
           line = -1 ∧ col = -1 ∧ ∃ h2, trySolveTrivialPass b h' = Done (false, h2))
      ∧ (value ≠ -1 →
           (∃ l c x, line = Z.of_nat l ∧ col = Z.of_nat c
              ∧ cellAt sampleBoard l c = Some x ∧ Defined x = false
              ∧ (value = 0 ∨ value = 1)
              ∧ (∀ S, solutionOf sampleBoard S → cellAt S l c = Some (cellOf value))
              ∧ ∀ l' c' g hg hg', before l' c' l c → (c' < Size b)%nat →
                  guessPos b l' c' hg = Done (g, hg') → wfBoard hg b sampleBoard →
                  g = -1 ∨ ∃ x', cellAt sampleBoard l' c' = Some x' ∧ Defined x' = true)
           ∧ ∃ h2, trySolveTrivialPass b h' = Done (true, h2)).
Proof.
  intros b.
  assert (H1 : wfBoard [sampleBoard] b sampleBoard) by (by apply wfBoard_check).
  assert (H2 : matrixOk sampleBoard) by (by apply matrixOkb_sound).
  split; [exact (conj H1 H2)|].
  exact (TrivialHint_spec [sampleBoard] b sampleBoard H1 H2).
Defined.

Example TrivialHint_ex :
  match TrivialHint (mkTakuzu 4 0) [sampleBoard] with
  | Done (r, _) => Some r
  | _ => None
  end = Some (0, 2, 1).
Proof. vm_compute. reflexivity. Qed.

(** ** [TrySolveTrivial] loses no solution *)

Lemma extendsCells_full_eq cells S : extendsCells cells S → allDefined cells → cells = S.
Proof.
  intros Hext Hall. apply list_eq_same_length with (length cells).
  - symmetry. by apply extendsCells_length.
  - done.
  - intros k x y Hk Hx Hy.
    pose proof (proj1 (Forall_lookup _ _) Hall k x Hx) as Hd. simpl in Hd.
    pose proof (extendsCells_lookup _ _ _ _ Hext Hx Hd). congruence.
Qed.

(** A board that has a solution passes [Validate]. *)
Lemma solution_rules n m S :
  squareM n m → matrixOk m →
  squareM n S → matrixOk S → fingerprintRules S → extendsM m S →
  fingerprintRules m.
Proof.
  intros Hm Hok HS HokS (Hgood & Hdr & Hdc) Hext.
  pose proof Hm as [Hlen _]. pose proof HS as [HlenS _]. rewrite HlenS in *.
  unfold fingerprintRules. rewrite Hlen.
  assert (Hrow : ∀ i, (i < n)%nat → extendsCells (rowM m i) (rowM S i))
    by (intros; by apply (extendsM_rowM n)).
  assert (Hcol : ∀ i, (i < n)%nat → extendsCells (colM m i) (colM S i))
    by (intros; by apply (extendsM_colM n)).
  split_and!.
  - intros i Hi. destruct (Hgood i Hi) as [[_ H1]%rangeGood_iff [_ H2]%rangeGood_iff].
    split; apply rangeGood_iff.
    + split; [by apply (matrixOk_rowM n)|]. apply not_true_is_false. intros Hf.
      rewrite (rangeFails_extends (rowM m i) (rowM S i)) in H1;
        [done | by apply (matrixOk_rowM n) | by apply (matrixOk_rowM n) | by apply Hrow | done].
    + split; [by apply (matrixOk_colM n)|]. apply not_true_is_false. intros Hf.
      rewrite (rangeFails_extends (colM m i) (colM S i)) in H2;
        [done | by apply (matrixOk_colM n) | by apply (matrixOk_colM n) | by apply Hcol | done].
  - intros i j Hij Hj Hi' Hj'.
    pose proof (extendsCells_full_eq _ _ (Hrow i ltac:(lia)) Hi') as Hei.
    pose proof (extendsCells_full_eq _ _ (Hrow j Hj) Hj') as Hej.
    rewrite Hei, Hej. apply Hdr; [done | done | by rewrite <- Hei | by rewrite <- Hej].
  - intros i j Hij Hj Hi' Hj'.
    pose proof (extendsCells_full_eq _ _ (Hcol i ltac:(lia)) Hi') as Hei.
    pose proof (extendsCells_full_eq _ _ (Hcol j Hj) Hj') as Hej.
    rewrite Hei, Hej. apply Hdc; [done | done | by rewrite <- Hei | by rewrite <- Hej].
Qed.

Lemma extendsM_full_eq n m S : squareM n m → squareM n S → fullM m → extendsM m S → m = S.
Proof.
  intros Hm HS Hfull Hext. apply (matrix_ext n); [done..|]. intros l c Hl Hc.
  destruct (squareM_cellAt _ _ l c Hm Hl Hc) as [x Hx]. rewrite Hx. symmetry.
  apply Hext; [done|]. apply cellAt_Some in Hx as (row & Hrow & Hx).
  pose proof (proj1 (Forall_lookup _ _) Hfull l row Hrow) as Hr.
  by apply (proj1 (Forall_lookup _ _) Hr c x).
Qed.

(** What [TrySolveTrivial] leaves in the board, and what its result means. *)
Lemma TrySolveTrivial_result h b m fuel fl err h1 :
  wfBoard h b m → matrixOk m →
  TrySolveTrivial fuel b h = Done ((fl, err), h1) →
  ∃ m1 junk, h1 = boardHeap h b m1 junk
    ∧ squareM (Size b) m1 ∧ matrixOk m1 ∧ extendsM m m1
    ∧ passM m1 = (false, m1)
    ∧ trivialResult m1 = Some (fl, err)
    ∧ (∀ S, solutionOf m S → extendsM m1 S).
Proof.
  intros [Hm Hsq] Hok Hdone.
  assert (Hlt : (Board b < length h)%nat) by (by eapply lookup_lt_Some).
  pose proof (TrySolveTrivial_run h b m [] fuel Hlt Hsq Hok) as Hrun.
  rewrite <- (boardHeap_init _ _ _ Hm) in Hrun.
  destruct (trivialM fuel m) as [m1|] eqn:Htriv; [|congruence].
  destruct Hrun as (r' & junk & Hrun & Hres). rewrite Hrun in Hdone.
  injection Hdone as -> <-.
  destruct (trivialM_spec _ _ _ _ Hsq Hok Htriv) as (Hsq1 & Hok1 & Hext & _ & Hfix).
  exists m1, junk. split_and!; try done.
  intros S Hsol.
  destruct (solution_facts _ _ _ Hsq Hsol) as (HS & HokS & Hfull & Hrules & HextS).
  by apply (trivialM_keeps (Size b) S HS HokS Hfull Hrules fuel m m1).
Qed.

(** [TrySolveTrivial] on a stored board whose defined cells hold 0 or 1.
    When it returns, the board keeps its defined cells, and every solution of
    the board given is still a solution of the board left: only forced
    values are written.  If it reports an error, the board given has no
    solution.  If it reports no error, the boolean tells whether the board
    left is fully defined, and if so that board is the one and only
    solution. *)
Theorem TrySolveTrivial_keeps_solutions (h h1 : heap) (b : Takuzu) (m : matrix)
    (fuel : nat) (fl : bool) (err : option solveError) :
  wfBoard h b m → matrixOk m →
  TrySolveTrivial fuel b h = Done ((fl, err), h1) →
  ∃ m1, wfBoard h1 b m1 ∧ matrixOk m1 ∧ extendsM m m1
    ∧ (∀ S, solutionOf m S → extendsM m1 S)
    ∧ (err ≠ None → ∀ S, ¬ solutionOf m S)
    ∧ (err = None → (fl = true ↔ fullM m1))
    ∧ (err = None → fl = true → solutionOf m m1 ∧ ∀ S, solutionOf m S → S = m1).
Proof.
  intros Hwf Hok Hdone. pose proof Hwf as [Hm Hsq].
  assert (Hlt : (Board b < length h)%nat) by (by eapply lookup_lt_Some).
  destruct (TrySolveTrivial_result _ _ _ _ _ _ _ Hwf Hok Hdone)
    as (m1 & junk & -> & Hsq1 & Hok1 & Hext & Hfix & Hres & Hkeep).
  unfold trivialResult in Hres.
  destruct (validateM m1) as [[fl' e]|] eqn:Hval; [|done]. injection Hres as -> <-.
  exists m1. split_and!; try done.
  - by apply boardHeap_wf.
  - intros Herr S Hsol. destruct e as [e|]; [|done].
    destruct (solution_facts _ _ _ Hsq Hsol) as (HS & HokS & Hfull & Hrules & HextS).
    pose proof (solution_rules _ _ _ Hsq1 Hok1 HS HokS Hrules (Hkeep S Hsol)) as Hr1.
    rewrite (validateM_complete _ _ Hsq1 Hr1) in Hval. done.
  - intros He. destruct e; [done|]. by apply (validateM_finished (Size b)).
  - intros He ->. destruct e; [done|].
    assert (Hfull1 : fullM m1) by (by apply (validateM_finished (Size b) m1 true)).
    split.
    + split_and!; [|done..]. destruct Hsq as [-> _]. done.
    + intros S Hsol. destruct Hsol as (HS & HvalS & HextS).
      symmetry. apply (extendsM_full_eq (Size b)); try done.
      * destruct Hsq as [Hlen _]. by rewrite Hlen in HS.
      * apply Hkeep. done.
Qed.

Lemma TrySolveTrivial_keeps_solutions_witness :
  let b := mkTakuzu 4 0 in
  let r := TrySolveTrivial 20 b [sampleBoard] in
  let h1 := match r with Done (_, h1) => h1 | _ => [] end in
  (wfBoard [sampleBoard] b sampleBoard ∧ matrixOk sampleBoard
   ∧ TrySolveTrivial 20 b [sampleBoard] = Done ((false, None), h1))
  ∧ ∃ m1, wfBoard h1 b m1 ∧ matrixOk m1 ∧ extendsM sampleBoard m1
      ∧ (∀ S, solutionOf sampleBoard S → extendsM m1 S)
      ∧ ((None : option solveError) ≠ None → ∀ S, ¬ solutionOf sampleBoard S)
      ∧ ((None : option solveError) = None → (false = true ↔ fullM m1))
      ∧ ((None : option solveError) = None → false = true →
           solutionOf sampleBoard m1 ∧ ∀ S, solutionOf sampleBoard S → S = m1).
Proof.
  intros b r h1.
  assert (H1 : wfBoard [sampleBoard] b sampleBoard) by (by apply wfBoard_check).
  assert (H2 : matrixOk sampleBoard) by (by apply matrixOkb_sound).
  assert (H3 : TrySolveTrivial 20 b [sampleBoard] = Done ((false, None), h1)).
  { vm_compute. reflexivity. }
  split; [exact (conj H1 (conj H2 H3))|].
  exact (TrySolveTrivial_keeps_solutions [sampleBoard] h1 b sampleBoard 20 false None H1 H2 H3).
Defined.

(** ** The search finds every solution *)

(** *** A recorded key stays recorded *)

Lemma recorded_ext k w w' : solutionMap w' = solutionMap w → recorded k w → recorded k w'.
Proof. unfold recorded. by intros ->. Qed.

Lemma stable_liftH {A} k (m : H A) : hoare (recorded k) (liftH m) (λ _, recorded k).
Proof. intros w a w' Hk (h' & _ & ->)%liftH_Done. done. Qed.

Lemma stable_ask k f : hoare (recorded k) (ask f) (λ _, recorded k).
Proof. intros w a w' Hk [= _ <-]. done. Qed.

Lemma stable_ret {A} k (a : A) : hoare (recorded k) (mret a : W A) (λ _, recorded k).
Proof. apply (hoare_ret (λ _, recorded k)). Qed.

Lemma stable_recordSolution k gs t : hoare (recorded k) (recordSolution gs t) (λ _, recorded k).
Proof.
  unfold recordSolution. destruct gs.
  - eapply hoare_bind; [apply stable_liftH|]. intros key w [] w' Hk [= <-].
    unfold recorded in *. simpl. destruct (decide (key = k)) as [->|Hne].
    + by rewrite lookup_insert_eq.
    + by rewrite lookup_insert_ne.
  - intros w [] w' Hk [= <-]. done.
Qed.

Lemma stable_finishNode k gs t : hoare (recorded k) (finishNode gs t) (λ _, recorded k).
Proof.
  unfold finishNode. eapply hoare_bind; [apply stable_liftH|]. intros [fl [e|]].
  - apply stable_ret.
  - eapply hoare_bind with (Q := λ _, recorded k).
    + destruct fl; [apply stable_recordSolution | apply stable_ret].
    + intros []. apply stable_ret.
Qed.

Section Stable.
Variable globalSearch : bool.
Variable timeout : Z.
Variable expired zeroFirst : nat → bool.
Variable k : string.
Variable child : Takuzu → W (option solveError).
Hypothesis Hchild : ∀ tx, hoare (recorded k) (child tx) (λ _, recorded k).

Lemma stable_collectResult level t l c val err st :
  hoare (recorded k) (collectResult globalSearch timeout expired level t l c val err st)
    (λ _, recorded k).
Proof.
  unfold collectResult. destruct err as [e|].
  - eapply hoare_bind with (Q := λ _, recorded k).
    + destruct ((timeout >? 0) && (2 <? Z.of_nat level)); [apply stable_ask | apply stable_ret].
    + intros late.
      destruct ((late : bool) && negb (String.eqb (causeText e) "timeout")); [apply stable_ret|].
      destruct (String.eqb (causeText e) "timeout"); [apply stable_ret|].
      eapply hoare_bind; [apply stable_liftH|]. intros []. apply stable_ret.
  - destruct (negb globalSearch); apply stable_ret.
Qed.

Lemma stable_launch t l c v : hoare (recorded k) (launch child t l c v) (λ _, recorded k).
Proof.
  unfold launch. eapply hoare_bind; [apply stable_liftH|]. intros tx.
  eapply hoare_bind; [apply stable_liftH|]. intros [].
  eapply hoare_bind; [apply Hchild|]. intros err. apply stable_ret.
Qed.

Lemma stable_tryValue schrodinger level t l c testval st :
  hoare (recorded k)
    (tryValue globalSearch timeout expired zeroFirst child schrodinger level t l c testval st)
    (λ _, recorded k).
Proof.
  unfold tryValue. eapply hoare_bind; [apply stable_liftH|]. intros y.
  destruct (negb globalSearch && Defined y); [apply stable_ret|].
  eapply hoare_bind with (Q := λ _, recorded k).
  - destruct schrodinger.
    + eapply hoare_bind; [apply stable_launch|]. intros a0.
      eapply hoare_bind; [apply stable_launch|]. intros a1.
      eapply hoare_bind; [apply stable_ask|]. intros first. apply stable_ret.
    + eapply hoare_bind; [apply stable_launch|]. intros a. apply stable_ret.
  - intros answers. eapply hoare_bind with (Q := λ _, recorded k).
    + apply hoare_loopM. intros [val err] st'. apply stable_collectResult.
    + intros [st'|res]; [|apply stable_ret].
      destruct ((changed st' && negb globalSearch) || schrodinger); apply stable_ret.
Qed.

End Stable.

(** *** Every branch is explored *)

Lemma extendsM_guess m1 m S l c v :
  sameExcept m1 l c m → extendsM m1 S → is_Some (cellAt m l c) →
  cellAt S l c = Some (cellOf v) → v = 0 ∨ v = 1 → extendsM (setM m l c v) S.
Proof.
  intros Hsame Hext [x' Hx'] HS Hv l' c' y Hy Hdy.
  destruct (decide ((l, c) = (l', c'))) as [[= <- <-]|Hne].
  - rewrite (cellAt_setM_eq _ _ _ _ _ Hx') in Hy. rewrite decide_True in Hy by done.
    by injection Hy as <-.
  - rewrite cellAt_setM_ne in Hy by done. rewrite Hsame in Hy by (intros [= -> ->]; done).
    by apply Hext.
Qed.

Lemma collectResult_complete timeout expired level t l c val err st w r w' :
  collectResult true timeout expired level t l c val err st w = Done (r, w') →
  match r with inl _ => noTimeout err | inr res => ¬ noTimeout res end.
Proof.
  unfold collectResult. destruct err as [e|]; simpl.
  - intros (late & w1 & _ & Hrest)%bind_Done_inv.
    destruct (String.eqb_spec (causeText e) "timeout") as [Heq|Hne].
    + rewrite andb_false_r in Hrest. injection Hrest as <- <-.
      intros Hno. by apply (Hno e).
    + rewrite andb_true_r in Hrest. destruct late.
      * injection Hrest as <- <-. intros Hno. by apply (Hno ErrTimeout).
      * apply bind_Done_inv in Hrest as ([] & w2 & _ & [= <- <-]).
        intros e' [= <-]. done.
  - intros [= <- <-]. by intros e.
Qed.

Section Complete.
Variable schrodLvl : nat.
Variable timeout : Z.
Variable expired zeroFirst : nat → bool.
Variable m0 : matrix.
Variable n : nat.
Variable S : matrix.
Hypothesis HS : squareM n S.
Hypothesis HokS : matrixOk S.
Hypothesis HfullS : fullM S.
Hypothesis HrulesS : fingerprintRules S.

Lemma launch_complete child t w0 m1 l c x v w v' err w' :
  childSpec m0 child → completeFor m0 S child →
  extendsM m0 m1 → cellAt m1 l c = Some x → Defined x = false →
  (l < Size t)%nat → (c < Size t)%nat → Size t = n → extendsM m1 S → v = 0 ∨ v = 1 →
  guessMid m0 t w0 m1 l c w →
  launch child t l c v w = Done ((v', err), w') →
  v' = v ∧ (noTimeout err → known S l c v w').
Proof.
  intros Hchild Hcomp Hext1 Hx Hd Hl Hc Hn HextS Hv (m & Hmid & Hsame) Hrun.
  pose proof Hmid as (Hwf & Hok & Hext & Hfr & Hgood & Hun & Hnew).
  pose proof Hwf as [Hm Hsq].
  unfold launch in Hrun.
  apply bind_Done_inv in Hrun as (tx & w1 & Hclone & Hrun).
  apply liftH_Done in Hclone as (h1 & Hclone & ->).
  rewrite (Clone_run _ _ _ Hwf) in Hclone. injection Hclone as <- <-.
  apply bind_Done_inv in Hrun as ([] & w2 & Hset & Hrun).
  apply liftH_Done in Hset as (h2 & Hset & ->). simpl in Hset.
  set (tx := mkTakuzu (Size t) (length (wHeap w))) in *.
  rewrite (Takuzu_Set_run _ tx m) in Hset;
    [| apply heap_lookup_snoc | by apply (squareM_cellAt (Size t))].
  simpl in Hset. rewrite heap_insert_snoc in Hset. injection Hset as <-.
  apply bind_Done_inv in Hrun as (err' & w3 & Hchildrun & [= <- <- <-]).
  split; [done|]. intros Hno HSv.
  destruct (setM_wf (Size t) m l c v Hsq Hok) as [Hsq' Hok'].
  set (w2 := mkWorld (wHeap w ++ [setM m l c v]) (solutionMap w) (singleSolution w) (ticks w)) in *.
  assert (Hwfx : wfBoard (wHeap w2) tx (setM m l c v)) by (by apply wfBoard_snoc).
  assert (Hpre : solvePre m0 tx w2).
  { exists (setM m l c v). split_and!; simpl.
    - done.
    - done.
    - apply (extendsM_sameExcept m0 m1 l c x); [done..|]. by apply sameExcept_setM.
    - eapply (mapGood_frame _ _ _ _ (length (wHeap w))); [done | | apply frame_app].
      intros key s Hs. apply Hgood, goodSolution_lt in Hs. lia.
    - intros key s Hs. apply Hgood, goodSolution_lt in Hs. simpl. lia. }
  apply (Hcomp tx w2 err' w3 (setM m l c v) Hpre Hwfx); [by (simpl; rewrite Hn) | |done..].
  apply (extendsM_guess m1); try done. by apply (squareM_cellAt (Size t)).
Qed.

Lemma tryValue_complete child schrodinger level t w0 m1 l c x testval st w r w' :
  childSpec m0 child → completeFor m0 S child →
  (∀ tx, hoare (recorded (encodeM S)) (child tx) (λ _, recorded (encodeM S))) →
  extendsM m0 m1 → cellAt m1 l c = Some x → Defined x = false →
  (l < Size t)%nat → (c < Size t)%nat → Size t = n → extendsM m1 S →
  testval = 0 ∨ testval = 1 →
  guessMid m0 t w0 m1 l c w →
  tryValue true timeout expired zeroFirst child schrodinger level t l c testval st w
  = Done (r, w') →
  match r with
  | Return res => ¬ noTimeout res
  | Next _ => known S l c testval w'
  | Break _ => known S l c 0 w' ∧ known S l c 1 w'
  end.
Proof.
  intros Hchild Hcomp Hstable Hext1 Hx Hd Hl Hc Hn HextS Htv Hgm Hrun.
  unfold tryValue in Hrun.
  apply bind_Done_inv in Hrun as (y & w1 & Hload & Hrun).
  pose proof (hoare_load m0 t w0 m1 l c l c w y w1 Hgm Hload) as Hgm1.
  simpl in Hrun.
  apply bind_Done_inv in Hrun as (answers & w2 & Hans & Hrun).
  apply bind_Done_inv in Hrun as (rl & w3 & Hloop & Hret).
  pose (k := encodeM S).
  assert (Hst_collect : ∀ val err st0,
    hoare (recorded k) (collectResult true timeout expired level t l c val err st0)
      (λ _, recorded k)) by (intros; apply stable_collectResult).
  destruct schrodinger.
  - apply bind_Done_inv in Hans as ([v0 e0] & wa & Hl0 & Hans).
    apply bind_Done_inv in Hans as ([v1 e1] & wb & Hl1 & Hans).
    apply bind_Done_inv in Hans as (first & wc & Hask & [= <- <-]).
    pose proof (launch_spec m0 child t w0 m1 l c x 0 Hchild Hext1 Hx Hd Hl Hc
                  w1 _ wa Hgm1 Hl0) as Hgma.
    destruct (launch_complete child t w0 m1 l c x 0 w1 v0 e0 wa Hchild Hcomp Hext1 Hx Hd
                Hl Hc Hn HextS (or_introl eq_refl) Hgm1 Hl0) as [-> Hk0].
    destruct (launch_complete child t w0 m1 l c x 1 wa v1 e1 wb Hchild Hcomp Hext1 Hx Hd
                Hl Hc Hn HextS (or_intror eq_refl) Hgma Hl1) as [-> Hk1].
    assert (Hk0b : noTimeout e0 → known S l c 0 wb).
    { intros Hno HSv. eapply (stable_launch k child Hstable); [by apply Hk0 | exact Hl1]. }
    assert (Hkc : ∀ v e, (noTimeout e → known S l c v wb) → noTimeout e → known S l c v wc).
    { intros v e Hk Hno HSv. eapply stable_ask; [by apply Hk | exact Hask]. }
    assert (Hboth : ∀ a b wx,
      loopM (λ '(val, err) st, collectResult true timeout expired level t l c val err st)
        [a; b] st wc = Done (rl, wx) →
      match rl with
      | inl _ => noTimeout a.2 ∧ noTimeout b.2
      | inr res => ¬ noTimeout res
      end
      ∧ ((known S l c 0 wc → known S l c 0 wx) ∧ (known S l c 1 wc → known S l c 1 wx))).
    { intros [va ea] [vb eb] wx Hrun2. simpl in Hrun2.
      apply bind_Done_inv in Hrun2 as (ra & wd & Hca & Hrun2).
      pose proof (collectResult_complete _ _ _ _ _ _ _ _ _ _ _ _ Hca) as Hra.
      destruct ra as [sta|resa].
      - apply bind_Done_inv in Hrun2 as (rb & we & Hcb & Hrun2).
        pose proof (collectResult_complete _ _ _ _ _ _ _ _ _ _ _ _ Hcb) as Hrb.
        assert (Hstab : ∀ v, known S l c v wc → known S l c v we).
        { intros v Hk HSv. eapply Hst_collect; [|exact Hcb].
          eapply Hst_collect; [|exact Hca]. by apply Hk. }
        destruct rb as [stb|resb]; injection Hrun2 as <- <-; split; auto.
      - injection Hrun2 as <- <-. split; [done|].
        split; intros Hk HSv; (eapply Hst_collect; [|exact Hca]); by apply Hk. }
    assert (Hfin : match rl with
                   | inl _ => known S l c 0 w3 ∧ known S l c 1 w3
                   | inr res => ¬ noTimeout res
                   end).
    { destruct first.
      - destruct (Hboth _ _ _ Hloop) as [Hres [H0 H1]]. destruct rl as [st'|res]; [|done].
        destruct Hres as [Hn0 Hn1]. simpl in *. split.
        + apply H0. by apply (Hkc 0 e0).
        + apply H1. by apply (Hkc 1 e1).
      - destruct (Hboth _ _ _ Hloop) as [Hres [H0 H1]]. destruct rl as [st'|res]; [|done].
        destruct Hres as [Hn1 Hn0]. simpl in *. split.
        + apply H0. by apply (Hkc 0 e0).
        + apply H1. by apply (Hkc 1 e1). }
    destruct rl as [st'|res].
    + rewrite orb_true_r in Hret. by injection Hret as <- <-.
    + by injection Hret as <- <-.
  - apply bind_Done_inv in Hans as ([v0 e0] & wa & Hl0 & [= <- <-]).
    destruct (launch_complete child t w0 m1 l c x testval w1 v0 e0 wa Hchild Hcomp Hext1 Hx Hd
                Hl Hc Hn HextS Htv Hgm1 Hl0) as [-> Hk0].
    simpl in Hloop.
    apply bind_Done_inv in Hloop as (ra & wd & Hca & Hloop).
    pose proof (collectResult_complete _ _ _ _ _ _ _ _ _ _ _ _ Hca) as Hra.
    destruct ra as [sta|resa]; injection Hloop as <- <-.
    + rewrite andb_false_r in Hret. simpl in Hret. injection Hret as <- <-.
      intros HSv. eapply Hst_collect; [|exact Hca]. by apply Hk0.
    + by injection Hret as <- <-.
Qed.

Lemma stable_tryValues k child schrodinger level t l c :
  (∀ tx, hoare (recorded k) (child tx) (λ _, recorded k)) →
  hoare (recorded k)
    (tryValues true timeout expired zeroFirst child schrodinger level t l c)
    (λ _, recorded k).
Proof.
  intros Hstable. unfold tryValues.
  eapply hoare_bind; [by apply stable_tryValue|].
  intros [st|st|res]; try apply stable_ret.
  eapply hoare_bind; [by apply stable_tryValue|].
  intros [st'|st'|res]; apply stable_ret.
Qed.

Lemma tryValues_complete child schrodinger level t w0 m1 l c x w r w' :
  childSpec m0 child → completeFor m0 S child →
  (∀ tx, hoare (recorded (encodeM S)) (child tx) (λ _, recorded (encodeM S))) →
  extendsM m0 m1 → cellAt m1 l c = Some x → Defined x = false →
  (l < Size t)%nat → (c < Size t)%nat → Size t = n → extendsM m1 S →
  guessMid m0 t w0 m1 l c w →
  tryValues true timeout expired zeroFirst child schrodinger level t l c w = Done (r, w') →
  match r with
  | inr res => ¬ noTimeout res
  | inl _ => known S l c 0 w' ∧ known S l c 1 w'
  end.
Proof.
  intros Hchild Hcomp Hstable Hext1 Hx Hd Hl Hc Hn HextS Hgm Hrun.
  unfold tryValues in Hrun.
  apply bind_Done_inv in Hrun as (r0 & w1 & Hv0 & Hrun).
  pose proof (tryValue_complete child schrodinger level t w0 m1 l c x 0 _ w r0 w1
                Hchild Hcomp Hstable Hext1 Hx Hd Hl Hc Hn HextS (or_introl eq_refl) Hgm Hv0) as H0.
  pose proof (tryValue_spec true timeout expired zeroFirst m0 child schrodinger level t w0
                m1 l c x 0 _ Hchild Hext1 Hx Hd Hl Hc w r0 w1 Hgm Hv0) as Hgm1.
  destruct r0 as [st|st|res]; [| by injection Hrun as <- <- | by injection Hrun as <- <-].
  apply bind_Done_inv in Hrun as (r1 & w2 & Hv1 & Hrun).
  pose proof (tryValue_complete child schrodinger level t w0 m1 l c x 1 _ w1 r1 w2
                Hchild Hcomp Hstable Hext1 Hx Hd Hl Hc Hn HextS (or_intror eq_refl) Hgm1 Hv1) as H1.
  assert (H0' : known S l c 0 w2).
  { intros HSv. eapply (stable_tryValue true timeout expired zeroFirst (encodeM S) child Hstable);
      [by apply H0 | exact Hv1]. }
  destruct r1 as [st'|st'|res]; injection Hrun as <- <-; done.
Qed.

(** The loops [firstClear] run to their end only on a fully defined
    board. *)
Lemma firstClear_full h t m line col h' :
  wfBoard h t m → firstClear t h = Done ((line, col), h') →
  line = Size t ∨ col = Size t → fullM m.
Proof.
  intros [Hm Hsq] Hrun Hend. unfold firstClear in Hrun.
  pose (Q := λ (pos : nat * nat) (h1 : heap), (pos.1 < Size t)%nat ∧ (pos.2 < Size t)%nat).
  pose (Def := λ l c, ∃ y, cellAt m l c = Some y ∧ Defined y = true).
  destruct (loopM_upto
    (λ line (_ : unit),
      loopM (λ col (_ : unit),
        x ← loadCell t line col;
        if negb (Defined x) then mret (inr (line, col)) else mret (inl tt))
        (upto (Size t)) tt) (Size t)
    (λ k _ h1, h1 = h ∧ ∀ l c, (l < k)%nat → (c < Size t)%nat → Def l c) Q tt h)
    as (r & h1 & Hloop & Hpost).
  - split; [done|]. intros l c Hl. lia.
  - intros l [] h2 Hl [-> Hprev].
    destruct (loopM_upto
      (λ col (_ : unit),
        x ← loadCell t l col;
        if negb (Defined x) then mret (inr (l, col)) else mret (inl tt))
      (Size t) (λ k _ h1, h1 = h ∧ ∀ c, (c < k)%nat → Def l c) Q tt h)
      as (r & h1 & Hloop & Hpost).
    + split; [done|]. intros c Hc. lia.
    + intros c [] h3 Hc [-> Hprevc].
      destruct (squareM_cellAt _ _ l c Hsq Hl Hc) as [y Hy].
      rewrite (run_bind _ _ _ _ _ (loadCell_run _ _ _ _ _ _ Hm Hy)).
      destruct (Defined y) eqn:Hdy; simpl.
      * exists (inl tt), h. split; [done|]. split; [done|].
        intros c' Hc'. destruct (decide (c' = c)) as [->|]; [by exists y | apply Hprevc; lia].
      * exists (inr (l, c)), h. split; [done|]. by split.
    + exists r, h1. split; [done|]. destruct r as [[]|pos]; [|done].
      destruct Hpost as [-> Hall]. split; [done|].
      intros l' c' Hl' Hc'. destruct (decide (l' = l)) as [->|]; [by apply Hall|].
      apply Hprev; [lia | done].
  - rewrite (run_bind _ _ _ _ _ Hloop) in Hrun. destruct r as [[]|[l c]].
    + destruct Hpost as [_ Hall]. apply Forall_lookup_2. intros l row Hrow.
      apply Forall_lookup_2. intros c y Hy.
      assert (Hl : (l < Size t)%nat) by (destruct Hsq as [<- _]; by eapply lookup_lt_Some).
      assert (Hc : (c < Size t)%nat).
      { rewrite <- (squareM_row _ _ _ _ Hsq Hrow). by eapply lookup_lt_Some. }
      destruct (Hall l c Hl Hc) as (y' & Hy' & Hd').
      apply cellAt_Some in Hy' as (row' & Hrow' & Hy'). congruence.
    + injection Hrun as <- <- <-. destruct Hpost as [Hl Hc]. simpl in *. lia.
Qed.

(** One node of the search accounts for every solution of its board. *)
Lemma solveNode_complete again child fuel level t :
  childSpec m0 child → completeFor m0 S child →
  (∀ tx, hoare (recorded (encodeM S)) (child tx) (λ _, recorded (encodeM S))) →
  ∀ w0 err w' m,
    solvePre m0 t w0 → wfBoard (wHeap w0) t m → Size t = n → extendsM m S →
    solveNode schrodLvl true timeout expired zeroFirst again child fuel level t w0
    = Done (err, w') →
    noTimeout err → recorded (encodeM S) w'.
Proof.
  intros Hchild Hcomp Hstable w0 err w' m Hpre Hwf Hn HextS Hrun Hno.
  destruct (solveMid_start _ _ _ Hpre) as (m' & Hmid).
  assert (m' = m) as ->.
  { destruct Hmid as ([Hm' _] & _). destruct Hwf as [Hm _]. congruence. }
  pose proof Hmid as ([Hm Hsq] & Hok & Hext & _).
  assert (Hlt : (Board t < length (wHeap w0))%nat) by (by eapply lookup_lt_Some).
  unfold solveNode in Hrun.
  apply bind_Done_inv in Hrun as ([fl e] & w1 & Htriv & Hrun).
  apply liftH_Done in Htriv as (h1 & Htriv & ->).
  pose proof (TrySolveTrivial_run (wHeap w0) t m [] fuel Hlt Hsq Hok) as Hrun1.
  rewrite <- (boardHeap_init _ _ _ Hm) in Hrun1.
  destruct (trivialM fuel m) as [m1|] eqn:Hm1; [|congruence].
  destruct Hrun1 as (r & junk & Hrun1 & Hres). rewrite Hrun1 in Htriv.
  injection Htriv as -> <-.
  destruct (trivialM_spec _ _ _ _ Hsq Hok Hm1) as (Hsq1 & Hok1 & Hext1 & _).
  assert (Hext01 : extendsM m0 m1) by (by eapply extendsM_trans).
  assert (HS' : squareM (Size t) S) by (by rewrite Hn).
  assert (HextS1 : extendsM m1 S)
    by (by apply (trivialM_keeps (Size t) S HS' HokS HfullS HrulesS fuel m m1)).
  pose proof (solveMid_write m0 t w0 m w0 m1 junk Hmid Hsq1 Hok1 Hext01) as Hmid1.
  set (w1 := mkWorld (boardHeap (wHeap w0) t m1 junk) (solutionMap w0)
               (singleSolution w0) (ticks w0)) in *.
  pose proof (solution_rules _ _ _ Hsq1 Hok1 HS' HokS HrulesS HextS1) as Hrules1.
  unfold trivialResult in Hres. rewrite (validateM_complete _ _ Hsq1 Hrules1) in Hres.
  injection Hres as <- <-. simpl in Hrun.
  pose proof Hmid1 as (Hwf1 & _).
  case_bool_decide as Hfull1.
  { apply bind_Done_inv in Hrun as ([] & w2 & Hrec & [= <- <-]).
    unfold recordSolution in Hrec.
    apply bind_Done_inv in Hrec as (key & w3 & Hkey & [= <-]).
    apply liftH_Done in Hkey as (h3 & Hstr & ->).
    rewrite (ToString_run _ _ _ Hwf1) in Hstr. injection Hstr as <- <-.
    rewrite (extendsM_full_eq (Size t) m1 S Hsq1 HS' Hfull1 HextS1).
    unfold recorded. simpl. by rewrite lookup_insert_eq. }
  apply bind_Done_inv in Hrun as ([line col] & w2 & Hfirst & Hrun).
  apply liftH_Done in Hfirst as (h2 & Hfirst & ->).
  destruct (firstClear_spec _ _ _ _ _ _ Hwf1 Hfirst) as [-> Hpos].
  assert (Hmid2 : solveMid m0 t w0 m1
            (mkWorld (wHeap w1) (solutionMap w1) (singleSolution w1) (ticks w1)))
    by (by eapply solveMid_ext; [| |exact Hmid1]).
  set (w2 := mkWorld (wHeap w1) (solutionMap w1) (singleSolution w1) (ticks w1)) in *.
  destruct (decide (line = Size t ∨ col = Size t)) as [Hend|Hin].
  { destruct Hfull1. by apply (firstClear_full _ _ _ _ _ _ Hwf1 Hfirst). }
  destruct Hpos as [? | [? | (Hl & Hc & x & Hx & Hd)]]; [tauto | tauto |].
  apply bind_Done_inv in Hrun as (r & w3 & Htry & Hrun).
  assert (Hgm : guessMid m0 t w0 m1 line col w2).
  { exists m1. split; [done | apply sameExcept_refl]. }
  pose proof (tryValues_complete child _ level t w0 m1 line col x w2 r w3
                Hchild Hcomp Hstable Hext01 Hx Hd Hl Hc Hn HextS1 Hgm Htry) as Hknown.
  destruct r as [st|res].
  - destruct Hknown as [H0 H1].
    assert (Hrec : recorded (encodeM S) w3).
    { destruct (solution_cell (Size t) S line col HS' HokS HfullS Hl Hc);
        [by apply H0 | by apply H1]. }
    destruct (errCount st =? 2).
    { by injection Hrun as <- <-. }
    rewrite orb_true_r in Hrun. simpl in Hrun.
    by eapply stable_finishNode; [|exact Hrun].
  - injection Hrun as <- <-. done.
Qed.

End Complete.

(** *** The whole search *)

Lemma stable_solveNode schrodLvl timeout expired zeroFirst k again child fuel level t :
  hoare (recorded k) again (λ _, recorded k) →
  (∀ tx, hoare (recorded k) (child tx) (λ _, recorded k)) →
  hoare (recorded k)
    (solveNode schrodLvl true timeout expired zeroFirst again child fuel level t)
    (λ _, recorded k).
Proof.
  intros Hagain Hchild. unfold solveNode.
  eapply hoare_bind; [apply stable_liftH|]. intros [fl [e|]]; [apply stable_ret|].
  destruct fl.
  { eapply hoare_bind; [apply stable_recordSolution|]. intros []. apply stable_ret. }
  eapply hoare_bind; [apply stable_liftH|]. intros [line col].
  case_decide; [apply stable_finishNode|].
  eapply hoare_bind; [by apply stable_tryValues|]. intros [st|res]; [|apply stable_ret].
  destruct (errCount st =? 2); [apply stable_ret|].
  destruct (_ || _ || _); [apply stable_finishNode | done].
Qed.

Lemma stable_recurseSolve schrodLvl timeout expired zeroFirst k fuel : ∀ level t,
  hoare (recorded k)
    (recurseSolve schrodLvl true timeout expired zeroFirst fuel level t)
    (λ _, recorded k).
Proof.
  induction fuel as [|fuel IH]; intros level t; [by intros w a w' _|].
  simpl. apply stable_solveNode; [apply IH | intros tx; apply IH].
Qed.

Lemma recurseSolve_complete schrodLvl timeout expired zeroFirst m0 n S fuel :
  squareM n S → matrixOk S → fullM S → fingerprintRules S →
  ∀ level, completeFor m0 S (recurseSolve schrodLvl true timeout expired zeroFirst fuel level).
Proof.
  intros HS HokS HfullS HrulesS.
  induction fuel as [|fuel IH]; intros level tx w1 err w2 mx Hpre Hwf HsqS Hext Hrun Hno;
    [done|].
  simpl in Hrun.
  assert (Hn : Size tx = n) by (destruct HS, HsqS; congruence).
  eapply (solveNode_complete schrodLvl timeout expired zeroFirst m0 n S HS HokS HfullS HrulesS);
    [ | | | exact Hpre | exact Hwf | exact Hn | exact Hext | exact Hrun | exact Hno].
  - intros ty wa erra wb. apply recurseSolve_spec.
  - apply IH.
  - intros ty. apply stable_recurseSolve.
Qed.

Lemma validationError_not_timeout v : validationError_Error v ≠ "timeout"%string.
Proof.
  unfold validationError_Error.
  destruct (LineNumber v), (ColumnNumber v); cbn [String.eqb Ascii.eqb Bool.eqb];
    repeat match goal with
    | |- context [if ?b then _ else _] => destruct b
    | |- context [match ?o with Some _ => _ | None => _ end] => destruct o
    end; discriminate.
Qed.

Lemma noTimeout_intro err : err ≠ Some ErrTimeout → noTimeout err.
Proof.
  intros Hne e ->. destruct e as [v| |]; simpl.
  - apply validationError_not_timeout.
  - done.
  - discriminate.
Qed.

(** Two fully defined boards with the same text are the same board. *)
Lemma encodeChar_inj x y :
  cellOk x → cellOk y → Defined x = true → Defined y = true →
  encodeChar x = encodeChar y → x = y.
Proof.
  intros Hx Hy Hdx Hdy. unfold encodeChar. rewrite Hdx, Hdy.
  rewrite (cell_eta x), (cell_eta y), Hdx, Hdy. simpl.
  destruct (Hx Hdx) as [-> | ->], (Hy Hdy) as [-> | ->]; simpl; done.
Qed.

Lemma fullM_cellAt m l c x : fullM m → cellAt m l c = Some x → Defined x = true.
Proof.
  intros Hfull (row & Hrow & Hx)%cellAt_Some.
  pose proof (proj1 (Forall_lookup _ _) Hfull l row Hrow) as Hr.
  by apply (proj1 (Forall_lookup _ _) Hr c x).
Qed.

Lemma encodeM_inj n1 n2 m1 m2 :
  squareM n1 m1 → squareM n2 m2 → matrixOk m1 → matrixOk m2 → fullM m1 → fullM m2 →
  encodeM m1 = encodeM m2 → m1 = m2.
Proof.
  intros Hsq1 Hsq2 Hok1 Hok2 Hf1 Hf2. unfold encodeM.
  rewrite !encodeCells_chars by (by apply matrixOk_concat).
  intros Heq%(f_equal list_ascii_of_string).
  rewrite !list_ascii_of_string_of_list_ascii in Heq.
  assert (Hn : n2 = n1).
  { pose proof Hsq1 as [Hl1 Hr1]. pose proof Hsq2 as [Hl2 Hr2].
    apply (f_equal length) in Heq. rewrite !length_fmap in Heq.
    rewrite (concat_length_square n1), (concat_length_square n2) in Heq by done.
    rewrite Hl1, Hl2 in Heq. nia. }
  rewrite Hn in Hsq2. clear Hn.
  pose proof Hsq1 as [Hl1 Hr1]. pose proof Hsq2 as [Hl2 Hr2].
  apply (matrix_ext n1); [exact Hsq1 | exact Hsq2 |]. intros l c Hl Hc.
  destruct (squareM_cellAt _ _ l c Hsq1 Hl Hc) as [x Hx].
  destruct (squareM_cellAt _ _ l c Hsq2 Hl Hc) as [y Hy].
  rewrite Hx, Hy. f_equal.
  pose proof (f_equal (λ cs, cs !! (l * n1 + c)%nat) Heq) as Hlk. simpl in Hlk.
  rewrite !list_lookup_fmap, !(concat_lookup_square n1), Hx, Hy in Hlk by done.
  injection Hlk as Hlk.
  apply encodeChar_inj;
    [exact (matrixOk_cellAt _ _ _ _ Hok1 Hx) | exact (matrixOk_cellAt _ _ _ _ Hok2 Hy)
    | exact (fullM_cellAt _ _ _ _ Hf1 Hx) | exact (fullM_cellAt _ _ _ _ Hf2 Hy) | done].
Qed.

(** In enumerate-all mode, when [TrySolveRecurse] returns without a timeout
    error on a stored board whose defined cells hold 0 or 1, every solution
    of the board (every fully defined board of its size that [Validate]
    accepts and that keeps its defined cells) is the content of one of the
    boards of the accumulator; this holds for every Schrodinger level,
    timeout, clock and order of answers. *)
Theorem TrySolveRecurse_complete
    (schrodLvl : nat) (timeout : Z) (expired zeroFirst : nat → bool) (fuel : nat)
    (h0 h' : heap) (b : Takuzu) (m : matrix) (acc acc' : list Takuzu)
    (sol : option Takuzu) (err : option solveError) :
  wfBoard h0 b m → matrixOk m →
  TrySolveRecurse schrodLvl true timeout expired zeroFirst fuel b acc h0
  = Done ((sol, err, acc'), h') →
  err ≠ Some ErrTimeout →
  ∀ S, solutionOf m S → ∃ s, s ∈ acc' ∧ wfBoard h' s S.
Proof.
  intros Hwf Hok Hrun Hne S Hsol. unfold TrySolveRecurse in Hrun.
  destruct (recurseSolve _ _ _ _ _ _ _ _ _) as [[err0 w]| |] eqn:Hrec; [|done..].
  pose proof Hwf as [Hm Hsq].
  destruct (solution_facts _ _ _ Hsq Hsol) as (HS & HokS & HfullS & HrulesS & HextS).
  assert (Hpre : solvePre m b (mkWorld h0 ∅ None 0)).
  { exists m. split_and!; simpl; [done | done | apply extendsM_refl | |];
      intros key s Hs; by rewrite lookup_empty in Hs. }
  destruct (recurseSolve_spec _ _ _ _ _ _ _ _ _ _ _ _ Hpre Hrec) as (_ & Hgood & _).
  assert (Hres : err = err0 ∧ acc' = acc ++ (map_to_list (solutionMap w)).*2 ∧ h' = wHeap w).
  { destruct err0; injection Hrun as <- <- <- <-; done. }
  destruct Hres as (-> & -> & ->).
  pose proof (recurseSolve_complete schrodLvl timeout expired zeroFirst m (Size b) S fuel
                HS HokS HfullS HrulesS 0%nat b _ err0 w m Hpre Hwf HS HextS Hrec
                (noTimeout_intro _ Hne)) as [s Hs].
  exists s. split.
  - apply elem_of_app. right. apply list_elem_of_fmap. exists (encodeM S, s).
    split; [done | by apply elem_of_map_to_list].
  - destruct (Hgood _ _ Hs) as (ms & Hwfs & Hoks & Hval & Henc & Hexts).
    pose proof Hwfs as [_ Hsqs].
    assert (ms = S) as <-; [|done].
    apply (encodeM_inj (Size s) (Size b)); try done. by apply validateM_full.
Qed.

Lemma TrySolveRecurse_complete_witness :
  let b := mkTakuzu 2 0 in
  let h0 := [emptyBoard2] in
  let acc' := [mkTakuzu 2 9; mkTakuzu 2 5] in
  let h' := match enumerateAll2 with Done (_, h) => h | _ => [] end in
  (wfBoard h0 b emptyBoard2 ∧ matrixOk emptyBoard2
   ∧ TrySolveRecurse 0 true 0 (λ _, false) (λ _, true) 8 b [] h0
     = Done ((Some (mkTakuzu 2 9), None, acc'), h')
   ∧ (None : option solveError) ≠ Some ErrTimeout)
  ∧ ∀ S, solutionOf emptyBoard2 S → ∃ s, s ∈ acc' ∧ wfBoard h' s S.
Proof.
  intros b h0 acc' h'.
  assert (Hwf : wfBoard h0 b emptyBoard2) by (by apply wfBoard_check).
  assert (Hok : matrixOk emptyBoard2) by (by apply matrixOkb_sound).
  assert (Hrun : TrySolveRecurse 0 true 0 (λ _, false) (λ _, true) 8 b [] h0
                 = Done ((Some (mkTakuzu 2 9), None, acc'), h'))
    by (vm_compute; reflexivity).
  assert (Hne : (None : option solveError) ≠ Some ErrTimeout) by discriminate.
  split; [exact (conj Hwf (conj Hok (conj Hrun Hne)))|].
  exact (TrySolveRecurse_complete 0 0 (λ _, false) (λ _, true) 8 h0 h' b
           emptyBoard2 [] acc' (Some (mkTakuzu 2 9)) None Hwf Hok Hrun Hne).
Defined.

(** ** The accumulator and the board returned *)

(** [TrySolveRecurse] only appends to the accumulator, and appends nothing
    without one.  In enumerate-all mode a run without error returns the
    first board of the accumulator as it is on return: when the caller's
    accumulator was not empty, that is the caller's own first board,
    whatever the board solved. *)
Theorem TrySolveRecurse_accumulator
    (schrodLvl : nat) (globalSearch : bool) (timeout : Z) (expired zeroFirst : nat → bool)
    (fuel : nat) (h0 h' : heap) (b : Takuzu) (acc acc' : list Takuzu)
    (sol : option Takuzu) (err : option solveError) :
  TrySolveRecurse schrodLvl globalSearch timeout expired zeroFirst fuel b acc h0
  = Done ((sol, err, acc'), h') →
  (∃ new, acc' = acc ++ new ∧ (globalSearch = false → new = []))
  ∧ (globalSearch = true → err = None → acc' ≠ [] → sol = head acc')
  ∧ (globalSearch = true → err = None → ∀ a rest, acc = a :: rest → sol = Some a).
Proof.
  intros Hrun. unfold TrySolveRecurse in Hrun.
  destruct (recurseSolve _ _ _ _ _ _ _ _ _) as [[err0 w]| |]; [|done..].
  destruct globalSearch.
  - destruct err0 as [e|]; injection Hrun as <- <- <- <-.
    + split_and!; [by eexists | done | done].
    + split_and!; [by eexists | |].
      * intros _ _ Hne. by destruct (acc ++ _).
      * intros _ _ a rest ->. done.
  - destruct err0 as [e|]; injection Hrun as <- <- <- <-;
      (split_and!; [exists []; by rewrite app_nil_r | done | done]).
Qed.

Lemma TrySolveRecurse_accumulator_witness :
  let b := mkTakuzu 2 0 in
  let old := mkTakuzu 7 7 in
  let r := TrySolveRecurse 0 true 0 (λ _, false) (λ _, true) 8 b [old] [emptyBoard2] in
  let h' := match r with Done (_, h) => h | _ => [] end in
  let acc' := [old; mkTakuzu 2 9; mkTakuzu 2 5] in
  TrySolveRecurse 0 true 0 (λ _, false) (λ _, true) 8 b [old] [emptyBoard2]
  = Done ((Some old, None, acc'), h')
  ∧ (∃ new, acc' = [old] ++ new ∧ (true = false → new = []))
  ∧ (true = true → (None : option solveError) = None → acc' ≠ [] → Some old = head acc')
  ∧ (true = true → (None : option solveError) = None →
       ∀ a rest, [old] = a :: rest → Some old = Some a).
Proof.
  intros b old r h' acc'.
  assert (Hrun : TrySolveRecurse 0 true 0 (λ _, false) (λ _, true) 8 b [old] [emptyBoard2]
                 = Done ((Some old, None, acc'), h')) by (vm_compute; reflexivity).
  split; [exact Hrun|].
  exact (TrySolveRecurse_accumulator 0 true 0 (λ _, false) (λ _, true) 8 [emptyBoard2] h' b
           [old] acc' (Some old) None Hrun).
Defined.

(** ** An error other than a timeout refutes the board *)

Lemma wfBoard_fun h t m m' : wfBoard h t m → wfBoard h t m' → m' = m.
Proof. intros [Hm _] [Hm' _]. congruence. Qed.

(** The steps of [launch], with the content of the node made explicit. *)
Lemma launch_inv m0 child t w0 m1 l c x v m w v' err w' :
  childSpec m0 child → extendsM m0 m1 → cellAt m1 l c = Some x → Defined x = false →
  (l < Size t)%nat → (c < Size t)%nat →
  solveMid m0 t w0 m w → sameExcept m1 l c m →
  launch child t l c v w = Done ((v', err), w') →
  let tx := mkTakuzu (Size t) (length (wHeap w)) in
  let w2 := mkWorld (wHeap w ++ [setM m l c v]) (solutionMap w) (singleSolution w) (ticks w) in
  v' = v ∧ solvePre m0 tx w2 ∧ wfBoard (wHeap w2) tx (setM m l c v)
  ∧ child tx w2 = Done (err, w') ∧ wfBoard (wHeap w') t m.
Proof.
  intros Hchild Hext1 Hx Hd Hl Hc Hmid Hsame Hrun tx w2.
  pose proof Hmid as (Hwf & Hok & Hext & Hfr & Hgood & Hun & Hnew).
  pose proof Hwf as [Hm Hsq].
  assert (Hlt : (Board t < length (wHeap w))%nat) by (by eapply lookup_lt_Some).
  unfold launch in Hrun.
  apply bind_Done_inv in Hrun as (tx' & w1 & Hclone & Hrun).
  apply liftH_Done in Hclone as (h1 & Hclone & ->).
  rewrite (Clone_run _ _ _ Hwf) in Hclone. injection Hclone as <- <-.
  apply bind_Done_inv in Hrun as ([] & w2' & Hset & Hrun).
  apply liftH_Done in Hset as (h2 & Hset & ->). simpl in Hset.
  fold tx in Hset, Hrun.
  rewrite (Takuzu_Set_run _ tx m) in Hset;
    [| apply heap_lookup_snoc | by apply (squareM_cellAt (Size t))].
  simpl in Hset. rewrite heap_insert_snoc in Hset. injection Hset as <-.
  apply bind_Done_inv in Hrun as (err' & w3 & Hchildrun & [= <- <- <-]).
  destruct (setM_wf (Size t) m l c v Hsq Hok) as [Hsq' Hok'].
  fold w2 in Hchildrun.
  assert (Hwfx : wfBoard (wHeap w2) tx (setM m l c v)) by (by apply wfBoard_snoc).
  assert (Hpre : solvePre m0 tx w2).
  { exists (setM m l c v). split_and!; simpl.
    - done.
    - done.
    - apply (extendsM_sameExcept m0 m1 l c x); [done..|]. by apply sameExcept_setM.
    - eapply (mapGood_frame _ _ _ _ (length (wHeap w))); [done | | apply frame_app].
      intros key s Hs. apply Hgood, goodSolution_lt in Hs. lia.
    - intros key s Hs. apply Hgood, goodSolution_lt in Hs. simpl. lia. }
  split_and!; try done.
  destruct (Hchild tx w2 err' w3 Hpre Hchildrun) as ([Hlen3 Hsame3] & _).
  simpl in *. rewrite length_app in *. simpl in *.
  split; [|done]. rewrite Hsame3 by (rewrite ?length_app; simpl; lia).
  by rewrite lookup_app_l.
Qed.

Lemma onlyTimeout_None : onlyTimeout None.
Proof. by intros e. Qed.

Lemma keeps_ext t S w w' : wHeap w' = wHeap w → keeps t S w → keeps t S w'.
Proof. unfold keeps. by intros ->. Qed.

Lemma cellOf_inj v v' : cellOf v = cellOf v' → v = v'.
Proof. by intros [=]. Qed.

Lemma recordSolution_heap gs t w m w' :
  wfBoard (wHeap w) t m → recordSolution gs t w = Done (tt, w') → wHeap w' = wHeap w.
Proof.
  intros Hwf Hrun. unfold recordSolution in Hrun. destruct gs.
  - apply bind_Done_inv in Hrun as (key & w1 & Hkey & Hupd).
    apply liftH_Done in Hkey as (h1 & Hstr & ->).
    rewrite (ToString_run _ _ _ Hwf) in Hstr. injection Hstr as <- <-.
    by injection Hupd as <-.
  - by injection Hrun as <-.
Qed.

Lemma finishNode_heap gs t w m err w' :
  wfBoard (wHeap w) t m → finishNode gs t w = Done (err, w') → wHeap w' = wHeap w.
Proof.
  intros Hwf Hrun. unfold finishNode in Hrun.
  apply bind_Done_inv in Hrun as ([fl e] & w1 & Hval & Hrest).
  apply liftH_Done in Hval as (h1 & Hval & ->).
  rewrite (Validate_run _ _ _ Hwf) in Hval.
  destruct (validateM m) as [[fl' e']|]; [|done]. injection Hval as -> -> <-.
  destruct e as [e|]; [by injection Hrest as <- <-|].
  apply bind_Done_inv in Hrest as ([] & w2 & Hrec & [= <- <-]).
  destruct fl; [|by injection Hrec as <-].
  exact (recordSolution_heap gs t
           (mkWorld (wHeap w) (solutionMap w) (singleSolution w) (ticks w)) m w2 Hwf Hrec).
Qed.

Section Refute.
Variable schrodLvl : nat.
Variable globalSearch : bool.
Variable timeout : Z.
Variable expired zeroFirst : nat → bool.
Variable m0 : matrix.
Variable n : nat.
Variable S : matrix.
Hypothesis HS : squareM n S.
Hypothesis HokS : matrixOk S.
Hypothesis HfullS : fullM S.
Hypothesis HrulesS : fingerprintRules S.

(** [Validate] finds no fault with a board that [S] extends. *)
Lemma finishNode_sound t w0 m w err w' :
  solveMid m0 t w0 m w → Size t = n → extendsM m S →
  finishNode globalSearch t w = Done (err, w') → err = None.
Proof.
  intros Hmid Hn HextS Hrun. unfold finishNode in Hrun.
  apply bind_Done_inv in Hrun as ([fl e] & w1 & Hval & Hrest).
  apply liftH_Done in Hval as (h1 & Hval & ->).
  pose proof Hmid as (Hwf & Hok & _). pose proof Hwf as [_ Hsq].
  rewrite (Validate_run _ _ _ Hwf) in Hval.
  assert (HS' : squareM (Size t) S) by (by rewrite Hn).
  pose proof (solution_rules _ _ _ Hsq Hok HS' HokS HrulesS HextS) as Hrules.
  rewrite (validateM_complete _ _ Hsq Hrules) in Hval. injection Hval as <- <- <-.
  by apply bind_Done_inv in Hrest as ([] & w2 & _ & [= <- <-]).
Qed.

Lemma launch_sound child t w0 m1 l c x v w v' err w' :
  childSpec m0 child → soundFor m0 S child →
  extendsM m0 m1 → cellAt m1 l c = Some x → Defined x = false →
  (l < Size t)%nat → (c < Size t)%nat → Size t = n → extendsM m1 S → v = 0 ∨ v = 1 →
  guessMid m0 t w0 m1 l c w → keeps t S w →
  launch child t l c v w = Done ((v', err), w') →
  v' = v ∧ keeps t S w' ∧ (cellAt S l c = Some (cellOf v) → onlyTimeout err).
Proof.
  intros Hchild Hsound Hext1 Hx Hd Hl Hc Hn HextS Hv (m & Hmid & Hsame) Hkeep Hrun.
  destruct (launch_inv m0 child t w0 m1 l c x v m w v' err w' Hchild Hext1 Hx Hd Hl Hc
              Hmid Hsame Hrun) as (-> & Hpre & Hwfx & Hchildrun & Hwf').
  pose proof Hmid as ([Hm Hsq] & _).
  split_and!; [done | |].
  - intros m' Hm'. rewrite (wfBoard_fun _ _ _ _ Hwf' Hm'). apply Hkeep. by split.
  - intros HSv. eapply (Hsound _ _ _ _ _ Hpre Hwfx); [by (simpl; rewrite Hn) | | exact Hchildrun].
    apply (extendsM_guess m1); try done. by apply (squareM_cellAt (Size t)).
Qed.

Lemma collectResult_sound level t w0 m1 l c x val err st w r w' :
  extendsM m0 m1 → cellAt m1 l c = Some x → Defined x = false →
  (l < Size t)%nat → (c < Size t)%nat → Size t = n → extendsM m1 S → val = 0 ∨ val = 1 →
  guessMid m0 t w0 m1 l c w → keeps t S w →
  (cellAt S l c = Some (cellOf val) → onlyTimeout err) →
  collectResult globalSearch timeout expired level t l c val err st w = Done (r, w') →
  keeps t S w' ∧
  match r with
  | inr res => onlyTimeout res
  | inl st' => errCount st' ≤ errCount st + misses S l c [val]
  end.
Proof.
  intros Hext1 Hx Hd Hl Hc Hn HextS Hval Hgm Hkeep Herr Hrun.
  assert (Hm0 : 0 ≤ misses S l c [val]) by (unfold misses; lia).
  unfold collectResult in Hrun. destruct err as [e|].
  - apply bind_Done_inv in Hrun as (late & w1 & Hlate & Hrun).
    assert (Hgm1 : guessMid m0 t w0 m1 l c w1 ∧ keeps t S w1).
    { destruct ((timeout >? 0) && (2 <? Z.of_nat level)).
      - injection Hlate as <- <-. split.
        + by eapply guessMid_ext; [| |exact Hgm].
        + by eapply keeps_ext; [|exact Hkeep].
      - by injection Hlate as <- <-. }
    destruct Hgm1 as [Hgm1 Hkeep1].
    destruct (String.eqb_spec (causeText e) "timeout") as [Heq|Hne].
    + rewrite andb_false_r in Hrun. injection Hrun as <- <-. split; [done|].
      by intros e' [= <-].
    + rewrite andb_true_r in Hrun. destruct late.
      * injection Hrun as <- <-. split; [done|]. by intros e' [= <-].
      * apply bind_Done_inv in Hrun as ([] & w2 & Hset & [= <- <-]).
        assert (HSv : cellAt S l c ≠ Some (cellOf val)).
        { intros HSv. by apply Hne, (Herr HSv e). }
        destruct Hgm1 as (m & Hmid & Hsame). pose proof Hmid as ([Hm Hsq] & _).
        apply liftH_Done in Hset as (h2 & Hset & ->).
        rewrite (Takuzu_Set_run _ t m) in Hset by (done || by apply (squareM_cellAt (Size t))).
        injection Hset as <-. split.
        -- intros m' [Hm' _]. simpl in Hm'.
           rewrite list_lookup_insert_eq in Hm' by (by eapply lookup_lt_Some).
           injection Hm' as <-.
           apply (extendsM_guess m1); try done.
           ++ by apply (squareM_cellAt (Size t)).
           ++ assert (HS' : squareM (Size t) S) by (by rewrite Hn).
              destruct (solution_cell (Size t) S l c HS' HokS HfullS Hl Hc) as [H0|H1],
                Hval as [-> | ->]; simpl; done.
           ++ lia.
        -- simpl. unfold misses. rewrite filter_cons_True by done. simpl. lia.
  - destruct (negb globalSearch); injection Hrun as <- <-.
    + split; [done | apply onlyTimeout_None].
    + split; [done | lia].
Qed.

Lemma misses_both l c : (l < n)%nat → (c < n)%nat → misses S l c [0; 1] = 1.
Proof.
  intros Hl Hc. unfold misses.
  destruct (solution_cell n S l c HS HokS HfullS Hl Hc) as [H0|H1].
  - rewrite filter_cons_False by (intros Hne; by apply Hne).
    rewrite filter_cons_True by (rewrite H0; by intros [=]). done.
  - rewrite filter_cons_True by (rewrite H1; by intros [=]).
    rewrite filter_cons_False by (intros Hne; by apply Hne). done.
Qed.

Lemma misses_app l c vs vs' : misses S l c (vs ++ vs') = misses S l c vs + misses S l c vs'.
Proof. unfold misses. rewrite filter_app, length_app. lia. Qed.

Lemma misses_swap l c : misses S l c [1; 0] = misses S l c [0; 1].
Proof.
  change [1; 0] with ([1] ++ [0]). change [0; 1] with ([0] ++ [1]).
  rewrite !misses_app. lia.
Qed.

Lemma tryValue_sound child schrodinger level t w0 m1 l c x testval st w r w' :
  childSpec m0 child → soundFor m0 S child →
  extendsM m0 m1 → cellAt m1 l c = Some x → Defined x = false →
  (l < Size t)%nat → (c < Size t)%nat → Size t = n → extendsM m1 S →
  testval = 0 ∨ testval = 1 →
  guessMid m0 t w0 m1 l c w → keeps t S w →
  tryValue globalSearch timeout expired zeroFirst child schrodinger level t l c testval st w
  = Done (r, w') →
  keeps t S w' ∧
  match r with
  | Return res => onlyTimeout res
  | Next st' => schrodinger = false ∧ errCount st' ≤ errCount st + misses S l c [testval]
  | Break st' =>
    errCount st' ≤ errCount st + (if schrodinger then 1 else misses S l c [testval])
  end.
Proof.
  intros Hchild Hsound Hext1 Hx Hd Hl Hc Hn HextS Htv Hgm Hkeep Hrun.
  assert (Hmiss : 0 ≤ misses S l c [testval]) by (unfold misses; lia).
  unfold tryValue in Hrun.
  apply bind_Done_inv in Hrun as (y & w1 & Hload & Hrun).
  pose proof (hoare_load m0 t w0 m1 l c l c w y w1 Hgm Hload) as Hgm1.
  assert (Hkeep1 : keeps t S w1).
  { apply liftH_Done in Hload as (h' & Hload & ->).
    apply loadCell_heap in Hload as ->. by eapply keeps_ext; [|exact Hkeep]. }
  destruct (negb globalSearch && Defined y).
  { injection Hrun as <- <-. split; [done|]. destruct schrodinger; lia. }
  apply bind_Done_inv in Hrun as (answers & w2 & Hans & Hrun).
  apply bind_Done_inv in Hrun as (rl & w3 & Hloop & Hret).
  assert (Hone : ∀ val err st0 wa rb wb,
    val = 0 ∨ val = 1 → guessMid m0 t w0 m1 l c wa → keeps t S wa →
    (cellAt S l c = Some (cellOf val) → onlyTimeout err) →
    collectResult globalSearch timeout expired level t l c val err st0 wa = Done (rb, wb) →
    guessMid m0 t w0 m1 l c wb ∧ keeps t S wb ∧
    match rb with
    | inr res => onlyTimeout res
    | inl st' => errCount st' ≤ errCount st0 + misses S l c [val]
    end).
  { intros val err st0 wa rb wb Hv Hgma Hka Herr Hc0. split.
    - by eapply (collectResult_spec globalSearch timeout expired m0 level t w0 m1 l c x
                   val err st0 Hext1 Hx Hd Hl Hc wa rb wb).
    - by eapply (collectResult_sound level t w0 m1 l c x val err st0 wa rb wb). }
  destruct schrodinger.
  - apply bind_Done_inv in Hans as ([v0 e0] & wa & Hl0 & Hans).
    apply bind_Done_inv in Hans as ([v1 e1] & wb & Hl1 & Hans).
    apply bind_Done_inv in Hans as (first & wc & Hask & [= <- <-]).
    pose proof (launch_spec m0 child t w0 m1 l c x 0 Hchild Hext1 Hx Hd Hl Hc
                  w1 _ wa Hgm1 Hl0) as Hgma.
    destruct (launch_sound child t w0 m1 l c x 0 w1 v0 e0 wa Hchild Hsound Hext1 Hx Hd
                Hl Hc Hn HextS (or_introl eq_refl) Hgm1 Hkeep1 Hl0) as (-> & Hka & He0).
    pose proof (launch_spec m0 child t w0 m1 l c x 1 Hchild Hext1 Hx Hd Hl Hc
                  wa _ wb Hgma Hl1) as Hgmb.
    destruct (launch_sound child t w0 m1 l c x 1 wa v1 e1 wb Hchild Hsound Hext1 Hx Hd
                Hl Hc Hn HextS (or_intror eq_refl) Hgma Hka Hl1) as (-> & Hkb & He1).
    assert (Hgmc : guessMid m0 t w0 m1 l c wc ∧ keeps t S wc).
    { injection Hask as _ <-. split.
      - by eapply guessMid_ext; [| |exact Hgmb].
      - by eapply keeps_ext; [|exact Hkb]. }
    destruct Hgmc as [Hgmc Hkc].
    assert (Hboth : ∀ va ea vb eb,
      va = 0 ∨ va = 1 → vb = 0 ∨ vb = 1 →
      (cellAt S l c = Some (cellOf va) → onlyTimeout ea) →
      (cellAt S l c = Some (cellOf vb) → onlyTimeout eb) →
      loopM (λ '(val, err) st, collectResult globalSearch timeout expired level t l c val err st)
        [(va, ea); (vb, eb)] st wc = Done (rl, w3) →
      keeps t S w3 ∧
      match rl with
      | inr res => onlyTimeout res
      | inl st' => errCount st' ≤ errCount st + misses S l c [va; vb]
      end).
    { intros va ea vb eb Hva Hvb Hea Heb Hrun2. simpl in Hrun2.
      apply bind_Done_inv in Hrun2 as (ra & wd & Hca & Hrun2).
      destruct (Hone _ _ _ _ _ _ Hva Hgmc Hkc Hea Hca) as (Hgmd & Hkd & Hra).
      destruct ra as [sta|resa].
      - apply bind_Done_inv in Hrun2 as (rb & we & Hcb & Hrun2).
        destruct (Hone _ _ _ _ _ _ Hvb Hgmd Hkd Heb Hcb) as (Hgme & Hke & Hrb).
        destruct rb as [stb|resb]; injection Hrun2 as <- <-; (split; [done|]); [|done].
        change [va; vb] with ([va] ++ [vb]). rewrite misses_app. lia.
      - by injection Hrun2 as <- <-. }
    assert (Hfin : keeps t S w3 ∧
      match rl with
      | inr res => onlyTimeout res
      | inl st' => errCount st' ≤ errCount st + 1
      end).
    { rewrite <- (misses_both l c) by lia. destruct first.
      - apply (Hboth 0 e0 1 e1); auto.
      - rewrite <- misses_swap. apply (Hboth 1 e1 0 e0); auto. }
    destruct Hfin as [Hk3 Hfin]. destruct rl as [st'|res].
    + rewrite orb_true_r in Hret. by injection Hret as <- <-.
    + by injection Hret as <- <-.
  - apply bind_Done_inv in Hans as ([v0 e0] & wa & Hl0 & [= <- <-]).
    pose proof (launch_spec m0 child t w0 m1 l c x testval Hchild Hext1 Hx Hd Hl Hc
                  w1 _ wa Hgm1 Hl0) as Hgma.
    destruct (launch_sound child t w0 m1 l c x testval w1 v0 e0 wa Hchild Hsound Hext1 Hx Hd
                Hl Hc Hn HextS Htv Hgm1 Hkeep1 Hl0) as (-> & Hka & He0).
    simpl in Hloop.
    apply bind_Done_inv in Hloop as (ra & wd & Hca & Hloop).
    destruct (Hone _ _ _ _ _ _ Htv Hgma Hka He0 Hca) as (Hgmd & Hkd & Hra).
    destruct ra as [sta|resa]; injection Hloop as <- <-.
    + rewrite orb_false_r in Hret.
      destruct (changed sta && negb globalSearch); by injection Hret as <- <-.
    + by injection Hret as <- <-.
Qed.

Lemma tryValues_sound child schrodinger level t w0 m1 l c x w r w' :
  childSpec m0 child → soundFor m0 S child →
  extendsM m0 m1 → cellAt m1 l c = Some x → Defined x = false →
  (l < Size t)%nat → (c < Size t)%nat → Size t = n → extendsM m1 S →
  guessMid m0 t w0 m1 l c w → keeps t S w →
  tryValues globalSearch timeout expired zeroFirst child schrodinger level t l c w
  = Done (r, w') →
  keeps t S w' ∧
  match r with
  | inr res => onlyTimeout res
  | inl st => errCount st ≤ 1
  end.
Proof.
  intros Hchild Hsound Hext1 Hx Hd Hl Hc Hn HextS Hgm Hkeep Hrun.
  pose proof (misses_both l c ltac:(lia) ltac:(lia)) as Hboth.
  change [0; 1] with ([0] ++ [1]) in Hboth. rewrite misses_app in Hboth.
  assert (H0 : 0 ≤ misses S l c [0]) by (unfold misses; lia).
  assert (H1 : 0 ≤ misses S l c [1]) by (unfold misses; lia).
  unfold tryValues in Hrun.
  apply bind_Done_inv in Hrun as (r0 & w1 & Hv0 & Hrun).
  destruct (tryValue_sound child schrodinger level t w0 m1 l c x 0 _ w r0 w1
              Hchild Hsound Hext1 Hx Hd Hl Hc Hn HextS (or_introl eq_refl) Hgm Hkeep Hv0)
    as [Hk1 Hr0].
  pose proof (tryValue_spec globalSearch timeout expired zeroFirst m0 child schrodinger level
                t w0 m1 l c x 0 _ Hchild Hext1 Hx Hd Hl Hc w r0 w1 Hgm Hv0) as Hgm1.
  destruct r0 as [st|st|res].
  - destruct Hr0 as [-> Hr0].
    apply bind_Done_inv in Hrun as (r1 & w2 & Hv1 & Hrun).
    destruct (tryValue_sound child false level t w0 m1 l c x 1 _ w1 r1 w2
                Hchild Hsound Hext1 Hx Hd Hl Hc Hn HextS (or_intror eq_refl) Hgm1 Hk1 Hv1)
      as [Hk2 Hr1].
    destruct r1 as [st'|st'|res]; injection Hrun as <- <-; (split; [done|]); simpl in *.
    + destruct Hr1 as [_ Hr1]. lia.
    + lia.
    + done.
  - injection Hrun as <- <-. split; [done|]. simpl in *. destruct schrodinger; lia.
  - by injection Hrun as <- <-.
Qed.

(** One node of the search returns no error but a timeout when its board
    has the solution [S], and leaves a board that [S] still extends. *)
Lemma solveNode_sound again child fuel level t :
  childSpec m0 child → soundFor m0 S child →
  (∀ w1 err1 w2, solvePre m0 t w1 → again w1 = Done (err1, w2) → solvePost m0 t w1 w2) →
  (∀ w1 err1 w2 mx, solvePre m0 t w1 → wfBoard (wHeap w1) t mx → extendsM mx S →
     again w1 = Done (err1, w2) → onlyTimeout err1 ∧ keeps t S w2) →
  ∀ w0 err w' m,
    solvePre m0 t w0 → wfBoard (wHeap w0) t m → Size t = n → extendsM m S →
    solveNode schrodLvl globalSearch timeout expired zeroFirst again child fuel level t w0
    = Done (err, w') →
    onlyTimeout err ∧ keeps t S w'.
Proof.
  intros Hchild Hsound Hagain Hagain2 w0 err w' m Hpre Hwf Hn HextS Hrun.
  destruct (solveMid_start _ _ _ Hpre) as (m' & Hmid).
  assert (m' = m) as ->.
  { destruct Hmid as (Hwf' & _). by apply (wfBoard_fun _ _ _ _ Hwf Hwf'). }
  pose proof Hmid as ([Hm Hsq] & Hok & Hext & _).
  assert (Hlt : (Board t < length (wHeap w0))%nat) by (by eapply lookup_lt_Some).
  unfold solveNode in Hrun.
  apply bind_Done_inv in Hrun as ([fl e] & w1 & Htriv & Hrun).
  apply liftH_Done in Htriv as (h1 & Htriv & ->).
  pose proof (TrySolveTrivial_run (wHeap w0) t m [] fuel Hlt Hsq Hok) as Hrun1.
  rewrite <- (boardHeap_init _ _ _ Hm) in Hrun1.
  destruct (trivialM fuel m) as [m1|] eqn:Hm1; [|congruence].
  destruct Hrun1 as (r & junk & Hrun1 & Hres). rewrite Hrun1 in Htriv.
  injection Htriv as -> <-.
  destruct (trivialM_spec _ _ _ _ Hsq Hok Hm1) as (Hsq1 & Hok1 & Hext1 & _).
  assert (Hext01 : extendsM m0 m1) by (by eapply extendsM_trans).
  assert (HS' : squareM (Size t) S) by (by rewrite Hn).
  assert (HextS1 : extendsM m1 S)
    by (by apply (trivialM_keeps (Size t) S HS' HokS HfullS HrulesS fuel m m1)).
  pose proof (solveMid_write m0 t w0 m w0 m1 junk Hmid Hsq1 Hok1 Hext01) as Hmid1.
  set (w1 := mkWorld (boardHeap (wHeap w0) t m1 junk) (solutionMap w0)
               (singleSolution w0) (ticks w0)) in *.
  pose proof (solution_rules _ _ _ Hsq1 Hok1 HS' HokS HrulesS HextS1) as Hrules1.
  unfold trivialResult in Hres. rewrite (validateM_complete _ _ Hsq1 Hrules1) in Hres.
  injection Hres as <- <-. simpl in Hrun.
  pose proof Hmid1 as (Hwf1 & _).
  assert (Hkeep1 : keeps t S w1).
  { intros mx Hmx. by rewrite (wfBoard_fun _ _ _ _ Hwf1 Hmx). }
  case_bool_decide as Hfull1.
  { apply bind_Done_inv in Hrun as ([] & w2 & Hrec & [= <- <-]).
    split; [apply onlyTimeout_None|].
    eapply keeps_ext; [|exact Hkeep1]. by eapply recordSolution_heap. }
  apply bind_Done_inv in Hrun as ([line col] & w2 & Hfirst & Hrun).
  apply liftH_Done in Hfirst as (h2 & Hfirst & ->).
  destruct (firstClear_spec _ _ _ _ _ _ Hwf1 Hfirst) as [-> Hpos].
  assert (Hmid2 : solveMid m0 t w0 m1
            (mkWorld (wHeap w1) (solutionMap w1) (singleSolution w1) (ticks w1)))
    by (by eapply solveMid_ext; [| |exact Hmid1]).
  set (w2 := mkWorld (wHeap w1) (solutionMap w1) (singleSolution w1) (ticks w1)) in *.
  assert (Hkeep : keeps t S w2) by (by eapply keeps_ext; [|exact Hkeep1]).
  destruct (decide (line = Size t ∨ col = Size t)) as [Hend|Hin].
  { rewrite (finishNode_sound t w0 m1 w2 err w' Hmid2 Hn HextS1 Hrun).
    split; [apply onlyTimeout_None|].
    eapply keeps_ext; [|exact Hkeep]. by eapply (finishNode_heap _ t w2 m1). }
  destruct Hpos as [? | [? | (Hl & Hc & x & Hx & Hd)]]; [tauto | tauto |].
  apply bind_Done_inv in Hrun as (r & w3 & Htry & Hrun).
  assert (Hgm : guessMid m0 t w0 m1 line col w2).
  { exists m1. split; [done | apply sameExcept_refl]. }
  destruct (tryValues_sound child _ level t w0 m1 line col x w2 r w3
              Hchild Hsound Hext01 Hx Hd Hl Hc Hn HextS1 Hgm Hkeep Htry) as [Hk3 Hr].
  pose proof (tryValues_spec globalSearch timeout expired zeroFirst m0 child _ level t w0
                m1 line col x Hchild Hext01 Hx Hd Hl Hc w2 r w3 Hgm Htry) as (m3 & Hmid3 & _).
  pose proof Hmid3 as (Hwf3 & _).
  destruct r as [st|res].
  - destruct (errCount st =? 2) eqn:Hcount; [lia|].
    destruct (bool_decide (level < schrodLvl)%nat || globalSearch || negb (changed st)).
    + rewrite (finishNode_sound t w0 m3 w3 err w' Hmid3 Hn (Hk3 _ Hwf3) Hrun).
      split; [apply onlyTimeout_None|].
      eapply keeps_ext; [|exact Hk3]. by eapply (finishNode_heap _ t w3 m3).
    + eapply (Hagain2 w3 err w' m3); [by eapply solveMid_pre | done | by apply Hk3 | done].
  - by injection Hrun as <- <-.
Qed.

End Refute.

Lemma recurseSolve_keeps schrodLvl globalSearch timeout expired zeroFirst m0 n S fuel :
  squareM n S → matrixOk S → fullM S → fingerprintRules S →
  ∀ level tx w1 err w2 mx,
    solvePre m0 tx w1 → wfBoard (wHeap w1) tx mx → squareM (Size tx) S → extendsM mx S →
    recurseSolve schrodLvl globalSearch timeout expired zeroFirst fuel level tx w1
    = Done (err, w2) →
    onlyTimeout err ∧ keeps tx S w2.
Proof.
  intros HS HokS HfullS HrulesS.
  induction fuel as [|fuel IH]; intros level tx w1 err w2 mx Hpre Hwf HsqS Hext Hrun; [done|].
  simpl in Hrun.
  assert (Hn : Size tx = n) by (destruct HS, HsqS; congruence).
  eapply (solveNode_sound schrodLvl globalSearch timeout expired zeroFirst m0 n S
            HS HokS HfullS HrulesS);
    [ | | | | exact Hpre | exact Hwf | exact Hn | exact Hext | exact Hrun].
  - intros ty wa erra wb. apply recurseSolve_spec.
  - intros ty wa erra wb my Hprea Hwfa Hsqa Hexta Hruna.
    by apply (IH (Datatypes.S level) ty wa erra wb my).
  - intros wa erra wb. apply recurseSolve_spec.
  - intros wa erra wb my Hprea Hwfa Hexta Hruna.
    by apply (IH level tx wa erra wb my).
Qed.

Lemma recurseSolve_sound schrodLvl globalSearch timeout expired zeroFirst m0 n S fuel :
  squareM n S → matrixOk S → fullM S → fingerprintRules S →
  ∀ level,
    soundFor m0 S (recurseSolve schrodLvl globalSearch timeout expired zeroFirst fuel level).
Proof.
  intros HS HokS HfullS HrulesS level tx w1 err w2 mx Hpre Hwf HsqS Hext Hrun.
  by apply (recurseSolve_keeps schrodLvl globalSearch timeout expired zeroFirst m0 n S fuel
              HS HokS HfullS HrulesS level tx w1 err w2 mx).
Qed.

Lemma onlyTimeout_elim e : onlyTimeout (Some e) → e = ErrTimeout.
Proof.
  intros Honly. pose proof (Honly e eq_refl) as Hc. destruct e as [v| |]; simpl in Hc.
  - by destruct (validationError_not_timeout v).
  - done.
  - discriminate.
Qed.

(** When [TrySolveRecurse] returns an error other than a timeout (a
    violation of the rules or a dead end), the board it was given has no
    solution; this holds in both modes and for every Schrodinger level,
    timeout, clock and order of answers. *)
Theorem TrySolveRecurse_error_refutes
    (schrodLvl : nat) (globalSearch : bool) (timeout : Z) (expired zeroFirst : nat → bool)
    (fuel : nat) (h0 h' : heap) (b : Takuzu) (m : matrix) (acc acc' : list Takuzu)
    (sol : option Takuzu) (e : solveError) :
  wfBoard h0 b m → matrixOk m →
  TrySolveRecurse schrodLvl globalSearch timeout expired zeroFirst fuel b acc h0
  = Done ((sol, Some e, acc'), h') →
  e ≠ ErrTimeout →
  ∀ S, ¬ solutionOf m S.
Proof.
  intros Hwf Hok Hrun Hne S Hsol. unfold TrySolveRecurse in Hrun.
  destruct (recurseSolve _ _ _ _ _ _ _ _ _) as [[err0 w]| |] eqn:Hrec; [|done..].
  pose proof Hwf as [Hm Hsq].
  destruct (solution_facts _ _ _ Hsq Hsol) as (HS & HokS & HfullS & HrulesS & HextS).
  assert (Hpre : solvePre m b (mkWorld h0 ∅ None 0)).
  { exists m. split_and!; simpl; [done | done | apply extendsM_refl | |];
      intros key s Hs; by rewrite lookup_empty in Hs. }
  assert (err0 = Some e) as ->.
  { destruct err0; [by injection Hrun as _ -> _ _ | by destruct globalSearch]. }
  apply Hne, onlyTimeout_elim.
  exact (recurseSolve_sound schrodLvl globalSearch timeout expired zeroFirst m (Size b) S fuel
           HS HokS HfullS HrulesS 0%nat b _ _ w m Hpre Hwf HS HextS Hrec).
Qed.

Lemma TrySolveRecurse_error_refutes_witness :
  let b := mkTakuzu 4 0 in
  let h0 := [sampleUnsolvable] in
  let r := TrySolveRecurse 0 false 0 (λ _, false) (λ _, true) 40 b [] h0 in
  let h' := match r with Done (_, h) => h | _ => [] end in
  let e := ErrWrong (duplicateColumn 1) in
  (wfBoard h0 b sampleUnsolvable ∧ matrixOk sampleUnsolvable
   ∧ validateM sampleUnsolvable = Some (false, None)
   ∧ TrySolveRecurse 0 false 0 (λ _, false) (λ _, true) 40 b [] h0
     = Done ((None, Some e, []), h')
   ∧ e ≠ ErrTimeout)
  ∧ ∀ S, ¬ solutionOf sampleUnsolvable S.
Proof.
  intros b h0 r h' e.
  assert (Hwf : wfBoard h0 b sampleUnsolvable) by (by apply wfBoard_check).
  assert (Hok : matrixOk sampleUnsolvable) by (by apply matrixOkb_sound).
  assert (Hval : validateM sampleUnsolvable = Some (false, None)) by (vm_compute; reflexivity).
  assert (Hrun : TrySolveRecurse 0 false 0 (λ _, false) (λ _, true) 40 b [] h0
                 = Done ((None, Some e, []), h')) by (vm_compute; reflexivity).
  assert (Hne : e ≠ ErrTimeout) by discriminate.
  split; [exact (conj Hwf (conj Hok (conj Hval (conj Hrun Hne))))|].
  exact (TrySolveRecurse_error_refutes 0 false 0 (λ _, false) (λ _, true) 40 h0 h' b
           sampleUnsolvable [] [] None e Hwf Hok Hrun Hne).
Defined.

(** ** The board returned in first-solution mode *)

Lemma frame_insert a (h : heap) x : frame a h (<[a := x]> h).
Proof.
  split; [by rewrite length_insert|]. intros y Hy Hne. by apply list_lookup_insert_ne.
Qed.

Lemma singleGood_frame h h' m0 ss a :
  singleGood h m0 ss → (∀ s, ss = Some s → Board s ≠ a) → frame a h h' →
  singleGood h' m0 ss.
Proof.
  intros Hgood Hne Hfr s Hs. destruct (Hgood s Hs) as [Hsz [key Hk]].
  split; [done|]. exists key. eapply goodSolution_frame; [done | done | by apply Hne].
Qed.

Lemma singleGood_lt h m0 ss s :
  singleGood h m0 ss → ss = Some s → (Board s < length h)%nat.
Proof. intros Hgood Hs. destruct (Hgood s Hs) as [_ [key Hk]]. by eapply goodSolution_lt. Qed.

Lemma singleMid_start m0 b t w0 :
  singlePre m0 t w0 → (b = true → hasSingle w0) → singleMid m0 b t w0 w0.
Proof. intros [Hgood Hoff] Hb. split_and!; try done. intros s Hs. by left. Qed.

Lemma singleMid_pre m0 b t w0 w : singleMid m0 b t w0 w → singlePre m0 t w.
Proof. by intros (Hgood & Hoff & _). Qed.

Lemma singleMid_post m0 b t w0 w : singleMid m0 b t w0 w → singlePost m0 b t w0 w.
Proof. by intros (Hgood & _ & Hnew & Hb). Qed.

Lemma singleMid_flag m0 b t w0 w : singleMid m0 b t w0 w → b = true → hasSingle w.
Proof. by intros (_ & _ & _ & Hb). Qed.

Lemma singleMid_upgrade m0 b b' t w0 w :
  singleMid m0 b t w0 w → (b' = true → hasSingle w) → singleMid m0 b' t w0 w.
Proof. by intros (Hgood & Hoff & Hnew & _) Hb. Qed.

Lemma singlePost_weaken m0 b t w0 w : singlePost m0 true t w0 w → singlePost m0 b t w0 w.
Proof. intros (Hgood & Hnew & Hb). split_and!; try done. intros _. by apply Hb. Qed.

Lemma singleMid_frame m0 b t w0 w w' :
  singleMid m0 b t w0 w → frame (Board t) (wHeap w) (wHeap w') →
  singleSolution w' = singleSolution w → singleMid m0 b t w0 w'.
Proof.
  intros (Hgood & Hoff & Hnew & Hb) Hfr Hss. unfold singleMid, hasSingle. rewrite Hss.
  split_and!; try done. by eapply singleGood_frame.
Qed.

Lemma singleMid_ext m0 b t w0 w w' :
  wHeap w' = wHeap w → singleSolution w' = singleSolution w →
  singleMid m0 b t w0 w → singleMid m0 b t w0 w'.
Proof.
  intros Hh Hss Hs. eapply singleMid_frame; [done | | done]. rewrite Hh. apply frame_refl.
Qed.

Lemma singlePost_trans m0 b b' t w0 w w' :
  (length (wHeap w0) ≤ length (wHeap w))%nat →
  singleMid m0 b' t w0 w → singlePost m0 b t w w' → singlePost m0 b t w0 w'.
Proof.
  intros Hlen (_ & _ & Hnew & _) (Hgood' & Hnew' & Hb'). split_and!; try done.
  intros s Hs. destruct (Hnew' s Hs) as [Hold | [Ht | Hfresh]].
  - by apply Hnew.
  - auto.
  - right; right. lia.
Qed.

Lemma collectResult_first timeout expired level t l c val err st w r w' :
  collectResult false timeout expired level t l c val err st w = Done (r, w') →
  match r with
  | inr res => res = None → err = None
  | inl st' => changed st' = true ∧ errCount st' = errCount st + 1
  end.
Proof.
  unfold collectResult. destruct err as [e|]; simpl.
  - intros (late & w1 & _ & Hrest)%bind_Done_inv.
    destruct ((late : bool) && negb (String.eqb (causeText e) "timeout")).
    { by injection Hrest as <- <-. }
    destruct (String.eqb (causeText e) "timeout").
    { by injection Hrest as <- <-. }
    by apply bind_Done_inv in Hrest as ([] & w2 & _ & [= <- <-]).
  - by intros [= <- <-].
Qed.

Section SingleProofs.
Variable schrodLvl : nat.
Variable globalSearch : bool.
Variable timeout : Z.
Variable expired zeroFirst : nat → bool.
Variable m0 : matrix.

(** Recording a board that [Validate] accepts as fully defined. *)
Lemma recordSolution_single b t w0 m w w' :
  solveMid m0 t w0 m w → Size t = length m0 → singleMid m0 b t w0 w →
  validateM m = Some (true, None) →
  recordSolution globalSearch t w = Done (tt, w') → singlePost m0 true t w0 w'.
Proof.
  intros Hmid Hn Hs Hval Hrun.
  pose proof Hmid as (Hwf & Hok & Hext & _).
  assert (Hw' : wHeap w' = wHeap w ∧ singleSolution w' = Some t).
  { unfold recordSolution in Hrun. destruct globalSearch.
    - apply bind_Done_inv in Hrun as (key & w1 & Hkey & Hupd).
      apply liftH_Done in Hkey as (h1 & Hstr & ->).
      rewrite (ToString_run _ _ _ Hwf) in Hstr. injection Hstr as <- <-.
      by injection Hupd as <-.
    - by injection Hrun as <-. }
  destruct Hw' as [Hh Hss]. unfold singlePost, hasSingle. rewrite Hh, Hss. split_and!.
  - intros s [= <-]. split; [done|]. exists (encodeM m), m. done.
  - intros s [= <-]. auto.
  - done.
Qed.

Lemma finishNode_single b t w0 m w err w' :
  solveMid m0 t w0 m w → Size t = length m0 → singleMid m0 b t w0 w →
  finishNode globalSearch t w = Done (err, w') → singlePost m0 b t w0 w'.
Proof.
  intros Hmid Hn Hs Hrun. unfold finishNode in Hrun.
  apply bind_Done_inv in Hrun as ([fl e] & w1 & Hval & Hrest).
  apply liftH_Done in Hval as (h1 & Hval & ->).
  pose proof Hmid as (Hwf & _). rewrite (Validate_run _ _ _ Hwf) in Hval.
  destruct (validateM m) as [[fl' e']|] eqn:Hvm; [|done]. injection Hval as -> -> <-.
  assert (Hmid1 : solveMid m0 t w0 m
            (mkWorld (wHeap w) (solutionMap w) (singleSolution w) (ticks w)))
    by (by eapply solveMid_ext; [| |exact Hmid]).
  assert (Hs1 : singleMid m0 b t w0
            (mkWorld (wHeap w) (solutionMap w) (singleSolution w) (ticks w)))
    by (by eapply singleMid_ext; [| |exact Hs]).
  destruct e as [e|].
  - injection Hrest as <- <-. by eapply singleMid_post.
  - apply bind_Done_inv in Hrest as ([] & w2 & Hrec & [= <- <-]).
    destruct fl.
    + by eapply singlePost_weaken, recordSolution_single.
    + injection Hrec as <-. by eapply singleMid_post.
Qed.

Lemma launch_single child b t w0 m1 l c x v w r w' :
  childSpec m0 child → childSingle globalSearch m0 child →
  extendsM m0 m1 → cellAt m1 l c = Some x → Defined x = false →
  (l < Size t)%nat → (c < Size t)%nat → Size t = length m0 →
  guessMid m0 t w0 m1 l c w → singleMid m0 b t w0 w →
  launch child t l c v w = Done (r, w') →
  singleMid m0 b t w0 w' ∧ (globalSearch = false → r.2 = None → hasSingle w').
Proof.
  intros Hchild Hcs Hext1 Hx Hd Hl Hc Hn (m & Hmid & Hsame) (Hgood & Hoff & Hnew & Hb) Hrun.
  destruct r as [v' err].
  destruct (launch_inv m0 child t w0 m1 l c x v m w v' err w' Hchild Hext1 Hx Hd Hl Hc
              Hmid Hsame Hrun) as (-> & Hpre & Hwfx & Hchildrun & Hwf').
  set (tx := mkTakuzu (Size t) (length (wHeap w))) in *.
  set (w2 := mkWorld (wHeap w ++ [setM m l c v]) (solutionMap w) (singleSolution w) (ticks w))
    in *.
  pose proof Hmid as ([Hm _] & _ & _ & [Hlen0 _] & _).
  assert (Hlt : (Board t < length (wHeap w))%nat) by (by eapply lookup_lt_Some).
  assert (HsPre : singlePre m0 tx w2).
  { split; simpl.
    - eapply (singleGood_frame _ _ _ _ (length (wHeap w))); [done | | apply frame_app].
      intros s Hs. pose proof (singleGood_lt _ _ _ _ Hgood Hs). lia.
    - intros s Hs. pose proof (singleGood_lt _ _ _ _ Hgood Hs). simpl. lia. }
  destruct (Hcs b tx w2 err w' Hpre HsPre Hn Hb Hchildrun) as ((Hgood' & Hnew' & Hb') & Hfirst).
  split; [|done]. split_and!; try done.
  - intros s Hs. destruct (Hnew' s Hs) as [Hold | [Htx | Hfresh]]; simpl in *.
    + by apply Hoff.
    + lia.
    + rewrite length_app in Hfresh. simpl in Hfresh. lia.
  - intros s Hs. destruct (Hnew' s Hs) as [Hold | [Htx | Hfresh]]; simpl in *.
    + by apply Hnew.
    + right; right. lia.
    + right; right. rewrite length_app in Hfresh. simpl in Hfresh. lia.
Qed.

Lemma set_single b t w0 m1 l c v w w' :
  (l < Size t)%nat → (c < Size t)%nat →
  guessMid m0 t w0 m1 l c w → singleMid m0 b t w0 w →
  liftH (Takuzu_Set t l c v) w = Done (tt, w') → singleMid m0 b t w0 w'.
Proof.
  intros Hl Hc (m & Hmid & Hsame) Hs (h' & Hset & ->)%liftH_Done.
  pose proof Hmid as ([Hm Hsq] & _).
  rewrite (Takuzu_Set_run _ t m) in Hset by (done || by apply (squareM_cellAt (Size t))).
  injection Hset as <-. eapply singleMid_frame; [exact Hs | apply frame_insert | done].
Qed.

Lemma ask_single b t w0 (f : nat → bool) w a w' :
  singleMid m0 b t w0 w → ask f w = Done (a, w') → singleMid m0 b t w0 w'.
Proof. intros Hs [= _ <-]. by eapply singleMid_ext; [| |exact Hs]. Qed.

Lemma collectResult_single b level t w0 m1 l c val err st w r w' :
  (l < Size t)%nat → (c < Size t)%nat →
  guessMid m0 t w0 m1 l c w → singleMid m0 b t w0 w →
  collectResult globalSearch timeout expired level t l c val err st w = Done (r, w') →
  singleMid m0 b t w0 w'.
Proof.
  intros Hl Hc Hgm Hs Hrun. unfold collectResult in Hrun. destruct err as [e|].
  - apply bind_Done_inv in Hrun as (late & w1 & Hlate & Hrun).
    assert (Hgm1 : guessMid m0 t w0 m1 l c w1 ∧ singleMid m0 b t w0 w1).
    { destruct ((timeout >? 0) && (2 <? Z.of_nat level)).
      - split; [by eapply hoare_ask | by eapply ask_single].
      - by injection Hlate as <- <-. }
    destruct Hgm1 as [Hgm1 Hs1].
    destruct ((late : bool) && negb (String.eqb (causeText e) "timeout")).
    { by injection Hrun as <- <-. }
    destruct (String.eqb (causeText e) "timeout").
    { by injection Hrun as <- <-. }
    apply bind_Done_inv in Hrun as ([] & w2 & Hset & [= <- <-]).
    exact (set_single b t w0 m1 l c _ w1 w2 Hl Hc Hgm1 Hs1 Hset).
  - by destruct (negb globalSearch); injection Hrun as <- <-.
Qed.

Lemma tryValue_single child schrodinger level b t w0 m1 l c x testval st w r w' :
  childSpec m0 child → childSingle globalSearch m0 child →
  extendsM m0 m1 → cellAt m1 l c = Some x → Defined x = false →
  (l < Size t)%nat → (c < Size t)%nat → Size t = length m0 →
  guessMid m0 t w0 m1 l c w → singleMid m0 b t w0 w →
  tryValue globalSearch timeout expired zeroFirst child schrodinger level t l c testval st w
  = Done (r, w') →
  singleMid m0 b t w0 w'
  ∧ (globalSearch = false → wfBoard (wHeap w) t m1 →
     match r with
     | Return res => res = None → hasSingle w'
     | Break st' =>
       changed st' = true ∧ (schrodinger = true → errCount st' = errCount st + 2)
     | Next _ => False
     end).
Proof.
  intros Hchild Hcs Hext1 Hx Hd Hl Hc Hn Hgm Hs Hrun.
  unfold tryValue in Hrun.
  apply bind_Done_inv in Hrun as (y & w1 & Hload & Hrun).
  pose proof (hoare_load m0 t w0 m1 l c l c w y w1 Hgm Hload) as Hgm1.
  apply liftH_Done in Hload as (h1 & Hload & ->).
  pose proof (loadCell_heap _ _ _ _ _ _ Hload) as ->.
  assert (Hs1 : singleMid m0 b t w0
            (mkWorld (wHeap w) (solutionMap w) (singleSolution w) (ticks w)))
    by (by eapply singleMid_ext; [| |exact Hs]).
  set (w1 := mkWorld (wHeap w) (solutionMap w) (singleSolution w) (ticks w)) in *.
  assert (Hy : globalSearch = false → wfBoard (wHeap w) t m1 →
               negb globalSearch && Defined y = false).
  { intros Hgs [Hm _]. rewrite (loadCell_run _ _ _ _ _ _ Hm Hx) in Hload.
    injection Hload as <-. by rewrite Hd, andb_false_r. }
  destruct (negb globalSearch && Defined y) eqn:Hearly.
  { injection Hrun as <- <-. split; [done|]. intros Hgs Hwf. by pose proof (Hy Hgs Hwf). }
  clear Hy Hearly.
  apply bind_Done_inv in Hrun as (answers & w2 & Hans & Hrun).
  apply bind_Done_inv in Hrun as (rl & w3 & Hloop & Hret).
  assert (Hone : ∀ b' val err st0 wa rb wb,
    guessMid m0 t w0 m1 l c wa → singleMid m0 b' t w0 wa →
    collectResult globalSearch timeout expired level t l c val err st0 wa = Done (rb, wb) →
    guessMid m0 t w0 m1 l c wb ∧ singleMid m0 b' t w0 wb
    ∧ (globalSearch = false →
       match rb with
       | inr res => res = None → err = None
       | inl st' => changed st' = true ∧ errCount st' = errCount st0 + 1
       end)).
  { intros b' val err st0 wa rb wb Hgma Hsa Hc0. split_and!.
    - by eapply (collectResult_spec globalSearch timeout expired m0 level t w0 m1 l c x
                   val err st0 Hext1 Hx Hd Hl Hc wa rb wb).
    - exact (collectResult_single b' level t w0 m1 l c val err st0 wa rb wb Hl Hc Hgma Hsa Hc0).
    - intros Hgs. rewrite Hgs in Hc0. by eapply collectResult_first. }
  assert (Hup : ∀ wa, singleMid m0 b t w0 wa → hasSingle wa → singleMid m0 true t w0 wa).
  { intros wa Hsa Hhas. by eapply singleMid_upgrade. }
  destruct schrodinger.
  - apply bind_Done_inv in Hans as ([v0 e0] & wa & Hl0 & Hans).
    apply bind_Done_inv in Hans as ([v1 e1] & wb & Hl1 & Hans).
    apply bind_Done_inv in Hans as (first & wc & Hask & [= <- <-]).
    pose proof (launch_spec m0 child t w0 m1 l c x 0 Hchild Hext1 Hx Hd Hl Hc
                  w1 _ wa Hgm1 Hl0) as Hgma.
    destruct (launch_single child b t w0 m1 l c x 0 w1 _ wa Hchild Hcs Hext1 Hx Hd Hl Hc Hn
                Hgm1 Hs1 Hl0) as [Hsa He0].
    pose proof (launch_spec m0 child t w0 m1 l c x 1 Hchild Hext1 Hx Hd Hl Hc
                  wa _ wb Hgma Hl1) as Hgmb.
    destruct (launch_single child b t w0 m1 l c x 1 wa _ wb Hchild Hcs Hext1 Hx Hd Hl Hc Hn
                Hgma Hsa Hl1) as [Hsb He1].
    simpl in He0, He1.
    assert (He0b : globalSearch = false → e0 = None → hasSingle wb).
    { intros Hgs He. pose proof (Hup wa Hsa (He0 Hgs He)) as Hsa'.
      destruct (launch_single child true t w0 m1 l c x 1 wa _ wb Hchild Hcs Hext1 Hx Hd Hl Hc
                  Hn Hgma Hsa' Hl1) as [Hsb' _].
      by eapply singleMid_flag. }
    pose proof (hoare_ask m0 t w0 m1 l c zeroFirst wb first wc Hgmb Hask) as Hgmc.
    pose proof (ask_single b t w0 zeroFirst wb first wc Hsb Hask) as Hsc.
    assert (Hhc : hasSingle wb → hasSingle wc).
    { intros Hhas. pose proof (ask_single true t w0 zeroFirst wb first wc (Hup wb Hsb Hhas) Hask).
      by eapply singleMid_flag. }
    assert (Hboth : ∀ va ea vb eb,
      (globalSearch = false → ea = None → hasSingle wc) →
      (globalSearch = false → eb = None → hasSingle wc) →
      loopM (λ '(val, err) st, collectResult globalSearch timeout expired level t l c val err st)
        [(va, ea); (vb, eb)] st wc = Done (rl, w3) →
      singleMid m0 b t w0 w3
      ∧ (globalSearch = false →
         match rl with
         | inr res => res = None → hasSingle w3
         | inl st' => changed st' = true ∧ errCount st' = errCount st + 2
         end)).
    { intros va ea vb eb Hea Heb Hrun2. simpl in Hrun2.
      apply bind_Done_inv in Hrun2 as (ra & wd & Hca & Hrun2).
      destruct (Hone b _ _ _ _ _ _ Hgmc Hsc Hca) as (Hgmd & Hsd & Hra).
      assert (Hhd : hasSingle wc → hasSingle wd).
      { intros Hhas. destruct (Hone true _ _ _ _ _ _ Hgmc (Hup wc Hsc Hhas) Hca) as (_ & Hsd' & _).
        by eapply singleMid_flag. }
      destruct ra as [sta|resa].
      - apply bind_Done_inv in Hrun2 as (rb & we & Hcb & Hrun2).
        destruct (Hone b _ _ _ _ _ _ Hgmd Hsd Hcb) as (Hgme & Hse & Hrb).
        assert (Hhe : hasSingle wd → hasSingle we).
        { intros Hhas.
          destruct (Hone true _ _ _ _ _ _ Hgmd (Hup wd Hsd Hhas) Hcb) as (_ & Hse' & _).
          by eapply singleMid_flag. }
        destruct rb as [stb|resb]; injection Hrun2 as <- <-; (split; [done|]); intros Hgs.
        + destruct (Hra Hgs) as [_ Hca1]. destruct (Hrb Hgs) as [Hch Hcb1].
          split; [done | lia].
        + intros ->. apply Hhe, Hhd, Heb; [done|]. by apply Hrb.
      - injection Hrun2 as <- <-. split; [done|]. intros Hgs ->.
        apply Hhd, Hea; [done|]. by apply Hra. }
    assert (Hfin : singleMid m0 b t w0 w3
      ∧ (globalSearch = false →
         match rl with
         | inr res => res = None → hasSingle w3
         | inl st' => changed st' = true ∧ errCount st' = errCount st + 2
         end)).
    { destruct first.
      - apply (Hboth v0 e0 v1 e1); [intros; apply Hhc; auto | intros; apply Hhc; auto | done].
      - apply (Hboth v1 e1 v0 e0); [intros; apply Hhc; auto | intros; apply Hhc; auto | done]. }
    destruct Hfin as [Hs3 Hfin]. destruct rl as [st'|res].
    + rewrite orb_true_r in Hret. injection Hret as <- <-. split; [done|].
      intros Hgs _. destruct (Hfin Hgs) as [Hch Hcnt]. done.
    + injection Hret as <- <-. split; [done|]. intros Hgs _. by apply Hfin.
  - apply bind_Done_inv in Hans as ([v0 e0] & wa & Hl0 & [= <- <-]).
    pose proof (launch_spec m0 child t w0 m1 l c x testval Hchild Hext1 Hx Hd Hl Hc
                  w1 _ wa Hgm1 Hl0) as Hgma.
    destruct (launch_single child b t w0 m1 l c x testval w1 _ wa Hchild Hcs Hext1 Hx Hd
                Hl Hc Hn Hgm1 Hs1 Hl0) as [Hsa He0].
    simpl in He0, Hloop.
    apply bind_Done_inv in Hloop as (ra & wd & Hca & Hloop).
    destruct (Hone b _ _ _ _ _ _ Hgma Hsa Hca) as (Hgmd & Hsd & Hra).
    assert (Hhd : hasSingle wa → hasSingle wd).
    { intros Hhas. destruct (Hone true _ _ _ _ _ _ Hgma (Hup wa Hsa Hhas) Hca) as (_ & Hsd' & _).
      by eapply singleMid_flag. }
    destruct ra as [sta|resa]; injection Hloop as <- <-.
    + rewrite orb_false_r in Hret.
      destruct (changed sta && negb globalSearch) eqn:Hbr; injection Hret as <- <-;
        (split; [done|]); intros Hgs _; destruct (Hra Hgs) as [Hch _].
      * done.
      * by rewrite Hch, Hgs in Hbr.
    + injection Hret as <- <-. split; [done|]. intros Hgs _ ->.
      apply Hhd, He0; [done|]. by apply Hra.
Qed.

Lemma tryValues_single child schrodinger level b t w0 m1 l c x w r w' :
  childSpec m0 child → childSingle globalSearch m0 child →
  extendsM m0 m1 → cellAt m1 l c = Some x → Defined x = false →
  (l < Size t)%nat → (c < Size t)%nat → Size t = length m0 →
  guessMid m0 t w0 m1 l c w → singleMid m0 b t w0 w →
  tryValues globalSearch timeout expired zeroFirst child schrodinger level t l c w
  = Done (r, w') →
  singleMid m0 b t w0 w'
  ∧ (globalSearch = false → wfBoard (wHeap w) t m1 →
     match r with
     | inr res => res = None → hasSingle w'
     | inl st => changed st = true ∧ (schrodinger = true → errCount st = 2)
     end).
Proof.
  intros Hchild Hcs Hext1 Hx Hd Hl Hc Hn Hgm Hs Hrun.
  unfold tryValues in Hrun.
  apply bind_Done_inv in Hrun as (r0 & w1 & Hv0 & Hrun).
  destruct (tryValue_single child schrodinger level b t w0 m1 l c x 0 _ w r0 w1
              Hchild Hcs Hext1 Hx Hd Hl Hc Hn Hgm Hs Hv0) as [Hs1 Hr0].
  pose proof (tryValue_spec globalSearch timeout expired zeroFirst m0 child schrodinger level
                t w0 m1 l c x 0 _ Hchild Hext1 Hx Hd Hl Hc w r0 w1 Hgm Hv0) as Hgm1.
  destruct r0 as [st|st|res].
  - apply bind_Done_inv in Hrun as (r1 & w2 & Hv1 & Hrun).
    destruct (tryValue_single child schrodinger level b t w0 m1 l c x 1 _ w1 r1 w2
                Hchild Hcs Hext1 Hx Hd Hl Hc Hn Hgm1 Hs1 Hv1) as [Hs2 _].
    assert (Hno : globalSearch = false → wfBoard (wHeap w) t m1 → False) by done.
    destruct r1 as [st'|st'|res]; injection Hrun as <- <-; (split; [done|]);
      intros Hgs Hwf; destruct (Hno Hgs Hwf).
  - injection Hrun as <- <-. split; [done|]. intros Hgs Hwf.
    destruct (Hr0 Hgs Hwf) as [Hch Hcnt]. split; [done|]. intros Hsch.
    rewrite (Hcnt Hsch). done.
  - injection Hrun as <- <-. split; [done|]. intros Hgs Hwf. by apply Hr0.
Qed.

(** One pass of the outer loop of [recurseSolve]. *)
Lemma solveNode_single again child fuel level b t w0 err w' :
  childSpec m0 child → childSingle globalSearch m0 child →
  (∀ w1 err1 w2, solvePre m0 t w1 → again w1 = Done (err1, w2) → solvePost m0 t w1 w2) →
  (∀ b1 w1 err1 w2, solvePre m0 t w1 → singlePre m0 t w1 → (b1 = true → hasSingle w1) →
     again w1 = Done (err1, w2) →
     singlePost m0 b1 t w1 w2 ∧ (globalSearch = false → err1 = None → hasSingle w2)) →
  solvePre m0 t w0 → singlePre m0 t w0 → Size t = length m0 → (b = true → hasSingle w0) →
  solveNode schrodLvl globalSearch timeout expired zeroFirst again child fuel level t w0
  = Done (err, w') →
  singlePost m0 b t w0 w' ∧ (globalSearch = false → err = None → hasSingle w').
Proof.
  intros Hchild Hcs Hagain Hagain2 Hpre HsPre Hn Hb Hrun.
  destruct (solveMid_start _ _ _ Hpre) as (m & Hmid).
  pose proof (singleMid_start m0 b t w0 HsPre Hb) as Hs.
  pose proof Hmid as ([Hm Hsq] & Hok & Hext & _).
  assert (Hlt : (Board t < length (wHeap w0))%nat) by (by eapply lookup_lt_Some).
  unfold solveNode in Hrun.
  apply bind_Done_inv in Hrun as ([fl e] & w1 & Htriv & Hrun).
  apply liftH_Done in Htriv as (h1 & Htriv & ->).
  pose proof (TrySolveTrivial_run (wHeap w0) t m [] fuel Hlt Hsq Hok) as Hrun1.
  rewrite <- (boardHeap_init _ _ _ Hm) in Hrun1.
  destruct (trivialM fuel m) as [m1|] eqn:Hm1; [|congruence].
  destruct Hrun1 as (r & junk & Hrun1 & Hres). rewrite Hrun1 in Htriv.
  injection Htriv as -> <-.
  destruct (trivialM_spec _ _ _ _ Hsq Hok Hm1) as (Hsq1 & Hok1 & Hext1 & _).
  assert (Hext01 : extendsM m0 m1) by (by eapply extendsM_trans).
  pose proof (solveMid_write m0 t w0 m w0 m1 junk Hmid Hsq1 Hok1 Hext01) as Hmid1.
  set (w1 := mkWorld (boardHeap (wHeap w0) t m1 junk) (solutionMap w0)
               (singleSolution w0) (ticks w0)) in *.
  assert (Hs1 : singleMid m0 b t w0 w1).
  { eapply singleMid_frame; [exact Hs | apply frame_boardHeap | done]. }
  unfold trivialResult in Hres.
  destruct (validateM m1) as [[fl' e']|] eqn:Hval; [|done]. injection Hres as -> He.
  destruct e as [e|].
  { injection Hrun as <- <-. split; [by eapply singleMid_post | done]. }
  destruct e' as [e'|]; [done|]. clear He.
  destruct fl.
  { apply bind_Done_inv in Hrun as ([] & w2 & Hrec & [= <- <-]).
    pose proof (recordSolution_single b t w0 m1 w1 w2 Hmid1 Hn Hs1 Hval Hrec) as Hpost.
    split; [by apply singlePost_weaken|]. intros _ _. by destruct Hpost as (_ & _ & Hhas);
      apply Hhas. }
  apply bind_Done_inv in Hrun as ([line col] & w2 & Hfirst & Hrun).
  apply liftH_Done in Hfirst as (h2 & Hfirst & ->).
  pose proof Hmid1 as (Hwf1 & _).
  destruct (firstClear_spec _ _ _ _ _ _ Hwf1 Hfirst) as [-> Hpos].
  assert (Hmid2 : solveMid m0 t w0 m1
            (mkWorld (wHeap w1) (solutionMap w1) (singleSolution w1) (ticks w1)))
    by (by eapply solveMid_ext; [| |exact Hmid1]).
  assert (Hs2 : singleMid m0 b t w0
            (mkWorld (wHeap w1) (solutionMap w1) (singleSolution w1) (ticks w1)))
    by (by eapply singleMid_ext; [| |exact Hs1]).
  set (w2 := mkWorld (wHeap w1) (solutionMap w1) (singleSolution w1) (ticks w1)) in *.
  destruct (decide (line = Size t ∨ col = Size t)) as [Hend|Hin].
  { pose proof (firstClear_full _ _ _ _ _ _ Hwf1 Hfirst Hend) as Hfull.
    by pose proof (proj2 (validateM_finished _ _ _ Hsq1 Hval) Hfull). }
  destruct Hpos as [? | [? | (Hl & Hc & x & Hx & Hd)]]; [tauto | tauto |].
  apply bind_Done_inv in Hrun as (r & w3 & Htry & Hrun).
  assert (Hgm : guessMid m0 t w0 m1 line col w2).
  { exists m1. split; [done | apply sameExcept_refl]. }
  pose proof (tryValues_spec globalSearch timeout expired zeroFirst m0 child _ level t w0
                m1 line col x Hchild Hext01 Hx Hd Hl Hc w2 r w3 Hgm Htry) as (m3 & Hmid3 & _).
  destruct (tryValues_single child _ level b t w0 m1 line col x w2 r w3
              Hchild Hcs Hext01 Hx Hd Hl Hc Hn Hgm Hs2 Htry) as [Hs3 Hr].
  destruct r as [st|res].
  - destruct (errCount st =? 2) eqn:Hcount.
    { injection Hrun as <- <-. split; [by eapply singleMid_post | done]. }
    destruct (bool_decide (level < schrodLvl)%nat || globalSearch || negb (changed st))
      eqn:Hstop.
    + split; [by eapply finishNode_single|]. intros Hgs _.
      destruct (Hr Hgs Hwf1) as [Hch Hcnt]. rewrite Hgs, Hch in Hstop. simpl in Hstop.
      rewrite !orb_false_r in Hstop. rewrite (Hcnt Hstop) in Hcount. done.
    + pose proof Hmid3 as (_ & _ & _ & [Hlen3 _] & _).
      destruct (Hagain2 b w3 err w' (solveMid_pre _ _ _ _ _ Hmid3)
                  (singleMid_pre _ _ _ _ _ Hs3) (singleMid_flag _ _ _ _ _ Hs3) Hrun)
        as [Hpost Hfirst'].
      split; [by eapply singlePost_trans | done].
  - injection Hrun as <- <-. split; [by eapply singleMid_post|].
    intros Hgs. by apply Hr.
Qed.

Lemma recurseSolve_single fuel : ∀ level b t w0 err w',
  solvePre m0 t w0 → singlePre m0 t w0 → Size t = length m0 → (b = true → hasSingle w0) →
  recurseSolve schrodLvl globalSearch timeout expired zeroFirst fuel level t w0
  = Done (err, w') →
  singlePost m0 b t w0 w' ∧ (globalSearch = false → err = None → hasSingle w').
Proof.
  induction fuel as [|fuel IH]; intros level b t w0 err w' Hpre HsPre Hn Hb Hrun; [done|].
  simpl in Hrun. eapply solveNode_single; [| | | |done|done|done|done|exact Hrun].
  - intros tx w1 err1 w2. apply recurseSolve_spec.
  - intros b1 tx w1 err1 w2 Hp Hsp Hsz Hb1. by apply IH.
  - intros w1 err1 w2. apply recurseSolve_spec.
  - intros b1 w1 err1 w2 Hp Hsp Hb1. by apply IH.
Qed.

End SingleProofs.

(** In first-solution mode (no accumulator), a board returned by
    [TrySolveRecurse], with or without an error, has the size of the board
    given and holds a solution of it; and a run without error returns a
    board.  This holds for every Schrodinger level, timeout, clock and
    order of answers. *)
Theorem TrySolveRecurse_first_solution
    (schrodLvl : nat) (timeout : Z) (expired zeroFirst : nat → bool) (fuel : nat)
    (h0 h' : heap) (b : Takuzu) (m : matrix) (acc acc' : list Takuzu)
    (sol : option Takuzu) (err : option solveError) :
  wfBoard h0 b m → matrixOk m →
  TrySolveRecurse schrodLvl false timeout expired zeroFirst fuel b acc h0
  = Done ((sol, err, acc'), h') →
  (err = None → is_Some sol)
  ∧ ∀ s, sol = Some s → Size s = Size b ∧ ∃ S, wfBoard h' s S ∧ solutionOf m S.
Proof.
  intros Hwf Hok Hrun. unfold TrySolveRecurse in Hrun.
  destruct (recurseSolve _ _ _ _ _ _ _ _ _) as [[err0 w]| |] eqn:Hrec; [|done..].
  pose proof Hwf as [Hm [Hlen Hrows]].
  assert (Hpre : solvePre m b (mkWorld h0 ∅ None 0)).
  { exists m. split_and!; simpl; [done | done | apply extendsM_refl | |];
      intros key s Hs; by rewrite lookup_empty in Hs. }
  assert (HsPre : singlePre m b (mkWorld h0 ∅ None 0)) by (by split; intros s Hs).
  destruct (recurseSolve_single schrodLvl false timeout expired zeroFirst m fuel 0%nat false
              b _ err0 w Hpre HsPre (eq_sym Hlen) ltac:(done) Hrec) as ((Hgood & _) & Hfirst).
  assert (Hres : sol = singleSolution w ∧ err = err0 ∧ h' = wHeap w).
  { destruct err0; injection Hrun as <- <- <- <-; done. }
  destruct Hres as (-> & -> & ->). split.
  - intros ->. by apply Hfirst.
  - intros s Hs. destruct (Hgood s Hs) as [Hsz (key & ms & Hwfs & Hoks & Hval & _ & Hexts)].
    split; [congruence|]. exists ms. split; [done|]. split_and!; try done.
    destruct Hwfs as [_ Hsqs]. by rewrite <- Hsz.
Qed.

Lemma TrySolveRecurse_first_solution_witness :
  let b := mkTakuzu 4 0 in
  let h0 := [sampleBoard] in
  let r := TrySolveRecurse 0 false 0 (λ _, false) (λ _, true) 40 b [] h0 in
  let h' := match r with Done (_, h) => h | _ => [] end in
  let sol := Some (mkTakuzu 4 21) in
  (wfBoard h0 b sampleBoard ∧ matrixOk sampleBoard
   ∧ TrySolveRecurse 0 false 0 (λ _, false) (λ _, true) 40 b [] h0
     = Done ((sol, None, []), h'))
  ∧ ((None : option solveError) = None → is_Some sol)
  ∧ ∀ s, sol = Some s → Size s = Size b ∧ ∃ S, wfBoard h' s S ∧ solutionOf sampleBoard S.
Proof.
  intros b h0 r h' sol.
  assert (Hwf : wfBoard h0 b sampleBoard) by (by apply wfBoard_check).
  assert (Hok : matrixOk sampleBoard) by (by apply matrixOkb_sound).
  assert (Hrun : TrySolveRecurse 0 false 0 (λ _, false) (λ _, true) 40 b [] h0
                 = Done ((sol, None, []), h')) by (vm_compute; reflexivity).
  split; [exact (conj Hwf (conj Hok Hrun))|].
  exact (TrySolveRecurse_first_solution 0 0 (λ _, false) (λ _, true) 40 h0 h' b
           sampleBoard [] [] sol None Hwf Hok Hrun).
Defined.

(** ** The search returns *)

Lemma liftH_run {A} (m : H A) w a h' :
  m (wHeap w) = Done (a, h') →
  liftH m w = Done (a, mkWorld h' (solutionMap w) (singleSolution w) (ticks w)).
Proof. intros Hrun. apply liftH_Done. eauto. Qed.

Lemma undefinedCount_setM m l c v x :
  cellAt m l c = Some x → v = 0 ∨ v = 1 →
  (undefinedCount (setM m l c v) + (if Defined x then 0 else 1) = undefinedCount m)%nat.
Proof.
  intros Hx Hv. unfold setM. rewrite Hx. rewrite decide_False by lia.
  pose proof (undefinedCount_setCellM m l c x (mkCell true v) Hx) as Hc. simpl in Hc. lia.
Qed.

Lemma setM_sameExcept n m1 m l c v :
  squareM n m1 → squareM n m → sameExcept m1 l c m →
  (l < n)%nat → (c < n)%nat → v = 0 ∨ v = 1 → setM m l c v = setM m1 l c v.
Proof.
  intros H1 H Hsame Hl Hc Hv. apply (matrix_ext n); [by apply squareM_setM..|].
  intros l' c' Hl' Hc'. destruct (decide ((l, c) = (l', c'))) as [[= <- <-]|Hne].
  - destruct (squareM_cellAt _ _ l c H Hl Hc) as [y Hy].
    destruct (squareM_cellAt _ _ l c H1 Hl Hc) as [y1 Hy1].
    rewrite (cellAt_setM_eq _ _ _ _ _ Hy), (cellAt_setM_eq _ _ _ _ _ Hy1).
    by rewrite !decide_True.
  - rewrite !cellAt_setM_ne by done. apply Hsame. intros [= -> ->]. done.
Qed.

(** Giving the guessed cell a value leaves one undefined cell fewer than
    the trivial fixpoint did. *)
Lemma guess_count n m1 m l c x v :
  squareM n m1 → squareM n m → sameExcept m1 l c m →
  cellAt m1 l c = Some x → Defined x = false →
  (l < n)%nat → (c < n)%nat → v = 0 ∨ v = 1 →
  (undefinedCount (setM m l c v) + 1 = undefinedCount m1)%nat.
Proof.
  intros H1 H Hsame Hx Hd Hl Hc Hv. rewrite (setM_sameExcept n m1 m l c v) by done.
  pose proof (undefinedCount_setM m1 l c v x Hx Hv) as Hcount. rewrite Hd in Hcount. lia.
Qed.

Lemma progress_ext t m1 st w w' : wHeap w' = wHeap w → progress t m1 st w → progress t m1 st w'.
Proof. unfold progress. by intros ->. Qed.

Lemma firstClear_total h t m : wfBoard h t m → ∃ r h', firstClear t h = Done (r, h').
Proof.
  intros [Hm Hsq]. unfold firstClear.
  destruct (loopM_upto
    (λ line (_ : unit),
      loopM (λ col (_ : unit),
        x ← loadCell t line col;
        if negb (Defined x) then mret (inr (line, col)) else mret (inl tt))
        (upto (Size t)) tt) (Size t)
    (λ _ _ h1, h1 = h) (λ _ h1, h1 = h) tt h) as (r & h1 & Hloop & Hpost).
  - done.
  - intros l [] h2 Hl ->.
    destruct (loopM_upto
      (λ col (_ : unit),
        x ← loadCell t l col;
        if negb (Defined x) then mret (inr (l, col)) else mret (inl tt))
      (Size t) (λ _ _ h1, h1 = h) (λ _ h1, h1 = h) tt h) as (r & h1 & Hloop & Hpost).
    + done.
    + intros c [] h3 Hc ->.
      destruct (squareM_cellAt _ _ l c Hsq Hl Hc) as [y Hy].
      rewrite (run_bind _ _ _ _ _ (loadCell_run _ _ _ _ _ _ Hm Hy)).
      destruct (Defined y); simpl; eexists _, _; (split; [reflexivity | done]).
    + exists r, h1. split; [done|]. by destruct r.
  - rewrite (run_bind _ _ _ _ _ Hloop). destruct r as [[]|[l c]]; eexists _, _; reflexivity.
Qed.

Section Total.
Variable schrodLvl : nat.
Variable globalSearch : bool.
Variable timeout : Z.
Variable expired zeroFirst : nat → bool.
Variable m0 : matrix.

Lemma recordSolution_total t w m :
  wfBoard (wHeap w) t m → ∃ w', recordSolution globalSearch t w = Done (tt, w').
Proof.
  intros Hwf. unfold recordSolution. destruct globalSearch; [|eexists; reflexivity].
  rewrite (run_bind _ _ _ _ _ (liftH_run _ w _ _ (ToString_run _ _ _ Hwf))).
  eexists. reflexivity.
Qed.

Lemma finishNode_total t w0 m w :
  solveMid m0 t w0 m w → ∃ r w', finishNode globalSearch t w = Done (r, w').
Proof.
  intros (Hwf & Hok & _). pose proof Hwf as [_ Hsq]. unfold finishNode.
  destruct (validateM_total _ _ Hsq Hok) as [[fl e] Hval].
  assert (Hrun : Validate t (wHeap w) = Done ((fl, e), wHeap w))
    by (by rewrite (Validate_run _ _ _ Hwf), Hval).
  rewrite (run_bind _ _ _ _ _ (liftH_run _ w _ _ Hrun)).
  destruct e as [e|]; [eexists _, _; reflexivity|].
  destruct fl.
  - destruct (recordSolution_total t
                (mkWorld (wHeap w) (solutionMap w) (singleSolution w) (ticks w)) m Hwf)
      as [w2 Hrec].
    rewrite (run_bind _ _ _ _ _ Hrec). eexists _, _; reflexivity.
  - eexists _, _; reflexivity.
Qed.

Lemma launch_total child t w0 m1 l c x v w k st :
  childSpec m0 child → childTotal m0 k child →
  extendsM m0 m1 → squareM (Size t) m1 → cellAt m1 l c = Some x → Defined x = false →
  (l < Size t)%nat → (c < Size t)%nat → v = 0 ∨ v = 1 → (undefinedCount m1 ≤ k)%nat →
  guessMid m0 t w0 m1 l c w → progress t m1 st w →
  ∃ err w', launch child t l c v w = Done ((v, err), w')
    ∧ guessMid m0 t w0 m1 l c w' ∧ progress t m1 st w'.
Proof.
  intros Hchild Htot Hext1 Hsq1 Hx Hd Hl Hc Hv Hk Hgm Hp.
  pose proof Hgm as (m & Hmid & Hsame).
  pose proof Hmid as (Hwf & Hok & Hext & Hfr & Hgood & Hun & Hnew).
  pose proof Hwf as [Hm Hsq].
  set (tx := mkTakuzu (Size t) (length (wHeap w))).
  set (wc := mkWorld (wHeap w ++ [m]) (solutionMap w) (singleSolution w) (ticks w)).
  set (w2 := mkWorld (wHeap w ++ [setM m l c v]) (solutionMap w) (singleSolution w) (ticks w)).
  assert (Hclone : liftH (Clone t) w = Done (tx, wc)).
  { apply liftH_run. by apply Clone_run. }
  assert (Hset : liftH (Takuzu_Set tx l c v) wc = Done (tt, w2)).
  { unfold w2. rewrite <- (heap_insert_snoc (wHeap w) m (setM m l c v)).
    apply (liftH_run _ wc). simpl.
    apply (Takuzu_Set_run _ tx m); [apply heap_lookup_snoc | by apply (squareM_cellAt (Size t))]. }
  destruct (setM_wf (Size t) m l c v Hsq Hok) as [Hsq' Hok'].
  assert (Hwfx : wfBoard (wHeap w2) tx (setM m l c v)) by (by apply wfBoard_snoc).
  assert (Hpre : solvePre m0 tx w2).
  { exists (setM m l c v). split_and!; simpl.
    - done.
    - done.
    - apply (extendsM_sameExcept m0 m1 l c x); [done..|]. by apply sameExcept_setM.
    - eapply (mapGood_frame _ _ _ _ (length (wHeap w))); [done | | apply frame_app].
      intros key s Hs. apply Hgood, goodSolution_lt in Hs. lia.
    - intros key s Hs. apply Hgood, goodSolution_lt in Hs. simpl. lia. }
  assert (Hu : (undefinedCount (setM m l c v) < k)%nat).
  { pose proof (guess_count (Size t) m1 m l c x v Hsq1 Hsq Hsame Hx Hd Hl Hc Hv). lia. }
  destruct (Htot tx w2 _ Hpre Hwfx Hu) as [[err w3] Hc3].
  assert (Hrun : launch child t l c v w = Done ((v, err), w3)).
  { unfold launch. rewrite (run_bind _ _ _ _ _ Hclone). rewrite (run_bind _ _ _ _ _ Hset).
    by rewrite (run_bind _ _ _ _ _ Hc3). }
  exists err, w3. split; [done|]. split.
  - exact (launch_spec m0 child t w0 m1 l c x v Hchild Hext1 Hx Hd Hl Hc w _ w3 Hgm Hrun).
  - destruct (launch_inv m0 child t w0 m1 l c x v m w v err w3 Hchild Hext1 Hx Hd Hl Hc
                Hmid Hsame Hrun) as (_ & _ & _ & _ & Hwf').
    intros Hch m' Hm'. rewrite (wfBoard_fun _ _ _ _ Hwf' Hm'). by apply Hp.
Qed.

Lemma collectResult_total level t w0 m1 l c x val err st w :
  extendsM m0 m1 → squareM (Size t) m1 → cellAt m1 l c = Some x → Defined x = false →
  (l < Size t)%nat → (c < Size t)%nat → val = 0 ∨ val = 1 →
  guessMid m0 t w0 m1 l c w → progress t m1 st w →
  ∃ r w', collectResult globalSearch timeout expired level t l c val err st w = Done (r, w')
    ∧ guessMid m0 t w0 m1 l c w'
    ∧ match r with inl st' => progress t m1 st' w' | inr _ => True end.
Proof.
  intros Hext1 Hsq1 Hx Hd Hl Hc Hval Hgm Hp.
  assert (Hex : ∃ r w',
    collectResult globalSearch timeout expired level t l c val err st w = Done (r, w')
    ∧ match r with inl st' => progress t m1 st' w' | inr _ => True end).
  { unfold collectResult. destruct err as [e|].
    - set (q := if (timeout >? 0) && (2 <? Z.of_nat level) then ask expired else mret false).
      assert (Hq : ∃ late w1, q w = Done (late, w1)
                     ∧ wHeap w1 = wHeap w ∧ solutionMap w1 = solutionMap w).
      { unfold q. destruct (_ && _); eexists _, _; (split; [reflexivity | done]). }
      destruct Hq as (late & w1 & Hq & Hh & Hsm). rewrite (run_bind _ _ _ _ _ Hq).
      destruct ((late : bool) && negb (String.eqb (causeText e) "timeout")).
      { eexists _, _. split; [reflexivity | done]. }
      destruct (String.eqb (causeText e) "timeout").
      { eexists _, _. split; [reflexivity | done]. }
      destruct (guessMid_ext m0 t w0 m1 l c w w1 Hh Hsm Hgm) as (m & Hmid & Hsame).
      pose proof Hmid as ([Hm Hsq] & _).
      assert (Hset : Takuzu_Set t l c (1 - val) (wHeap w1)
                     = Done (tt, <[Board t := setM m l c (1 - val)]> (wHeap w1))).
      { apply Takuzu_Set_run; [done | by apply (squareM_cellAt (Size t))]. }
      rewrite (run_bind _ _ _ _ _ (liftH_run _ w1 _ _ Hset)).
      eexists _, _. split; [reflexivity|].
      intros _ m' [Hm' _]. simpl in Hm'.
      rewrite list_lookup_insert_eq in Hm' by (by eapply lookup_lt_Some).
      injection Hm' as <-.
      pose proof (guess_count (Size t) m1 m l c x (1 - val) Hsq1 Hsq Hsame Hx Hd Hl Hc
                    ltac:(lia)). lia.
    - destruct (negb globalSearch); eexists _, _; (split; [reflexivity | done]). }
  destruct Hex as (r & w' & Hrun & Hpost). exists r, w'. split_and!; try done.
  exact (collectResult_spec globalSearch timeout expired m0 level t w0 m1 l c x
           val err st Hext1 Hx Hd Hl Hc w r w' Hgm Hrun).
Qed.

Lemma tryValue_total child schrodinger level t w0 m1 l c x testval st w k :
  childSpec m0 child → childTotal m0 k child →
  extendsM m0 m1 → squareM (Size t) m1 → cellAt m1 l c = Some x → Defined x = false →
  (l < Size t)%nat → (c < Size t)%nat → testval = 0 ∨ testval = 1 →
  (undefinedCount m1 ≤ k)%nat →
  guessMid m0 t w0 m1 l c w → progress t m1 st w →
  ∃ r w',
    tryValue globalSearch timeout expired zeroFirst child schrodinger level t l c testval st w
    = Done (r, w')
    ∧ guessMid m0 t w0 m1 l c w'
    ∧ match r with
      | Next st' | Break st' => progress t m1 st' w'
      | Return _ => True
      end.
Proof.
  intros Hchild Htot Hext1 Hsq1 Hx Hd Hl Hc Htv Hk Hgm Hp.
  assert (Hex : ∃ r w',
    tryValue globalSearch timeout expired zeroFirst child schrodinger level t l c testval st w
    = Done (r, w')
    ∧ match r with
      | Next st' | Break st' => progress t m1 st' w'
      | Return _ => True
      end).
  { pose proof Hgm as (m & Hmid & Hsame). pose proof Hmid as ([Hm Hsq] & _).
    destruct (squareM_cellAt _ _ l c Hsq Hl Hc) as [y Hy].
    unfold tryValue.
    rewrite (run_bind _ _ _ _ _ (liftH_run _ w y _ (loadCell_run _ _ _ _ _ _ Hm Hy))).
    set (w1 := mkWorld (wHeap w) (solutionMap w) (singleSolution w) (ticks w)).
    assert (Hgm1 : guessMid m0 t w0 m1 l c w1) by (by eapply guessMid_ext; [| |exact Hgm]).
    assert (Hp1 : progress t m1 st w1) by (by eapply progress_ext; [|exact Hp]).
    destruct (negb globalSearch && Defined y).
    { eexists _, _. split; [reflexivity | done]. }
    set (q := if schrodinger
              then a0 ← launch child t l c 0; a1 ← launch child t l c 1;
                   first ← ask zeroFirst;
                   mret (if (first : bool) then [a0; a1] else [a1; a0])
              else a ← launch child t l c testval; mret [a]).
    assert (Hans : ∃ answers w2, q w1 = Done (answers, w2)
              ∧ guessMid m0 t w0 m1 l c w2 ∧ progress t m1 st w2
              ∧ Forall (λ a : Z * option solveError, a.1 = 0 ∨ a.1 = 1) answers).
    { unfold q. destruct schrodinger.
      - destruct (launch_total child t w0 m1 l c x 0 w1 k st Hchild Htot Hext1 Hsq1 Hx Hd
                    Hl Hc (or_introl eq_refl) Hk Hgm1 Hp1) as (e0 & wa & Hl0 & Hgma & Hpa).
        destruct (launch_total child t w0 m1 l c x 1 wa k st Hchild Htot Hext1 Hsq1 Hx Hd
                    Hl Hc (or_intror eq_refl) Hk Hgma Hpa) as (e1 & wb & Hl1 & Hgmb & Hpb).
        rewrite (run_bind _ _ _ _ _ Hl0), (run_bind _ _ _ _ _ Hl1).
        eexists _, _. split; [reflexivity|]. split_and!.
        + by eapply guessMid_ext; [| |exact Hgmb].
        + by eapply progress_ext; [|exact Hpb].
        + destruct (zeroFirst (ticks wb));
            repeat first [apply Forall_nil_2 | apply Forall_cons_2]; simpl; lia.
      - destruct (launch_total child t w0 m1 l c x testval w1 k st Hchild Htot Hext1 Hsq1 Hx
                    Hd Hl Hc Htv Hk Hgm1 Hp1) as (e0 & wa & Hl0 & Hgma & Hpa).
        rewrite (run_bind _ _ _ _ _ Hl0).
        eexists _, _. split; [reflexivity|]. split_and!; try done.
        apply Forall_cons_2; [done | apply Forall_nil_2]. }
    destruct Hans as (answers & w2 & Hans & Hgm2 & Hp2 & Hvals).
    rewrite (run_bind _ _ _ _ _ Hans).
    destruct (loopM_inv
      (λ '(val, err) st, collectResult globalSearch timeout expired level t l c val err st)
      answers
      (λ _ st' w', guessMid m0 t w0 m1 l c w' ∧ progress t m1 st' w')
      (λ _ _, True) st w2) as (rl & w3 & Hloop & Hpost).
    - done.
    - intros i [val err] acc s Hi [Hg Hp'].
      pose proof (proj1 (Forall_lookup _ _) Hvals i _ Hi) as Hv. simpl in Hv.
      destruct (collectResult_total level t w0 m1 l c x val err acc s Hext1 Hsq1 Hx Hd Hl Hc
                  Hv Hg Hp') as (r & s' & Hr & Hg' & Hp'').
      exists r, s'. split; [done|]. by destruct r.
    - rewrite (run_bind _ _ _ _ _ Hloop). destruct rl as [st'|res].
      + destruct Hpost as [_ Hp3].
        destruct ((changed st' && negb globalSearch) || schrodinger);
          eexists _, _; (split; [reflexivity | done]).
      + eexists _, _. split; [reflexivity | done]. }
  destruct Hex as (r & w' & Hrun & Hpost). exists r, w'. split_and!; try done.
  exact (tryValue_spec globalSearch timeout expired zeroFirst m0 child schrodinger level
           t w0 m1 l c x testval st Hchild Hext1 Hx Hd Hl Hc w r w' Hgm Hrun).
Qed.

Lemma tryValues_total child schrodinger level t w0 m1 l c x w k :
  childSpec m0 child → childTotal m0 k child →
  extendsM m0 m1 → squareM (Size t) m1 → cellAt m1 l c = Some x → Defined x = false →
  (l < Size t)%nat → (c < Size t)%nat → (undefinedCount m1 ≤ k)%nat →
  guessMid m0 t w0 m1 l c w →
  ∃ r w',
    tryValues globalSearch timeout expired zeroFirst child schrodinger level t l c w
    = Done (r, w')
    ∧ match r with inl st => progress t m1 st w' | inr _ => True end.
Proof.
  intros Hchild Htot Hext1 Hsq1 Hx Hd Hl Hc Hk Hgm. unfold tryValues.
  destruct (tryValue_total child schrodinger level t w0 m1 l c x 0 (mkGuessState 0 false) w k
              Hchild Htot Hext1 Hsq1 Hx Hd Hl Hc (or_introl eq_refl) Hk Hgm ltac:(done))
    as (r0 & w1 & Hv0 & Hgm1 & Hp1).
  rewrite (run_bind _ _ _ _ _ Hv0). destruct r0 as [st|st|res].
  - destruct (tryValue_total child schrodinger level t w0 m1 l c x 1 st w1 k
                Hchild Htot Hext1 Hsq1 Hx Hd Hl Hc (or_intror eq_refl) Hk Hgm1 Hp1)
      as (r1 & w2 & Hv1 & Hgm2 & Hp2).
    rewrite (run_bind _ _ _ _ _ Hv1).
    destruct r1 as [st'|st'|res]; eexists _, _; (split; [reflexivity | done]).
  - eexists _, _. split; [reflexivity | done].
  - eexists _, _. split; [reflexivity | done].
Qed.

(** One pass of the outer loop returns when the recursive call and the
    next pass do on boards with fewer undefined cells. *)
Lemma solveNode_total again child fuel level t k w0 m :
  childSpec m0 child → childTotal m0 k child →
  (∀ w1 mx, solvePre m0 t w1 → wfBoard (wHeap w1) t mx → (undefinedCount mx < k)%nat →
     ∃ r, again w1 = Done r) →
  solvePre m0 t w0 → wfBoard (wHeap w0) t m →
  (undefinedCount m < fuel)%nat → (undefinedCount m ≤ k)%nat →
  ∃ r, solveNode schrodLvl globalSearch timeout expired zeroFirst again child fuel level t w0
       = Done r.
Proof.
  intros Hchild Htot Hagain Hpre Hwf Hfuel Hk.
  destruct (solveMid_start _ _ _ Hpre) as (m' & Hmid).
  assert (m' = m) as ->.
  { destruct Hmid as (Hwf' & _). by apply (wfBoard_fun _ _ _ _ Hwf Hwf'). }
  pose proof Hmid as ([Hm Hsq] & Hok & Hext & _).
  assert (Hlt : (Board t < length (wHeap w0))%nat) by (by eapply lookup_lt_Some).
  unfold solveNode.
  pose proof (TrySolveTrivial_run (wHeap w0) t m [] fuel Hlt Hsq Hok) as Hrun1.
  rewrite <- (boardHeap_init _ _ _ Hm) in Hrun1.
  destruct (trivialM_total (Size t) fuel m Hsq Hok Hfuel) as [m1 Hm1].
  rewrite Hm1 in Hrun1. destruct Hrun1 as ([fl e] & junk & Hrun1 & Hres).
  rewrite (run_bind _ _ _ _ _ (liftH_run _ w0 _ _ Hrun1)).
  destruct (trivialM_spec _ _ _ _ Hsq Hok Hm1) as (Hsq1 & Hok1 & Hext1 & Hcount & _).
  assert (Hext01 : extendsM m0 m1) by (by eapply extendsM_trans).
  pose proof (solveMid_write m0 t w0 m w0 m1 junk Hmid Hsq1 Hok1 Hext01) as Hmid1.
  set (w1 := mkWorld (boardHeap (wHeap w0) t m1 junk) (solutionMap w0)
               (singleSolution w0) (ticks w0)) in *.
  pose proof Hmid1 as (Hwf1 & _).
  destruct e as [e|]; [eexists; reflexivity|].
  destruct fl.
  { destruct (recordSolution_total t w1 m1 Hwf1) as [w2 Hrec].
    rewrite (run_bind _ _ _ _ _ Hrec). eexists; reflexivity. }
  destruct (firstClear_total _ _ _ Hwf1) as ([line col] & h2 & Hfirst).
  rewrite (run_bind _ _ _ _ _ (liftH_run _ w1 _ _ Hfirst)).
  destruct (firstClear_spec _ _ _ _ _ _ Hwf1 Hfirst) as [-> Hpos].
  assert (Hmid2 : solveMid m0 t w0 m1
            (mkWorld (wHeap w1) (solutionMap w1) (singleSolution w1) (ticks w1)))
    by (by eapply solveMid_ext; [| |exact Hmid1]).
  set (w2 := mkWorld (wHeap w1) (solutionMap w1) (singleSolution w1) (ticks w1)) in *.
  destruct (decide (line = Size t ∨ col = Size t)) as [Hend|Hin].
  { destruct (finishNode_total t w0 m1 w2 Hmid2) as (r & w3 & Hfin). by exists (r, w3). }
  destruct Hpos as [? | [? | (Hl & Hc & x & Hx & Hd)]]; [tauto | tauto |].
  assert (Hgm : guessMid m0 t w0 m1 line col w2).
  { exists m1. split; [done | apply sameExcept_refl]. }
  destruct (tryValues_total child (bool_decide (level < schrodLvl)%nat) level t w0 m1 line col
              x w2 k Hchild Htot Hext01 Hsq1 Hx Hd Hl Hc ltac:(lia) Hgm)
    as (r & w3 & Htry & Hp3).
  pose proof (tryValues_spec globalSearch timeout expired zeroFirst m0 child _ level t w0
                m1 line col x Hchild Hext01 Hx Hd Hl Hc w2 r w3 Hgm Htry) as (m3 & Hmid3 & _).
  rewrite (run_bind _ _ _ _ _ Htry). destruct r as [st|res]; [|eexists; reflexivity].
  destruct (errCount st =? 2); [eexists; reflexivity|].
  destruct (bool_decide (level < schrodLvl)%nat || globalSearch || negb (changed st))
    eqn:Hstop.
  - destruct (finishNode_total t w0 m3 w3 Hmid3) as (r & w4 & Hfin). by exists (r, w4).
  - apply orb_false_iff in Hstop as [_ Hch]. apply negb_false_iff in Hch.
    pose proof Hmid3 as (Hwf3 & _).
    apply (Hagain w3 m3); [by eapply solveMid_pre | done |].
    pose proof (Hp3 Hch m3 Hwf3). lia.
Qed.

Lemma recurseSolve_total fuel : ∀ level t w0 m,
  solvePre m0 t w0 → wfBoard (wHeap w0) t m → (undefinedCount m < fuel)%nat →
  ∃ r, recurseSolve schrodLvl globalSearch timeout expired zeroFirst fuel level t w0 = Done r.
Proof.
  induction fuel as [|fuel IH]; intros level t w0 m Hpre Hwf Hfuel; [lia|].
  simpl. apply (solveNode_total _ _ _ level t fuel w0 m); try done; try lia.
  - intros tx w1 err1 w2. apply recurseSolve_spec.
  - intros tx w1 mx. apply IH.
  - intros w1 mx. apply IH.
Qed.

End Total.

(** At Schrodinger level 0, the default, where a node waits for the one
    goroutine it starts before it goes on, [TrySolveRecurse] returns on a
    stored board whose defined cells hold 0 or 1: it does not panic, and
    neither the recursion nor the outer loop of a node goes deeper than the
    number of undefined cells; its result is the same for every amount of
    fuel above that number.  This holds in both modes and for every timeout
    and clock. *)
Theorem TrySolveRecurse_terminates
    (globalSearch : bool) (timeout : Z) (expired zeroFirst : nat → bool)
    (h0 : heap) (b : Takuzu) (m : matrix) (acc : list Takuzu) :
  wfBoard h0 b m → matrixOk m →
  ∃ r h', ∀ fuel, (undefinedCount m < fuel)%nat →
    TrySolveRecurse 0 globalSearch timeout expired zeroFirst fuel b acc h0
    = Done (r, h').
Proof.
  intros Hwf Hok.
  assert (Hpre : solvePre m b (mkWorld h0 ∅ None 0)).
  { exists m. split_and!; simpl; [done | done | apply extendsM_refl | |];
      intros key s Hs; by rewrite lookup_empty in Hs. }
  destruct (recurseSolve_total 0%nat globalSearch timeout expired zeroFirst m
              (S (undefinedCount m)) 0%nat b _ m Hpre Hwf ltac:(lia)) as [[err w] Hrec].
  assert (Hrun : ∃ r h', TrySolveRecurse 0 globalSearch timeout expired zeroFirst
                           (S (undefinedCount m)) b acc h0 = Done (r, h')).
  { unfold TrySolveRecurse. rewrite Hrec. destruct err; eexists _, _; reflexivity. }
  destruct Hrun as (r & h' & Hrun). exists r, h'. intros fuel Hfuel.
  apply (TrySolveRecurse_mono 0%nat globalSearch timeout expired zeroFirst
           (S (undefinedCount m)) fuel b acc ltac:(lia) h0 (r, h') Hrun).
Qed.

Lemma TrySolveRecurse_terminates_witness :
  (wfBoard [sampleBoard] (mkTakuzu 4 0) sampleBoard ∧ matrixOk sampleBoard)
  ∧ ∃ r h', ∀ fuel, (undefinedCount sampleBoard < fuel)%nat →
      TrySolveRecurse 0 true 0 (λ _, false) (λ _, true) fuel (mkTakuzu 4 0) [] [sampleBoard]
      = Done (r, h').
Proof.
  assert (Hwf : wfBoard [sampleBoard] (mkTakuzu 4 0) sampleBoard) by (by apply wfBoard_check).
  assert (Hok : matrixOk sampleBoard) by (by apply matrixOkb_sound).
  split; [exact (conj Hwf Hok)|].
  exact (TrySolveRecurse_terminates true 0 (λ _, false) (λ _, true) [sampleBoard]
           (mkTakuzu 4 0) sampleBoard [] Hwf Hok).
Defined.

(** ** What the search does to the board it is given *)

Section Content.
Variable schrodLvl : nat.
Variable globalSearch : bool.
Variable timeout : Z.
Variable expired zeroFirst : nat → bool.
Variable m0 : matrix.

(** One pass of the outer loop keeps the defined cells of its board. *)
Lemma solveNode_content again child fuel level t w0 err w' m :
  childSpec m0 child →
  (∀ w1 err1 w2, solvePre m0 t w1 → again w1 = Done (err1, w2) → solvePost m0 t w1 w2) →
  (∀ w1 err1 w2 mx, solvePre m0 t w1 → wfBoard (wHeap w1) t mx →
     again w1 = Done (err1, w2) →
     ∃ mx', wfBoard (wHeap w2) t mx' ∧ extendsM mx mx') →
  solvePre m0 t w0 → wfBoard (wHeap w0) t m →
  solveNode schrodLvl globalSearch timeout expired zeroFirst again child fuel level t w0
  = Done (err, w') →
  ∃ m', wfBoard (wHeap w') t m' ∧ extendsM m m'.
Proof.
  intros Hchild Hagain Hagain2 Hpre Hwf Hrun.
  destruct (solveMid_start _ _ _ Hpre) as (m' & Hmid).
  assert (m' = m) as ->.
  { destruct Hmid as (Hwf' & _). by apply (wfBoard_fun _ _ _ _ Hwf Hwf'). }
  pose proof Hmid as ([Hm Hsq] & Hok & Hext & _).
  assert (Hlt : (Board t < length (wHeap w0))%nat) by (by eapply lookup_lt_Some).
  unfold solveNode in Hrun.
  apply bind_Done_inv in Hrun as ([fl e] & w1 & Htriv & Hrun).
  apply liftH_Done in Htriv as (h1 & Htriv & ->).
  pose proof (TrySolveTrivial_run (wHeap w0) t m [] fuel Hlt Hsq Hok) as Hrun1.
  rewrite <- (boardHeap_init _ _ _ Hm) in Hrun1.
  destruct (trivialM fuel m) as [m1|] eqn:Hm1; [|congruence].
  destruct Hrun1 as (r & junk & Hrun1 & Hres). rewrite Hrun1 in Htriv.
  injection Htriv as -> <-.
  destruct (trivialM_spec _ _ _ _ Hsq Hok Hm1) as (Hsq1 & Hok1 & Hext1 & _).
  assert (Hext01 : extendsM m0 m1) by (by eapply extendsM_trans).
  pose proof (solveMid_write m0 t w0 m w0 m1 junk Hmid Hsq1 Hok1 Hext01) as Hmid1.
  set (w1 := mkWorld (boardHeap (wHeap w0) t m1 junk) (solutionMap w0)
               (singleSolution w0) (ticks w0)) in *.
  pose proof Hmid1 as (Hwf1 & _).
  assert (Hsame : ∀ w2 mx, wfBoard (wHeap w1) t mx → wHeap w2 = wHeap w1 →
                    ∃ m', wfBoard (wHeap w2) t m' ∧ extendsM m m').
  { intros w2 mx Hmx Hh. exists m1. rewrite Hh. done. }
  destruct e as [e|].
  { injection Hrun as <- <-. by exists m1. }
  destruct fl.
  { apply bind_Done_inv in Hrun as ([] & w2 & Hrec & [= <- <-]).
    apply (Hsame w2 m1 Hwf1). by eapply recordSolution_heap. }
  apply bind_Done_inv in Hrun as ([line col] & w2 & Hfirst & Hrun).
  apply liftH_Done in Hfirst as (h2 & Hfirst & ->).
  destruct (firstClear_spec _ _ _ _ _ _ Hwf1 Hfirst) as [-> Hpos].
  assert (Hmid2 : solveMid m0 t w0 m1
            (mkWorld (wHeap w1) (solutionMap w1) (singleSolution w1) (ticks w1)))
    by (by eapply solveMid_ext; [| |exact Hmid1]).
  set (w2 := mkWorld (wHeap w1) (solutionMap w1) (singleSolution w1) (ticks w1)) in *.
  destruct (decide (line = Size t ∨ col = Size t)) as [Hend|Hin].
  { apply (Hsame w' m1 Hwf1). by apply (finishNode_heap globalSearch t w2 m1 err w'). }
  destruct Hpos as [? | [? | (Hl & Hc & x & Hx & Hd)]]; [tauto | tauto |].
  apply bind_Done_inv in Hrun as (r & w3 & Htry & Hrun).
  assert (Hgm : guessMid m0 t w0 m1 line col w2).
  { exists m1. split; [done | apply sameExcept_refl]. }
  pose proof (tryValues_spec globalSearch timeout expired zeroFirst m0 child _ level t w0
                m1 line col x Hchild Hext01 Hx Hd Hl Hc w2 r w3 Hgm Htry)
    as (m3 & Hmid3 & Hsame3).
  pose proof Hmid3 as (Hwf3 & _).
  assert (Hext13 : extendsM m m3).
  { eapply extendsM_trans; [exact Hext1|].
    apply (extendsM_sameExcept m1 m1 line col x); [apply extendsM_refl | done..]. }
  destruct r as [st|res].
  - destruct (errCount st =? 2).
    { injection Hrun as <- <-. by exists m3. }
    destruct (bool_decide (level < schrodLvl)%nat || globalSearch || negb (changed st)).
    + exists m3. rewrite (finishNode_heap globalSearch t w3 m3 err w' Hwf3 Hrun). done.
    + destruct (Hagain2 w3 err w' m3 (solveMid_pre _ _ _ _ _ Hmid3) Hwf3 Hrun)
        as (m4 & Hwf4 & Hext4).
      exists m4. split; [done|]. by eapply extendsM_trans.
  - injection Hrun as <- <-. by exists m3.
Qed.

Lemma recurseSolve_content fuel : ∀ level t w0 err w' m,
  solvePre m0 t w0 → wfBoard (wHeap w0) t m →
  recurseSolve schrodLvl globalSearch timeout expired zeroFirst fuel level t w0
  = Done (err, w') →
  ∃ m', wfBoard (wHeap w') t m' ∧ extendsM m m'.
Proof.
  induction fuel as [|fuel IH]; intros level t w0 err w' m Hpre Hwf Hrun; [done|].
  simpl in Hrun. eapply solveNode_content; [| | |done|done|exact Hrun].
  - intros tx w1 err1 w2. apply recurseSolve_spec.
  - intros w1 err1 w2. apply recurseSolve_spec.
  - intros w1 err1 w2 mx. apply IH.
Qed.

End Content.

(** [TrySolveRecurse] works on the board it is given, not on a copy: when
    it returns, in either mode and with or without an error, that board
    still has every cell that was defined, the cells defined since hold
    forced values (every solution of the board given is a solution of the
    board left), and no other object that existed at the call is changed. *)
Theorem TrySolveRecurse_in_place
    (schrodLvl : nat) (globalSearch : bool) (timeout : Z) (expired zeroFirst : nat → bool)
    (fuel : nat) (h0 h' : heap) (b : Takuzu) (m : matrix) (acc acc' : list Takuzu)
    (sol : option Takuzu) (err : option solveError) :
  wfBoard h0 b m → matrixOk m →
  TrySolveRecurse schrodLvl globalSearch timeout expired zeroFirst fuel b acc h0
  = Done ((sol, err, acc'), h') →
  (∃ m', wfBoard h' b m' ∧ extendsM m m' ∧ ∀ S, solutionOf m S → solutionOf m' S)
  ∧ (length h0 ≤ length h')%nat
  ∧ ∀ a, (a < length h0)%nat → a ≠ Board b → h' !! a = h0 !! a.
Proof.
  intros Hwf Hok Hrun. unfold TrySolveRecurse in Hrun.
  destruct (recurseSolve _ _ _ _ _ _ _ _ _) as [[err0 w]| |] eqn:Hrec; [|done..].
  pose proof Hwf as [Hm Hsq].
  assert (Hpre : solvePre m b (mkWorld h0 ∅ None 0)).
  { exists m. split_and!; simpl; [done | done | apply extendsM_refl | |];
      intros key s Hs; by rewrite lookup_empty in Hs. }
  assert (h' = wHeap w) as ->.
  { destruct err0; by injection Hrun as _ _ _ <-. }
  destruct (recurseSolve_spec _ _ _ _ _ _ _ _ _ _ _ _ Hpre Hrec) as ([Hlen Hframe] & _).
  destruct (recurseSolve_content schrodLvl globalSearch timeout expired zeroFirst m fuel
              0%nat b _ err0 w m Hpre Hwf Hrec) as (m' & Hwf' & Hext').
  split; [|done]. exists m'. split_and!; try done.
  intros S Hsol.
  destruct (solution_facts _ _ _ Hsq Hsol) as (HS & HokS & HfullS & HrulesS & HextS).
  destruct (recurseSolve_keeps schrodLvl globalSearch timeout expired zeroFirst m (Size b) S
              fuel HS HokS HfullS HrulesS 0%nat b _ err0 w m Hpre Hwf HS HextS Hrec)
    as [_ Hkeep].
  destruct Hsol as (_ & Hval & _). pose proof Hwf' as [_ [Hlen' _]].
  split_and!; [by rewrite Hlen' | done | by apply Hkeep].
Qed.

Lemma TrySolveRecurse_in_place_witness :
  let b := mkTakuzu 4 0 in
  let h0 := [sampleBoard] in
  let r := TrySolveRecurse 0 false 0 (λ _, false) (λ _, true) 40 b [] h0 in
  let h' := match r with Done (_, h) => h | _ => [] end in
  let sol := Some (mkTakuzu 4 21) in
  (wfBoard h0 b sampleBoard ∧ matrixOk sampleBoard
   ∧ TrySolveRecurse 0 false 0 (λ _, false) (λ _, true) 40 b [] h0
     = Done ((sol, None, []), h'))
  ∧ (∃ m', wfBoard h' b m' ∧ extendsM sampleBoard m'
       ∧ ∀ S, solutionOf sampleBoard S → solutionOf m' S)
  ∧ (length h0 ≤ length h')%nat
  ∧ ∀ a, (a < length h0)%nat → a ≠ Board b → h' !! a = h0 !! a.
Proof.
  intros b h0 r h' sol.
  assert (Hwf : wfBoard h0 b sampleBoard) by (by apply wfBoard_check).
  assert (Hok : matrixOk sampleBoard) by (by apply matrixOkb_sound).
  assert (Hrun : TrySolveRecurse 0 false 0 (λ _, false) (λ _, true) 40 b [] h0
                 = Done ((sol, None, []), h')) by (vm_compute; reflexivity).
  split; [exact (conj Hwf (conj Hok Hrun))|].
  exact (TrySolveRecurse_in_place 0 false 0 (λ _, false) (λ _, true) 40 h0 h' b
           sampleBoard [] [] sol None Hwf Hok Hrun).
Defined.

(** ** Removing cells at random *)

Lemma countDefined_app cells cells' :
  countDefined (cells ++ cells') = (countDefined cells + countDefined cells')%nat.
Proof. unfold countDefined. by rewrite filter_app, length_app. Qed.

Lemma countDefined_one x : countDefined [x] = if Defined x then 1%nat else 0%nat.
Proof.
  unfold countDefined. destruct (Defined x) eqn:Hd.
  - by rewrite filter_cons_True.
  - rewrite filter_cons_False; [done | by rewrite Hd].
Qed.

Lemma countDefined_le cells : (countDefined cells ≤ length cells)%nat.
Proof. unfold countDefined. apply length_filter. Qed.

Lemma concat_take_S (m : matrix) l row :
  m !! l = Some row → concat (take (S l) m) = concat (take l m) ++ row.
Proof.
  intros Hrow. rewrite (take_S_r _ _ _ Hrow), concat_app. simpl. by rewrite app_nil_r.
Qed.

Lemma concat_take_length n (m : matrix) l :
  squareM n m → (l ≤ n)%nat → length (concat (take l m)) = (l * n)%nat.
Proof.
  intros [Hlen Hall] Hl. rewrite (concat_length_square n).
  - rewrite length_take, Nat.min_l by lia. done.
  - by apply Forall_take.
Qed.

(** The loops that fill [fields]: the first [n] entries point to the cells
    that are defined, and [n] is their number. *)
Lemma collectDefined_run h tak m :
  wfBoard h tak m →
  ∃ fields, collectDefined (Size tak) tak h = Done ((fields, Z.of_nat (definedCount m)), h)
    ∧ length fields = (Size tak * Size tak)%nat
    ∧ validPrefix (Board tak) m fields (definedCount m)
    ∧ NoDup (take (definedCount m) fields).
Proof.
  intros [Hm Hsq]. pose proof Hsq as [Hlen Hall]. unfold collectDefined.
  assert (Hrows : getRows tak h = Done (m, h)) by (unfold getRows; by rewrite Hm).
  rewrite (run_bind _ _ _ _ _ Hrows).
  pose (Inv := λ (cells : list Cell) (st : list cellPtr * Z) (h' : heap),
    h' = h ∧ length st.1 = (Size tak * Size tak)%nat
    ∧ st.2 = Z.of_nat (countDefined cells)
    ∧ validPrefix (Board tak) m st.1 (countDefined cells)
    ∧ (∀ j l' c', (j < countDefined cells)%nat →
         st.1 !! j = Some (Some (Board tak, l', c')) → (l' * Size tak + c' < length cells)%nat)
    ∧ NoDup (take (countDefined cells) st.1)).
  destruct (forM_upto
    (λ l st,
      row ← getRow tak l;
      forM (λ c '(fields, n),
        x ← loadCell tak l c;
        if Defined x then
          p ← addrCell tak l c;
          fields' ← setIndexZ fields n p;
          mret (fields', n + 1)
        else mret (fields, n)) (upto (length row)) st)
    (length m) (λ l, Inv (concat (take l m)))
    (replicate (Size tak * Size tak) None, 0) h) as ([fields n] & h' & Hrun & HI).
  - unfold Inv. simpl. split_and!; [done | by rewrite length_replicate | done | | |].
    + intros j Hj. unfold countDefined in Hj. simpl in Hj. lia.
    + intros j l' c' Hj. unfold countDefined in Hj. simpl in Hj. lia.
    + unfold countDefined. simpl. apply NoDup_nil_2.
  - intros l st h1 Hl HI.
    destruct (lookup_lt_is_Some_2 m l Hl) as [row Hrow].
    pose proof (squareM_row _ _ _ _ Hsq Hrow) as Hrowlen.
    destruct HI as (-> & HI).
    rewrite (run_bind _ _ _ _ _ (getRow_run _ _ _ _ _ Hm Hrow)).
    destruct (forM_upto
      (λ c '(fields, n),
        x ← loadCell tak l c;
        if Defined x then
          p ← addrCell tak l c;
          fields' ← setIndexZ fields n p;
          mret (fields', n + 1)
        else mret (fields, n))
      (length row) (λ c, Inv (concat (take l m) ++ take c row)) st h)
      as (st' & h' & Hrun & HI').
    + unfold Inv. rewrite take_0, app_nil_r. done.
    + intros c [fields n] h1 Hc (-> & Hflen & Hn & Hvalid & Hbelow & Hnd).
      cbn [fst snd] in Hflen, Hn, Hvalid, Hbelow, Hnd.
      destruct (lookup_lt_is_Some_2 row c Hc) as [x Hx].
      assert (Hcell : cellAt m l c = Some x) by (apply cellAt_Some; eauto).
      rewrite (run_bind _ _ _ _ _ (loadCell_run _ _ _ _ _ _ Hm Hcell)).
      rewrite (take_S_r _ _ _ Hx), app_assoc.
      set (cells := concat (take l m) ++ take c row) in *.
      assert (Hclen : length cells = (l * Size tak + c)%nat).
      { unfold cells. rewrite length_app, (concat_take_length (Size tak)) by (done || lia).
        rewrite length_take. lia. }
      assert (Hcells : (length cells < Size tak * Size tak)%nat) by nia.
      pose proof (countDefined_le cells) as Hle.
      destruct (Defined x) eqn:Hd.
      * assert (Haddr : addrCell tak l c h = Done (Some (Board tak, l, c), h)).
        { unfold addrCell. by rewrite (run_bind _ _ _ _ _ (loadCell_run _ _ _ _ _ _ Hm Hcell)). }
        rewrite (run_bind _ _ _ _ _ Haddr).
        unfold setIndexZ, setIndex. rewrite Hn.
        replace (0 <=? Z.of_nat (countDefined cells)) with true by (symmetry; apply Z.leb_le; lia).
        rewrite Nat2Z.id. rewrite decide_True by lia.
        eexists _, _. split; [reflexivity|]. unfold Inv. simpl.
        rewrite countDefined_app, countDefined_one, Hd.
        split_and!; [done | by rewrite length_insert | lia | | |].
        -- intros j Hj. destruct (decide (j = countDefined cells)) as [->|Hne].
           ++ exists l, c, x. rewrite list_lookup_insert_eq by lia. done.
           ++ rewrite list_lookup_insert_ne by done. apply Hvalid. lia.
        -- intros j l' c' Hj. rewrite length_app. simpl.
           destruct (decide (j = countDefined cells)) as [->|Hne].
           ++ rewrite list_lookup_insert_eq by lia. intros [= <- <-]. lia.
           ++ rewrite list_lookup_insert_ne by done. intros Hf.
              pose proof (Hbelow j l' c' ltac:(lia) Hf). lia.
        -- replace (countDefined cells + 1)%nat with (S (countDefined cells)) by lia.
           rewrite (take_S_r _ _ (Some (Board tak, l, c)))
             by (apply list_lookup_insert_eq; lia).
           rewrite take_insert_ge by lia.
           apply NoDup_app. split_and!; [done | | apply NoDup_singleton].
           intros p Hp ->%list_elem_of_singleton.
           apply list_elem_of_lookup in Hp as [j Hj].
           pose proof (lookup_lt_Some _ _ _ Hj) as Hjlt. rewrite length_take in Hjlt.
           rewrite lookup_take_lt in Hj by lia.
           pose proof (Hbelow j l c ltac:(lia) Hj). lia.
      * eexists _, _. split; [reflexivity|]. unfold Inv. simpl.
        rewrite countDefined_app, countDefined_one, Hd, Nat.add_0_r.
        split_and!; try done.
        intros j l' c' Hj Hf. rewrite length_app. simpl.
        pose proof (Hbelow j l' c' Hj Hf). lia.
    + exists st', h'. split; [done|]. rewrite (concat_take_S _ _ _ Hrow).
      by rewrite (take_ge row) in HI' by lia.
  - rewrite (take_ge m) in HI by lia. destruct HI as (-> & Hflen & Hn & Hvalid & _ & Hnd).
    simpl in *. exists fields. rewrite Hrun, Hn. done.
Qed.

Lemma countDefined_undefined cells :
  (countDefined cells + length (filter (λ x, Defined x = false) cells) = length cells)%nat.
Proof.
  unfold countDefined. induction cells as [|x cells IH]; [done|].
  destruct (Defined x) eqn:Hd.
  - rewrite filter_cons_True by done. rewrite filter_cons_False by (by rewrite Hd).
    simpl. lia.
  - rewrite filter_cons_False by (by rewrite Hd). rewrite filter_cons_True by done.
    simpl. lia.
Qed.

Lemma definedCount_undefinedCount n m :
  squareM n m → (definedCount m + undefinedCount m = n * n)%nat.
Proof.
  intros [Hlen Hall]. unfold definedCount, undefinedCount.
  rewrite countDefined_undefined, (concat_length_square n) by done. by rewrite Hlen.
Qed.

(** Making a cell undefined takes one from the count when it was defined. *)
Lemma definedCount_erase n m l c x v :
  squareM n m → cellAt m l c = Some x →
  (definedCount (setCellM m l c (mkCell false v)) + (if Defined x then 1 else 0)
   = definedCount m)%nat.
Proof.
  intros Hsq Hx.
  pose proof (definedCount_undefinedCount n m Hsq) as H1.
  pose proof (definedCount_undefinedCount n _ (squareM_setCellM n m l c (mkCell false v) Hsq))
    as H2.
  pose proof (undefinedCount_setCellM m l c x (mkCell false v) Hx) as H3. simpl in H3.
  destruct (Defined x); lia.
Qed.

Lemma validPrefix_remove a m fields cnt i :
  validPrefix a m fields (S cnt) →
  validPrefix a m (take i fields ++ drop (i + 1) fields) cnt.
Proof.
  intros Hvalid j Hj. destruct (decide (j < i)%nat) as [Hlt|Hge].
  - destruct (Hvalid j ltac:(lia)) as (l & c & x & Hf & Hx).
    exists l, c, x. split; [|done].
    rewrite lookup_app_l.
    + by rewrite lookup_take_lt.
    + rewrite length_take. apply lookup_lt_Some in Hf. lia.
  - destruct (Hvalid (S j) ltac:(lia)) as (l & c & x & Hf & Hx).
    exists l, c, x. split; [|done].
    pose proof (lookup_lt_Some _ _ _ Hf) as Hlen.
    rewrite lookup_app_r by (rewrite length_take; lia).
    rewrite length_take, Nat.min_l by lia. rewrite lookup_drop.
    by replace (i + 1 + (j - i))%nat with (S j) by lia.
Qed.

(** A loop panics when a pass does, the passes before it having gone on. *)
Lemma loopM_seq_panic {S B R} (body : nat → B → M S (B + R)) (I : nat → B → S → Prop) :
  ∀ j start len acc s,
    (j < len)%nat → I start acc s →
    (∀ k acc s, (start ≤ k < start + j)%nat → I k acc s →
       ∃ acc' s', body k acc s = Done (inl acc', s') ∧ I (Datatypes.S k) acc' s') →
    (∀ acc s, I (start + j)%nat acc s → body (start + j)%nat acc s = Panic) →
    loopM body (seq start len) acc s = Panic.
Proof.
  induction j as [|j IH]; intros start len acc s Hlen HI Hstep Hpanic;
    (destruct len as [|len]; [lia|]); simpl.
  - unfold mbind, M_bind. rewrite Nat.add_0_r in Hpanic. by rewrite (Hpanic acc s HI).
  - destruct (Hstep start acc s ltac:(lia) HI) as (acc' & s' & Hb & HI').
    rewrite (run_bind _ _ _ _ _ Hb).
    apply (IH (Datatypes.S start) len acc' s'); [lia | done | |].
    + intros k acc1 s1 Hk. apply Hstep. lia.
    + intros acc1 s1. replace (Datatypes.S start + j)%nat with (start + Datatypes.S j)%nat by lia.
      apply Hpanic.
Qed.

Section RemoveProofs.
Variable intn : nat → Z → Z.
Hypothesis intn_range : ∀ j n, 0 < n → 0 ≤ intn j n < n.
Variable h : heap.
Variable calls srch : nat.
Variable tak : Takuzu.
Variable m : matrix.
Hypothesis Hwf : wfBoard h tak m.

(** One pass that finds a defined cell left in the list: a cell picked
    among the first [n] of [fields] becomes undefined, then the slice loses
    its element [i], if it still has one. *)
Lemma removeStep_run i fields n w :
  removeInv h calls srch tak m i (fields, n) w → (i < definedCount m)%nat →
  ∃ w1,
    removeStep intn i (fields, n) w
    = (fields' ← removeIndex fields i; mret (inl (fields', n - 1))) w1
    ∧ ∀ fields',
        (length fields' + Datatypes.S i = Size tak * Size tak)%nat →
        validPrefix (Board tak) m fields' (definedCount m - Datatypes.S i) →
        removeInv h calls srch tak m (Datatypes.S i) (fields', n - 1) w1.
Proof.
  intros (mi & Hheap & Hdraws & Hsrch & Hsq & Herased & Hfirst & Hle & Hge & Hlt & Hi & Hflen & Hn
          & Hvalid) Hmore.
  cbn [fst snd] in Hflen, Hn, Hvalid.
  destruct Hwf as [Hm Hsqm].
  assert (Ha : (Board tak < length h)%nat) by (by eapply lookup_lt_Some).
  unfold removeStep.
  assert (Hnpos : 0 < n) by lia.
  replace (n =? 0) with false by (symmetry; apply Z.eqb_neq; lia).
  set (k := intn (draws w) n).
  assert (Hk : 0 ≤ k < n) by (by apply intn_range).
  assert (Hrand : rand_Intn intn n w = Done (k, mkRworld (rHeap w) (Datatypes.S (draws w)) (searches w))).
  { unfold rand_Intn. by replace (n <=? 0) with false by (symmetry; apply Z.leb_gt; lia). }
  rewrite (run_bind _ _ _ _ _ Hrand).
  destruct (Hvalid (Z.to_nat k) ltac:(lia)) as (l & c & x & Hf & Hx & Hd).
  unfold indexZ. replace (0 <=? k) with true by (symmetry; apply Z.leb_le; lia).
  rewrite (run_bind _ _ _ _ _ (orPanic_Some _ _ _ Hf)).
  assert (Hy : ∃ y, cellAt mi l c = Some y ∧ Value y = Value x ∧ (mi = m → y = x)).
  { destruct (Herased l c) as [Heq | (x' & Hx' & _ & Hmi)].
    - exists x. rewrite Heq. done.
    - assert (x' = x) as -> by congruence. exists (mkCell false (Value x)).
      split_and!; [done | done |]. intros ->. congruence. }
  destruct Hy as (y & Hy & Hval & Hsame).
  set (mi' := setCellM mi l c (mkCell false (Value y))).
  assert (Hstore : liftR (setDefinedPtr (Some (Board tak, l, c)) false)
                     (mkRworld (rHeap w) (Datatypes.S (draws w)) (searches w))
                   = Done (tt, mkRworld (<[Board tak := mi']> h) (Datatypes.S (draws w)) (searches w))).
  { unfold liftR, setDefinedPtr. cbn [rHeap draws searches loadPtr storePtr]. rewrite Hheap.
    pose proof (storeDefined_run (<[Board tak := mi]> h) (mkTakuzu 0 (Board tak)) mi l c y false
                  (list_lookup_insert_eq _ _ _ Ha) Hy) as Hrun.
    unfold storeDefined in Hrun. cbn [Board] in Hrun. rewrite Hrun.
    by rewrite list_insert_insert_eq. }
  rewrite (run_bind _ _ _ _ _ Hstore).
  eexists. split; [reflexivity|].
  intros fields' Hflen' Hvalid'.
  pose proof (definedCount_erase (Size tak) mi l c y (Value y) Hsq Hy) as Hcount.
  fold mi' in Hcount.
  exists mi'. cbn [rHeap draws searches fst snd]. split_and!.
  - done.
  - lia.
  - done.
  - by apply squareM_setCellM.
  - intros l' c'. destruct (decide ((l, c) = (l', c'))) as [[= <- <-]|Hne].
    + right. exists x. split_and!; [done | done |].
      unfold mi'. rewrite cellAt_setCellM_eq by eauto. by rewrite Hval.
    + unfold mi'. rewrite cellAt_setCellM_ne by done. apply Herased.
  - lia.
  - destruct (Defined y); lia.
  - destruct (Defined y); lia.
  - intros _. destruct (decide (i = 0%nat)) as [->|Hne].
    + rewrite (Hsame (Hfirst eq_refl)), Hd in Hcount. lia.
    + destruct (Defined y); lia.
  - lia.
  - done.
  - lia.
  - done.
Qed.

Lemma removeInv_start fields :
  length fields = (Size tak * Size tak)%nat →
  validPrefix (Board tak) m fields (definedCount m) →
  removeInv h calls srch tak m 0 (fields, Z.of_nat (definedCount m)) (mkRworld h calls srch).
Proof.
  intros Hflen Hvalid. destruct Hwf as [Hm Hsqm]. exists m. cbn [rHeap draws searches fst snd].
  rewrite Nat.sub_0_r, Nat.add_0_r.
  split_and!; try done; try lia.
  - by rewrite list_insert_id.
  - intros l c. by left.
Qed.

End RemoveProofs.

(** [removeRandomCell(number)] on a stored board, [k] being the smaller of
    [number] and the number of defined cells: when [2k <= size*size + 1] it
    returns after [k] draws, having only made defined cells undefined (their
    numbers kept): at most [k] of them, and at least one when [k > 0]; no
    other object changes.  Otherwise it panics, the slice expression
    [fields[i+1:]] being out of range (the list of candidates loses its
    element [i], not the one picked, and is shorter by [i] in pass [i]). *)
Theorem removeRandomCell_spec
    (intn : nat → Z → Z) (h : heap) (calls srch : nat) (tak : Takuzu) (m : matrix) (number : Z) :
  (∀ j n, 0 < n → 0 ≤ intn j n < n) → wfBoard h tak m →
  let k := Nat.min (Z.to_nat number) (definedCount m) in
  if decide (2 * k ≤ Size tak * Size tak + 1)%nat then
    ∃ m', removeRandomCell intn tak number (mkRworld h calls srch)
          = Done (tt, mkRworld (<[Board tak := m']> h) (calls + k) srch)
      ∧ squareM (Size tak) m' ∧ erasedFrom m m'
      ∧ (definedCount m' ≤ definedCount m)%nat
      ∧ (definedCount m ≤ definedCount m' + k)%nat
      ∧ (0 < k → definedCount m' < definedCount m)%nat
  else removeRandomCell intn tak number (mkRworld h calls srch) = Panic.
Proof.
  intros Hintn Hwf k.
  destruct (collectDefined_run h tak m Hwf) as (fields & Hcol & Hflen & Hvalid & _).
  assert (Hlift : liftR (collectDefined (Size tak) tak) (mkRworld h calls srch)
                  = Done ((fields, Z.of_nat (definedCount m)), mkRworld h calls srch)).
  { unfold liftR. cbn [rHeap draws searches]. by rewrite Hcol. }
  unfold removeRandomCell. rewrite (run_bind _ _ _ _ _ Hlift).
  pose proof (removeInv_start h calls srch tak m Hwf fields Hflen Hvalid) as H0.
  assert (Hstep : ∀ i fi ni w,
    removeInv h calls srch tak m i (fi, ni) w → (i < definedCount m)%nat →
    (i + 1 ≤ length fi)%nat →
    ∃ st' w', removeStep intn i (fi, ni) w = Done (inl st', w')
      ∧ removeInv h calls srch tak m (S i) st' w').
  { intros i fi ni w Hinv Hlt Hlen.
    destruct (removeStep_run intn Hintn h calls srch tak m Hwf i fi ni w Hinv Hlt)
      as (w1 & Hrun & Hnext).
    rewrite Hrun. unfold removeIndex. rewrite decide_True by done.
    eexists _, w1. split; [reflexivity|]. apply Hnext.
    - destruct Hinv as (mi & _ & _ & _ & _ & _ & _ & _ & _ & _ & _ & Hfl & _).
      cbn [fst] in Hfl. rewrite length_app, length_take, length_drop. lia.
    - destruct Hinv as (mi & _ & _ & _ & _ & _ & _ & _ & _ & _ & _ & _ & _ & Hv).
      cbn [fst] in Hv. apply validPrefix_remove.
      by replace (S (definedCount m - S i)) with (definedCount m - i)%nat by lia. }
  assert (Hlen : ∀ i fi ni w, removeInv h calls srch tak m i (fi, ni) w →
                   (length fi + i = Size tak * Size tak)%nat ∧ (i ≤ definedCount m)%nat
                   ∧ ni = Z.of_nat (definedCount m - i)).
  { intros i fi ni w (mi & _ & _ & _ & _ & _ & _ & _ & _ & _ & Hi & Hfl & Hn & _). done. }
  case_decide as Hk.
  - destruct (loopM_upto (removeStep intn) (Z.to_nat number)
                (λ i st w, removeInv h calls srch tak m i st w)
                (λ _ w, ∃ st, removeInv h calls srch tak m k st w)
                (fields, Z.of_nat (definedCount m)) (mkRworld h calls srch))
      as (r & w' & Hloop & Hpost).
    + done.
    + intros i [fi ni] w Hi Hinv. destruct (Hlen _ _ _ _ Hinv) as (Hfl & Hle & Hn).
      destruct (decide (i < definedCount m)%nat) as [Hlt|Hge].
      * destruct (Hstep i fi ni w Hinv Hlt ltac:(lia)) as (st' & w1 & Hrun & Hinv').
        by exists (inl st'), w1.
      * exists (inr tt), w. split.
        -- unfold removeStep.
           by replace (ni =? 0) with true by (symmetry; apply Z.eqb_eq; lia).
        -- exists (fi, ni). by replace k with i by lia.
    + rewrite (run_bind _ _ _ _ _ Hloop).
      assert (Hfin : ∃ st, removeInv h calls srch tak m k st w').
      { destruct r as [[fi ni]|[]]; [|done]. exists (fi, ni).
        destruct (Hlen _ _ _ _ Hpost) as (_ & Hle & _).
        by replace k with (Z.to_nat number) by lia. }
      destruct Hfin as (st & mi & Hheap & Hdraws & Hsrch & Hsq & Herased & _ & Hle & Hge & Hlt & _).
      exists mi. destruct w' as [hw dw sw]. cbn [rHeap draws searches] in *. subst hw dw sw. done.
  - pose proof (Nat.div_mod_eq (Size tak * Size tak + 1) 2) as Hdiv.
    pose proof (Nat.mod_upper_bound (Size tak * Size tak + 1) 2 ltac:(lia)) as Hmod.
    set (j := ((Size tak * Size tak + 1) `div` 2)%nat) in *.
    assert (Hloop : loopM (removeStep intn) (upto (Z.to_nat number))
                      (fields, Z.of_nat (definedCount m)) (mkRworld h calls srch) = Panic).
    { unfold upto.
      apply (loopM_seq_panic (removeStep intn)
               (λ i st w, removeInv h calls srch tak m i st w) j 0%nat).
      - lia.
      - done.
      - intros i [fi ni] w Hi Hinv. destruct (Hlen _ _ _ _ Hinv) as (Hfl & Hle & Hn).
        apply Hstep; [done | lia | lia].
      - intros [fi ni] w Hinv. destruct (Hlen _ _ _ _ Hinv) as (Hfl & Hle & Hn).
        destruct (removeStep_run intn Hintn h calls srch tak m Hwf _ fi ni w Hinv ltac:(lia))
          as (w1 & Hrun & _).
        rewrite Hrun. unfold removeIndex. rewrite decide_False by lia. done. }
    unfold mbind, M_bind. by rewrite Hloop.
Qed.

Lemma removeRandomCell_spec_witness :
  let tak := mkTakuzu 4 0 in
  ((∀ j n, 0 < n → 0 ≤ alwaysZero j n < n) ∧ wfBoard [sampleBoard] tak sampleBoard)
  ∧ let k := Nat.min (Z.to_nat 3) (definedCount sampleBoard) in
    if decide (2 * k ≤ Size tak * Size tak + 1)%nat then
      ∃ m', removeRandomCell alwaysZero tak 3 (mkRworld [sampleBoard] 0 0)
            = Done (tt, mkRworld (<[Board tak := m']> [sampleBoard]) (0 + k) 0)
        ∧ squareM (Size tak) m' ∧ erasedFrom sampleBoard m'
        ∧ (definedCount m' ≤ definedCount sampleBoard)%nat
        ∧ (definedCount sampleBoard ≤ definedCount m' + k)%nat
        ∧ (0 < k → definedCount m' < definedCount sampleBoard)%nat
    else removeRandomCell alwaysZero tak 3 (mkRworld [sampleBoard] 0 0) = Panic.
Proof.
  intros tak.
  assert (Hintn : ∀ j n, 0 < n → 0 ≤ alwaysZero j n < n) by (unfold alwaysZero; lia).
  assert (Hwf : wfBoard [sampleBoard] tak sampleBoard) by (by apply wfBoard_check).
  split; [exact (conj Hintn Hwf)|].
  exact (removeRandomCell_spec alwaysZero [sampleBoard] 0 0 tak sampleBoard 3 Hintn Hwf).
Defined.

(** With a random source that always answers 0, asking for three of the
    four defined cells of the sample board removes two: the second and the
    third draw pick the same cell.  On a fully defined 2 x 2 board, asking
    for three cells panics. *)
Example removeRandomCell_ex :
  (∃ h', removeRandomCell alwaysZero (mkTakuzu 4 0) 3 (mkRworld [sampleBoard] 0 0)
         = Done (tt, mkRworld h' 3 0)
     ∧ ToString (mkTakuzu 4 0) h' = Done ("...........1.1..", h'))
  ∧ removeRandomCell alwaysZero (mkTakuzu 2 0) 3 (mkRworld [fullBoard2] 0 0) = Panic.
Proof. split; [eexists; split|]; vm_compute; reflexivity. Qed.

(** ** More about the search: sizes, timeouts, uniqueness *)

Lemma Clone_size b h c h' : Clone b h = Done (c, h') → Size c = Size b.
Proof.
  unfold Clone. intros (c0 & h1 & Hnew & Hrest)%bind_Done_inv.
  injection Hnew as <- <-.
  by apply bind_Done_inv in Hrest as ([] & h2 & _ & [= <- <-]).
Qed.

(** *** The recorded boards have the size of the board searched *)

Lemma sized_liftH {A} n (m : H A) : hoare (mapSized n) (liftH m) (λ _, mapSized n).
Proof. intros w a w' Hk (h' & _ & ->)%liftH_Done. done. Qed.

Lemma sized_ask n f : hoare (mapSized n) (ask f) (λ _, mapSized n).
Proof. intros w a w' Hk [= _ <-]. done. Qed.

Lemma sized_ret {A} n (a : A) : hoare (mapSized n) (mret a : W A) (λ _, mapSized n).
Proof. apply (hoare_ret (λ _, mapSized n)). Qed.

Lemma sized_recordSolution n gs t :
  Size t = n → hoare (mapSized n) (recordSolution gs t) (λ _, mapSized n).
Proof.
  intros Hn. unfold recordSolution. destruct gs.
  - eapply hoare_bind; [apply sized_liftH|]. intros key w [] w' Hk [= <-].
    intros key' s. simpl. destruct (decide (key = key')) as [->|Hne].
    + rewrite lookup_insert_eq. by intros [= <-].
    + rewrite lookup_insert_ne by done. apply Hk.
  - intros w [] w' Hk [= <-]. done.
Qed.

Lemma sized_finishNode n gs t :
  Size t = n → hoare (mapSized n) (finishNode gs t) (λ _, mapSized n).
Proof.
  intros Hn. unfold finishNode. eapply hoare_bind; [apply sized_liftH|]. intros [fl [e|]].
  - apply sized_ret.
  - eapply hoare_bind with (Q := λ _, mapSized n).
    + destruct fl; [by apply sized_recordSolution | apply sized_ret].
    + intros []. apply sized_ret.
Qed.

Section Sized.
Variable globalSearch : bool.
Variable timeout : Z.
Variable expired zeroFirst : nat → bool.
Variable n : nat.
Variable child : Takuzu → W (option solveError).
Hypothesis Hchild : ∀ tx, Size tx = n → hoare (mapSized n) (child tx) (λ _, mapSized n).

Lemma sized_collectResult level t l c val err st :
  hoare (mapSized n) (collectResult globalSearch timeout expired level t l c val err st)
    (λ _, mapSized n).
Proof.
  unfold collectResult. destruct err as [e|].
  - eapply hoare_bind with (Q := λ _, mapSized n).
    + destruct ((timeout >? 0) && (2 <? Z.of_nat level)); [apply sized_ask | apply sized_ret].
    + intros late.
      destruct ((late : bool) && negb (String.eqb (causeText e) "timeout")); [apply sized_ret|].
      destruct (String.eqb (causeText e) "timeout"); [apply sized_ret|].
      eapply hoare_bind; [apply sized_liftH|]. intros []. apply sized_ret.
  - destruct (negb globalSearch); apply sized_ret.
Qed.

Lemma sized_launch t l c v :
  Size t = n → hoare (mapSized n) (launch child t l c v) (λ _, mapSized n).
Proof.
  intros Hn. unfold launch.
  eapply hoare_bind with (Q := λ tx w, Size tx = n ∧ mapSized n w).
  - intros w tx w' Hk (h' & Hclone & ->)%liftH_Done. split; [|done].
    by rewrite (Clone_size _ _ _ _ Hclone).
  - intros tx. eapply hoare_bind with (Q := λ _ w, Size tx = n ∧ mapSized n w).
    + intros w [] w' [Hsz Hk] (h' & _ & ->)%liftH_Done. done.
    + intros []. eapply hoare_bind with (Q := λ _, mapSized n).
      * intros w err w' [Hsz Hk]. by apply Hchild.
      * intros err. apply sized_ret.
Qed.

Lemma sized_tryValue schrodinger level t l c testval st :
  Size t = n →
  hoare (mapSized n)
    (tryValue globalSearch timeout expired zeroFirst child schrodinger level t l c testval st)
    (λ _, mapSized n).
Proof.
  intros Hn. unfold tryValue. eapply hoare_bind; [apply sized_liftH|]. intros y.
  destruct (negb globalSearch && Defined y); [apply sized_ret|].
  eapply hoare_bind with (Q := λ _, mapSized n).
  - destruct schrodinger.
    + eapply hoare_bind; [by apply sized_launch|]. intros a0.
      eapply hoare_bind; [by apply sized_launch|]. intros a1.
      eapply hoare_bind; [apply sized_ask|]. intros first. apply sized_ret.
    + eapply hoare_bind; [by apply sized_launch|]. intros a. apply sized_ret.
  - intros answers. eapply hoare_bind with (Q := λ _, mapSized n).
    + apply hoare_loopM. intros [val err] st'. apply sized_collectResult.
    + intros [st'|res]; [|apply sized_ret].
      destruct ((changed st' && negb globalSearch) || schrodinger); apply sized_ret.
Qed.

Lemma sized_tryValues schrodinger level t l c :
  Size t = n →
  hoare (mapSized n)
    (tryValues globalSearch timeout expired zeroFirst child schrodinger level t l c)
    (λ _, mapSized n).
Proof.
  intros Hn. unfold tryValues.
  eapply hoare_bind; [by apply sized_tryValue|].
  intros [st|st|res]; try apply sized_ret.
  eapply hoare_bind; [by apply sized_tryValue|].
  intros [st'|st'|res]; apply sized_ret.
Qed.

Lemma sized_solveNode schrodLvl again fuel level t :
  Size t = n → hoare (mapSized n) again (λ _, mapSized n) →
  hoare (mapSized n)
    (solveNode schrodLvl globalSearch timeout expired zeroFirst again child fuel level t)
    (λ _, mapSized n).
Proof.
  intros Hn Hagain. unfold solveNode.
  eapply hoare_bind; [apply sized_liftH|]. intros [fl [e|]]; [apply sized_ret|].
  destruct fl.
  { eapply hoare_bind; [by apply sized_recordSolution|]. intros []. apply sized_ret. }
  eapply hoare_bind; [apply sized_liftH|]. intros [line col].
  case_decide; [by apply sized_finishNode|].
  eapply hoare_bind; [by apply sized_tryValues|]. intros [st|res]; [|apply sized_ret].
  destruct (errCount st =? 2); [apply sized_ret|].
  destruct (_ || _ || _); [by apply sized_finishNode | done].
Qed.

End Sized.

Lemma sized_recurseSolve schrodLvl globalSearch timeout expired zeroFirst n fuel :
  ∀ level t, Size t = n →
    hoare (mapSized n)
      (recurseSolve schrodLvl globalSearch timeout expired zeroFirst fuel level t)
      (λ _, mapSized n).
Proof.
  induction fuel as [|fuel IH]; intros level t Hn; [by intros w a w' _|].
  simpl. apply sized_solveNode; [intros tx Htx; by apply IH | done | by apply IH].
Qed.

(** *** Without a timeout given, no timeout is reported *)

Lemma loopM_result {S A B R} (P : A → Prop) (Q : R → Prop)
    (body : A → B → M S (B + R)) (xs : list A) :
  Forall P xs →
  (∀ x acc s r s', P x → body x acc s = Done (inr r, s') → Q r) →
  ∀ acc s r s', loopM body xs acc s = Done (inr r, s') → Q r.
Proof.
  intros HP Hbody. induction HP as [|x xs Hx HP IH]; intros acc s r s'; simpl; [done|].
  intros (r1 & s1 & Hb & Hrest)%bind_Done_inv. destruct r1 as [acc1|r1].
  - by eapply IH.
  - injection Hrest as <- <-. by eapply Hbody.
Qed.

Section Quiet.
Variable schrodLvl : nat.
Variable globalSearch : bool.
Variable timeout : Z.
Variable expired zeroFirst : nat → bool.
Hypothesis Hoff : timeout ≤ 0.

Lemma collectResult_quiet level t l c val err st w r w' :
  noTimeout err →
  collectResult globalSearch timeout expired level t l c val err st w = Done (inr r, w') →
  noTimeout r.
Proof.
  intros Hno. unfold collectResult. destruct err as [e|].
  - replace (timeout >? 0) with false by (symmetry; rewrite Z.gtb_ltb; apply Z.ltb_ge; lia).
    simpl. pose proof (Hno e eq_refl) as Hne.
    apply String.eqb_neq in Hne.
    intros (late & w1 & [= <- <-] & Hrun)%bind_Done_inv.
    simpl in Hrun. rewrite Hne in Hrun.
    by apply bind_Done_inv in Hrun as ([] & w2 & _ & [=]).
  - destruct (negb globalSearch); [|done]. intros [= <- <-]. by intros e.
Qed.

Lemma launch_quiet child t l c v w v' err w' :
  (∀ tx w1 r w2, child tx w1 = Done (r, w2) → noTimeout r) →
  launch child t l c v w = Done ((v', err), w') → noTimeout err.
Proof.
  intros Hchild. unfold launch.
  intros (tx & w1 & _ & Hrun)%bind_Done_inv.
  apply bind_Done_inv in Hrun as ([] & w2 & _ & Hrun).
  apply bind_Done_inv in Hrun as (err' & w3 & Hc & [= <- <- <-]). by eapply Hchild.
Qed.

Lemma tryValue_quiet child schrodinger level t l c testval st w r w' :
  (∀ tx w1 r w2, child tx w1 = Done (r, w2) → noTimeout r) →
  tryValue globalSearch timeout expired zeroFirst child schrodinger level t l c testval st w
  = Done (Return r, w') → noTimeout r.
Proof.
  intros Hchild. unfold tryValue.
  intros (y & w1 & _ & Hrun)%bind_Done_inv.
  destruct (negb globalSearch && Defined y); [done|].
  apply bind_Done_inv in Hrun as (answers & w2 & Hans & Hrun).
  apply bind_Done_inv in Hrun as (rl & w3 & Hloop & Hret).
  assert (Hall : Forall (λ a : Z * option solveError, noTimeout a.2) answers).
  { destruct schrodinger.
    - apply bind_Done_inv in Hans as ([v0 e0] & wa & Hl0 & Hans).
      apply bind_Done_inv in Hans as ([v1 e1] & wb & Hl1 & Hans).
      apply bind_Done_inv in Hans as (first & wc & _ & [= <- <-]).
      pose proof (launch_quiet _ _ _ _ _ _ _ _ _ Hchild Hl0) as H0.
      pose proof (launch_quiet _ _ _ _ _ _ _ _ _ Hchild Hl1) as H1.
      destruct first; repeat first [apply Forall_nil_2 | apply Forall_cons_2]; done.
    - apply bind_Done_inv in Hans as ([v0 e0] & wa & Hl0 & [= <- <-]).
      pose proof (launch_quiet _ _ _ _ _ _ _ _ _ Hchild Hl0) as H0.
      apply Forall_cons_2; [done | apply Forall_nil_2]. }
  destruct rl as [st'|res].
  - by destruct ((changed st' && negb globalSearch) || schrodinger).
  - injection Hret as <- <-.
    eapply (loopM_result _ noTimeout _ _ Hall); [|exact Hloop].
    intros [val err] acc s r1 s1 Hno Hc. by eapply collectResult_quiet.
Qed.

Lemma tryValues_quiet child schrodinger level t l c w r w' :
  (∀ tx w1 r w2, child tx w1 = Done (r, w2) → noTimeout r) →
  tryValues globalSearch timeout expired zeroFirst child schrodinger level t l c w
  = Done (inr r, w') → noTimeout r.
Proof.
  intros Hchild. unfold tryValues.
  intros (r0 & w1 & Hv0 & Hrun)%bind_Done_inv.
  destruct r0 as [st|st|res]; [|done|].
  - apply bind_Done_inv in Hrun as (r1 & w2 & Hv1 & Hrun).
    destruct r1 as [st'|st'|res]; [done | done |].
    injection Hrun as <- <-. by eapply tryValue_quiet.
  - injection Hrun as <- <-. by eapply tryValue_quiet.
Qed.

Lemma wrong_noTimeout e : noTimeout (Some (ErrWrong e)).
Proof. intros e' [= <-]. apply validationError_not_timeout. Qed.

Lemma finishNode_quiet t w r w' : finishNode globalSearch t w = Done (r, w') → noTimeout r.
Proof.
  unfold finishNode. intros ([fl e] & w1 & _ & Hrest)%bind_Done_inv.
  destruct e as [e|].
  - injection Hrest as <- <-. apply wrong_noTimeout.
  - apply bind_Done_inv in Hrest as ([] & w2 & _ & [= <- <-]). by intros e.
Qed.

Lemma TrySolveTrivial_noTimeout fuel b h fl err h' :
  TrySolveTrivial fuel b h = Done ((fl, err), h') → noTimeout err.
Proof.
  unfold TrySolveTrivial. intros ([] & h1 & _ & Hrest)%bind_Done_inv.
  apply bind_Done_inv in Hrest as ([fl' e] & h2 & _ & Hrest).
  destruct e as [e|]; injection Hrest as <- <- <-; [apply wrong_noTimeout | by intros e].
Qed.

Lemma solveNode_quiet again child fuel level t w r w' :
  (∀ tx w1 r w2, child tx w1 = Done (r, w2) → noTimeout r) →
  (∀ w1 r w2, again w1 = Done (r, w2) → noTimeout r) →
  solveNode schrodLvl globalSearch timeout expired zeroFirst again child fuel level t w
  = Done (r, w') → noTimeout r.
Proof.
  intros Hchild Hagain. unfold solveNode.
  intros ([fl e] & w1 & Htriv & Hrun)%bind_Done_inv.
  apply liftH_Done in Htriv as (h1 & Htriv & ->).
  pose proof (TrySolveTrivial_noTimeout _ _ _ _ _ _ Htriv) as Hno.
  destruct e as [e|]; [by injection Hrun as <- <-|].
  destruct fl.
  { apply bind_Done_inv in Hrun as ([] & w2 & _ & [= <- <-]). by intros e. }
  apply bind_Done_inv in Hrun as ([line col] & w2 & _ & Hrun).
  case_decide; [by eapply finishNode_quiet|].
  apply bind_Done_inv in Hrun as (rt & w3 & Htry & Hrun).
  destruct rt as [st|res].
  - destruct (errCount st =? 2).
    { injection Hrun as <- <-. by intros e [= <-]. }
    destruct (_ || _ || _); [by eapply finishNode_quiet | by eapply Hagain].
  - injection Hrun as <- <-. by eapply tryValues_quiet.
Qed.

Lemma recurseSolve_quiet fuel : ∀ level t w r w',
  recurseSolve schrodLvl globalSearch timeout expired zeroFirst fuel level t w = Done (r, w') →
  noTimeout r.
Proof.
  induction fuel as [|fuel IH]; intros level t w r w' Hrun; [done|].
  simpl in Hrun. eapply solveNode_quiet; [| |exact Hrun].
  - intros tx w1 r1 w2. apply IH.
  - intros w1 r1 w2. apply IH.
Qed.

End Quiet.

(** *** What one search in enumerate-all mode establishes *)

Lemma map_to_list_single {A} (sm : gmap string A) k a :
  map_to_list sm = [(k, a)] → ∀ k', is_Some (sm !! k') → k' = k.
Proof.
  intros Hl k' [a' Ha']. apply elem_of_map_to_list in Ha'. rewrite Hl in Ha'.
  apply list_elem_of_singleton in Ha'. congruence.
Qed.

Lemma search_facts schrodLvl timeout expired zeroFirst fuel h c mc sol err allSol h' :
  wfBoard h c mc → matrixOk mc →
  TrySolveRecurse schrodLvl true timeout expired zeroFirst fuel c [] h
  = Done ((sol, err, allSol), h') →
  frame (Board c) h h'
  ∧ (∀ s, s ∈ allSol →
       Size s = Size c ∧ ∃ ms, wfBoard h' s ms ∧ matrixOk ms ∧ solutionOf mc ms)
  ∧ (noTimeout err → allSol = [] → ∀ S, ¬ solutionOf mc S)
  ∧ (noTimeout err → length allSol = 1%nat → uniqueSol mc)
  ∧ (timeout ≤ 0 → noTimeout err).
Proof.
  intros Hwf Hok Hrun. unfold TrySolveRecurse in Hrun.
  destruct (recurseSolve _ _ _ _ _ _ _ _ _) as [[err0 w]| |] eqn:Hrec; [|done..].
  pose proof Hwf as [Hm Hsq]. pose proof Hsq as [Hlen _].
  assert (Hpre : solvePre mc c (mkWorld h ∅ None 0)).
  { exists mc. split_and!; simpl; [done | done | apply extendsM_refl | |];
      intros key s Hs; by rewrite lookup_empty in Hs. }
  destruct (recurseSolve_spec _ _ _ _ _ _ _ _ _ _ _ _ Hpre Hrec) as (Hframe & Hgood & _).
  assert (Hsized : mapSized (Size c) w).
  { eapply (sized_recurseSolve schrodLvl true timeout expired zeroFirst (Size c) fuel 0%nat c
              eq_refl); [|exact Hrec].
    intros key s Hs. simpl in Hs. by rewrite lookup_empty in Hs. }
  assert (Hres : err = err0 ∧ allSol = (map_to_list (solutionMap w)).*2 ∧ h' = wHeap w).
  { destruct err0; injection Hrun as <- <- <- <-; done. }
  destruct Hres as (-> & -> & ->). simpl in Hframe.
  assert (Hsol : ∀ key s, solutionMap w !! key = Some s →
            Size s = Size c ∧ ∃ ms, wfBoard (wHeap w) s ms ∧ matrixOk ms ∧ solutionOf mc ms
                                    ∧ encodeM ms = key).
  { intros key s Hs. pose proof (Hsized key s Hs) as Hsz. split; [done|].
    destruct (Hgood key s Hs) as (ms & Hwfs & Hoks & Hval & Henc & Hext).
    assert (Hsolms : solutionOf mc ms).
    { split_and!; [|done|done]. destruct Hwfs as [_ Hsqs]. by rewrite Hlen, <- Hsz. }
    by exists ms. }
  assert (Hrecorded : noTimeout err0 → ∀ S, solutionOf mc S → recorded (encodeM S) w).
  { intros Hno S HS.
    destruct (solution_facts _ _ _ Hsq HS) as (HsqS & HokS & HfullS & HrulesS & HextS).
    exact (recurseSolve_complete schrodLvl timeout expired zeroFirst mc (Size c) S fuel
             HsqS HokS HfullS HrulesS 0%nat c _ err0 w mc Hpre Hwf HsqS HextS Hrec Hno). }
  split_and!.
  - done.
  - intros s ([key s'] & -> & Hin%elem_of_map_to_list)%list_elem_of_fmap. simpl.
    destruct (Hsol key s' Hin) as (Hsz & ms & ? & ? & ? & _). eauto.
  - intros Hno Hnil S HS. destruct (Hrecorded Hno S HS) as [s Hs].
    apply elem_of_map_to_list in Hs. apply (f_equal length) in Hnil.
    rewrite length_fmap in Hnil. destruct (map_to_list (solutionMap w)); [|done].
    by apply elem_of_nil in Hs.
  - intros Hno Hone. rewrite length_fmap in Hone.
    destruct (map_to_list (solutionMap w)) as [|[k s] [|]] eqn:Hlist; try done.
    assert (Hk : solutionMap w !! k = Some s).
    { apply elem_of_map_to_list. rewrite Hlist. apply list_elem_of_here. }
    destruct (Hsol k s Hk) as (Hsz & ms & Hwfs & Hoks & Hsols & Henc).
    exists ms. split; [done|]. intros S' HS'.
    pose proof (map_to_list_single _ _ _ Hlist _ (Hrecorded Hno S' HS')) as Hkey.
    destruct (solution_facts _ _ _ Hsq HS') as (HsqS & HokS & HfullS & _).
    destruct (solution_facts _ _ _ Hsq Hsols) as (Hsqm & _ & Hfullm & _).
    apply (encodeM_inj (Size c) (Size c)); try done. congruence.
  - intros Hoff. by eapply recurseSolve_quiet.
Qed.

(** ** Reducing a board *)

Lemma forM_seq_partial {S B} (body : nat → B → M S B) (I : nat → B → S → Prop) :
  ∀ len start acc s acc' s',
    I start acc s →
    (∀ k acc s acc' s', (start ≤ k < start + len)%nat → I k acc s →
       body k acc s = Done (acc', s') → I (Datatypes.S k) acc' s') →
    forM body (seq start len) acc s = Done (acc', s') → I (start + len)%nat acc' s'.
Proof.
  induction len as [|len IH]; intros start acc s acc' s' HI Hstep; simpl.
  - intros [= <- <-]. by rewrite Nat.add_0_r.
  - intros (acc1 & s1 & Hb & Hrest)%bind_Done_inv.
    replace (start + Datatypes.S len)%nat with (Datatypes.S start + len)%nat by lia.
    apply (IH (Datatypes.S start) acc1 s1); [|  |done].
    + apply (Hstep start acc s); [lia | done | done].
    + intros k acc2 s2 acc3 s3 Hk. apply Hstep. lia.
Qed.

Lemma liftR_Done {A} (m : H A) w a w' :
  liftR m w = Done (a, w') →
  ∃ h', m (rHeap w) = Done (a, h') ∧ w' = mkRworld h' (draws w) (searches w).
Proof.
  unfold liftR. destruct (m (rHeap w)) as [[a1 h1]| |]; [|done..].
  intros [= <- <-]. eauto.
Qed.

Lemma setDefinedPtr_run hp a l c d mcur x :
  hp !! a = Some mcur → cellAt mcur l c = Some x →
  setDefinedPtr (Some (a, l, c)) d hp
  = Done (tt, <[a := setCellM mcur l c (mkCell d (Value x))]> hp).
Proof.
  intros Hm Hx. exact (storeDefined_run hp (mkTakuzu 0 a) mcur l c x d Hm Hx).
Qed.

(** *** Boards with cells erased *)

Lemma erasedFrom_refl m : erasedFrom m m.
Proof. intros l c. by left. Qed.

Lemma erasedFrom_extends B0 m : erasedFrom B0 m → extendsM m B0.
Proof.
  intros Her l c x Hx Hd. destruct (Her l c) as [Heq | (x' & Hx' & _ & Hm)].
  - by rewrite <- Heq.
  - rewrite Hx in Hm. injection Hm as ->. done.
Qed.

Lemma erasedFrom_ok B0 m : matrixOk B0 → erasedFrom B0 m → matrixOk m.
Proof.
  intros Hok Her. apply matrixOk_pointwise. intros l c x Hx.
  destruct (Her l c) as [Heq | (x' & Hx' & _ & Hm)].
  - rewrite Hx in Heq. symmetry in Heq. by apply (matrixOk_cellAt _ _ _ _ Hok Heq).
  - rewrite Hx in Hm. injection Hm as ->. by intros Hd.
Qed.

Lemma erasedFrom_erase B0 m l c x :
  erasedFrom B0 m → cellAt m l c = Some x → Defined x = true →
  erasedFrom B0 (setCellM m l c (mkCell false (Value x))).
Proof.
  intros Her Hx Hd l' c'. destruct (decide ((l, c) = (l', c'))) as [[= <- <-]|Hne].
  - right. exists x. rewrite cellAt_setCellM_eq by eauto. split_and!; [|done|done].
    destruct (Her l c) as [Heq | (x' & Hx' & _ & Hm)].
    + by rewrite <- Heq.
    + rewrite Hx in Hm. injection Hm as ->. done.
  - rewrite cellAt_setCellM_ne by done. apply Her.
Qed.

Lemma erasedFrom_solution n B0 m S :
  squareM n B0 → squareM n m → erasedFrom B0 m → solutionOf B0 S → solutionOf m S.
Proof.
  intros [HlenB _] [Hlenm _] Her (HsqS & Hval & Hext). split_and!.
  - by rewrite Hlenm, <- HlenB.
  - done.
  - eapply extendsM_trans; [by apply erasedFrom_extends | done].
Qed.

(** A board that [Validate] accepts as fully defined is its one and only
    solution. *)
Lemma uniqueSol_full n ms :
  squareM n ms → validateM ms = Some (true, None) → uniqueSol ms.
Proof.
  intros Hsq Hval. pose proof Hsq as [Hlen _]. exists ms. split.
  - split_and!; [by rewrite Hlen | done | apply extendsM_refl].
  - intros S' (HsqS & _ & Hext). rewrite Hlen in HsqS. symmetry.
    apply (extendsM_full_eq n); [done | done | by apply validateM_full | done].
Qed.

(** A board that the trivial method completes has exactly one solution. *)
Lemma trivial_unique n fuel me m' :
  squareM n me → matrixOk me → trivialM fuel me = Some m' →
  trivialResult m' = Some (true, None) → uniqueSol me.
Proof.
  intros Hsq Hok Htriv Hres. pose proof Hsq as [Hlen _].
  destruct (trivialM_spec _ _ _ _ Hsq Hok Htriv) as (Hsq' & Hok' & Hext & _).
  assert (Hval : validateM m' = Some (true, None)).
  { unfold trivialResult in Hres. destruct (validateM m') as [[fl [e|]]|]; by simplify_eq. }
  exists m'. split.
  - split_and!; [by rewrite Hlen | done | done].
  - intros S' HS'.
    destruct (solution_facts _ _ _ Hsq HS') as (HsqS & HokS & HfullS & HrulesS & HextS).
    pose proof (trivialM_keeps n S' HsqS HokS HfullS HrulesS fuel me m' Hsq Hok HextS Htriv)
      as Hext'.
    symmetry. apply (extendsM_full_eq n); [done | done | by apply validateM_full | done].
Qed.

(** *** The list of candidates *)

Lemma lookup_removed {A} (fields : list A) i k :
  (i < length fields)%nat →
  (take i fields ++ drop (i + 1) fields) !! k
  = fields !! (if decide (k < i)%nat then k else Datatypes.S k).
Proof.
  intros Hi. case_decide as Hk.
  - rewrite lookup_app_l by (rewrite length_take; lia). by rewrite lookup_take_lt.
  - rewrite lookup_app_r by (rewrite length_take; lia).
    rewrite length_take, Nat.min_l by lia. rewrite lookup_drop. f_equal. lia.
Qed.

Lemma distinctPrefix_remove fields cnt i :
  (i < length fields)%nat →
  distinctPrefix fields (Datatypes.S cnt) →
  distinctPrefix (take i fields ++ drop (i + 1) fields) cnt.
Proof.
  intros Hi Hdist j1 j2 p Hj1 Hj2. rewrite !lookup_removed by done.
  intros H1 H2.
  assert (Heq : (if decide (j1 < i)%nat then j1 else Datatypes.S j1)
                = (if decide (j2 < i)%nat then j2 else Datatypes.S j2)).
  { apply (Hdist _ _ p); try done; repeat case_decide; lia. }
  repeat case_decide; lia.
Qed.

Lemma NoDup_distinctPrefix (fields : list cellPtr) cnt :
  NoDup (take cnt fields) → distinctPrefix fields cnt.
Proof.
  intros Hnd j1 j2 p Hj1 Hj2 H1 H2.
  apply (proj1 (NoDup_alt _) Hnd j1 j2 p); by rewrite lookup_take_lt.
Qed.

Section ReduceProofs.
Variable intn : nat → Z → Z.
Hypothesis intn_range : ∀ j n, 0 < n → 0 ≤ intn j n < n.
Variable schrodLvl : nat.
Variable expired zeroFirst : nat → nat → bool.
Variable fuel : nat.

Lemma rand_Intn_Done n w k w' :
  rand_Intn intn n w = Done (k, w') →
  0 ≤ k < n ∧ w' = mkRworld (rHeap w) (Datatypes.S (draws w)) (searches w).
Proof.
  unfold rand_Intn. destruct (n <=? 0) eqn:Hn; [done|]. apply Z.leb_gt in Hn.
  intros [= <- <-]. split; [by apply intn_range | done].
Qed.

Lemma search_Done timeout c acc w r w' :
  search schrodLvl expired zeroFirst fuel timeout c acc w = Done (r, w') →
  ∃ h', TrySolveRecurse schrodLvl true timeout (expired (searches w)) (zeroFirst (searches w))
          fuel c acc (rHeap w) = Done (r, h')
        ∧ w' = mkRworld h' (draws w) (Datatypes.S (searches w)).
Proof.
  unfold search. destruct (TrySolveRecurse _ _ _ _ _ _ _ _ _) as [[r1 h1]| |]; [|done..].
  intros [= <- <-]. eauto.
Qed.

(** The test runs on a clone: the board is left as it is, and a board that
    passes has exactly one solution. *)
Lemma reduceTest_spec tak me trivial rbt w rollback w' :
  wfBoard (rHeap w) tak me → matrixOk me →
  reduceTest schrodLvl expired zeroFirst fuel tak trivial rbt w = Done (rollback, w') →
  rHeap w' !! Board tak = Some me ∧ (rollback = false → uniqueSol me).
Proof.
  intros Hwf Hok Hrun. pose proof Hwf as [Hm Hsq].
  assert (Hlt : (Board tak < length (rHeap w))%nat) by (by eapply lookup_lt_Some).
  unfold reduceTest in Hrun.
  set (c := mkTakuzu (Size tak) (length (rHeap w))).
  assert (Hwfc : wfBoard (rHeap w ++ [me]) c me) by (by apply wfBoard_snoc).
  destruct trivial.
  - apply bind_Done_inv in Hrun as (c' & w1 & Hclone & Hrun).
    apply liftR_Done in Hclone as (h1 & Hclone & ->).
    rewrite (Clone_run _ _ _ Hwf) in Hclone. injection Hclone as <- <-.
    apply bind_Done_inv in Hrun as ([full err] & w2 & Htriv & [= <- <-]).
    apply liftR_Done in Htriv as (h2 & Htriv & ->). cbn [rHeap] in Htriv.
    fold c in Htriv.
    pose proof (TrySolveTrivial_run (rHeap w ++ [me]) c me [] fuel) as Hrun1.
    rewrite <- (boardHeap_init _ _ _ (proj1 Hwfc)) in Hrun1.
    specialize (Hrun1 ltac:(simpl; rewrite length_app; simpl; lia) Hsq Hok).
    destruct (trivialM fuel me) as [m'|] eqn:Hm'; [|congruence].
    destruct Hrun1 as (r & junk & Hrun1 & Hres). rewrite Hrun1 in Htriv.
    injection Htriv as -> <-. cbn [rHeap]. split.
    + unfold boardHeap. simpl.
      rewrite lookup_app_l by (rewrite length_insert, length_app; simpl; lia).
      rewrite list_lookup_insert_ne by lia. by rewrite lookup_app_l.
    + intros Hroll. apply orb_false_iff in Hroll as [Herr Hfull].
      destruct err; [done|]. apply negb_false_iff in Hfull. subst full.
      by eapply (trivial_unique (Size tak)).
  - apply bind_Done_inv in Hrun as (c' & w1 & Hclone & Hrun).
    apply liftR_Done in Hclone as (h1 & Hclone & ->).
    rewrite (Clone_run _ _ _ Hwf) in Hclone. injection Hclone as <- <-.
    apply bind_Done_inv in Hrun as ([[sol err] allSol] & w2 & Hsearch & [= <- <-]).
    apply search_Done in Hsearch as (h2 & Hsearch & ->). cbn [rHeap searches] in Hsearch.
    fold c in Hsearch.
    destruct (search_facts _ _ _ _ _ _ _ _ _ _ _ _ Hwfc Hok Hsearch)
      as ([Hlen Hframe] & _ & _ & Huniq & _).
    cbn [rHeap]. split.
    + rewrite Hframe by (simpl; rewrite ?length_app; simpl; lia). by rewrite lookup_app_l.
    + intros Hroll. apply orb_false_iff in Hroll as [Herr Hone].
      destruct err; [done|]. apply negb_false_iff, Z.eqb_eq in Hone.
      apply Huniq; [by intros e | lia].
Qed.

Section Step.
Variable tak : Takuzu.
Variable B0 : matrix.
Variable n0 : nat.
Hypothesis HokB : matrixOk B0.

(** One pass of the reduction loop. *)
Lemma reduceStep_spec trivial rbt j fields w fields' w' :
  (j < n0)%nat →
  reduceInv (Board tak) (Size tak) B0 n0 j fields w →
  reduceStep intn schrodLvl expired zeroFirst fuel tak trivial rbt
    (Z.of_nat n0 - Z.of_nat j) fields w = Done (fields', w') →
  reduceInv (Board tak) (Size tak) B0 n0 (Datatypes.S j) fields' w'.
Proof.
  intros Hj (mj & Hheap & Hsq & Her & Huniq & Hflen & Hlive & Hdist) Hrun.
  assert (Ha : (Board tak < length (rHeap w))%nat) by (by eapply lookup_lt_Some).
  unfold reduceStep in Hrun.
  apply bind_Done_inv in Hrun as (i & w1 & Hrand & Hrun).
  apply rand_Intn_Done in Hrand as [Hi ->].
  assert (Hicnt : (Z.to_nat i < n0 - j)%nat) by lia.
  destruct (Hlive _ Hicnt) as (l & c & x & Hf & Hx & Hd).
  assert (Hidx : ∀ w0 : rworld, indexZ fields i w0 = Done (Some (Board tak, l, c), w0)).
  { intros w0. unfold indexZ.
    replace (0 <=? i) with true by (symmetry; apply Z.leb_le; lia).
    by apply orPanic_Some. }
  rewrite (run_bind _ _ _ _ _ (Hidx _)) in Hrun.
  apply bind_Done_inv in Hrun as ([] & w2 & Herase & Hrun).
  apply liftR_Done in Herase as (h2 & Herase & ->). cbn [rHeap draws searches] in Herase.
  rewrite (setDefinedPtr_run _ _ _ _ _ _ _ Hheap Hx) in Herase. injection Herase as <-.
  set (me := setCellM mj l c (mkCell false (Value x))) in *.
  assert (Hsqe : squareM (Size tak) me) by (by apply squareM_setCellM).
  assert (Here : erasedFrom B0 me) by (by apply erasedFrom_erase).
  assert (Hoke : matrixOk me) by (by eapply erasedFrom_ok).
  apply bind_Done_inv in Hrun as (rollback & w3 & Htest & Hrun).
  pose proof (λ Hwf, reduceTest_spec tak me trivial rbt _ rollback w3 Hwf Hoke Htest) as Hspec.
  destruct Hspec as [Hheap3 Hpass]; [split; [by apply list_lookup_insert_eq | done]|].
  apply bind_Done_inv in Hrun as ([] & w4 & Hback & Hrun).
  assert (Hflt : (Z.to_nat i < length fields)%nat) by (by eapply lookup_lt_Some).
  unfold removeIndex in Hrun. rewrite decide_True in Hrun by lia.
  injection Hrun as <- <-.
  assert (Hlen' : (length (take (Z.to_nat i) fields ++ drop (Z.to_nat i + 1) fields)
                   + Datatypes.S j = Size tak * Size tak)%nat).
  { rewrite length_app, length_take, length_drop. lia. }
  assert (Hdist' : distinctPrefix (take (Z.to_nat i) fields ++ drop (Z.to_nat i + 1) fields)
                     (n0 - Datatypes.S j)).
  { apply distinctPrefix_remove; [done|].
    by replace (Datatypes.S (n0 - Datatypes.S j)) with (n0 - j)%nat by lia. }
  assert (Hlive' : ∀ m',
    (∀ l' c', (l', c') ≠ (l, c) → cellAt m' l' c' = cellAt mj l' c') →
    livePrefix (Board tak) m' (take (Z.to_nat i) fields ++ drop (Z.to_nat i + 1) fields)
      (n0 - Datatypes.S j)).
  { intros m' Hsame k Hk. rewrite lookup_removed by done.
    set (k' := if decide (k < Z.to_nat i)%nat then k else Datatypes.S k).
    assert (Hk' : (k' < n0 - j)%nat) by (unfold k'; case_decide; lia).
    assert (Hne : k' ≠ Z.to_nat i) by (unfold k'; case_decide; lia).
    destruct (Hlive k' Hk') as (l' & c' & x' & Hf' & Hx' & Hd').
    exists l', c', x'. split_and!; [done | | done].
    rewrite Hsame; [done|]. intros [= -> ->]. apply Hne.
    by apply (Hdist k' (Z.to_nat i) (Some (Board tak, l, c))). }
  destruct rollback.
  - rewrite (run_bind _ _ _ _ _ (Hidx _)) in Hback.
    apply liftR_Done in Hback as (h4 & Hback & ->).
    assert (Hxe : cellAt me l c = Some (mkCell false (Value x))).
    { unfold me. apply cellAt_setCellM_eq. eauto. }
    rewrite (setDefinedPtr_run _ _ _ _ _ _ _ Hheap3 Hxe) in Hback. injection Hback as <-.
    assert (Hmj : setCellM me l c (mkCell true (Value x)) = mj).
    { unfold me. rewrite setCellM_twice. apply setCellM_same.
      rewrite Hx. f_equal. rewrite (cell_eta x) at 1. by rewrite Hd. }
    cbn [Value]. rewrite Hmj. exists mj. cbn [rHeap]. split_and!; try done.
    + apply list_lookup_insert_eq. by eapply lookup_lt_Some.
    + by apply Hlive'.
  - injection Hback as <-. exists me. split_and!; try done.
    + right. by apply Hpass.
    + apply Hlive'. intros l' c' Hne. unfold me. by apply cellAt_setCellM_ne.
Qed.

End Step.
End ReduceProofs.

(** [ReduceBoard] on a stored board whose defined cells hold 0 or 1.  When
    it returns no board and no timeout was given for the first search, the
    board has no solution.  When it returns a board, the error is nil, the
    board has the size of the board given, it has a solution, which is also
    a solution of the board given, and that solution is its only one, unless
    a timeout was given for the first search and the board returned is the
    board given, left as it was.  This holds with and without [trivial], and
    whatever the random numbers, the clock and the scheduler. *)
Theorem ReduceBoard_spec
    (intn : nat → Z → Z) (schrodLvl : nat) (expired zeroFirst : nat → nat → bool)
    (fuel : nat) (h : heap) (d s : nat) (tak : Takuzu) (m : matrix) (trivial : bool)
    (buildBoardTimeout reduceBoardTimeout : Z)
    (res : option Takuzu) (err : option solveError) (w' : rworld) :
  (∀ j n, 0 < n → 0 ≤ intn j n < n) → wfBoard h tak m → matrixOk m →
  ReduceBoard intn schrodLvl expired zeroFirst fuel tak trivial
    buildBoardTimeout reduceBoardTimeout (mkRworld h d s) = Done ((res, err), w') →
  match res with
  | None => buildBoardTimeout ≤ 0 → ∀ S, ¬ solutionOf m S
  | Some p =>
    err = None ∧ Size p = Size tak
    ∧ ∃ mp S, wfBoard (rHeap w') p mp ∧ solutionOf m S ∧ solutionOf mp S
        ∧ ((∀ S', solutionOf mp S' → S' = S)
           ∨ (0 < buildBoardTimeout ∧ p = tak ∧ mp = m))
  end.
Proof.
  intros Hintn Hwf Hok Hrun. pose proof Hwf as [Hm Hsq].
  assert (Hlt : (Board tak < length h)%nat) by (by eapply lookup_lt_Some).
  unfold ReduceBoard in Hrun.
  apply bind_Done_inv in Hrun as (c' & w1 & Hclone & Hrun).
  apply liftR_Done in Hclone as (h1 & Hclone & ->). cbn [rHeap draws searches] in *.
  rewrite (Clone_run _ _ _ Hwf) in Hclone. injection Hclone as <- <-.
  set (c := mkTakuzu (Size tak) (length h)) in *.
  assert (Hwfc : wfBoard (h ++ [m]) c m) by (by apply wfBoard_snoc).
  apply bind_Done_inv in Hrun as ([[sol err1] allSol] & w2 & Hsearch & Hrun).
  apply search_Done in Hsearch as (h2 & Hsearch & ->). cbn [rHeap draws searches] in *.
  destruct (search_facts _ _ _ _ _ _ _ _ _ _ _ _ Hwfc Hok Hsearch)
    as ([Hlen Hframe] & Hsols & Hnone & Huniq & Hquiet).
  rewrite length_app in Hlen. simpl in Hlen.
  assert (Hwf2 : wfBoard h2 tak m).
  { split; [|done]. rewrite Hframe by (simpl; rewrite ?length_app; simpl; lia).
    by rewrite lookup_app_l. }
  assert (Hempty : (Z.of_nat (length allSol) =? 0) = true →
            buildBoardTimeout ≤ 0 → ∀ S, ¬ solutionOf m S).
  { intros Hns%Z.eqb_eq Hoff. apply Hnone; [by apply Hquiet|].
    destruct allSol; [done | simpl in Hns; lia]. }
  destruct (isTimeout err1 && (Z.of_nat (length allSol) =? 0)) eqn:Hfirst.
  { injection Hrun as <- <- <-. apply andb_true_iff in Hfirst as [_ Hns]. by apply Hempty. }
  destruct (Z.of_nat (length allSol) =? 0) eqn:Hns.
  { injection Hrun as <- <- <-. by apply Hempty. }
  apply Z.eqb_neq in Hns.
  apply bind_Done_inv in Hrun as (tak' & w3 & Hpick & Hrun).
  assert (Hchosen : ∃ B0 dr,
    w3 = mkRworld h2 dr (Datatypes.S s)
    ∧ wfBoard h2 tak' B0 ∧ matrixOk B0 ∧ Size tak' = Size tak
    ∧ (∃ S, solutionOf B0 S) ∧ (∀ S, solutionOf B0 S → solutionOf m S)
    ∧ (uniqueSol B0 ∨ (0 < buildBoardTimeout ∧ tak' = tak ∧ B0 = m))).
  { destruct (1 <? Z.of_nat (length allSol)) eqn:Hmany.
    - apply bind_Done_inv in Hpick as (k & w4 & Hrand & Hidx).
      apply (rand_Intn_Done intn Hintn) in Hrand as [Hk ->].
      unfold indexZ in Hidx.
      replace (0 <=? k) with true in Hidx by (symmetry; apply Z.leb_le; lia).
      destruct (allSol !! Z.to_nat k) as [s0|] eqn:Hs0; [|done]. injection Hidx as <- <-.
      destruct (Hsols s0 (list_elem_of_lookup_2 _ _ _ Hs0))
        as (Hsz & ms & Hwfs & Hoks & Hsolms).
      pose proof Hwfs as [_ Hsqs]. rewrite Hsz in Hsqs. simpl in Hsqs, Hsz.
      pose proof Hsolms as (_ & Hval & _).
      destruct (uniqueSol_full (Size tak) ms Hsqs Hval) as (S1 & HS1 & Huq).
      assert (Hself : solutionOf ms ms).
      { pose proof Hsqs as [Hl _]. split_and!; [by rewrite Hl | done | apply extendsM_refl]. }
      pose proof (Huq ms Hself) as <-.
      exists ms, (Datatypes.S d). cbn [rHeap draws searches]. split_and!; try done.
      + by exists ms.
      + intros S HS. by rewrite (Huq S HS).
      + left. by exists ms.
    - injection Hpick as <- <-. apply Z.ltb_ge in Hmany.
      destruct allSol as [|s0 [|]]; [done | | simpl in Hmany; lia].
      destruct (Hsols s0 (list_elem_of_here _ _)) as (Hsz & ms & Hwfs & Hoks & Hsolms).
      exists m, d. split_and!; try done.
      + by exists ms.
      + destruct (decide (buildBoardTimeout ≤ 0)) as [Hoff|Hon].
        * left. apply Huniq; [by apply Hquiet | done].
        * right. split_and!; [lia | done | done]. }
  destruct Hchosen as (B0 & dr & -> & Hwf' & HokB & Hsize & Hex & Hsub & Hbase).
  pose proof Hwf' as [Hm' Hsq'].
  apply bind_Done_inv in Hrun as ([fields n] & w4 & Hcol & Hrun).
  apply liftR_Done in Hcol as (h4 & Hcol & ->). cbn [rHeap draws searches] in *.
  rewrite <- Hsize in Hcol.
  destruct (collectDefined_run h2 tak' B0 Hwf') as (fields0 & Hrun0 & Hflen & Hvalid & Hnd).
  rewrite Hrun0 in Hcol. injection Hcol as <- <- <-.
  apply bind_Done_inv in Hrun as (fields' & w5 & Hloop & [= <- <- <-]).
  rewrite Nat2Z.id in Hloop. unfold upto in Hloop.
  set (n0 := definedCount B0) in *.
  pose proof (forM_seq_partial
    (λ j fields, reduceStep intn schrodLvl expired zeroFirst fuel tak' trivial
                   reduceBoardTimeout (Z.of_nat n0 - Z.of_nat j) fields)
    (λ j f w, reduceInv (Board tak') (Size tak') B0 n0 j f w)
    n0 0%nat fields0 (mkRworld h2 dr (Datatypes.S s)) fields' w5) as Hinv.
  destruct Hinv as (mp & Hheap & Hsqp & Her & Hu & _).
  - exists B0. cbn [rHeap]. rewrite Nat.sub_0_r, Nat.add_0_r.
    split_and!; [done | done | apply erasedFrom_refl | by left | done | |
                 by apply NoDup_distinctPrefix].
    intros j Hj. destruct (Hvalid j Hj) as (l & c0 & x & Hf & Hx & Hd). eauto.
  - intros k acc w acc' w'' Hk HI Hstep.
    exact (reduceStep_spec intn Hintn schrodLvl expired zeroFirst fuel tak' B0 n0 HokB
             trivial reduceBoardTimeout k acc w acc' w'' ltac:(lia) HI Hstep).
  - exact Hloop.
  - destruct Hex as [S0 HS0].
    pose proof (erasedFrom_solution _ _ _ _ Hsq' Hsqp Her HS0) as HS0p.
    split_and!; [done | done |]. exists mp, S0. split_and!; try done.
    + by apply Hsub.
    + destruct Hu as [-> | (S1 & HS1 & Huq)].
      * destruct Hbase as [(S2 & HS2 & Huq2) | Hsame]; [|by right].
        left. intros S' HS'. by rewrite (Huq2 S' HS'), (Huq2 S0 HS0).
      * left. intros S' HS'. by rewrite (Huq S' HS'), (Huq S0 HS0p).
Qed.

Lemma ReduceBoard_spec_witness :
  let tak := mkTakuzu 4 0 in
  let w0 := mkRworld [sampleBoard] 0 0 in
  let r := ReduceBoard alwaysZero 0 (λ _ _, false) (λ _ _, true) 20 tak false 0 0 w0 in
  let w' := match r with Done (_, w) => w | _ => mkRworld [] 0 0 end in
  let p := mkTakuzu 4 62 in
  ((∀ j n, 0 < n → 0 ≤ alwaysZero j n < n)
   ∧ wfBoard [sampleBoard] tak sampleBoard ∧ matrixOk sampleBoard
   ∧ ReduceBoard alwaysZero 0 (λ _ _, false) (λ _ _, true) 20 tak false 0 0 w0
     = Done ((Some p, None), w'))
  ∧ (@None solveError = None ∧ Size p = Size tak
     ∧ ∃ mp S, wfBoard (rHeap w') p mp ∧ solutionOf sampleBoard S ∧ solutionOf mp S
         ∧ ((∀ S', solutionOf mp S' → S' = S) ∨ (0 < 0 ∧ p = tak ∧ mp = sampleBoard))).
Proof.
  intros tak w0 r w' p.
  assert (Hintn : ∀ j n, 0 < n → 0 ≤ alwaysZero j n < n) by (unfold alwaysZero; lia).
  assert (Hwf : wfBoard [sampleBoard] tak sampleBoard) by (by apply wfBoard_check).
  assert (Hok : matrixOk sampleBoard) by (by apply matrixOkb_sound).
  assert (Hrun : ReduceBoard alwaysZero 0 (λ _ _, false) (λ _ _, true) 20 tak false 0 0 w0
                 = Done ((Some p, None), w')) by (vm_compute; reflexivity).
  split; [exact (conj Hintn (conj Hwf (conj Hok Hrun)))|].
  exact (ReduceBoard_spec alwaysZero 0 (λ _ _, false) (λ _ _, true) 20 [sampleBoard] 0 0
           tak sampleBoard false 0 0 (Some p) None w' Hintn Hwf Hok Hrun).
Defined.
